(** * BuzzDB: a shallow embedding of the storage, buffer and insert paths

    The development follows the C++ sources of the repository:
    - [src/buffer/two_q_policy.h]    (module [TwoQ])
    - [src/storage/field.h]          (module [Fields])
    - [src/storage/tuple.h]          (module [Tuples])
    - [src/storage/slotted_page.h]   (module [Page])
    - [src/storage/storage_manager.h](module [Storage])
    - [src/buffer/buffer_manager.h], [src/execution/insert_operator.h]
                                     (module [Insert])

    Machine integers are values of [Z] with their wrap-around written out,
    byte buffers are lists of [Z] in [0, 256), hash maps are stdpp [gmap]s. *)

From Stdlib Require Import ZArith List Lia Bool Ascii String SpecFloat DecimalZ.
From stdpp Require Import base decidable option list gmap.

Local Open Scope Z_scope.

(** ** Exceptions and outcomes of a call *)

(** The exceptions that the modelled code throws. *)
Inductive exn : Type :=
| buffer_full_error        (* two_q_policy.h: "Buffer is full: all pages are pinned" *)
| std_runtime_error        (* std::runtime_error *)
| std_out_of_range.        (* std::out_of_range *)

(** How a call ends: it returns a value, leaves by an exception, stops at a
    failed [assert], runs into behaviour that C++ leaves undefined (a null
    pointer dereferenced, an indeterminate value read), or never returns
    (the retry loop of [fix_page] with nobody to release the latch). *)
Inductive outcome (A : Type) : Type :=
| Returns (a : A)
| Throws (e : exn)
| AssertFailed
| Undefined
| Spins.
Arguments Returns {A} a.
Arguments Throws {A} e.
Arguments AssertFailed {A}.
Arguments Undefined {A}.
Arguments Spins {A}.

(** Stateful code: a computation over a state [St] that ends in an
    [outcome]; the state is only tracked along normal returns. *)
Definition M (St A : Type) : Type := St → outcome (A * St).

Definition ret {St A} (a : A) : M St A := fun s => Returns (a, s).

Definition bind {St A B} (c : M St A) (k : A → M St B) : M St B :=
  fun s =>
    match c s with
    | Returns (a, s') => k a s'
    | Throws e => Throws e
    | AssertFailed => AssertFailed
    | Undefined => Undefined
    | Spins => Spins
    end.

Definition throw {St A} (e : exn) : M St A := fun _ => Throws e.
Definition get {St} : M St St := fun s => Returns (s, s).
Definition put {St} (s : St) : M St unit := fun _ => Returns (tt, s).
Definition modify {St} (f : St → St) : M St unit := fun s => Returns (tt, f s).

Notation "'let*' x ':=' c 'in' k" := (bind c (fun x => k))
  (at level 10, x pattern, c at level 100, k at level 200).
Notation "c ';;;' k" := (bind c (fun _ => k))
  (at level 100, k at level 200, right associativity).

(** common/types.h: [using PageID = uint16_t]. *)
Abbreviation PageID := Z (only parsing).

(** two_q_policy.h: [using PageState = int] and its two constants; a positive
    value is the number of shared holders. *)
Abbreviation PageState := Z (only parsing).
Definition PAGE_UNFIXED : PageState := 0.
Definition PAGE_EXCLUSIVE : PageState := -1.

(** ** The 2Q replacement policy *)
Module TwoQ.

(** [fifo_queue_]/[lru_queue_] are the two [std::list<PageID>]; front of the
    list = head.  [fifo_map_]/[lru_map_] are the [unordered_map]s from a page
    id to the iterator of its list node.  Every entry is written as
    [map[page_id] = --queue.end()] right after [page_id] was linked at the
    tail, so the stored iterator designates the node that holds the key: the
    model keeps the key set and addresses that node by the page id. *)
Record TwoQPolicy : Type := {
  fifo_queue_ : list PageID;
  fifo_map_   : gset PageID;
  lru_queue_  : list PageID;
  lru_map_    : gset PageID
}.

(** [TwoQPolicy() = default]. *)
Definition empty_policy : TwoQPolicy :=
  {| fifo_queue_ := []; fifo_map_ := ∅; lru_queue_ := []; lru_map_ := ∅ |}.

(** Unlinking the node of [page_id] from a list ([list::erase(it)], or the
    source side of [splice]). *)
Fixpoint unlink (page_id : PageID) (q : list PageID) : list PageID :=
  match q with
  | [] => []
  | x :: q' => if decide (x = page_id) then q' else x :: unlink page_id q'
  end.

(** [bool touch(PageID page_id)]. *)
Definition touch (page_id : PageID) (s : TwoQPolicy) : bool * TwoQPolicy :=
  if decide (page_id ∈ fifo_map_ s) then
    (* lru_queue_.splice(lru_queue_.end(), fifo_queue_, fifo_it->second);
       fifo_map_.erase(page_id); lru_map_[page_id] = --lru_queue_.end(); *)
    (true, {| fifo_queue_ := unlink page_id (fifo_queue_ s);
              fifo_map_   := fifo_map_ s ∖ {[page_id]};
              lru_queue_  := lru_queue_ s ++ [page_id];
              lru_map_    := {[page_id]} ∪ lru_map_ s |})
  else if decide (page_id ∈ lru_map_ s) then
    (* lru_queue_.splice(lru_queue_.end(), lru_queue_, lru_it->second); *)
    (true, {| fifo_queue_ := fifo_queue_ s;
              fifo_map_   := fifo_map_ s;
              lru_queue_  := unlink page_id (lru_queue_ s) ++ [page_id];
              lru_map_    := lru_map_ s |})
  else
    (* fifo_queue_.push_back(page_id); fifo_map_[page_id] = --fifo_queue_.end(); *)
    (false, {| fifo_queue_ := fifo_queue_ s ++ [page_id];
               fifo_map_   := {[page_id]} ∪ fifo_map_ s;
               lru_queue_  := lru_queue_ s;
               lru_map_    := lru_map_ s |}).

(** One of the two [for] loops of [evict(state_of_page)]: walk the queue from
    its front; at the first node whose page is found in the map with state
    [PAGE_UNFIXED], erase that node and yield the page with the remaining
    queue. *)
Fixpoint scan_queue (state_of_page : gmap PageID PageState) (q : list PageID)
  : option (PageID * list PageID) :=
  match q with
  | [] => None
  | p :: q' =>
      let continue :=
        match scan_queue state_of_page q' with
        | Some (victim, rest) => Some (victim, p :: rest)
        | None => None
        end in
      match state_of_page !! p with
      | Some st => if st =? PAGE_UNFIXED then Some (p, q') else continue
      | None => continue
      end
  end.

(** [PageID evict(const std::unordered_map<PageID, PageState>& state_of_page)]. *)
Definition evict (state_of_page : gmap PageID PageState) (s : TwoQPolicy)
  : outcome (PageID * TwoQPolicy) :=
  match scan_queue state_of_page (fifo_queue_ s) with
  | Some (victim, rest) =>
      (* fifo_map_.erase(victim); fifo_queue_.erase(it); return victim; *)
      Returns (victim,
               {| fifo_queue_ := rest; fifo_map_ := fifo_map_ s ∖ {[victim]};
                  lru_queue_ := lru_queue_ s; lru_map_ := lru_map_ s |})
  | None =>
      match scan_queue state_of_page (lru_queue_ s) with
      | Some (victim, rest) =>
          (* lru_map_.erase(victim); lru_queue_.erase(it); return victim; *)
          Returns (victim,
                   {| fifo_queue_ := fifo_queue_ s; fifo_map_ := fifo_map_ s;
                      lru_queue_ := rest; lru_map_ := lru_map_ s ∖ {[victim]} |})
      | None => Throws buffer_full_error
      end
  end.

(** [get_fifo_list], [get_lru_list], [contains], [size], [remove]. *)
Definition get_fifo_list (s : TwoQPolicy) : list PageID := fifo_queue_ s.
Definition get_lru_list (s : TwoQPolicy) : list PageID := lru_queue_ s.

Definition contains (page_id : PageID) (s : TwoQPolicy) : bool :=
  bool_decide (page_id ∈ fifo_map_ s) || bool_decide (page_id ∈ lru_map_ s).

Definition size (s : TwoQPolicy) : nat :=
  (length (fifo_queue_ s) + length (lru_queue_ s))%nat.

Definition remove (page_id : PageID) (s : TwoQPolicy) : TwoQPolicy :=
  if decide (page_id ∈ fifo_map_ s) then
    {| fifo_queue_ := unlink page_id (fifo_queue_ s);
       fifo_map_   := fifo_map_ s ∖ {[page_id]};
       lru_queue_  := lru_queue_ s; lru_map_ := lru_map_ s |}
  else if decide (page_id ∈ lru_map_ s) then
    {| fifo_queue_ := fifo_queue_ s; fifo_map_ := fifo_map_ s;
       lru_queue_  := unlink page_id (lru_queue_ s);
       lru_map_    := lru_map_ s ∖ {[page_id]} |}
  else s.

(** The representation invariant of the class: each index holds exactly the
    pages of its queue, no page is linked twice, and the queues are
    disjoint. *)
Record wf (s : TwoQPolicy) : Prop := {
  wf_fifo_nodup : NoDup (fifo_queue_ s);
  wf_lru_nodup  : NoDup (lru_queue_ s);
  wf_fifo_index : ∀ p, p ∈ fifo_map_ s ↔ p ∈ fifo_queue_ s;
  wf_lru_index  : ∀ p, p ∈ lru_map_ s ↔ p ∈ lru_queue_ s;
  wf_disjoint   : ∀ p, p ∈ fifo_queue_ s → p ∉ lru_queue_ s
}.

(** A run of [touch] calls, left to right. *)
Definition touch_all (ps : list PageID) (s : TwoQPolicy) : TwoQPolicy :=
  fold_left (fun acc p => snd (touch p acc)) ps s.

End TwoQ.


(** ** Text: what the stream inserters write *)
Module Text.

Definition text := list ascii.

(** The classic-locale [isspace]: space, \t, \n, \v, \f, \r. *)
Definition isspace (c : ascii) : bool :=
  let n := Z.of_N (N_of_ascii c) in (n =? 32) || ((9 <=? n) && (n <=? 13)).

Definition isdigit (c : ascii) : bool :=
  let n := Z.of_N (N_of_ascii c) in (48 <=? n) && (n <=? 57).

Fixpoint chars_of_uint (d : Decimal.uint) : text :=
  match d with
  | Decimal.Nil => []
  | Decimal.D0 d => "0"%char :: chars_of_uint d
  | Decimal.D1 d => "1"%char :: chars_of_uint d
  | Decimal.D2 d => "2"%char :: chars_of_uint d
  | Decimal.D3 d => "3"%char :: chars_of_uint d
  | Decimal.D4 d => "4"%char :: chars_of_uint d
  | Decimal.D5 d => "5"%char :: chars_of_uint d
  | Decimal.D6 d => "6"%char :: chars_of_uint d
  | Decimal.D7 d => "7"%char :: chars_of_uint d
  | Decimal.D8 d => "8"%char :: chars_of_uint d
  | Decimal.D9 d => "9"%char :: chars_of_uint d
  end.

Fixpoint uint_of_chars (cs : text) : Decimal.uint :=
  match cs with
  | [] => Decimal.Nil
  | c :: cs' =>
      let r := uint_of_chars cs' in
      match c with
      | "0"%char => Decimal.D0 r
      | "1"%char => Decimal.D1 r
      | "2"%char => Decimal.D2 r
      | "3"%char => Decimal.D3 r
      | "4"%char => Decimal.D4 r
      | "5"%char => Decimal.D5 r
      | "6"%char => Decimal.D6 r
      | "7"%char => Decimal.D7 r
      | "8"%char => Decimal.D8 r
      | "9"%char => Decimal.D9 r
      | _ => Decimal.Nil
      end
  end.

(** [os << n] for an integral [n]: decimal digits, a leading '-' when
    negative, a single "0" for zero. *)
Definition show_int (z : Z) : text :=
  match Z.to_int z with
  | Decimal.Pos d => chars_of_uint d
  | Decimal.Neg d => "-"%char :: chars_of_uint d
  end.

(** The longest prefix of characters that satisfy [p], and what follows. *)
Fixpoint span (p : ascii → bool) (b : text) : text * text :=
  match b with
  | [] => ([], [])
  | c :: b' => if p c then let '(tok, rest) := span p b' in (c :: tok, rest)
               else ([], b)
  end.

(** The conversions of [float] to and from text are those of the C++
    library ([std::num_put], [std::num_get]); the engine only calls them.
    [num_get_float] receives the buffer after leading white space was
    skipped and yields the value, if the characters convert, with the
    unread rest. *)
Class FloatText : Type := {
  num_put_float : spec_float → text;
  num_get_float : text → option spec_float * text
}.

End Text.

(** ** [std::istream]: formatted extraction *)
Module IStream.
Import Text.

Record istream : Type := {
  buf     : text;      (* the characters not yet read *)
  eofbit  : bool;
  failbit : bool
}.

(** [std::istringstream iss(str)]. *)
Definition istringstream (str : text) : istream :=
  {| buf := str; eofbit := false; failbit := false |}.

Definition good (s : istream) : bool := negb (eofbit s) && negb (failbit s).

Definition is_nil (b : text) : bool := match b with [] => true | _ => false end.

(** The sentry of a formatted input function: refuses a stream that is not
    [good()], otherwise skips leading white space and refuses when that
    runs into the end of the stream. *)
Definition sentry (s : istream) : bool * istream :=
  if good s then
    match snd (span isspace (buf s)) with
    | [] => (false, {| buf := []; eofbit := true; failbit := true |})
    | b => (true, {| buf := b; eofbit := false; failbit := false |})
    end
  else (false, {| buf := buf s; eofbit := eofbit s; failbit := true |}).

(** The digits of an unsigned decimal number: its value, if there is at
    least one digit, and the unread rest. *)
Definition get_digits (b : text) : option Z * text :=
  let '(ds, rest) := span isdigit b in
  match ds with
  | [] => (None, rest)
  | _ => (Some (Z.of_uint (uint_of_chars ds)), rest)
  end.

(** An optional sign and the magnitude. *)
Definition get_signed (b : text) : bool * option Z * text :=
  match b with
  | "-"%char :: b' => let '(m, rest) := get_digits b' in (true, m, rest)
  | "+"%char :: b' => let '(m, rest) := get_digits b' in (false, m, rest)
  | _ => let '(m, rest) := get_digits b in (false, m, rest)
  end.

Definition INT_MAX : Z := 2147483647.
Definition INT_MIN : Z := -2147483648.
Definition SIZE_MAX : Z := 18446744073709551615.

(** Each extractor returns the value that it stored in its variable, [None]
    when the variable was left untouched (the sentry refused). *)

(** [in >> val] for [int val]: on a conversion failure 0 is stored, on
    overflow the nearest bound, and [failbit] is set. *)
Definition extract_int (s : istream) : option Z * istream :=
  let '(ok, s1) := sentry s in
  if ok then
    let '(neg, m, rest) := get_signed (buf s1) in
    let failed := {| buf := rest; eofbit := is_nil rest; failbit := true |} in
    match m with
    | None => (Some 0, failed)
    | Some m =>
        let v := if neg then - m else m in
        if INT_MAX <? v then (Some INT_MAX, failed)
        else if v <? INT_MIN then (Some INT_MIN, failed)
        else (Some v, {| buf := rest; eofbit := is_nil rest; failbit := false |})
    end
  else (None, s1).

(** [in >> val] for [size_t val]: a negative number is stored negated
    modulo 2^64, as [strtoull] converts it. *)
Definition extract_size_t (s : istream) : option Z * istream :=
  let '(ok, s1) := sentry s in
  if ok then
    let '(neg, m, rest) := get_signed (buf s1) in
    let failed := {| buf := rest; eofbit := is_nil rest; failbit := true |} in
    match m with
    | None => (Some 0, failed)
    | Some m =>
        if SIZE_MAX <? m then (Some SIZE_MAX, failed)
        else (Some (if neg then (- m) mod (SIZE_MAX + 1) else m),
              {| buf := rest; eofbit := is_nil rest; failbit := false |})
    end
  else (None, s1).

(** [in >> val] for [std::string val]: the characters up to the next white
    space. *)
Definition extract_string (s : istream) : option text * istream :=
  let '(ok, s1) := sentry s in
  if ok then
    let '(tok, rest) := span (fun c => negb (isspace c)) (buf s1) in
    (Some tok, {| buf := rest; eofbit := is_nil rest; failbit := false |})
  else (None, s1).

(** [in >> val] for [float val]. *)
Definition extract_float `{FloatText} (s : istream) : option spec_float * istream :=
  let '(ok, s1) := sentry s in
  if ok then
    let '(v, rest) := num_get_float (buf s1) in
    match v with
    | None => (Some (S754_zero false), {| buf := rest; eofbit := is_nil rest; failbit := true |})
    | Some f => (Some f, {| buf := rest; eofbit := is_nil rest; failbit := false |})
    end
  else (None, s1).

End IStream.

(** ** Fields *)
Module Fields.
Import Text IStream.

(** common/types.h: [enum class FieldType { INT, FLOAT, STRING }]. *)
Inductive FieldType : Type := INT | FLOAT | STRING.

Global Instance FieldType_eq_dec : EqDecision FieldType.
Proof. solve_decision. Defined.

(** [static_cast<int>(type)]. *)
Definition type_ordinal (t : FieldType) : Z :=
  match t with INT => 0 | FLOAT => 1 | STRING => 2 end.

(** A [Field] as its three constructors build it: the tag with the value
    that the data buffer holds.  An [int] is a 32-bit two's complement
    number, a [float] a binary32 number ([spec_float] at precision 24), a
    string the bytes of the [std::string] it was built from (the buffer
    also holds the terminating NUL). *)
Inductive Field : Type :=
| IntField (i : Z)
| FloatField (f : spec_float)
| StringField (s : text).

Definition getType (f : Field) : FieldType :=
  match f with
  | IntField _ => INT
  | FloatField _ => FLOAT
  | StringField _ => STRING
  end.

(** [data_length]: [sizeof(int)], [sizeof(float)], [s.size() + 1]. *)
Definition data_length (f : Field) : Z :=
  match f with
  | IntField _ => 4
  | FloatField _ => 4
  | StringField s => Z.of_nat (length s) + 1
  end.

(** The C string that starts at [data.get()]: the bytes before the first
    NUL. *)
Definition c_str (s : text) : text :=
  fst (span (fun c => negb (Ascii.eqb c Ascii.zero)) s).

(** 32-bit two's complement wrap-around. *)
Definition wrap_int (z : Z) : Z := (z + 2^31) mod 2^32 - 2^31.

(** binary32 addition. *)
Definition float_add (x y : spec_float) : spec_float := SFadd 24 128 x y.

(** [Field& operator+=(const int val)]. *)
Definition add_int (f : Field) (val : Z) : outcome Field :=
  match f with
  | IntField i => Returns (IntField (wrap_int (i + val)))
  | _ => Returns f
  end.

(** [Field& operator+=(const float val)]. *)
Definition add_float (f : Field) (val : spec_float) : outcome Field :=
  match f with
  | FloatField x => Returns (FloatField (float_add x val))
  | _ => Returns f
  end.

(** [std::string serialize()]. *)
Definition serialize `{FloatText} (f : Field) : text :=
  show_int (type_ordinal (getType f)) ++ " "%char ::
  show_int (data_length f) ++ " "%char ::
  match f with
  | StringField s => c_str s ++ [" "%char]
  | IntField i => show_int i ++ [" "%char]
  | FloatField x => num_put_float x ++ [" "%char]
  end.

(** An extraction into a local variable that was declared without an
    initialiser and is read afterwards: reading it is undefined when the
    extraction left it untouched. *)
Definition into_uninitialised {A} (ex : istream → option A * istream)
  : M istream A :=
  fun s => match ex s with
           | (Some a, s') => Returns (a, s')
           | (None, _) => Undefined
           end.

(** An extraction into a variable that holds [init] beforehand. *)
Definition into_initialised {A} (init : A) (ex : istream → option A * istream)
  : M istream A :=
  fun s => match ex s with
           | (Some a, s') => Returns (a, s')
           | (None, s') => Returns (init, s')
           end.

(** [static std::unique_ptr<Field> deserialize(std::istream& in)]; [None] is
    the null pointer.  [length] is extracted and never read. *)
Definition deserialize `{FloatText} : M istream (option Field) :=
  let* type_int := into_uninitialised extract_int in
  let* _ := into_initialised 0 extract_size_t in
  if type_int =? type_ordinal STRING then
    let* val := into_initialised [] extract_string in
    ret (Some (StringField val))
  else if type_int =? type_ordinal INT then
    let* val := into_uninitialised extract_int in
    ret (Some (IntField val))
  else if type_int =? type_ordinal FLOAT then
    let* val := into_uninitialised extract_float in
    ret (Some (FloatField val))
  else ret None.

(** *** Comparison operators

    Each operator yields its result together with the lines that it wrote to
    [std::cerr]. *)

Definition newline : string := String (ascii_of_nat 10) EmptyString.

Definition incompatible_type_msg : string :=
  ("invalid comparison: incompatible type" ++ newline)%string.

(** [std::string::compare]: bytes as unsigned chars, then the lengths. *)
Fixpoint string_compare (a b : text) : comparison :=
  match a, b with
  | [], [] => Eq
  | [], _ :: _ => Lt
  | _ :: _, [] => Gt
  | x :: a', y :: b' =>
      match N.compare (N_of_ascii x) (N_of_ascii y) with
      | Eq => string_compare a' b'
      | c => c
      end
  end.

Definition is_lt (c : comparison) : bool := match c with Lt => true | _ => false end.
Definition is_gt (c : comparison) : bool := match c with Gt => true | _ => false end.
Definition is_eq (c : comparison) : bool := match c with Eq => true | _ => false end.

(** [bool operator==(const Field& lhs, const Field& rhs)]; its [default:]
    branch, the only [throw], is not reachable with the three tags. *)
Definition op_eq (lhs rhs : Field) : outcome bool * list string :=
  match lhs, rhs with
  | IntField a, IntField b => (Returns (a =? b), [])
  | FloatField a, FloatField b => (Returns (SFeqb a b), [])
  | StringField a, StringField b => (Returns (bool_decide (a = b)), [])
  | _, _ => (Returns false, [])
  end.

(** The five operators that share one shape: a type mismatch writes a line
    to [std::cerr] and yields [false]; otherwise the values are compared,
    strings through [asString()]. *)
Definition compare_with (on_int : Z → Z → bool)
    (on_float : spec_float → spec_float → bool)
    (on_string : comparison → bool) (lhs rhs : Field)
  : outcome bool * list string :=
  match lhs, rhs with
  | FloatField a, FloatField b => (Returns (on_float a b), [])
  | IntField a, IntField b => (Returns (on_int a b), [])
  | StringField a, StringField b =>
      (Returns (on_string (string_compare (c_str a) (c_str b))), [])
  | _, _ => (Returns false, [incompatible_type_msg])
  end.

Definition op_ne := compare_with (fun a b => negb (a =? b))
                                 (fun a b => negb (SFeqb a b))
                                 (fun c => negb (is_eq c)).
Definition op_lt := compare_with Z.ltb SFltb is_lt.
Definition op_gt := compare_with Z.gtb (fun a b => SFltb b a) is_gt.
Definition op_le := compare_with Z.leb SFleb (fun c => negb (is_gt c)).
Definition op_ge := compare_with Z.geb (fun a b => SFleb b a)
                                 (fun c => negb (is_lt c)).

End Fields.

(** ** Tuples *)
Module Tuples.
Import Text IStream.

(** [std::vector<std::unique_ptr<Field>> fields]; [None] is a null
    pointer. *)
Record Tuple : Type := { fields : list (option Fields.Field) }.

(** [addField], [getFieldCount], [getSize]. *)
Definition addField (field : option Fields.Field) (t : Tuple) : Tuple :=
  {| fields := fields t ++ [field] |}.

Definition getFieldCount (t : Tuple) : Z := Z.of_nat (length (fields t)).

(** The loop of [serialize]: [buffer << field->serialize()] for each field;
    a null pointer is dereferenced there. *)
Fixpoint serialize_fields `{FloatText} (fs : list (option Fields.Field))
  : outcome text :=
  match fs with
  | [] => Returns []
  | None :: _ => Undefined
  | Some f :: fs' =>
      match serialize_fields fs' with
      | Returns body => Returns (Fields.serialize f ++ body)
      | o => o
      end
  end.

(** [std::string serialize()]. *)
Definition serialize `{FloatText} (t : Tuple) : outcome text :=
  match serialize_fields (fields t) with
  | Returns body =>
      Returns (show_int (Z.of_nat (length (fields t))) ++ " "%char :: body)
  | o => o
  end.

(** The loop of [deserialize]: [fieldCount] times, decode a field and push
    it, whatever it is. *)
Fixpoint deserialize_fields `{FloatText} (n : nat) (t : Tuple)
  : M istream Tuple :=
  match n with
  | O => ret t
  | S n' =>
      let* field := Fields.deserialize in
      deserialize_fields n' (addField field t)
  end.

(** [static std::unique_ptr<Tuple> deserialize(std::istream& in)]. *)
Definition deserialize `{FloatText} : M istream Tuple :=
  let* fieldCount := Fields.into_uninitialised extract_size_t in
  deserialize_fields (Z.to_nat fieldCount) {| fields := [] |}.

End Tuples.

(** ** Slotted pages *)
Module Page.
Import Text.

(** common/config.h. *)
Definition PAGE_SIZE : Z := 4096.
Definition MAX_SLOTS : Z := 512.
Definition INVALID_VALUE : Z := 65535.

(** slot.h: [struct Slot { bool empty; uint16_t offset; uint16_t length; }].
    With the usual 2-byte alignment of [uint16_t] the three members sit at
    bytes 0, 2 and 4 of a 6-byte entry (byte 1 is padding); the 16-bit
    members are little-endian. *)
Definition sizeof_Slot : Z := 6.
Definition offsetof_empty : Z := 0.
Definition offsetof_offset : Z := 2.
Definition offsetof_length : Z := 4.

(** [size_t metadata_size = sizeof(Slot) * MAX_SLOTS]. *)
Definition metadata_size : Z := sizeof_Slot * MAX_SLOTS.

(** [std::unique_ptr<char[]> page_data]: the page is its byte buffer, each
    byte a number in [0, 256). *)
Abbreviation SlottedPage := (list Z) (only parsing).

Definition load8 (p : SlottedPage) (a : Z) : Z := nth (Z.to_nat a) p 0.
Definition store8 (p : SlottedPage) (a v : Z) : SlottedPage :=
  <[Z.to_nat a := v]> p.
Definition load16 (p : SlottedPage) (a : Z) : Z :=
  load8 p a + 256 * load8 p (a + 1).
Definition store16 (p : SlottedPage) (a v : Z) : SlottedPage :=
  store8 (store8 p a (v mod 256)) (a + 1) (v / 256 mod 256).

(** [reinterpret_cast<Slot*>(page_data.get())[i]], member by member. *)
Definition slot_addr (i : Z) : Z := i * sizeof_Slot.

Definition slot_empty (p : SlottedPage) (i : Z) : bool :=
  negb (load8 p (slot_addr i + offsetof_empty) =? 0).
Definition slot_offset (p : SlottedPage) (i : Z) : Z :=
  load16 p (slot_addr i + offsetof_offset).
Definition slot_length (p : SlottedPage) (i : Z) : Z :=
  load16 p (slot_addr i + offsetof_length).

Definition set_slot_empty (p : SlottedPage) (i : Z) (b : bool) : SlottedPage :=
  store8 p (slot_addr i + offsetof_empty) (if b then 1 else 0).
(** A store to a [uint16_t] member keeps the low 16 bits. *)
Definition set_slot_offset (p : SlottedPage) (i v : Z) : SlottedPage :=
  store16 p (slot_addr i + offsetof_offset) (v mod 65536).
Definition set_slot_length (p : SlottedPage) (i v : Z) : SlottedPage :=
  store16 p (slot_addr i + offsetof_length) (v mod 65536).

(** The directory entry as a value. *)
Record Slot : Type := { empty : bool; offset : Z; length : Z }.

Definition slot_at (p : SlottedPage) (i : Z) : Slot :=
  {| empty := slot_empty p i; offset := slot_offset p i;
     length := slot_length p i |}.

(** [std::memcpy(page_data.get() + dst, src, n)]. *)
Fixpoint memcpy (p : SlottedPage) (dst : Z) (src : list Z) : SlottedPage :=
  match src with
  | [] => p
  | b :: src' => memcpy (store8 p dst b) (dst + 1) src'
  end.

Definition byte_of_char (c : ascii) : Z := Z.of_N (N_of_ascii c).

(** [std::make_unique<char[]>(PAGE_SIZE)]: value-initialised, all zero. *)
Definition zero_page : SlottedPage := replicate (Z.to_nat PAGE_SIZE) 0.

(** The loop of the constructor, from [slot_itr] for [n] entries. *)
Fixpoint init_slots (n : nat) (slot_itr : Z) (p : SlottedPage) : SlottedPage :=
  match n with
  | O => p
  | S n' =>
      init_slots n' (slot_itr + 1)
        (set_slot_length
           (set_slot_offset (set_slot_empty p slot_itr true)
                            slot_itr INVALID_VALUE)
           slot_itr INVALID_VALUE)
  end.

(** [SlottedPage()]. *)
Definition new_page : SlottedPage :=
  init_slots (Z.to_nat MAX_SLOTS) 0 zero_page.

(** A [for (; slot_itr < MAX_SLOTS; slot_itr++) if (test) break;] loop with
    [steps] entries left: the index at which it stops. *)
Fixpoint first_slot (test : Z → bool) (slot_itr : Z) (steps : nat) : Z :=
  match steps with
  | O => slot_itr
  | S k => if test slot_itr then slot_itr
           else first_slot test (slot_itr + 1) k
  end.

(** The two search loops of [addTuple]: the value of [slot_itr] after
    them, [MAX_SLOTS] when neither loop stopped early. *)
Definition choose_slot (p : SlottedPage) (tuple_size : Z) : Z :=
  let slot_itr :=
    first_slot (fun i => slot_empty p i && (tuple_size <=? slot_length p i))
               0 (Z.to_nat MAX_SLOTS) in
  if slot_itr =? MAX_SLOTS then
    first_slot (fun i => slot_empty p i && (slot_offset p i =? INVALID_VALUE))
               0 (Z.to_nat MAX_SLOTS)
  else slot_itr.

(** "Calculate offset for the tuple data": the value of the local [offset]
    for the chosen slot. *)
Definition choose_offset (p : SlottedPage) (slot_itr : Z) : Z :=
  if slot_offset p slot_itr =? INVALID_VALUE then
    if negb (slot_itr =? 0) then
      let prev_slot_offset := slot_offset p (slot_itr - 1) in
      let prev_slot_length := slot_length p (slot_itr - 1) in
      if negb (prev_slot_offset =? INVALID_VALUE)
      then prev_slot_offset + prev_slot_length
      else metadata_size
    else metadata_size
  else slot_offset p slot_itr.

(** The body of [addTuple] once the tuple is serialized. *)
Definition add_serialized (serializedTuple : text) (p : SlottedPage)
  : outcome (bool * SlottedPage) :=
  let tuple_size := Z.of_nat (List.length serializedTuple) in
  let slot_itr := choose_slot p tuple_size in
  if slot_itr =? MAX_SLOTS then Returns (false, p)
  else
    let p1 := set_slot_empty p slot_itr false in
    let offset := choose_offset p1 slot_itr in
    let p2 := if slot_offset p1 slot_itr =? INVALID_VALUE
              then set_slot_offset p1 slot_itr offset else p1 in
    if PAGE_SIZE <=? offset + tuple_size then
      (* "Doesn't fit, revert slot state" *)
      Returns (false,
               set_slot_offset (set_slot_empty p2 slot_itr true)
                               slot_itr INVALID_VALUE)
    else if negb (offset =? INVALID_VALUE) && (metadata_size <=? offset)
            && (offset + tuple_size <? PAGE_SIZE) then
      let p3 := if slot_length p2 slot_itr =? INVALID_VALUE
                then set_slot_length p2 slot_itr tuple_size else p2 in
      Returns (true, memcpy p3 offset (map byte_of_char serializedTuple))
    else AssertFailed.

(** [bool addTuple(std::unique_ptr<Tuple> tuple)]. *)
Definition addTuple `{FloatText} (tuple : Tuples.Tuple) (p : SlottedPage)
  : outcome (bool * SlottedPage) :=
  match Tuples.serialize tuple with
  | Returns serializedTuple => add_serialized serializedTuple p
  | Throws e => Throws e
  | AssertFailed => AssertFailed
  | Undefined => Undefined
  | Spins => Spins
  end.

(** [void deleteTuple(size_t index)]. *)
Definition deleteTuple (index : Z) (p : SlottedPage) : SlottedPage :=
  if (index <? MAX_SLOTS) && negb (slot_empty p index)
  then set_slot_empty p index true else p.

(** [size_t countTuples() const]. *)
Fixpoint count_from (p : SlottedPage) (i : Z) (steps : nat) : Z :=
  match steps with
  | O => 0
  | S k => (if negb (slot_empty p i) then 1 else 0) + count_from p (i + 1) k
  end.

Definition countTuples (p : SlottedPage) : Z :=
  count_from p 0 (Z.to_nat MAX_SLOTS).

(** [getTupleData] (as the offset from [page_data.get()]) and
    [getTupleLength]. *)
Definition getTupleData (slot_id : Z) (p : SlottedPage) : option Z :=
  if MAX_SLOTS <=? slot_id then None
  else if slot_empty p slot_id || (slot_offset p slot_id =? INVALID_VALUE)
  then None else Some (slot_offset p slot_id).

Definition getTupleLength (slot_id : Z) (p : SlottedPage) : Z :=
  if MAX_SLOTS <=? slot_id then 0
  else if slot_empty p slot_id || (slot_length p slot_id =? INVALID_VALUE)
  then 0 else slot_length p slot_id.

(** What the page operations maintain, starting from [new_page] and from
    [zero_page]: the buffer has [PAGE_SIZE] bytes; the entries that were
    handed out form a prefix of the directory, each with a valid offset and
    length that end inside the page; the entries behind them were never
    used. *)
Definition used_entry (p : SlottedPage) (i : Z) : Prop :=
  slot_offset p i ≠ INVALID_VALUE ∧ slot_length p i ≠ INVALID_VALUE ∧
  slot_offset p i + slot_length p i < PAGE_SIZE.

Definition fresh_entry (p : SlottedPage) (i : Z) : Prop :=
  slot_empty p i = true ∧ slot_offset p i = INVALID_VALUE ∧
  slot_length p i = INVALID_VALUE.

Record wf (p : SlottedPage) : Prop := {
  wf_size  : List.length p = Z.to_nat PAGE_SIZE;
  wf_bytes : Forall (fun b => 0 <= b < 256) p;
  wf_split : ∃ k, 0 <= k <= MAX_SLOTS ∧
                  (∀ i, 0 <= i < k → used_entry p i) ∧
                  (∀ i, k <= i < MAX_SLOTS → fresh_entry p i)
}.

(** The two kinds of free entry that the insertion rule names. *)
Definition emptied (p : SlottedPage) (i : Z) : Prop :=
  slot_empty p i = true ∧ slot_offset p i ≠ INVALID_VALUE.
Definition never_used (p : SlottedPage) (i : Z) : Prop :=
  slot_empty p i = true ∧ slot_offset p i = INVALID_VALUE.

End Page.

(** ** The storage manager *)
Module Storage.

Definition UINT64_MOD : Z := 2^64.

(** [fileStream] is modelled by the bytes of the database file, [num_pages]
    is the [size_t] member.  I/O itself is assumed not to fail. *)
Record StorageManager : Type := {
  fileStream : list Z;
  num_pages  : Z
}.

(** [seekp(pos); write(bytes)]: overwrite in place; a gap between the old
    end of the file and [pos] reads as zero bytes. *)
Definition write_at (file : list Z) (pos : Z) (bytes : list Z) : list Z :=
  let padded := file ++ replicate (Z.to_nat pos - List.length file) 0 in
  take (Z.to_nat pos) padded ++ bytes
    ++ drop (Z.to_nat pos + List.length bytes) padded.

(** [seekg(pos); read(buf, n)]: [None] when fewer than [n] bytes follow. *)
Definition read_at (file : list Z) (pos : Z) (n : Z) : option (list Z) :=
  let chunk := take (Z.to_nat n) (drop (Z.to_nat pos) file) in
  if Z.of_nat (List.length chunk) =? n then Some chunk else None.

(** [size_t getNumPages() const]. *)
Definition getNumPages (sm : StorageManager) : Z := num_pages sm.

(** [std::unique_ptr<SlottedPage> load(PageID page_id)]. *)
Definition load (page_id : PageID) (sm : StorageManager)
  : outcome Page.SlottedPage :=
  if num_pages sm <=? page_id then Throws std_out_of_range
  else match read_at (fileStream sm) (page_id * Page.PAGE_SIZE) Page.PAGE_SIZE with
       | Some bytes => Returns bytes
       | None => Throws std_runtime_error
       end.

(** [void flush(PageID page_id, const SlottedPage& page)]. *)
Definition flush (page_id : PageID) (page : Page.SlottedPage)
    (sm : StorageManager) : StorageManager :=
  {| fileStream := write_at (fileStream sm) (page_id * Page.PAGE_SIZE) page;
     num_pages := num_pages sm |}.

(** [void extend()]: the bytes of a default-constructed [SlottedPage] are
    appended. *)
Definition extend (sm : StorageManager) : StorageManager :=
  let empty_page := Page.new_page in
  {| fileStream := fileStream sm ++ empty_page;
     num_pages := (num_pages sm + 1) mod UINT64_MOD |}.

(** [void extend(uint64_t till_page_id)]: [std::vector<char> buffer(write_size, 0)]
    is appended. *)
Definition extend_till (till_page_id : Z) (sm : StorageManager)
  : StorageManager :=
  if till_page_id <? num_pages sm then sm
  else
    let pages_to_add := (till_page_id + 1 - num_pages sm) mod UINT64_MOD in
    let write_size := (pages_to_add * Page.PAGE_SIZE) mod UINT64_MOD in
    {| fileStream := fileStream sm ++ replicate (Z.to_nat write_size) 0;
       num_pages := (till_page_id + 1) mod UINT64_MOD |}.

(** [explicit StorageManager(bool truncate_mode)], given the bytes that the
    file holds beforehand (none when it does not exist). *)
Definition open (truncate_mode : bool) (existing : list Z) : StorageManager :=
  let contents := if truncate_mode then [] else existing in
  let sm := {| fileStream := contents;
               num_pages := Z.of_nat (List.length contents) / Page.PAGE_SIZE |} in
  if num_pages sm =? 0 then extend sm else sm.

(** The [k]-th page of the file. *)
Definition page_of_file (sm : StorageManager) (k : Z) : list Z :=
  take (Z.to_nat Page.PAGE_SIZE)
       (drop (Z.to_nat (k * Page.PAGE_SIZE)) (fileStream sm)).

(** The file holds exactly [num_pages] pages. *)
Definition wf (sm : StorageManager) : Prop :=
  0 <= num_pages sm ∧
  Z.of_nat (List.length (fileStream sm)) = num_pages sm * Page.PAGE_SIZE.

End Storage.

(** ** The buffer manager, as one thread sees it *)
Module Buffer.
Import Page.

(** [using FrameID = uint64_t]: an index into [buffer_pool_]. *)
Abbreviation FrameID := nat (only parsing).

(** The state of a [std::shared_mutex]. *)
Inductive latch : Type :=
| Unlocked
| LockedExclusive
| LockedShared (holders : positive).

(** buffer_frame.h: [page_id_], [is_dirty_], the owned [page], [mutex]. *)
Record BufferFrame : Type := {
  page_id_  : PageID;
  is_dirty_ : bool;
  page      : SlottedPage;
  mutex     : latch
}.

Definition set_dirty (f : BufferFrame) : BufferFrame :=
  {| page_id_ := page_id_ f; is_dirty_ := true; page := page f; mutex := mutex f |}.
Definition clear_dirty (f : BufferFrame) : BufferFrame :=
  {| page_id_ := page_id_ f; is_dirty_ := false; page := page f; mutex := mutex f |}.
Definition set_mutex (m : latch) (f : BufferFrame) : BufferFrame :=
  {| page_id_ := page_id_ f; is_dirty_ := is_dirty_ f; page := page f; mutex := m |}.
Definition set_page (p : SlottedPage) (f : BufferFrame) : BufferFrame :=
  {| page_id_ := page_id_ f; is_dirty_ := is_dirty_ f; page := p; mutex := mutex f |}.

(** buffer_manager.h.  [buffer_pool_] is the vector of frame pointers
    ([None] = [nullptr]); [empty_slots_] is kept back first, so that
    [push_back] is a cons and [back()]/[pop_back()] take the head;
    [global_mutex_] is always free between two calls of one thread and is
    left out. *)
Record BufferManager : Type := {
  storage_manager_ : Storage.StorageManager;
  buffer_pool_     : list (option BufferFrame);
  policy_          : TwoQ.TwoQPolicy;
  empty_slots_     : list FrameID;
  frame_of_page_   : gmap PageID FrameID;
  page_state_      : gmap PageID PageState;
  capacity_        : Z
}.

Definition with_storage (sm : Storage.StorageManager) (bm : BufferManager) :=
  {| storage_manager_ := sm; buffer_pool_ := buffer_pool_ bm;
     policy_ := policy_ bm; empty_slots_ := empty_slots_ bm;
     frame_of_page_ := frame_of_page_ bm; page_state_ := page_state_ bm;
     capacity_ := capacity_ bm |}.
Definition with_pool (pool : list (option BufferFrame)) (bm : BufferManager) :=
  {| storage_manager_ := storage_manager_ bm; buffer_pool_ := pool;
     policy_ := policy_ bm; empty_slots_ := empty_slots_ bm;
     frame_of_page_ := frame_of_page_ bm; page_state_ := page_state_ bm;
     capacity_ := capacity_ bm |}.
Definition with_policy (pol : TwoQ.TwoQPolicy) (bm : BufferManager) :=
  {| storage_manager_ := storage_manager_ bm; buffer_pool_ := buffer_pool_ bm;
     policy_ := pol; empty_slots_ := empty_slots_ bm;
     frame_of_page_ := frame_of_page_ bm; page_state_ := page_state_ bm;
     capacity_ := capacity_ bm |}.
Definition with_empty_slots (es : list FrameID) (bm : BufferManager) :=
  {| storage_manager_ := storage_manager_ bm; buffer_pool_ := buffer_pool_ bm;
     policy_ := policy_ bm; empty_slots_ := es;
     frame_of_page_ := frame_of_page_ bm; page_state_ := page_state_ bm;
     capacity_ := capacity_ bm |}.
Definition with_frame_of_page (fop : gmap PageID FrameID) (bm : BufferManager) :=
  {| storage_manager_ := storage_manager_ bm; buffer_pool_ := buffer_pool_ bm;
     policy_ := policy_ bm; empty_slots_ := empty_slots_ bm;
     frame_of_page_ := fop; page_state_ := page_state_ bm;
     capacity_ := capacity_ bm |}.
Definition with_page_state (st : gmap PageID PageState) (bm : BufferManager) :=
  {| storage_manager_ := storage_manager_ bm; buffer_pool_ := buffer_pool_ bm;
     policy_ := policy_ bm; empty_slots_ := empty_slots_ bm;
     frame_of_page_ := frame_of_page_ bm; page_state_ := st;
     capacity_ := capacity_ bm |}.

(** [explicit BufferManager(size_t capacity, bool truncate_storage)], over
    the file that the storage manager opened. *)
Definition new (capacity : Z) (sm : Storage.StorageManager) : BufferManager :=
  {| storage_manager_ := sm;
     buffer_pool_ := replicate (Z.to_nat capacity) None;
     policy_ := TwoQ.empty_policy;
     empty_slots_ := rev (seq 0 (Z.to_nat capacity));
     frame_of_page_ := ∅;
     page_state_ := ∅;
     capacity_ := capacity |}.

(** [*buffer_pool_[frame_id]]: dereferencing a null pointer or indexing
    past the vector is undefined. *)
Definition deref (frame_id : FrameID) : M BufferManager BufferFrame :=
  fun bm => match buffer_pool_ bm !! frame_id with
            | Some (Some f) => Returns (f, bm)
            | _ => Undefined
            end.

(** An assignment through [*buffer_pool_[frame_id]] or to the slot. *)
Definition store_frame (frame_id : FrameID) (f : BufferFrame)
  : M BufferManager unit :=
  fun bm => if decide (frame_id < List.length (buffer_pool_ bm))%nat
            then Returns (tt, with_pool (<[frame_id := Some f]> (buffer_pool_ bm)) bm)
            else Undefined.

(** [frame_of_page_[page_id]]: [operator[]] inserts a zero for a key that
    is not there. *)
Definition frame_of (page_id : PageID) : M BufferManager FrameID :=
  fun bm => match frame_of_page_ bm !! page_id with
            | Some fid => Returns (fid, bm)
            | None => Returns (0%nat, with_frame_of_page
                                        (<[page_id := 0%nat]> (frame_of_page_ bm)) bm)
            end.

(** [page_state_[page_id]], likewise. *)
Definition state_of (page_id : PageID) : M BufferManager PageState :=
  fun bm => match page_state_ bm !! page_id with
            | Some st => Returns (st, bm)
            | None => Returns (0, with_page_state
                                    (<[page_id := 0]> (page_state_ bm)) bm)
            end.

Definition set_state (page_id : PageID) (st : PageState) : M BufferManager unit :=
  modify (fun bm => with_page_state (<[page_id := st]> (page_state_ bm)) bm).

(** [policy_.touch(page_id)]; the result is not used. *)
Definition touch (page_id : PageID) : M BufferManager unit :=
  modify (fun bm => with_policy (snd (TwoQ.touch page_id (policy_ bm))) bm).

(** [policy_.evict(page_state_)]. *)
Definition evict : M BufferManager PageID :=
  fun bm => match TwoQ.evict (page_state_ bm) (policy_ bm) with
            | Returns (victim, pol) => Returns (victim, with_policy pol bm)
            | Throws e => Throws e
            | AssertFailed => AssertFailed
            | Undefined => Undefined
            | Spins => Spins
            end.

(** [assert(cond)]. *)
Definition assert {St} (cond : bool) : M St unit :=
  fun s => if cond then Returns (tt, s) else AssertFailed.

(** [BufferFrame& load_page_locked(PageID page_id, bool exclusive)]. *)
Definition load_page_locked (page_id : PageID) (exclusive : bool)
  : M BufferManager FrameID :=
  let* bm := get in
  (match empty_slots_ bm with
   | [] =>
       let* victim_page := evict in
       let* victim_frame := frame_of victim_page in
       let* frame := deref victim_frame in
       (if is_dirty_ frame
        then modify (fun bm => with_storage
                                 (Storage.flush victim_page (page frame)
                                                (storage_manager_ bm)) bm)
        else ret tt);;;
       modify (fun bm => with_page_state (delete victim_page (page_state_ bm)) bm);;;
       modify (fun bm => with_frame_of_page (delete victim_page (frame_of_page_ bm)) bm);;;
       modify (fun bm => with_empty_slots (victim_frame :: empty_slots_ bm) bm)
   | _ :: _ => ret tt
   end);;;
  let* bm := get in
  match empty_slots_ bm with
  | [] => fun _ => Undefined          (* back() of an empty vector *)
  | slot :: rest =>
      put (with_empty_slots rest bm);;;
      let* bm := get in
      (if Storage.getNumPages (storage_manager_ bm) <=? page_id
       then put (with_storage (Storage.extend_till page_id (storage_manager_ bm)) bm)
       else ret tt);;;
      let* bm := get in
      match Storage.load page_id (storage_manager_ bm) with
      | Returns loaded =>
          (* a new frame: not dirty, its mutex free, then locked at once *)
          store_frame slot
            {| page_id_ := page_id; is_dirty_ := false; page := loaded;
               mutex := if exclusive then LockedExclusive
                        else LockedShared 1 |};;;
          set_state page_id (if exclusive then PAGE_EXCLUSIVE else 1);;;
          modify (fun bm => with_frame_of_page
                              (<[page_id := slot]> (frame_of_page_ bm)) bm);;;
          touch page_id;;;
          ret slot
      | Throws e => throw e
      | _ => fun _ => Undefined
      end
  end.

(** [BufferFrame& fix_page(PageID page_id, bool exclusive)]; the frame is
    named by its index.  When [try_lock] fails the loop tries again after
    [yield()]; with no other thread to release the latch it does so for
    ever. *)
Definition fix_page (page_id : PageID) (exclusive : bool)
  : M BufferManager FrameID :=
  let* bm := get in
  match page_state_ bm !! page_id with
  | None => load_page_locked page_id exclusive
  | Some _ =>
      let* frame_id := frame_of page_id in
      let* frame := deref frame_id in
      if exclusive then
        match mutex frame with
        | Unlocked =>
            store_frame frame_id (set_mutex LockedExclusive frame);;;
            let* st := state_of page_id in
            assert (st =? PAGE_UNFIXED);;;
            set_state page_id PAGE_EXCLUSIVE;;;
            touch page_id;;;
            ret frame_id
        | _ => fun _ => Spins
        end
      else
        match mutex frame with
        | LockedExclusive => fun _ => Spins
        | held =>
            store_frame frame_id
              (set_mutex (match held with
                          | LockedShared n => LockedShared (n + 1)
                          | _ => LockedShared 1
                          end) frame);;;
            let* st := state_of page_id in
            assert (0 <=? st);;;
            set_state page_id (st + 1);;;
            touch page_id;;;
            ret frame_id
        end
  end.

(** [void unfix_page(BufferFrame& frame, bool is_dirty)]. *)
Definition unfix_page (frame_id : FrameID) (is_dirty : bool)
  : M BufferManager unit :=
  let* frame := deref frame_id in
  (if is_dirty then store_frame frame_id (set_dirty frame) else ret tt);;;
  let* frame := deref frame_id in
  let page_id := page_id_ frame in
  let* st := state_of page_id in
  if st =? PAGE_EXCLUSIVE then
    set_state page_id PAGE_UNFIXED;;;
    (* frame.mutex.unlock() *)
    match mutex frame with
    | LockedExclusive => store_frame frame_id (set_mutex Unlocked frame)
    | _ => fun _ => Undefined
    end
  else if 0 <? st then
    set_state page_id (st - 1);;;
    (* frame.mutex.unlock_shared() *)
    match mutex frame with
    | LockedShared 1 => store_frame frame_id (set_mutex Unlocked frame)
    | LockedShared n => store_frame frame_id (set_mutex (LockedShared (n - 1)) frame)
    | _ => fun _ => Undefined
    end
  else throw std_runtime_error.

(** [void flush_frame(FrameID frame_id)]. *)
Definition flush_frame (frame_id : FrameID) : M BufferManager unit :=
  fun bm =>
    match buffer_pool_ bm !! frame_id with
    | Some (Some f) =>
        if is_dirty_ f
        then Returns (tt, with_pool (<[frame_id := Some (clear_dirty f)]> (buffer_pool_ bm))
                            (with_storage (Storage.flush (page_id_ f) (page f)
                                                         (storage_manager_ bm)) bm))
        else Returns (tt, bm)
    | Some None => Returns (tt, bm)
    | None => Undefined
    end.

(** [void extend()] and [size_t getNumPages() const]. *)
Definition extend : M BufferManager unit :=
  modify (fun bm => with_storage (Storage.extend (storage_manager_ bm)) bm).

Definition getNumPages : M BufferManager Z :=
  fun bm => Returns (Storage.getNumPages (storage_manager_ bm), bm).

End Buffer.

(** ** The insert operator *)
Module Insert.
Import Buffer.

(** The calls that the operator makes, in order.  The trace is an
    observation of the run, not a member of the class. *)
Inductive call : Type :=
| FixPage (page_id : PageID) (exclusive : bool)
| AddTuple (page_id : PageID) (added : bool)
| UnfixPage (page_id : PageID) (is_dirty : bool)
| Extend.

(** insert_operator.h: [buffer_manager_] (the manager the reference names)
    and [tuple_to_insert_] ([None] = null). *)
Record InsertOperator : Type := {
  buffer_manager_  : BufferManager;
  tuple_to_insert_ : option Tuples.Tuple;
  trace            : list call
}.

Definition record (c : call) : M InsertOperator unit :=
  modify (fun op => {| buffer_manager_ := buffer_manager_ op;
                       tuple_to_insert_ := tuple_to_insert_ op;
                       trace := trace op ++ [c] |}).

(** A call on [buffer_manager_]. *)
Definition on_manager {A} (c : M BufferManager A) : M InsertOperator A :=
  fun op => match c (buffer_manager_ op) with
            | Returns (a, bm) =>
                Returns (a, {| buffer_manager_ := bm;
                               tuple_to_insert_ := tuple_to_insert_ op;
                               trace := trace op |})
            | Throws e => Throws e
            | AssertFailed => AssertFailed
            | Undefined => Undefined
            | Spins => Spins
            end.

(** [static_cast<PageID>(n)]. *)
Definition to_PageID (n : Z) : PageID := n mod 65536.

(** [void setTupleToInsert(std::unique_ptr<Tuple> tuple)]. *)
Definition setTupleToInsert (tuple : Tuples.Tuple) (op : InsertOperator)
  : InsertOperator :=
  {| buffer_manager_ := buffer_manager_ op; tuple_to_insert_ := Some tuple;
     trace := trace op |}.

(** [tuple_to_insert_.reset()]. *)
Definition reset_tuple : M InsertOperator unit :=
  modify (fun op => {| buffer_manager_ := buffer_manager_ op;
                       tuple_to_insert_ := None; trace := trace op |}).

(** [frame.page->addTuple(tuple_to_insert_->clone())] on a fixed frame. *)
Definition add_to_frame `{Text.FloatText} (frame_id : FrameID)
    (tuple : Tuples.Tuple) : M BufferManager bool :=
  let* frame := deref frame_id in
  match Page.addTuple tuple (page frame) with
  | Returns (added, p') =>
      store_frame frame_id (set_page p' frame);;; ret added
  | Throws e => throw e
  | AssertFailed => fun _ => AssertFailed
  | Undefined => fun _ => Undefined
  | Spins => fun _ => Spins
  end.

(** Fix one page, try the insert, unfix (dirty on success). *)
Definition try_page `{Text.FloatText} (page_id : PageID) (tuple : Tuples.Tuple)
  : M InsertOperator bool :=
  record (FixPage page_id true);;;
  let* frame := on_manager (fix_page page_id true) in
  let* added := on_manager (add_to_frame frame tuple) in
  record (AddTuple page_id added);;;
  record (UnfixPage page_id added);;;
  on_manager (unfix_page frame added);;;
  ret added.

(** The [for] loop of [next()] from [page_idx], with [steps] pages left:
    whether some page took the tuple. *)
Fixpoint scan_pages `{Text.FloatText} (tuple : Tuples.Tuple) (page_idx : Z)
    (steps : nat) : M InsertOperator bool :=
  match steps with
  | O => ret false
  | S k =>
      let* added := try_page (to_PageID page_idx) tuple in
      if added then ret true else scan_pages tuple (page_idx + 1) k
  end.

(** [bool next()]. *)
Definition next `{Text.FloatText} : M InsertOperator bool :=
  let* op := get in
  match tuple_to_insert_ op with
  | None => ret false
  | Some tuple =>
      let* num_pages := on_manager getNumPages in
      let* added := scan_pages tuple 0 (Z.to_nat num_pages) in
      if added then reset_tuple;;; ret true
      else
        record Extend;;;
        on_manager extend;;;
        let* n := on_manager getNumPages in
        let* added := try_page (to_PageID (n - 1)) tuple in
        if added then reset_tuple;;; ret true else ret false
  end.

End Insert.

(** ** Vocabulary of the statements about the policy *)
Module TwoQSpec.

(** [p] is pinned by nobody according to the state map. *)
Definition unfixed (m : gmap PageID PageState) (p : PageID) : Prop :=
  m !! p = Some PAGE_UNFIXED.

(** Walking [q] from its front, [victim] is the first unfixed page, and
    [rest] is [q] without that node. *)
Definition first_unfixed (m : gmap PageID PageState) (q : list PageID)
    (victim : PageID) (rest : list PageID) : Prop :=
  ∃ pre post, q = pre ++ victim :: post ∧ rest = pre ++ post ∧
              unfixed m victim ∧ ∀ p, p ∈ pre → ¬ unfixed m p.

(** [q'] is [q] with the node of [p] taken out. *)
Definition taken_out (p : PageID) (q q' : list PageID) : Prop :=
  ∃ pre post, q = pre ++ p :: post ∧ q' = pre ++ post.

End TwoQSpec.

(** ** Vocabulary of the statements about fields *)
Module FieldSpec.
Import Text Fields.

(** Lexicographic order on byte strings: a proper prefix comes first,
    otherwise the first differing byte decides. *)
Inductive lex_lt : text → text → Prop :=
| lex_prefix (y : ascii) (b : text) : lex_lt [] (y :: b)
| lex_head (x y : ascii) (a b : text) :
    (N_of_ascii x < N_of_ascii y)%N → lex_lt (x :: a) (y :: b)
| lex_tail (x : ascii) (a b : text) : lex_lt a b → lex_lt (x :: a) (x :: b).

(** Same type and same value; two floats have the same value when IEEE
    equality holds of them. *)
Definition same_value (a b : Field) : Prop :=
  match a, b with
  | IntField x, IntField y => x = y
  | FloatField x, FloatField y => SFeqb x y = true
  | StringField x, StringField y => x = y
  | _, _ => False
  end.

(** The order of the values of one type; strings are compared as the
    C strings that [asString()] reads from the buffers. *)
Definition value_lt (a b : Field) : Prop :=
  match a, b with
  | IntField x, IntField y => x < y
  | FloatField x, FloatField y => SFltb x y = true
  | StringField x, StringField y => lex_lt (c_str x) (c_str y)
  | _, _ => False
  end.

(** The comparison policy as the specification words it: the type ordinal
    decides first (int < float < string), the value order within a type. *)
Definition spec_lt (a b : Field) : Prop :=
  type_ordinal (getType a) < type_ordinal (getType b) ∨
  (getType a = getType b ∧ value_lt a b).

(** The binary32 number 3.0. *)
Definition three : spec_float := S754_finite false 12582912 (-22).

End FieldSpec.

(** ** Vocabulary of the statements about serialization *)
Module TupleSpec.
Import Text IStream Fields Tuples.

Definition whitespace_free (s : text) : Prop :=
  Forall (fun c => isspace c = false) s.

Definition nul_free (s : text) : Prop :=
  Forall (fun c => c ≠ Ascii.zero) s.

Definition blank (ws : text) : Prop := Forall (fun c => isspace c = true) ws.

(** A stream on which nothing went wrong so far. *)
Definition fresh (b : text) : istream :=
  {| buf := b; eofbit := false; failbit := false |}.

(** The text that the inserter writes for [x], when a space follows it, is
    extracted as [x] again, up to that space. *)
Definition float_text_exact `{FloatText} (x : spec_float) : Prop :=
  ∀ ws rest, blank ws →
    extract_float (fresh (ws ++ num_put_float x ++ " "%char :: rest))
    = (Some x, fresh (" "%char :: rest)).

(** The value fits the C++ type that holds it: an [int] is a 32-bit number,
    a [data_length] a [size_t]. *)
Definition field_fits (f : Field) : Prop :=
  match f with
  | IntField i => INT_MIN <= i <= INT_MAX
  | FloatField _ => True
  | StringField s => data_length f <= SIZE_MAX
  end.

(** What the text format needs of a field to give it back. *)
Definition field_survives `{FloatText} (f : Field) : Prop :=
  match f with
  | IntField _ => True
  | FloatField x => float_text_exact x
  | StringField s => s ≠ [] ∧ whitespace_free s ∧ nul_free s
  end.

(** Every string field of the tuple is whitespace-free. *)
Definition strings_whitespace_free (t : Tuple) : Prop :=
  ∀ s, Some (StringField s) ∈ fields t → whitespace_free s.

(** The results of decoding [fs] one after the other, from stream state
    [s] to stream state [s']. *)
Inductive decodes `{FloatText} : istream → list (option Field) → istream → Prop :=
| decodes_nil (s : istream) : decodes s [] s
| decodes_cons (s s1 s2 : istream) (f : option Field) (fs : list (option Field)) :
    Fields.deserialize s = Returns (f, s1) → decodes s1 fs s2 →
    decodes s (f :: fs) s2.

(** The text of the value of a field, as [serialize] writes it. *)
Definition value_text `{FloatText} (f : Field) : text :=
  match f with
  | StringField s => c_str s
  | IntField i => show_int i
  | FloatField x => num_put_float x
  end.

(** The tuples and the input on which the statements below are evaluated. *)
Definition empty_string_then_int : Tuple :=
  {| fields := [Some (StringField []); Some (IntField 5)] |}.

Definition int_and_string : Tuple :=
  {| fields := [Some (IntField 42);
                Some (StringField (list_ascii_of_string "noSpacesHere"))] |}.

Definition unknown_tag_input : text := list_ascii_of_string "1 7 4 x ".

(** A text conversion that converts no float at all, for evaluating the
    functions on inputs without FLOAT fields. *)
Definition no_float_text : FloatText :=
  {| num_put_float := fun _ => []; num_get_float := fun b => (None, b) |}.

Definition chars (s : string) : text := list_ascii_of_string s.

(** Whether a field decode finds what it reads without an initialiser: the
    type tag, and the value of an INT or a FLOAT field. *)
Definition reads_what_it_uses `{FloatText} (s : istream) : bool :=
  match extract_int s with
  | (None, _) => false
  | (Some type_int, s1) =>
      let s2 := snd (extract_size_t s1) in
      if type_int =? type_ordinal INT then
        match fst (extract_int s2) with Some _ => true | None => false end
      else if type_int =? type_ordinal FLOAT then
        match fst (extract_float s2) with Some _ => true | None => false end
      else true
  end.

(** The same for [n] decodes in a row, each from the stream state that the
    one before it left. *)
Fixpoint all_read `{FloatText} (n : nat) (s : istream) : bool :=
  match n with
  | O => true
  | S n' =>
      reads_what_it_uses s &&
      match Fields.deserialize s with
      | Returns (_, s') => all_read n' s'
      | _ => false
      end
  end.

End TupleSpec.

(** ** Vocabulary of the statements about pages *)
Module PageSpec.
Import Page.

(** An emptied entry whose retained length admits [size] bytes. *)
Definition reusable (p : SlottedPage) (size i : Z) : Prop :=
  0 <= i < MAX_SLOTS ∧ emptied p i ∧ size <= slot_length p i.

(** An entry of the directory that was never used. *)
Definition unused (p : SlottedPage) (i : Z) : Prop :=
  0 <= i < MAX_SLOTS ∧ never_used p i.

(** [i] is the first index, counting from 0, that satisfies [P]. *)
Definition first_such (P : Z → Prop) (i : Z) : Prop :=
  P i ∧ ∀ j, 0 <= j < i → ¬ P j.

(** The two pages have the same slot directory. *)
Definition same_directory (p p' : SlottedPage) : Prop :=
  ∀ j, 0 <= j < MAX_SLOTS → slot_at p' j = slot_at p j.

(** The tests of the two search loops of [addTuple]. *)
Definition fits_test (p : SlottedPage) (size : Z) (i : Z) : bool :=
  slot_empty p i && (size <=? slot_length p i).
Definition fresh_test (p : SlottedPage) (i : Z) : bool :=
  slot_empty p i && (slot_offset p i =? INVALID_VALUE).

(** A tuple with the single field 42. *)
Definition tuple_42 : Tuples.Tuple :=
  {| Tuples.fields := [Some (Fields.IntField 42)] |}.

(** All entries in [first, first + n) satisfy the boolean test. *)
Definition all_slots (test : Z → bool) (n : nat) : bool :=
  forallb test (map Z.of_nat (seq 0 n)).

(** A page whose directory the page operations do not produce: slot 0 was
    never used, slot 1 is an emptied slot at offset 3500 that keeps 100
    bytes. *)
Definition misplaced_page : SlottedPage :=
  set_slot_length (set_slot_offset new_page 1 3500) 1 100.

(** The page after the tuple (42) was added to a new page, and after it
    was added once more: what [addTuple] returns (see [tuple_42_fits] and
    [tuple_42_fits_again]). *)
Definition bytes_42 : list Z := map byte_of_char (TupleSpec.chars "1 0 4 42 ").

Definition page_with_42 : SlottedPage :=
  memcpy (set_slot_length
            (set_slot_offset (set_slot_empty new_page 0 false) 0 metadata_size)
            0 9)
         metadata_size bytes_42.

Definition page_with_two : SlottedPage :=
  memcpy (set_slot_length
            (set_slot_offset (set_slot_empty page_with_42 1 false) 1
                             (metadata_size + 9))
            1 9)
         (metadata_size + 9) bytes_42.

End PageSpec.

(** ** Vocabulary of the statements about the file *)
Module StorageSpec.
Import Storage.

(** A file that holds nothing yet. *)
Definition empty_file : StorageManager := {| fileStream := []; num_pages := 0 |}.

(** The buffer consists of zero bytes only. *)
Definition all_zero (bytes : list Z) : Prop := Forall (fun b => b = 0) bytes.

(** The image of a default-constructed page: 512 directory entries, each
    with [empty] = 1, a padding byte and [offset] = [length] = 0xFFFF,
    followed by a tuple area of zero bytes. *)
Definition empty_page_image : list Z :=
  concat (replicate 512%nat [1; 0; 255; 255; 255; 255]) ++ replicate 1024%nat 0.

End StorageSpec.

(** ** Vocabulary of the statements about the insert operator *)
Module InsertSpec.
Import Page Storage Buffer Insert.

(** A page on which [addTuple] runs into none of its assertions: it is
    well formed, and either every handed-out entry lies in the tuple area
    (as on a page that started empty) or every entry is handed out with
    length 0 (as on a page of zero bytes). *)
Definition sound (p : SlottedPage) : Prop :=
  Page.wf p ∧
  ((∀ i, 0 <= i < MAX_SLOTS → slot_offset p i ≠ INVALID_VALUE →
         metadata_size <= slot_offset p i)
   ∨
   (∀ i, 0 <= i < MAX_SLOTS →
         slot_offset p i ≠ INVALID_VALUE ∧ slot_length p i = 0)).

(** The calls of one attempt on page [i] that did not take the tuple. *)
Definition refused (i : Z) : list call :=
  [FixPage i true; AddTuple i false; UnfixPage i false].

(** The calls of the attempts on pages 0 .. k-1, none of which took it. *)
Definition refused_upto (k : nat) : list call :=
  concat (map (fun i => refused (Z.of_nat i)) (seq 0 k)).

(** The operator over a manager of two frames on a fresh file, with the
    tuple (42) staged. *)
Definition small_operator : InsertOperator :=
  {| buffer_manager_ := Buffer.new 2 (Storage.open true []);
     tuple_to_insert_ := Some PageSpec.tuple_42;
     trace := [] |}.

End InsertSpec.

(** ** The LRU replacement policy *)
Module LRU.

(** lru_policy.h: [lru_list_] (front = least recently used) and [page_map_],
    the map from a page id to the iterator of its list node; as in [TwoQ]
    the model keeps the key set and addresses the node by the page id. *)
Record LRUPolicy : Type := {
  lru_list_ : list PageID;
  page_map_ : gset PageID
}.

(** [LRUPolicy() = default]. *)
Definition empty_policy : LRUPolicy := {| lru_list_ := []; page_map_ := ∅ |}.

(** [bool touch(PageID page_id)]. *)
Definition touch (page_id : PageID) (s : LRUPolicy) : bool * LRUPolicy :=
  if decide (page_id ∈ page_map_ s) then
    (* lru_list_.splice(lru_list_.end(), lru_list_, it->second); *)
    (true, {| lru_list_ := TwoQ.unlink page_id (lru_list_ s) ++ [page_id];
              page_map_ := page_map_ s |})
  else
    (* lru_list_.push_back(page_id); page_map_[page_id] = --lru_list_.end(); *)
    (false, {| lru_list_ := lru_list_ s ++ [page_id];
               page_map_ := {[page_id]} ∪ page_map_ s |}).

(** [PageID evict()]. *)
Definition evict (s : LRUPolicy) : outcome (PageID * LRUPolicy) :=
  match lru_list_ s with
  | [] => Throws std_runtime_error
  | victim :: rest =>
      (* page_map_.erase(victim); lru_list_.pop_front(); *)
      Returns (victim, {| lru_list_ := rest;
                          page_map_ := page_map_ s ∖ {[victim]} |})
  end.

(** [contains], [size], [empty], [get_list], [remove]. *)
Definition contains (page_id : PageID) (s : LRUPolicy) : bool :=
  bool_decide (page_id ∈ page_map_ s).

Definition size (s : LRUPolicy) : nat := length (lru_list_ s).

Definition empty (s : LRUPolicy) : bool :=
  match lru_list_ s with [] => true | _ :: _ => false end.

Definition get_list (s : LRUPolicy) : list PageID := lru_list_ s.

Definition remove (page_id : PageID) (s : LRUPolicy) : LRUPolicy :=
  if decide (page_id ∈ page_map_ s) then
    {| lru_list_ := TwoQ.unlink page_id (lru_list_ s);
       page_map_ := page_map_ s ∖ {[page_id]} |}
  else s.

(** The representation invariant of the class: the index holds exactly the
    pages of the list, and no page is linked twice. *)
Record wf (s : LRUPolicy) : Prop := {
  wf_nodup : NoDup (lru_list_ s);
  wf_index : ∀ p, p ∈ page_map_ s ↔ p ∈ lru_list_ s
}.

(** A run of [touch] calls, left to right. *)
Definition touch_all (ps : list PageID) (s : LRUPolicy) : LRUPolicy :=
  fold_left (fun acc p => snd (touch p acc)) ps s.

End LRU.

(** ** [TwoQPolicy::evict()], the override that ignores pin states *)
Module TwoQSimple.
Import TwoQ.

(** [PageID evict() override]. *)
Definition evict (s : TwoQPolicy) : outcome (PageID * TwoQPolicy) :=
  match fifo_queue_ s with
  | victim :: rest =>
      (* fifo_map_.erase(victim); fifo_queue_.pop_front(); *)
      Returns (victim,
               {| fifo_queue_ := rest; fifo_map_ := fifo_map_ s ∖ {[victim]};
                  lru_queue_ := lru_queue_ s; lru_map_ := lru_map_ s |})
  | [] =>
      match lru_queue_ s with
      | victim :: rest =>
          (* lru_map_.erase(victim); lru_queue_.pop_front(); *)
          Returns (victim,
                   {| fifo_queue_ := fifo_queue_ s; fifo_map_ := fifo_map_ s;
                      lru_queue_ := rest; lru_map_ := lru_map_ s ∖ {[victim]} |})
      | [] => Throws std_runtime_error
      end
  end.

End TwoQSimple.

(** ** Vocabulary of the statements about touch histories *)
Module PolicySpec.

(** How often [p] was touched in the run [ps]. *)
Definition occurrences (p : PageID) (ps : list PageID) : nat :=
  length (filter (fun q => q = p) ps).

(** The pages of [ps] that it names exactly once, in the order of [ps]. *)
Definition touched_once (ps : list PageID) : list PageID :=
  filter (fun p => occurrences p ps = 1%nat) ps.

(** The pages that [ps] names more than once, each at its last position. *)
Definition touched_again (ps : list PageID) : list PageID :=
  remove_dups (filter (fun p => (2 <= occurrences p ps)%nat) ps).

(** Every page that the policy tracks is unfixed in the state map. *)
Definition all_unfixed (m : gmap PageID PageState) (s : TwoQ.TwoQPolicy) : Prop :=
  ∀ p, p ∈ TwoQ.fifo_queue_ s ++ TwoQ.lru_queue_ s → m !! p = Some PAGE_UNFIXED.

End PolicySpec.

(** ** Record identifiers *)
Module Rid.

(** common/types.h: [struct RID { PageID page_id; SlotID slot_id; }], both
    [uint16_t]. *)
Record RID : Type := { page_id : Z; slot_id : Z }.

(** [bool operator==(const RID& other) const] and [operator!=]. *)
Definition op_eq (a b : RID) : bool :=
  (page_id a =? page_id b) && (slot_id a =? slot_id b).
Definition op_ne (a b : RID) : bool := negb (op_eq a b).

(** The argument that [std::hash<RID>] hands to [hash<uint32_t>]:
    [(static_cast<uint32_t>(rid.page_id) << 16) | rid.slot_id]. *)
Definition hash_key (rid : RID) : Z :=
  Z.lor (Z.shiftl (page_id rid) 16 mod 2^32) (slot_id rid).

(** The members hold 16-bit values. *)
Definition in_range (rid : RID) : Prop :=
  0 <= page_id rid < 65536 ∧ 0 <= slot_id rid < 65536.

End Rid.

(** ** Predicates over tuples *)
Module Predicate.
Import Text Fields.

(** predicate.h: [using TupleFields = std::vector<std::unique_ptr<Field>>]. *)
Abbreviation TupleFields := (list (option Field)) (only parsing).

Inductive OperandType : Type := DIRECT | INDIRECT.
Inductive ComparisonOperator : Type := EQ | NE | GT | GE | LT | LE.
Inductive LogicOperator : Type := AND | OR.

(** [struct Operand]: [direct_value] ([None] = null), [index], [type]. *)
Record Operand : Type := {
  direct_value : option Field;
  index        : Z;
  type         : OperandType
}.

(** [explicit Operand(std::unique_ptr<Field> value)] and
    [explicit Operand(size_t column_index)]. *)
Definition direct (value : option Field) : Operand :=
  {| direct_value := value; index := 0; type := DIRECT |}.
Definition indirect (column_index : Z) : Operand :=
  {| direct_value := None; index := column_index; type := INDIRECT |}.

(** The lines that [check] writes to [std::cerr]. *)
Definition invalid_reference_msg : string :=
  ("Error: Invalid field reference in predicate" ++ newline)%string.
Definition type_mismatch_msg : string :=
  ("Error: Type mismatch in predicate comparison" ++ newline)%string.

(** The six operators of a type that [compare<T>] is instantiated at. *)
Class Comparable (T : Type) : Type := {
  cmp_eq : T → T → bool;
  cmp_ne : T → T → bool;
  cmp_gt : T → T → bool;
  cmp_ge : T → T → bool;
  cmp_lt : T → T → bool;
  cmp_le : T → T → bool
}.

(** [int]. *)
Global Instance Comparable_int : Comparable Z := {|
  cmp_eq := Z.eqb; cmp_ne := fun a b => negb (a =? b);
  cmp_gt := Z.gtb; cmp_ge := Z.geb; cmp_lt := Z.ltb; cmp_le := Z.leb
|}.

(** [float]. *)
Global Instance Comparable_float : Comparable spec_float := {|
  cmp_eq := SFeqb; cmp_ne := fun a b => negb (SFeqb a b);
  cmp_gt := fun a b => SFltb b a; cmp_ge := fun a b => SFleb b a;
  cmp_lt := SFltb; cmp_le := SFleb
|}.

(** [std::string]. *)
Global Instance Comparable_string : Comparable text := {|
  cmp_eq := fun a b => is_eq (string_compare a b);
  cmp_ne := fun a b => negb (is_eq (string_compare a b));
  cmp_gt := fun a b => is_gt (string_compare a b);
  cmp_ge := fun a b => negb (is_lt (string_compare a b));
  cmp_lt := fun a b => is_lt (string_compare a b);
  cmp_le := fun a b => negb (is_gt (string_compare a b))
|}.

(** [template<typename T> bool compare(const T& left, const T& right) const]. *)
Definition compare {T} `{Comparable T} (comparison_op_ : ComparisonOperator)
    (left right : T) : bool :=
  match comparison_op_ with
  | EQ => cmp_eq left right
  | NE => cmp_ne left right
  | GT => cmp_gt left right
  | GE => cmp_ge left right
  | LT => cmp_lt left right
  | LE => cmp_le left right
  end.

(** [const Field* resolveOperand(const Operand& op, const TupleFields& tuple) const]. *)
Definition resolveOperand (op : Operand) (tuple : TupleFields) : option Field :=
  match type op with
  | DIRECT => direct_value op
  | INDIRECT =>
      if Z.of_nat (length tuple) <=? index op then None
      else match tuple !! Z.to_nat (index op) with
           | Some field => field
           | None => None
           end
  end.

(** [SimplePredicate::check]: the result and the lines written to
    [std::cerr].  [asString()] of a STRING field is the C string of its
    buffer. *)
Definition check_simple (left_operand_ right_operand_ : Operand)
    (comparison_op_ : ComparisonOperator) (tuple_fields : TupleFields)
  : bool * list string :=
  match resolveOperand left_operand_ tuple_fields,
        resolveOperand right_operand_ tuple_fields with
  | Some left_field, Some right_field =>
      match left_field, right_field with
      | IntField a, IntField b => (compare comparison_op_ a b, [])
      | FloatField a, FloatField b => (compare comparison_op_ a b, [])
      | StringField a, StringField b =>
          (compare comparison_op_ (c_str a) (c_str b), [])
      | _, _ => (false, [type_mismatch_msg])
      end
  | _, _ => (false, [invalid_reference_msg])
  end.

(** The classes that implement [IPredicate]. *)
#[warnings="-register-all"]
Inductive IPredicate : Type :=
| SimplePredicate (left_operand_ right_operand_ : Operand)
                  (comparison_op_ : ComparisonOperator)
| ComplexPredicate (logic_op_ : LogicOperator) (predicates_ : list IPredicate).

(** [bool check(const TupleFields& tuple_fields) const], the virtual call
    resolved by the class of the predicate; for a [ComplexPredicate] the two
    [for] loops return at the first predicate that decides the result. *)
Fixpoint check (p : IPredicate) (tuple_fields : TupleFields) {struct p}
  : bool * list string :=
  match p with
  | SimplePredicate left_operand_ right_operand_ comparison_op_ =>
      check_simple left_operand_ right_operand_ comparison_op_ tuple_fields
  | ComplexPredicate logic_op_ predicates_ =>
      match predicates_ with
      | [] => (true, [])
      | _ :: _ =>
          match logic_op_ with
          | AND =>
              (fix loop (preds : list IPredicate) : bool * list string :=
                 match preds with
                 | [] => (true, [])
                 | pred :: rest =>
                     let (holds, out) := check pred tuple_fields in
                     if holds
                     then let (b, out') := loop rest in (b, out ++ out')
                     else (false, out)
                 end) predicates_
          | OR =>
              (fix loop (preds : list IPredicate) : bool * list string :=
                 match preds with
                 | [] => (false, [])
                 | pred :: rest =>
                     let (holds, out) := check pred tuple_fields in
                     if holds then (true, out)
                     else let (b, out') := loop rest in (b, out ++ out')
                 end) predicates_
          end
      end
  end.

End Predicate.

(** ** Vocabulary of the statements about predicates *)
Module PredicateSpec.
Import Text Fields Predicate.

(** The predicates of a loop that are evaluated: all up to and including
    the first one on which [stop] holds. *)
Fixpoint evaluated {A} (stop : A → bool) (l : list A) : list A :=
  match l with
  | [] => []
  | x :: l' => if stop x then [x] else x :: evaluated stop l'
  end.

(** The field operator that a comparison operator names. *)
Definition field_operator (op : ComparisonOperator)
  : Field → Field → outcome bool * list string :=
  match op with
  | EQ => Fields.op_eq | NE => Fields.op_ne | GT => Fields.op_gt
  | GE => Fields.op_ge | LT => Fields.op_lt | LE => Fields.op_le
  end.

(** The comparison is not [EQ] on strings, or neither string holds a NUL
    byte: the cases in which [operator==], which compares the whole
    buffers, and [asString()], which stops at a NUL, look at the same
    bytes. *)
Definition same_bytes_compared (op : ComparisonOperator) (a b : Field) : Prop :=
  match op, a, b with
  | EQ, StringField x, StringField y => c_str x = x ∧ c_str y = y
  | _, _, _ => True
  end.

Definition is_float (f : Field) : bool :=
  match f with FloatField _ => true | _ => false end.

End PredicateSpec.

(** ** Vocabulary of the statements about the tuples of a page *)
Module PageRead.
Import Page.

(** The [len] bytes of the buffer from [off] on:
    [std::string(page_data.get() + off, len)]. *)
Definition bytes_at (p : SlottedPage) (off len : Z) : list Z :=
  take (Z.to_nat len) (drop (Z.to_nat off) p).

(** What a reader of slot [slot_id] gets from [getTupleData] and
    [getTupleLength]: the bytes of the tuple, [None] for a null pointer. *)
Definition tuple_bytes (slot_id : Z) (p : SlottedPage) : option (list Z) :=
  match getTupleData slot_id p with
  | Some off => Some (bytes_at p off (getTupleLength slot_id p))
  | None => None
  end.

(** The handed-out entries are laid out back to back from [metadata_size]
    on: what [addTuple] and [deleteTuple] maintain on a page that started
    empty. *)
Definition packed (p : SlottedPage) : Prop :=
  List.length p = Z.to_nat PAGE_SIZE ∧
  Forall (fun b => 0 <= b < 256) p ∧
  ∃ k, 0 <= k <= MAX_SLOTS ∧
       (∀ i, 0 <= i < k → used_entry p i) ∧
       (∀ i, k <= i < MAX_SLOTS → fresh_entry p i) ∧
       (0 < k → slot_offset p 0 = metadata_size) ∧
       (∀ i, 0 < i < k →
             slot_offset p i = slot_offset p (i - 1) + slot_length p (i - 1)).

(** The slot is occupied. *)
Definition occupied (p : SlottedPage) (i : Z) : Prop :=
  0 <= i < MAX_SLOTS ∧ slot_empty p i = false.

End PageRead.

(** ** Vocabulary of the statements about an insertion *)
Module PageInsert.
Import Page PageRead.

(** [p'] is [p] with [bytes] stored in slot [c], which was free: the entry
    is occupied, it lies in the tuple area and admits the bytes, every
    other entry is what it was, and the tuple area differs only where the
    bytes were copied. *)
Definition inserted_at (p p' : SlottedPage) (c : Z) (bytes : list Z) : Prop :=
  0 <= c < MAX_SLOTS ∧ slot_empty p c = true ∧ slot_empty p' c = false ∧
  (∀ j, 0 <= j < MAX_SLOTS → j ≠ c → slot_at p' j = slot_at p j) ∧
  metadata_size <= slot_offset p' c ∧
  Z.of_nat (List.length bytes) <= slot_length p' c ∧
  slot_offset p' c + slot_length p' c < PAGE_SIZE ∧
  (∀ i : nat, metadata_size <= Z.of_nat i →
     p' !! i = if decide (slot_offset p' c <= Z.of_nat i
                          < slot_offset p' c + Z.of_nat (List.length bytes))
               then bytes !! (i - Z.to_nat (slot_offset p' c))%nat
               else p !! i).

(** Where the entry of an insertion lies: a reused entry keeps its offset
    and length; a first use continues behind the predecessor, or starts the
    tuple area, with the length of the bytes. *)
Definition placed (p p' : SlottedPage) (c : Z) (bytes : list Z) : Prop :=
  (slot_offset p c ≠ INVALID_VALUE →
     slot_offset p' c = slot_offset p c ∧ slot_length p' c = slot_length p c) ∧
  (slot_offset p c = INVALID_VALUE →
     (∀ i, 0 <= i < c → used_entry p i) ∧
     slot_offset p' c = (if c =? 0 then metadata_size
                         else slot_offset p (c - 1) + slot_length p (c - 1)) ∧
     slot_length p' c = Z.of_nat (List.length bytes)).

(** Nothing was stored: the directory and the tuple area are what they
    were. *)
Definition untouched (p p' : SlottedPage) : Prop :=
  (∀ j, 0 <= j < MAX_SLOTS → slot_at p' j = slot_at p j) ∧
  (∀ i : nat, metadata_size <= Z.of_nat i → p' !! i = p !! i).

End PageInsert.

(** ** The destructor of the buffer manager *)
Module BufferEnd.
Import Page Storage Buffer.

(** [~BufferManager()]: the loop over the frames from [frame_id] on, with
    [steps] frames left; [flush_frame] is called for the frames that are
    not null. *)
Fixpoint flush_frames (frame_id : nat) (steps : nat) : M BufferManager unit :=
  match steps with
  | O => ret tt
  | S k =>
      let* bm := get in
      match buffer_pool_ bm !! frame_id with
      | Some (Some _) => flush_frame frame_id
      | Some None => ret tt
      | None => fun _ => Undefined
      end;;;
      flush_frames (S frame_id) k
  end.

(** [~BufferManager()]. *)
Definition destroy : M BufferManager unit :=
  let* bm := get in flush_frames 0 (List.length (buffer_pool_ bm)).

End BufferEnd.

(** ** Vocabulary of the statements about the buffer manager *)
Module BufferSpec.
Import Page Storage Buffer.

(** The page that is pinned, if any, and whether the pin is exclusive. *)
Abbreviation pin := (option (PageID * bool)) (only parsing).

(** The latch and the state of a resident page: held by the pin when it is
    the pinned page, free otherwise. *)
Definition latch_of (pinned : pin) (page_id : PageID) : latch :=
  match pinned with
  | Some (p, exclusive) =>
      if decide (p = page_id)
      then if exclusive then LockedExclusive else LockedShared 1
      else Unlocked
  | None => Unlocked
  end.

Definition state_of_pin (pinned : pin) (page_id : PageID) : PageState :=
  match pinned with
  | Some (p, exclusive) =>
      if decide (p = page_id)
      then if exclusive then PAGE_EXCLUSIVE else 1
      else PAGE_UNFIXED
  | None => PAGE_UNFIXED
  end.

(** The invariant of the buffer manager between two calls, while at most
    one page is pinned.  [good] is what the clients keep true of the
    pages; the file holds whole pages; the two maps have the
    same keys; every resident page sits in a frame of its own, inside the
    file, latched as the pin says; a frame that is not dirty holds what
    the file holds, unless it is pinned exclusively (its holder may be
    writing to it); the free frames are the frames of no page; resident
    pages are tracked by the policy. *)
Record inv (good : SlottedPage → Prop) (pinned : pin) (bm : BufferManager)
  : Prop := {
  inv_storage : Storage.wf (storage_manager_ bm);
  inv_room : num_pages (storage_manager_ bm) + 1 < UINT64_MOD;
  inv_file : ∀ k, 0 <= k < num_pages (storage_manager_ bm) →
                  good (page_of_file (storage_manager_ bm) k);
  inv_dom : ∀ pid, is_Some (page_state_ bm !! pid) ↔
                   is_Some (frame_of_page_ bm !! pid);
  inv_frames : ∀ pid fid, frame_of_page_ bm !! pid = Some fid →
      ∃ fr, buffer_pool_ bm !! fid = Some (Some fr) ∧ page_id_ fr = pid ∧
            good (page fr) ∧ mutex fr = latch_of pinned pid ∧
            0 <= pid < num_pages (storage_manager_ bm) ∧
            (is_dirty_ fr = false →
             pinned = Some (pid, true) ∨
             page fr = page_of_file (storage_manager_ bm) pid);
  inv_states : ∀ pid st, page_state_ bm !! pid = Some st →
                         st = state_of_pin pinned pid;
  inv_inj : ∀ p q fid, frame_of_page_ bm !! p = Some fid →
                       frame_of_page_ bm !! q = Some fid → p = q;
  inv_empty : ∀ fid, fid ∈ empty_slots_ bm →
      (fid < List.length (buffer_pool_ bm))%nat ∧
      ∀ pid, frame_of_page_ bm !! pid ≠ Some fid;
  inv_empty_nodup : NoDup (empty_slots_ bm);
  inv_cover : ∀ fid, (fid < List.length (buffer_pool_ bm))%nat →
      fid ∈ empty_slots_ bm ∨ ∃ pid, frame_of_page_ bm !! pid = Some fid;
  inv_tracked : ∀ pid, is_Some (page_state_ bm !! pid) →
      pid ∈ TwoQ.fifo_queue_ (policy_ bm) ++ TwoQ.lru_queue_ (policy_ bm);
  inv_capacity : (0 < List.length (buffer_pool_ bm))%nat
}.

(** A pin on nothing or on [pid]. *)
Definition pin_on (pid : PageID) (pinned : pin) : Prop :=
  pinned = None ∨ ∃ exclusive, pinned = Some (pid, exclusive).

(** The current contents of page [k] as the buffer manager's clients see
    them: the page of its frame when it is resident, the page of the file
    otherwise. *)
Definition view (bm : BufferManager) (k : PageID) : SlottedPage :=
  match frame_of_page_ bm !! k with
  | Some fid =>
      match buffer_pool_ bm !! fid with
      | Some (Some fr) => page fr
      | _ => page_of_file (storage_manager_ bm) k
      end
  | None => page_of_file (storage_manager_ bm) k
  end.

(** The frame that a call returned holds page [page_id] with contents [p]. *)
Definition holds (bm : BufferManager) (fid : nat) (page_id : PageID)
    (p : SlottedPage) : Prop :=
  frame_of_page_ bm !! page_id = Some fid ∧
  ∃ fr, buffer_pool_ bm !! fid = Some (Some fr) ∧ page_id_ fr = page_id ∧
        page fr = p.

(** The frame holds what the file holds for [page_id], unless it is marked
    dirty: its holder did not write to it without saying so. *)
Definition unmodified (bm : BufferManager) (fid : nat) (page_id : PageID)
  : Prop :=
  ∀ fr, buffer_pool_ bm !! fid = Some (Some fr) → is_dirty_ fr = false →
        page fr = page_of_file (storage_manager_ bm) page_id.

(** The frames on the free list are null pointers. *)
Definition tidy (bm : BufferManager) : Prop :=
  ∀ fid, fid ∈ empty_slots_ bm → buffer_pool_ bm !! fid = Some None.

(** A client that pins one page after the other and unfixes each as not
    modified. *)
Fixpoint visit (accesses : list (PageID * bool)) : M BufferManager unit :=
  match accesses with
  | [] => ret tt
  | (page_id, exclusive) :: rest =>
      let* frame := fix_page page_id exclusive in
      unfix_page frame false;;;
      visit rest
  end.

(** The only requirement on pages that the buffer manager itself has. *)
Definition whole_page (p : SlottedPage) : Prop :=
  List.length p = Z.to_nat PAGE_SIZE.

(** A client that overwrites the page of the frame that it holds:
    [*frame.page = p]. *)
Definition write_frame (frame_id : nat) (p : SlottedPage)
  : M BufferManager unit :=
  let* frame := deref frame_id in
  store_frame frame_id (set_page p frame).

(** No frame of the pool is marked dirty. *)
Definition all_clean (bm : BufferManager) : Prop :=
  ∀ fid fr, buffer_pool_ bm !! fid = Some (Some fr) → is_dirty_ fr = false.

(** A manager of one frame over a file of one page of zero bytes; the frame
    holds page 0, which a client replaced by an empty slotted page and
    unfixed as dirty. *)
Definition dirty_manager : BufferManager :=
  {| storage_manager_ := {| fileStream := zero_page; num_pages := 1 |};
     buffer_pool_ := [Some {| page_id_ := 0; is_dirty_ := true;
                              page := new_page; mutex := Unlocked |}];
     policy_ := {| TwoQ.fifo_queue_ := [0]; TwoQ.fifo_map_ := {[ 0 ]};
                   TwoQ.lru_queue_ := []; TwoQ.lru_map_ := ∅ |};
     empty_slots_ := [];
     frame_of_page_ := {[ 0 := 0%nat ]};
     page_state_ := {[ 0 := PAGE_UNFIXED ]};
     capacity_ := 1 |}.

End BufferSpec.

(** ** Pages as the insert operator keeps them *)
Module ProperPages.
Import Page InsertSpec.

(** Every [empty] flag holds 0 or 1, as after a store of a [bool]. *)
Definition canonical (p : SlottedPage) : Prop :=
  ∀ i, 0 <= i < MAX_SLOTS → load8 p (slot_addr i + offsetof_empty) <= 1.

Definition proper (p : SlottedPage) : Prop := sound p ∧ canonical p.

End ProperPages.

(** * Properties *)

(** ** The 2Q policy *)
Section TwoQ_facts.
Import TwoQ.

Lemma unlink_split (page_id : PageID) (pre post : list PageID) :
  page_id ∉ pre → unlink page_id (pre ++ page_id :: post) = pre ++ post.
Proof.
  induction pre as [|x pre IH]; intros Hnotin; simpl.
  - by rewrite decide_True.
  - rewrite decide_False; [|set_solver]. f_equal. apply IH. set_solver.
Qed.

Lemma unlink_absent (page_id : PageID) (q : list PageID) :
  page_id ∉ q → unlink page_id q = q.
Proof.
  induction q as [|x q IH]; intros Hnotin; simpl; [done|].
  rewrite decide_False; [|set_solver]. f_equal. apply IH. set_solver.
Qed.

Lemma elem_of_unlink (page_id p : PageID) (q : list PageID) :
  NoDup q → p ∈ unlink page_id q ↔ p ∈ q ∧ p ≠ page_id.
Proof.
  induction q as [|x q IH]; intros Hnd; simpl; [set_solver|].
  apply NoDup_cons in Hnd as [Hx Hnd]. case_decide as Hxp.
  - subst x. rewrite elem_of_cons. split.
    + intros Hp. split; [by right|]. by intros ->.
    + by intros [[->|Hp] Hne].
  - rewrite !elem_of_cons, IH by done. naive_solver.
Qed.

Lemma NoDup_unlink (page_id : PageID) (q : list PageID) :
  NoDup q → NoDup (unlink page_id q).
Proof.
  induction q as [|x q IH]; intros Hnd; simpl; [done|].
  apply NoDup_cons in Hnd as [Hx Hnd]. case_decide; [done|].
  apply NoDup_cons. split; [|by apply IH].
  rewrite elem_of_unlink by done. tauto.
Qed.

Lemma scan_queue_Some (m : gmap PageID PageState) (q : list PageID)
      (victim : PageID) (rest : list PageID) :
  scan_queue m q = Some (victim, rest) →
  ∃ pre post, q = pre ++ victim :: post ∧ rest = pre ++ post ∧
              m !! victim = Some PAGE_UNFIXED ∧
              ∀ p, p ∈ pre → m !! p ≠ Some PAGE_UNFIXED.
Proof.
  revert rest. induction q as [|x q IH]; intros rest Hscan; simpl in Hscan; [done|].
  assert (Hcont : m !! x ≠ Some PAGE_UNFIXED →
                  match scan_queue m q with
                  | Some (v, r) => Some (v, x :: r)
                  | None => None
                  end = Some (victim, rest) →
                  ∃ pre post, x :: q = pre ++ victim :: post ∧ rest = pre ++ post ∧
                    m !! victim = Some PAGE_UNFIXED ∧
                    ∀ p, p ∈ pre → m !! p ≠ Some PAGE_UNFIXED).
  { intros Hx Hc. destruct (scan_queue m q) as [[v r]|] eqn:Hq; [|done].
    injection Hc as -> <-. destruct (IH r eq_refl) as (pre & post & -> & -> & Hv & Hpre).
    exists (x :: pre), post. repeat split; [done|].
    intros p [->|Hp]%elem_of_cons; auto. }
  destruct (m !! x) as [st|] eqn:Hx; [|by apply Hcont].
  destruct (st =? PAGE_UNFIXED) eqn:Hst.
  - injection Hscan as -> <-. apply Z.eqb_eq in Hst as ->.
    exists [], q. repeat split; [done|]. intros p Hp. by apply elem_of_nil in Hp.
  - apply Hcont; [|done]. apply Z.eqb_neq in Hst. by intros [=].
Qed.

Lemma scan_queue_None (m : gmap PageID PageState) (q : list PageID) :
  scan_queue m q = None ↔ ∀ p, p ∈ q → m !! p ≠ Some PAGE_UNFIXED.
Proof.
  induction q as [|x q IH]; simpl.
  - split; [|done]. intros _ p Hp. by apply elem_of_nil in Hp.
  - split.
    + intros Hscan p Hp.
      destruct (m !! x) as [st|] eqn:Hx.
      * destruct (st =? PAGE_UNFIXED) eqn:Hst; [done|].
        destruct (scan_queue m q) as [[v r]|]; [done|].
        apply elem_of_cons in Hp as [->|Hp]; [|by apply IH].
        apply Z.eqb_neq in Hst. rewrite Hx. by intros [=].
      * destruct (scan_queue m q) as [[v r]|]; [done|].
        apply elem_of_cons in Hp as [->|Hp]; [by rewrite Hx|by apply IH].
    + intros Hall.
      assert (Hq : scan_queue m q = None).
      { apply IH. intros p Hp. apply Hall. by right. }
      rewrite Hq. destruct (m !! x) as [st|] eqn:Hx; [|done].
      destruct (st =? PAGE_UNFIXED) eqn:Hst; [|done].
      apply Z.eqb_eq in Hst as ->. exfalso. apply (Hall x); [by left|done].
Qed.

Lemma empty_policy_wf : wf empty_policy.
Proof. split; simpl; try apply NoDup_nil_2; set_solver. Qed.

Lemma touch_wf (page_id : PageID) (s : TwoQPolicy) :
  wf s → wf (snd (touch page_id s)).
Proof.
  intros [Hf Hl Hfi Hli Hd]. unfold touch.
  destruct (decide (page_id ∈ fifo_map_ s)) as [Hin|Hnin]; simpl.
  - assert (page_id ∉ lru_queue_ s) by (apply Hd, Hfi, Hin).
    split; simpl.
    + by apply NoDup_unlink.
    + apply NoDup_app. repeat split; [done| |apply NoDup_singleton].
      intros x Hx Hx'. apply list_elem_of_singleton in Hx'. by subst.
    + intros p. rewrite elem_of_unlink by done. rewrite <- Hfi. set_solver.
    + intros p. rewrite elem_of_app, list_elem_of_singleton, <- Hli. set_solver.
    + intros p. rewrite elem_of_unlink by done. intros [Hp Hne].
      rewrite elem_of_app, list_elem_of_singleton. intros [Hp'|?]; [|done].
      by apply (Hd p).
  - destruct (decide (page_id ∈ lru_map_ s)) as [Hin'|Hnin']; simpl.
    + split; simpl; [done| | done | |].
      * apply NoDup_app. repeat split; [by apply NoDup_unlink| |apply NoDup_singleton].
        intros x Hx Hx'. apply list_elem_of_singleton in Hx'. subst.
        apply elem_of_unlink in Hx; [tauto|done].
      * intros p. rewrite elem_of_app, list_elem_of_singleton, elem_of_unlink by done.
        rewrite Hli. destruct (decide (p = page_id)) as [->|]; [|tauto].
        apply Hli in Hin'. tauto.
      * intros p Hp. rewrite elem_of_app, list_elem_of_singleton, elem_of_unlink by done.
        intros [[Hp' _]|Heq]; [by apply (Hd p)|]. subst p. apply Hnin, Hfi, Hp.
    + split; simpl; [| done | | done |].
      * apply NoDup_app. repeat split; [done| |apply NoDup_singleton].
        intros x Hx Hx'. apply list_elem_of_singleton in Hx'. subst.
        apply Hnin, Hfi, Hx.
      * intros p. rewrite elem_of_app, list_elem_of_singleton, <- Hfi. set_solver.
      * intros p. rewrite elem_of_app, list_elem_of_singleton.
        intros [Hp|Heq]; [by apply Hd|]. subst p. intros Hp. apply Hnin', Hli, Hp.
Qed.

End TwoQ_facts.

Section TwoQ_claims.
Import TwoQ TwoQSpec.

(** C1: [evict(state_map)] returns the first page, scanning FIFO from its
    front and then LRU from its front, whose state in the map is UNFIXED,
    and removes that node from its queue; the page returned is never
    EXCLUSIVE nor SHARED(n > 0); the call ends with [buffer_full_error]
    exactly when no page of the two queues is UNFIXED, and it ends in no
    other way. *)
Theorem C1_evict_first_unfixed (m : gmap PageID PageState) (s : TwoQPolicy) :
  match evict m s with
  | Returns (victim, s') =>
      unfixed m victim ∧
      m !! victim ≠ Some PAGE_EXCLUSIVE ∧
      (∀ n, 0 < n → m !! victim ≠ Some n) ∧
      ((first_unfixed m (fifo_queue_ s) victim (fifo_queue_ s') ∧
        lru_queue_ s' = lru_queue_ s)
       ∨
       ((∀ p, p ∈ fifo_queue_ s → ¬ unfixed m p) ∧
        fifo_queue_ s' = fifo_queue_ s ∧
        first_unfixed m (lru_queue_ s) victim (lru_queue_ s')))
  | Throws e =>
      e = buffer_full_error ∧
      ∀ p, p ∈ fifo_queue_ s ++ lru_queue_ s → ¬ unfixed m p
  | _ => False
  end
  ∧ ((∀ p, p ∈ fifo_queue_ s ++ lru_queue_ s → ¬ unfixed m p) →
     evict m s = Throws buffer_full_error).
Proof.
  unfold evict, unfixed. split.
  - destruct (scan_queue m (fifo_queue_ s)) as [[victim rest]|] eqn:Hf.
    + destruct (scan_queue_Some _ _ _ _ Hf) as (pre & post & Hq & Hrest & Hv & Hpre).
      simpl. rewrite Hv. repeat split.
      * by intros [=].
      * intros n Hn [= <-]. unfold PAGE_UNFIXED in Hn. lia.
      * left. split; [|done]. by exists pre, post.
    + pose proof (proj1 (scan_queue_None _ _) Hf) as Hnone.
      destruct (scan_queue m (lru_queue_ s)) as [[victim rest]|] eqn:Hl.
      * destruct (scan_queue_Some _ _ _ _ Hl) as (pre & post & Hq & Hrest & Hv & Hpre).
        simpl. rewrite Hv. repeat split.
        -- by intros [=].
        -- intros n Hn [= <-]. unfold PAGE_UNFIXED in Hn. lia.
        -- right. repeat split; [done|]. by exists pre, post.
      * split; [done|]. intros p [Hp|Hp]%elem_of_app; [by apply Hnone|].
        by apply (proj1 (scan_queue_None _ _) Hl).
  - intros Hall.
    assert (Hf : scan_queue m (fifo_queue_ s) = None).
    { apply scan_queue_None. intros p Hp. apply Hall, elem_of_app. by left. }
    assert (Hl : scan_queue m (lru_queue_ s) = None).
    { apply scan_queue_None. intros p Hp. apply Hall, elem_of_app. by right. }
    by rewrite Hf, Hl.
Qed.

(** C2: in a policy state that satisfies the class invariant, [touch(page_id)]
    moves the page to the tail of LRU and returns true when it was in FIFO;
    moves it to the tail of LRU and returns true when it was in LRU;
    otherwise appends it to the tail of FIFO and returns false.  Starting
    from the empty policy, touch(1) .. touch(10) then touch(1) leaves
    FIFO = [2..10] and LRU = [1]. *)
Theorem C2_touch (page_id : PageID) (s : TwoQPolicy) (Hwf : wf s) :
  (page_id ∈ fifo_queue_ s →
     fst (touch page_id s) = true ∧
     taken_out page_id (fifo_queue_ s) (fifo_queue_ (snd (touch page_id s))) ∧
     lru_queue_ (snd (touch page_id s)) = lru_queue_ s ++ [page_id]) ∧
  (page_id ∈ lru_queue_ s →
     fst (touch page_id s) = true ∧
     fifo_queue_ (snd (touch page_id s)) = fifo_queue_ s ∧
     ∃ rest, taken_out page_id (lru_queue_ s) rest ∧
             lru_queue_ (snd (touch page_id s)) = rest ++ [page_id]) ∧
  (page_id ∉ fifo_queue_ s → page_id ∉ lru_queue_ s →
     fst (touch page_id s) = false ∧
     fifo_queue_ (snd (touch page_id s)) = fifo_queue_ s ++ [page_id] ∧
     lru_queue_ (snd (touch page_id s)) = lru_queue_ s) ∧
  (get_fifo_list (touch_all [1;2;3;4;5;6;7;8;9;10;1] empty_policy)
     = [2;3;4;5;6;7;8;9;10] ∧
   get_lru_list (touch_all [1;2;3;4;5;6;7;8;9;10;1] empty_policy) = [1]).
Proof.
  destruct Hwf as [Hf Hl Hfi Hli Hd].
  assert (Hsplit : ∀ q, NoDup q → page_id ∈ q →
                        taken_out page_id q (unlink page_id q)).
  { intros q Hnd Hin. apply list_elem_of_split in Hin as (pre & post & ->).
    exists pre, post. split; [done|]. apply unlink_split.
    apply NoDup_app in Hnd as (_ & Hdis & _). intros Hpre.
    apply (Hdis _ Hpre). by left. }
  split; [|split; [|split; [|split]]].
  - intros Hin. unfold touch. rewrite decide_True by (by apply Hfi). simpl.
    split; [done|]. split; [by apply Hsplit|done].
  - intros Hin. unfold touch.
    rewrite decide_False by (rewrite Hfi; intros Hx; by apply (Hd page_id)).
    rewrite decide_True by (by apply Hli). simpl.
    split; [done|]. split; [done|].
    exists (unlink page_id (lru_queue_ s)). split; [by apply Hsplit|done].
  - intros Hnf Hnl. unfold touch. rewrite decide_False by (by rewrite Hfi).
    by rewrite decide_False by (by rewrite Hli).
  - vm_compute. reflexivity.
  - vm_compute. reflexivity.
Qed.

(** The invariant holds after any run of [touch] from the empty policy. *)
Lemma touch_all_wf (ps : list PageID) (s : TwoQPolicy) :
  wf s → wf (touch_all ps s).
Proof.
  revert s. induction ps as [|p ps IH]; intros s Hwf; [done|].
  apply IH. by apply touch_wf.
Qed.

Lemma C2_touch_witness :
  wf (touch_all [7; 8; 9; 7] empty_policy) ∧
  fst (touch 8 (touch_all [7; 8; 9; 7] empty_policy)) = true ∧
  fifo_queue_ (snd (touch 8 (touch_all [7; 8; 9; 7] empty_policy))) = [9] ∧
  lru_queue_ (snd (touch 8 (touch_all [7; 8; 9; 7] empty_policy))) = [7; 8].
Proof.
  pose proof (C2_touch 8 (touch_all [7; 8; 9; 7] empty_policy)
                (touch_all_wf _ _ empty_policy_wf)) as (Hfifo & _).
  split; [exact (touch_all_wf _ _ empty_policy_wf)|].
  split; [apply Hfifo; vm_compute; apply list_elem_of_here|].
  split; vm_compute; reflexivity.
Defined.

End TwoQ_claims.

(** ** Fields: comparison and arithmetic *)
Section Field_claims.
Import Text Fields FieldSpec.

Lemma string_compare_lt (a b : text) :
  string_compare a b = Lt ↔ lex_lt a b.
Proof.
  revert b. induction a as [|x a IH]; intros [|y b]; simpl.
  - split; [done|]. inversion 1.
  - split; [intros _; constructor|done].
  - split; [done|]. inversion 1.
  - destruct (N.compare_spec (N_of_ascii x) (N_of_ascii y)) as [Heq|Hlt|Hgt].
    + assert (x = y) as ->.
      { rewrite <- (ascii_N_embedding x), <- (ascii_N_embedding y). by rewrite Heq. }
      rewrite IH. split; [by constructor|].
      inversion 1; subst; [lia|done].
    + split; [intros _; by constructor|done].
    + split; [done|]. inversion 1; subst; [lia|lia].
Qed.

(** C7 (counterexample): for an INT field and a STRING field the type
    ordinal says "less", yet [operator<] answers false and writes a line to
    [std::cerr]. *)
Lemma C7_counterexample :
  spec_lt (IntField 1) (StringField ["x"%char]) ∧
  op_lt (IntField 1) (StringField ["x"%char])
    = (Returns false, [incompatible_type_msg]).
Proof. split; [left; simpl; lia | reflexivity]. Qed.

(** C7 (amended): [a == b] holds exactly when [a] and [b] have the same type
    and the same value, and writes nothing; on two fields of one type [<]
    is the value order of that type (lexicographic byte comparison for
    strings) and writes nothing; on two fields of different types each of
    [!=], [<], [>], [<=], [>=] answers false and writes one line to
    [std::cerr]; no comparison fails. *)
Theorem C7_comparison_policy (a b : Field) :
  (∃ r, op_eq a b = (Returns r, []) ∧ (r = true ↔ same_value a b)) ∧
  (getType a = getType b →
     ∃ r, op_lt a b = (Returns r, []) ∧ (r = true ↔ value_lt a b)) ∧
  (getType a ≠ getType b →
     ¬ same_value a b ∧
     op_ne a b = (Returns false, [incompatible_type_msg]) ∧
     op_lt a b = (Returns false, [incompatible_type_msg]) ∧
     op_gt a b = (Returns false, [incompatible_type_msg]) ∧
     op_le a b = (Returns false, [incompatible_type_msg]) ∧
     op_ge a b = (Returns false, [incompatible_type_msg])) ∧
  (∀ op, op ∈ [op_eq; op_ne; op_lt; op_gt; op_le; op_ge] →
         ∃ r, fst (op a b) = Returns r).
Proof.
  split; [|split; [|split]].
  - destruct a as [x|x|x], b as [y|y|y]; simpl;
      try (exists false; split; [done|]; split; [done|tauto]).
    + exists (x =? y). split; [done|]. apply Z.eqb_eq.
    + exists (SFeqb x y). done.
    + exists (bool_decide (x = y)). split; [done|]. apply bool_decide_eq_true.
  - intros Hty. destruct a as [x|x|x], b as [y|y|y]; try discriminate; simpl.
    + exists (x <? y). split; [done|]. apply Z.ltb_lt.
    + exists (SFltb x y). done.
    + exists (is_lt (string_compare (c_str x) (c_str y))). split; [done|].
      rewrite <- string_compare_lt.
      destruct (string_compare (c_str x) (c_str y)); simpl; split; congruence.
  - intros Hty. destruct a as [x|x|x], b as [y|y|y]; try (by destruct Hty);
      simpl; (split; [tauto|done]).
  - intros op Hop. rewrite !elem_of_cons in Hop.
    destruct Hop as [->|[->|[->|[->|[->|[->|Hnil]]]]]];
      [..|by apply elem_of_nil in Hnil];
      destruct a, b; simpl; eauto.
Qed.

(** C8 (counterexample): adding an int to a FLOAT field does not fail; the
    field is returned as it was. *)
Lemma C8_counterexample :
  getType (FloatField three) ≠ INT ∧
  add_int (FloatField three) 1 = Returns (FloatField three).
Proof. split; [discriminate|reflexivity]. Qed.

(** C8 (amended): [f += n] with an int [n] returns [f] unchanged when the
    tag of [f] is not INT, and [f += x] with a float [x] returns [f]
    unchanged when the tag is not FLOAT; no error is raised.  When the tag
    matches, the stored value becomes the 32-bit sum (the exact sum when it
    fits an [int]), respectively the binary32 sum, and the tag stays. *)
Theorem C8_plus_assign (f : Field) (n : Z) (x : spec_float) :
  (getType f ≠ INT → add_int f n = Returns f) ∧
  (getType f ≠ FLOAT → add_float f x = Returns f) ∧
  (∀ i, f = IntField i →
        add_int f n = Returns (IntField (wrap_int (i + n))) ∧
        (IStream.INT_MIN <= i + n <= IStream.INT_MAX → wrap_int (i + n) = i + n)) ∧
  (∀ v, f = FloatField v →
        add_float f x = Returns (FloatField (float_add v x))) ∧
  (∀ f', add_int f n = Returns f' ∨ add_float f x = Returns f' →
         getType f' = getType f).
Proof.
  split; [|split; [|split; [|split]]].
  - by destruct f.
  - by destruct f.
  - intros i ->. split; [done|]. unfold wrap_int, IStream.INT_MIN, IStream.INT_MAX.
    intros Hrange. rewrite Z.mod_small; lia.
  - by intros v ->.
  - intros f' [Hadd|Hadd]; destruct f; simpl in Hadd; by injection Hadd as <-.
Qed.

End Field_claims.

(** ** Text serialization of fields and tuples *)
Section Text_facts.
Import Text IStream TupleSpec.

Lemma uint_of_chars_of_uint (d : Decimal.uint) :
  uint_of_chars (chars_of_uint d) = d.
Proof. induction d; simpl; congruence. Qed.

Lemma span_digits_chars (d : Decimal.uint) (c : ascii) (rest : text) :
  isdigit c = false →
  span isdigit (chars_of_uint d ++ c :: rest) = (chars_of_uint d, c :: rest).
Proof.
  intros Hc. induction d; simpl; [by rewrite Hc | ..]; by rewrite IHd.
Qed.

Lemma chars_of_uint_digits (d : Decimal.uint) :
  Forall (fun c => isdigit c = true) (chars_of_uint d).
Proof. induction d; simpl; constructor; done. Qed.

Lemma isdigit_not_space (c : ascii) : isdigit c = true → isspace c = false.
Proof.
  unfold isdigit, isspace. intros H. apply andb_true_iff in H as [H1 H2].
  apply Z.leb_le in H1, H2. apply orb_false_iff. split.
  - apply Z.eqb_neq. lia.
  - apply andb_false_iff. right. apply Z.leb_gt. lia.
Qed.

Lemma span_blank (ws : text) (c : ascii) (rest : text) :
  blank ws → isspace c = false →
  span isspace (ws ++ c :: rest) = (ws, c :: rest).
Proof.
  intros Hws Hc. induction Hws as [|w ws Hw _ IH]; simpl.
  - by rewrite Hc.
  - by rewrite Hw, IH.
Qed.

Lemma span_token (tok : text) (c : ascii) (rest : text) :
  whitespace_free tok → isspace c = true →
  span (fun c => negb (isspace c)) (tok ++ c :: rest) = (tok, c :: rest).
Proof.
  intros Htok Hc. induction Htok as [|x tok Hx _ IH]; simpl.
  - by rewrite Hc.
  - by rewrite Hx, IH.
Qed.

(** The sentry on a good stream whose buffer is blanks followed by a
    non-blank character. *)
Lemma sentry_skips (ws : text) (c : ascii) (rest : text) :
  blank ws → isspace c = false →
  sentry (fresh (ws ++ c :: rest)) = (true, fresh (c :: rest)).
Proof.
  intros Hws Hc. unfold sentry, fresh, good. simpl.
  by rewrite (span_blank _ _ _ Hws Hc).
Qed.

Lemma Z_of_uint_to_uint (p : positive) : Z.of_uint (Pos.to_uint p) = Z.pos p.
Proof. exact (DecimalZ.of_to (Z.pos p)). Qed.

(** The digits that [show_int] writes for a number that is not negative. *)
Lemma show_int_nonneg (z : Z) :
  0 <= z →
  ∃ d c cs, show_int z = chars_of_uint d ∧ chars_of_uint d = c :: cs ∧
            isdigit c = true ∧ Z.of_uint d = z.
Proof.
  intros Hz. destruct z as [|p|p]; [| |lia].
  - exists (Decimal.D0 Decimal.Nil), "0"%char, []. by repeat split.
  - exists (Pos.to_uint p).
    pose proof (chars_of_uint_digits (Pos.to_uint p)) as Hdig.
    pose proof (DecimalPos.Unsigned.to_uint_nonnil p) as Hnn.
    destruct (chars_of_uint (Pos.to_uint p)) as [|c cs] eqn:Hcs.
    + exfalso. apply Hnn. destruct (Pos.to_uint p); simpl in Hcs; congruence.
    + exists c, cs. apply Forall_cons in Hdig as [Hc _].
      unfold show_int. simpl. rewrite Hcs. repeat split; [done|].
      apply Z_of_uint_to_uint.
Qed.

Lemma show_int_neg (p : positive) :
  show_int (Z.neg p) = "-"%char :: chars_of_uint (Pos.to_uint p).
Proof. reflexivity. Qed.

Lemma get_digits_chars (d : Decimal.uint) (c0 : ascii) (cs : text) (rest : text) :
  chars_of_uint d = c0 :: cs →
  get_digits (chars_of_uint d ++ " "%char :: rest)
  = (Some (Z.of_uint d), " "%char :: rest).
Proof.
  intros Hne. unfold get_digits. rewrite span_digits_chars by done.
  rewrite Hne, <- Hne. by rewrite uint_of_chars_of_uint.
Qed.

(** Reading back a sign and digits that [show_int] wrote. *)
Lemma get_signed_show_int (z : Z) (rest : text) :
  get_signed (show_int z ++ " "%char :: rest)
  = (bool_decide (z < 0), Some (Z.abs z), " "%char :: rest).
Proof.
  destruct (decide (0 <= z)) as [Hz|Hz].
  - destruct (show_int_nonneg z Hz) as (d & c & cs & -> & Hcs & Hc & Hval).
    rewrite bool_decide_eq_false_2 by lia. rewrite Z.abs_eq by done.
    assert (Hget := get_digits_chars d c cs rest Hcs). rewrite Hval in Hget.
    unfold get_signed. rewrite Hcs in *. simpl app in *.
    assert (c ≠ "-"%char) by (intros ->; done).
    assert (c ≠ "+"%char) by (intros ->; done).
    destruct c as [[] [] [] [] [] [] [] []]; try done; by rewrite Hget.
  - destruct z as [|p|p]; [lia|lia|]. rewrite show_int_neg.
    rewrite bool_decide_eq_true_2 by lia. simpl.
    pose proof (DecimalPos.Unsigned.to_uint_nonnil p) as Hnn.
    destruct (chars_of_uint (Pos.to_uint p)) as [|c cs] eqn:Hcs.
    { exfalso. apply Hnn. destruct (Pos.to_uint p); simpl in Hcs; congruence. }
    rewrite <- Hcs. rewrite (get_digits_chars _ c cs) by done.
    by rewrite Z_of_uint_to_uint.
Qed.

Lemma show_int_first (z : Z) :
  ∃ c cs, show_int z = c :: cs ∧ isspace c = false.
Proof.
  destruct (decide (0 <= z)) as [Hz|Hz].
  - destruct (show_int_nonneg z Hz) as (d & c & cs & -> & Hcs & Hc & _).
    exists c, cs. split; [done|]. by apply isdigit_not_space.
  - destruct z as [|p|p]; [lia|lia|]. rewrite show_int_neg. by eexists _, _.
Qed.

Lemma extract_int_show (ws : text) (z : Z) (rest : text) :
  blank ws → INT_MIN <= z <= INT_MAX →
  extract_int (fresh (ws ++ show_int z ++ " "%char :: rest))
  = (Some z, fresh (" "%char :: rest)).
Proof.
  intros Hws Hz. destruct (show_int_first z) as (c & cs & Hshow & Hc).
  unfold extract_int. rewrite Hshow. simpl app.
  rewrite (sentry_skips _ _ _ Hws Hc). cbv iota. simpl buf.
  change (c :: cs ++ " "%char :: rest) with ((c :: cs) ++ " "%char :: rest).
  rewrite <- Hshow, get_signed_show_int.
  assert ((if bool_decide (z < 0) then - Z.abs z else Z.abs z) = z) as ->.
  { case_bool_decide; lia. }
  rewrite (proj2 (Z.ltb_ge _ _)) by lia.
  rewrite (proj2 (Z.ltb_ge _ _)) by lia. done.
Qed.

Lemma extract_size_t_show (ws : text) (z : Z) (rest : text) :
  blank ws → 0 <= z <= SIZE_MAX →
  extract_size_t (fresh (ws ++ show_int z ++ " "%char :: rest))
  = (Some z, fresh (" "%char :: rest)).
Proof.
  intros Hws Hz. destruct (show_int_first z) as (c & cs & Hshow & Hc).
  unfold extract_size_t. rewrite Hshow. simpl app.
  rewrite (sentry_skips _ _ _ Hws Hc). cbv iota. simpl buf.
  change (c :: cs ++ " "%char :: rest) with ((c :: cs) ++ " "%char :: rest).
  rewrite <- Hshow, get_signed_show_int.
  rewrite bool_decide_eq_false_2 by lia. rewrite Z.abs_eq by lia.
  rewrite (proj2 (Z.ltb_ge _ _)) by lia. done.
Qed.

Lemma extract_string_token (ws tok : text) (rest : text) :
  blank ws → tok ≠ [] → whitespace_free tok →
  extract_string (fresh (ws ++ tok ++ " "%char :: rest))
  = (Some tok, fresh (" "%char :: rest)).
Proof.
  intros Hws Hne Htok. destruct tok as [|c cs]; [done|].
  pose proof Htok as Htok'. apply Forall_cons in Htok' as [Hc _].
  unfold extract_string. simpl app. rewrite (sentry_skips _ _ _ Hws Hc).
  cbv iota. simpl buf.
  change (c :: cs ++ " "%char :: rest) with ((c :: cs) ++ " "%char :: rest).
  by rewrite span_token.
Qed.

Lemma c_str_nul_free (s : text) : nul_free s → Fields.c_str s = s.
Proof.
  unfold Fields.c_str. induction 1 as [|c s Hc _ IH]; simpl; [done|].
  rewrite (proj2 (Ascii.eqb_neq _ _) Hc). simpl.
  destruct (span _ s) as [tok rest]. simpl in *. by rewrite IH.
Qed.

End Text_facts.

Section Roundtrip.
Import Text IStream Fields TupleSpec.
Context `{FT : FloatText}.

Lemma extract_int_show1 (z : Z) (rest : text) :
  INT_MIN <= z <= INT_MAX →
  extract_int (fresh (" "%char :: show_int z ++ " "%char :: rest))
  = (Some z, fresh (" "%char :: rest)).
Proof. apply (extract_int_show [" "%char]). by repeat constructor. Qed.

Lemma extract_size_t_show1 (z : Z) (rest : text) :
  0 <= z <= SIZE_MAX →
  extract_size_t (fresh (" "%char :: show_int z ++ " "%char :: rest))
  = (Some z, fresh (" "%char :: rest)).
Proof. apply (extract_size_t_show [" "%char]). by repeat constructor. Qed.

Lemma serialize_app (f : Field) (rest : text) :
  serialize f ++ rest
  = show_int (type_ordinal (getType f)) ++ " "%char ::
    show_int (data_length f) ++ " "%char :: value_text f ++ " "%char :: rest.
Proof.
  unfold serialize. rewrite <- app_assoc. simpl. do 2 f_equal.
  rewrite <- app_assoc. simpl. do 2 f_equal.
  destruct f; simpl; by rewrite <- app_assoc.
Qed.

Lemma data_length_nonneg (f : Field) : 0 <= data_length f.
Proof. destruct f; simpl; lia. Qed.

(** Decoding what [serialize] wrote gives the field back and stops at the
    space that ends it. *)
Lemma field_roundtrip (f : Field) (ws rest : text) :
  blank ws → field_fits f → field_survives f →
  deserialize (fresh (ws ++ serialize f ++ rest))
  = Returns (Some f, fresh (" "%char :: rest)).
Proof.
  intros Hws Hfits Hsurv. rewrite serialize_app.
  unfold deserialize, bind, into_uninitialised, into_initialised, ret.
  rewrite (extract_int_show ws)
    by (done || (destruct f; unfold INT_MIN, INT_MAX; simpl; lia)).
  rewrite extract_size_t_show1.
  2:{ split; [apply data_length_nonneg|].
      destruct f; unfold field_fits, data_length, SIZE_MAX in *; lia. }
  destruct f as [i|x|s]; cbn [type_ordinal getType value_text]; cbv iota beta.
  - change (0 =? 2) with false. change (0 =? 0) with true. cbv iota beta.
    by rewrite extract_int_show1.
  - change (1 =? 2) with false. change (1 =? 0) with false.
    change (1 =? 1) with true. cbv iota beta.
    change (" "%char :: num_put_float x ++ " "%char :: rest)
      with ([" "%char] ++ num_put_float x ++ " "%char :: rest).
    by rewrite (Hsurv [" "%char] rest) by (by repeat constructor).
  - change (2 =? 2) with true. cbv iota beta.
    destruct Hsurv as (Hne & Hwsf & Hnul). rewrite c_str_nul_free by done.
    change (" "%char :: s ++ " "%char :: rest)
      with ([" "%char] ++ s ++ " "%char :: rest).
    by rewrite extract_string_token by (done || by repeat constructor).
Qed.

Lemma fields_roundtrip (fs : list (option Field)) (body : text)
      (acc : Tuples.Tuple) :
  Tuples.serialize_fields fs = Returns body →
  (∀ f, Some f ∈ fs → field_fits f ∧ field_survives f) →
  Tuples.deserialize_fields (length fs) acc (fresh (" "%char :: body))
  = Returns ({| Tuples.fields := Tuples.fields acc ++ fs |}, fresh [" "%char]).
Proof.
  revert body acc. induction fs as [|[f|] fs IH]; intros body acc Hser Hok.
  - injection Hser as <-. simpl. unfold ret. rewrite app_nil_r. by destruct acc.
  - simpl in Hser.
    destruct (Tuples.serialize_fields fs) as [body'| | | |] eqn:Hbody; try done.
    injection Hser as <-. simpl. unfold bind.
    destruct (Hok f) as [Hfits Hsurv]; [by left|].
    change (" "%char :: serialize f ++ body')
      with ([" "%char] ++ serialize f ++ body').
    rewrite field_roundtrip by (done || by repeat constructor).
    rewrite (IH body') by (done || (intros g Hg; apply Hok; by right)).
    simpl. by rewrite <- app_assoc.
  - done.
Qed.

Lemma serialize_fields_defined (fs : list (option Field)) :
  (∀ o, o ∈ fs → o ≠ None) → ∃ body, Tuples.serialize_fields fs = Returns body.
Proof.
  induction fs as [|[f|] fs IH]; intros Hnn.
  - by exists [].
  - destruct IH as [body Hbody]; [intros o Ho; apply Hnn; by right|].
    simpl. rewrite Hbody. by eexists.
  - exfalso. apply (Hnn None); [by left|done].
Qed.

End Roundtrip.

Section Serialization_claims.
Import Text IStream Fields Tuples TupleSpec.

(** C5 (counterexample): the tuple ("", 5) has no white space in its string
    field; it is written as "2 2 1  0 4 5 " and read back as a tuple whose
    first field is the string "0" and whose second field is null. *)
Lemma C5_counterexample :
  strings_whitespace_free empty_string_then_int ∧
  @Tuples.serialize no_float_text empty_string_then_int
    = Returns (chars "2 2 1  0 4 5 ") ∧
  @Tuples.deserialize no_float_text (istringstream (chars "2 2 1  0 4 5 "))
    = Returns ({| fields := [Some (StringField (chars "0")); None] |},
               fresh [" "%char]) ∧
  {| fields := [Some (StringField (chars "0")); None] |} ≠ empty_string_then_int.
Proof.
  split; [|split; [|split]].
  - intros s Hs. unfold empty_string_then_int in Hs. simpl in Hs.
    apply elem_of_cons in Hs as [[= ->]|Hs]; [constructor|].
    apply elem_of_cons in Hs as [[=]|Hs]. by apply elem_of_nil in Hs.
  - vm_compute. reflexivity.
  - vm_compute. reflexivity.
  - discriminate.
Qed.

(** C5 (amended): for every tuple without null fields whose values fit their
    C++ types, whose string fields are non-empty, free of white space and
    free of NUL, and whose float fields are written as text that converts
    back to the same float: the tuple serializes, and deserializing that
    text yields the same tuple (same arity, same fields). *)
Theorem C5_roundtrip `{FT : FloatText} (t : Tuple)
    (Hproper : ∀ o, o ∈ fields t → o ≠ None)
    (Hcount : Z.of_nat (length (fields t)) <= SIZE_MAX)
    (Hfields : ∀ f, Some f ∈ fields t → field_fits f ∧ field_survives f) :
  ∃ txt s', Tuples.serialize t = Returns txt ∧
            Tuples.deserialize (istringstream txt) = Returns (t, s').
Proof.
  destruct (serialize_fields_defined _ Hproper) as [body Hbody].
  exists (show_int (Z.of_nat (length (fields t))) ++ " "%char :: body), (fresh [" "%char]).
  unfold Tuples.serialize. rewrite Hbody. split; [done|].
  unfold Tuples.deserialize, bind, into_uninitialised.
  change (istringstream ?b) with (fresh ([] ++ b)).
  rewrite extract_size_t_show; [|apply Forall_nil|lia].
  rewrite Nat2Z.id.
  rewrite (fields_roundtrip _ body) by done. simpl. by destruct t.
  exact I.
Qed.

Lemma C5_roundtrip_witness :
  ∃ txt s', @Tuples.serialize no_float_text int_and_string = Returns txt ∧
            @Tuples.deserialize no_float_text (istringstream txt)
            = Returns (int_and_string, s').
Proof.
  apply (@C5_roundtrip no_float_text int_and_string).
  - intros o Ho. unfold int_and_string in Ho. simpl in Ho.
    apply elem_of_cons in Ho as [->|Ho]; [done|].
    apply elem_of_cons in Ho as [->|Ho]; [done|]. by apply elem_of_nil in Ho.
  - vm_compute. discriminate.
  - intros f Hf. unfold int_and_string in Hf. simpl in Hf.
    apply elem_of_cons in Hf as [[= ->]|Hf].
    { split; [vm_compute; split; discriminate | exact I]. }
    apply elem_of_cons in Hf as [[= ->]|Hf]; [|by apply elem_of_nil in Hf].
    split; [vm_compute; discriminate|].
    split; [discriminate|]. split; repeat constructor; discriminate.
Defined.

(** A field decode never raises an error: it returns, possibly the null
    pointer, unless it reads a variable that an extraction left untouched. *)
Lemma field_deserialize_outcome `{FT : FloatText} (s : istream) :
  Fields.deserialize s = Undefined ∨
  ∃ f s', Fields.deserialize s = Returns (f, s').
Proof.
  unfold Fields.deserialize, bind, into_uninitialised, into_initialised, ret.
  destruct (extract_int s) as [[ty|] s1]; [|by left].
  destruct (extract_size_t s1) as [[len|] s2];
    (destruct (ty =? type_ordinal STRING);
     [destruct (extract_string s2) as [[v|] s3]; right; by eexists _, _|]);
    (destruct (ty =? type_ordinal INT);
     [destruct (extract_int s2) as [[v|] s3]; [right; by eexists _, _|by left]|]);
    (destruct (ty =? type_ordinal FLOAT);
     [destruct (extract_float s2) as [[v|] s3]; [right; by eexists _, _|by left]|]);
    right; by eexists _, _.
Qed.

(** A type tag other than 0, 1, 2 makes the field decode return the null
    pointer. *)
Lemma field_unknown_tag `{FT : FloatText} (s s1 : istream) (type_int : Z) :
  extract_int s = (Some type_int, s1) →
  type_int ≠ 0 → type_int ≠ 1 → type_int ≠ 2 →
  ∃ s2, Fields.deserialize s = Returns (None, s2).
Proof.
  intros Hty H0 H1 H2.
  unfold Fields.deserialize, bind, into_uninitialised, into_initialised, ret.
  rewrite Hty. cbn [type_ordinal].
  rewrite (proj2 (Z.eqb_neq _ _) H0), (proj2 (Z.eqb_neq _ _) H1),
          (proj2 (Z.eqb_neq _ _) H2).
  destruct (extract_size_t s1) as [[len|] s2]; by eexists.
Qed.

Lemma deserialize_fields_outcome `{FT : FloatText} (n : nat) (acc : Tuple)
      (s : istream) :
  Tuples.deserialize_fields n acc s = Undefined ∨
  ∃ fs s', Tuples.deserialize_fields n acc s
           = Returns ({| fields := fields acc ++ fs |}, s') ∧
           length fs = n ∧ decodes s fs s'.
Proof.
  revert acc s. induction n as [|n IH]; intros acc s; simpl.
  - right. exists [], s. unfold ret. rewrite app_nil_r.
    split; [by destruct acc|]. split; [done|constructor].
  - unfold bind. destruct (field_deserialize_outcome s) as [->|(f & s1 & Hf)];
      [by left|]. rewrite Hf.
    destruct (IH (addField f acc) s1) as [->|(fs & s' & -> & Hlen & Hdec)];
      [by left|].
    right. exists (f :: fs), s'. simpl. rewrite <- app_assoc. simpl.
    split; [done|]. split; [by rewrite Hlen|]. by econstructor.
Qed.

(** A field decode returns exactly when it finds what it reads without an
    initialiser. *)
Lemma field_deserialize_read `{FT : FloatText} (s : istream) :
  reads_what_it_uses s = true → ∃ f s', Fields.deserialize s = Returns (f, s').
Proof.
  unfold reads_what_it_uses, Fields.deserialize, bind, into_uninitialised,
         into_initialised, ret.
  destruct (extract_int s) as [[ty|] s1]; [|done]. cbn [type_ordinal].
  destruct (extract_size_t s1) as [[len|] s2]; cbn [snd];
    (destruct (ty =? 2) eqn:H2;
     [apply Z.eqb_eq in H2 as ->; cbn;
      destruct (extract_string s2) as [[v|] s3]; intros _; by eexists _, _|]);
    (destruct (ty =? 0) eqn:H0;
     [destruct (extract_int s2) as [[v|] s3]; cbn [fst]; [intros _; by eexists _, _|done]|]);
    (destruct (ty =? 1) eqn:H1;
     [destruct (extract_float s2) as [[v|] s3]; cbn [fst]; [intros _; by eexists _, _|done]|]);
    intros _; by eexists _, _.
Qed.

Lemma field_deserialize_unread `{FT : FloatText} (s : istream) :
  reads_what_it_uses s = false → Fields.deserialize s = Undefined.
Proof.
  unfold reads_what_it_uses, Fields.deserialize, bind, into_uninitialised,
         into_initialised, ret.
  destruct (extract_int s) as [[ty|] s1]; [|done]. cbn [type_ordinal].
  destruct (extract_size_t s1) as [[len|] s2]; cbn [snd];
    (destruct (ty =? 2) eqn:H2;
     [apply Z.eqb_eq in H2 as ->; cbn; done|]);
    (destruct (ty =? 0) eqn:H0;
     [destruct (extract_int s2) as [[v|] s3]; cbn [fst]; done|]);
    (destruct (ty =? 1) eqn:H1;
     [destruct (extract_float s2) as [[v|] s3]; cbn [fst]; done|]);
    done.
Qed.

Lemma deserialize_fields_read `{FT : FloatText} (n : nat) (acc : Tuple)
      (s : istream) :
  all_read n s = true →
  ∃ fs s', Tuples.deserialize_fields n acc s
           = Returns ({| fields := fields acc ++ fs |}, s') ∧
           length fs = n ∧ decodes s fs s'.
Proof.
  revert acc s. induction n as [|n IH]; intros acc s Hall; simpl in *.
  - exists [], s. unfold ret. rewrite app_nil_r.
    split; [by destruct acc|]. split; [done|constructor].
  - apply andb_true_iff in Hall as [Hread Hrest].
    destruct (field_deserialize_read s Hread) as (f & s1 & Hf).
    rewrite Hf in Hrest. unfold bind. rewrite Hf.
    destruct (IH (addField f acc) s1 Hrest) as (fs & s' & -> & Hlen & Hdec).
    exists (f :: fs), s'. simpl. rewrite <- app_assoc. simpl.
    split; [done|]. split; [by rewrite Hlen|]. by econstructor.
Qed.

Lemma deserialize_fields_unread `{FT : FloatText} (n : nat) (acc : Tuple)
      (s : istream) :
  all_read n s = false → Tuples.deserialize_fields n acc s = Undefined.
Proof.
  revert acc s. induction n as [|n IH]; intros acc s Hall; simpl in *; [done|].
  unfold bind. destruct (reads_what_it_uses s) eqn:Hread.
  - destruct (field_deserialize_read s Hread) as (f & s1 & Hf).
    rewrite Hf in Hall |- *. simpl in Hall. by apply IH.
  - by rewrite (field_deserialize_unread s Hread).
Qed.

(** C9 (counterexample): on the input "1 7 4 x " the field count is read as
    1 and the decode of the announced field fails (tag 7: the null pointer
    is returned), yet [Tuple::deserialize] returns a tuple, whose only field
    is null. *)
Lemma C9_counterexample :
  extract_size_t (istringstream unknown_tag_input)
    = (Some 1, fresh (chars " 7 4 x ")) ∧
  @Fields.deserialize no_float_text (fresh (chars " 7 4 x "))
    = Returns (None, fresh (chars " x ")) ∧
  @Tuples.deserialize no_float_text (istringstream unknown_tag_input)
    = Returns ({| fields := [None] |}, fresh (chars " x ")).
Proof. repeat split; vm_compute; reflexivity. Qed.

(** C9 (amended): for every input stream whose leading field count is read
    as [n], [Tuple::deserialize] raises no error.  When each of the [n]
    decodes finds what it reads without an initialiser (the type tag, and
    the value of an INT or a FLOAT field), it returns a tuple with exactly
    [n] fields, which are the results of the [n] field decodes in order;
    otherwise a decode reads a variable that its extraction left untouched,
    which is undefined.  A field whose type tag is none of 0, 1, 2 is among
    the former: it is decoded as the null pointer and stored as such. *)
Theorem C9_deserialize_keeps_null `{FT : FloatText} (s s1 : istream) (n : Z)
    (Hcount : extract_size_t s = (Some n, s1)) :
  (all_read (Z.to_nat n) s1 = true →
   ∃ t s', Tuples.deserialize s = Returns (t, s') ∧
           length (fields t) = Z.to_nat n ∧ decodes s1 (fields t) s') ∧
  (all_read (Z.to_nat n) s1 = false → Tuples.deserialize s = Undefined) ∧
  (∀ s2 s3 type_int,
     extract_int s2 = (Some type_int, s3) →
     type_int ≠ 0 → type_int ≠ 1 → type_int ≠ 2 →
     reads_what_it_uses s2 = true ∧
     ∃ s4, Fields.deserialize s2 = Returns (None, s4)).
Proof.
  assert (Hrun : Tuples.deserialize s
                 = Tuples.deserialize_fields (Z.to_nat n) {| fields := [] |} s1).
  { unfold Tuples.deserialize, bind, into_uninitialised. by rewrite Hcount. }
  rewrite Hrun. split; [|split].
  - intros Hall.
    destruct (deserialize_fields_read (Z.to_nat n) {| fields := [] |} s1 Hall)
      as (fs & s' & -> & Hlen & Hdec).
    by exists {| fields := fs |}, s'.
  - apply deserialize_fields_unread.
  - intros s2 s3 ty Hty H0 H1 H2. split; [|by eapply field_unknown_tag].
    unfold reads_what_it_uses. rewrite Hty. cbn [type_ordinal].
    by rewrite (proj2 (Z.eqb_neq _ _) H0), (proj2 (Z.eqb_neq _ _) H1).
Qed.

Lemma C9_deserialize_keeps_null_witness :
  extract_size_t (istringstream unknown_tag_input)
    = (Some 1, fresh (chars " 7 4 x ")) ∧
  @all_read no_float_text (Z.to_nat 1) (fresh (chars " 7 4 x ")) = true ∧
  ∃ t s', @Tuples.deserialize no_float_text (istringstream unknown_tag_input)
          = Returns (t, s') ∧
          fields t = [None] ∧
          length (fields t) = Z.to_nat 1 ∧
          @decodes no_float_text (fresh (chars " 7 4 x ")) (fields t) s'.
Proof.
  split; [vm_compute; reflexivity|]. split; [vm_compute; reflexivity|].
  destruct (@C9_deserialize_keeps_null no_float_text
              (istringstream unknown_tag_input) (fresh (chars " 7 4 x ")) 1)
    as (Hreturns & _ & _); [vm_compute; reflexivity|].
  destruct Hreturns as (t & s' & Hrun & Hlen & Hdec); [vm_compute; reflexivity|].
  exists t, s'. split; [exact Hrun|]. split; [|split; [exact Hlen|exact Hdec]].
  assert (Hc : @Tuples.deserialize no_float_text (istringstream unknown_tag_input)
               = Returns ({| fields := [None] |}, fresh (chars " x ")))
    by (vm_compute; reflexivity).
  rewrite Hc in Hrun. by injection Hrun as <- _.
Defined.

End Serialization_claims.

(** ** Slotted pages: the byte buffer seen as a slot directory *)
Section Page_memory.
Import Page.

Ltac page_arith :=
  unfold metadata_size, slot_addr, sizeof_Slot, offsetof_empty,
         offsetof_offset, offsetof_length, MAX_SLOTS, PAGE_SIZE,
         INVALID_VALUE in *; lia.

Lemma length_store8 (p : SlottedPage) (a v : Z) :
  List.length (store8 p a v) = List.length p.
Proof. apply length_insert. Qed.

Lemma length_store16 (p : SlottedPage) (a v : Z) :
  List.length (store16 p a v) = List.length p.
Proof. unfold store16. by rewrite !length_store8. Qed.

Lemma load8_store8_eq (p : SlottedPage) (a v : Z) :
  (Z.to_nat a < List.length p)%nat → load8 (store8 p a v) a = v.
Proof.
  intros Hlt. unfold load8, store8. rewrite nth_lookup.
  by rewrite list_lookup_insert_eq.
Qed.

Lemma load8_store8_ne (p : SlottedPage) (a b v : Z) :
  0 <= a → 0 <= b → a ≠ b → load8 (store8 p a v) b = load8 p b.
Proof.
  intros Ha Hb Hne. unfold load8, store8. rewrite !nth_lookup.
  rewrite list_lookup_insert_ne; [done|lia].
Qed.

Lemma load8_store16_ne (p : SlottedPage) (a b v : Z) :
  0 <= a → 0 <= b → b ≠ a → b ≠ a + 1 →
  load8 (store16 p a v) b = load8 p b.
Proof.
  intros. unfold store16. rewrite !load8_store8_ne; [done|lia..].
Qed.

Lemma load16_store8_ne (p : SlottedPage) (a b v : Z) :
  0 <= a → 0 <= b → a ≠ b → a ≠ b + 1 →
  load16 (store8 p a v) b = load16 p b.
Proof.
  intros. unfold load16. rewrite !load8_store8_ne; [done|lia..].
Qed.

Lemma load16_store16_ne (p : SlottedPage) (a b v : Z) :
  0 <= a → 0 <= b → (a + 1 < b ∨ b + 1 < a) →
  load16 (store16 p a v) b = load16 p b.
Proof.
  intros. unfold load16. rewrite !load8_store16_ne; [done|lia..].
Qed.

Lemma split16 (w : Z) : 0 <= w < 65536 → w mod 256 + 256 * (w / 256 mod 256) = w.
Proof.
  intros Hw. rewrite (Z.mod_small (w / 256)).
  - pose proof (Z.div_mod w 256). lia.
  - split; [apply Z.div_pos; lia|]. apply Z.div_lt_upper_bound; lia.
Qed.

Lemma load16_store16_eq (p : SlottedPage) (a v : Z) :
  0 <= a → (Z.to_nat (a + 1) < List.length p)%nat → 0 <= v < 65536 →
  load16 (store16 p a v) a = v.
Proof.
  intros Ha Hlen Hv. unfold load16, store16.
  rewrite load8_store8_ne by lia.
  rewrite !load8_store8_eq by (rewrite ?length_store8; lia).
  by apply split16.
Qed.

Lemma load8_range (p : SlottedPage) (a : Z) :
  Forall (fun b => 0 <= b < 256) p → 0 <= load8 p a < 256.
Proof.
  intros Hb. unfold load8. rewrite nth_lookup.
  destruct (p !! Z.to_nat a) as [b|] eqn:Hl; simpl; [|lia].
  by apply (Forall_lookup_1 _ _ _ _ Hb Hl).
Qed.

Lemma load16_range (p : SlottedPage) (a : Z) :
  Forall (fun b => 0 <= b < 256) p → 0 <= load16 p a < 65536.
Proof.
  intros Hb. unfold load16.
  pose proof (load8_range p a Hb). pose proof (load8_range p (a + 1) Hb). lia.
Qed.

Lemma store8_bytes (p : SlottedPage) (a v : Z) :
  Forall (fun b => 0 <= b < 256) p → 0 <= v < 256 →
  Forall (fun b => 0 <= b < 256) (store8 p a v).
Proof. intros. by apply Forall_insert. Qed.

Lemma store16_bytes (p : SlottedPage) (a v : Z) :
  Forall (fun b => 0 <= b < 256) p →
  Forall (fun b => 0 <= b < 256) (store16 p a v).
Proof.
  intros. unfold store16.
  apply store8_bytes; [apply store8_bytes; [done|]|]; apply Z.mod_pos_bound; lia.
Qed.

(** *** The directory entries after a member store *)

Context (p : SlottedPage) (Hsize : List.length p = Z.to_nat PAGE_SIZE).

Lemma empty_set_empty (i : Z) (b : bool) :
  0 <= i < MAX_SLOTS → slot_empty (set_slot_empty p i b) i = b.
Proof.
  intros Hi. unfold slot_empty, set_slot_empty.
  rewrite load8_store8_eq by page_arith. by destruct b.
Qed.

Lemma empty_set_empty_ne (i j : Z) (b : bool) :
  0 <= i → 0 <= j → i ≠ j →
  slot_empty (set_slot_empty p i b) j = slot_empty p j.
Proof.
  intros. unfold slot_empty, set_slot_empty.
  by rewrite load8_store8_ne by page_arith.
Qed.

Lemma offset_set_empty (i j : Z) (b : bool) :
  0 <= i → 0 <= j → slot_offset (set_slot_empty p i b) j = slot_offset p j.
Proof.
  intros. unfold slot_offset, set_slot_empty.
  by rewrite load16_store8_ne by page_arith.
Qed.

Lemma length_set_empty (i j : Z) (b : bool) :
  0 <= i → 0 <= j → slot_length (set_slot_empty p i b) j = slot_length p j.
Proof.
  intros. unfold slot_length, set_slot_empty.
  by rewrite load16_store8_ne by page_arith.
Qed.

Lemma empty_set_offset (i j v : Z) :
  0 <= i → 0 <= j → slot_empty (set_slot_offset p i v) j = slot_empty p j.
Proof.
  intros. unfold slot_empty, set_slot_offset.
  by rewrite load8_store16_ne by page_arith.
Qed.

Lemma offset_set_offset (i v : Z) :
  0 <= i < MAX_SLOTS → slot_offset (set_slot_offset p i v) i = v mod 65536.
Proof.
  intros. unfold slot_offset, set_slot_offset.
  rewrite load16_store16_eq; [done|page_arith|page_arith|].
  apply Z.mod_pos_bound. lia.
Qed.

Lemma offset_set_offset_ne (i j v : Z) :
  0 <= i → 0 <= j → i ≠ j →
  slot_offset (set_slot_offset p i v) j = slot_offset p j.
Proof.
  intros. unfold slot_offset, set_slot_offset.
  by rewrite load16_store16_ne by page_arith.
Qed.

Lemma length_set_offset (i j v : Z) :
  0 <= i → 0 <= j → slot_length (set_slot_offset p i v) j = slot_length p j.
Proof.
  intros. unfold slot_length, set_slot_offset.
  by rewrite load16_store16_ne by page_arith.
Qed.

Lemma empty_set_length (i j v : Z) :
  0 <= i → 0 <= j → slot_empty (set_slot_length p i v) j = slot_empty p j.
Proof.
  intros. unfold slot_empty, set_slot_length.
  by rewrite load8_store16_ne by page_arith.
Qed.

Lemma offset_set_length (i j v : Z) :
  0 <= i → 0 <= j → slot_offset (set_slot_length p i v) j = slot_offset p j.
Proof.
  intros. unfold slot_offset, set_slot_length.
  by rewrite load16_store16_ne by page_arith.
Qed.

Lemma length_set_length (i v : Z) :
  0 <= i < MAX_SLOTS → slot_length (set_slot_length p i v) i = v mod 65536.
Proof.
  intros. unfold slot_length, set_slot_length.
  rewrite load16_store16_eq; [done|page_arith|page_arith|].
  apply Z.mod_pos_bound. lia.
Qed.

Lemma length_set_length_ne (i j v : Z) :
  0 <= i → 0 <= j → i ≠ j →
  slot_length (set_slot_length p i v) j = slot_length p j.
Proof.
  intros. unfold slot_length, set_slot_length.
  by rewrite load16_store16_ne by page_arith.
Qed.

End Page_memory.

Section Page_facts.
Import Page PageSpec.

Ltac page_arith :=
  unfold metadata_size, slot_addr, sizeof_Slot, offsetof_empty,
         offsetof_offset, offsetof_length, MAX_SLOTS, PAGE_SIZE,
         INVALID_VALUE in *; lia.

Lemma first_slot_spec (test : Z → bool) (i : Z) (n : nat) :
  i <= first_slot test i n <= i + Z.of_nat n ∧
  (∀ j, i <= j < first_slot test i n → test j = false) ∧
  (first_slot test i n < i + Z.of_nat n → test (first_slot test i n) = true).
Proof.
  revert i. induction n as [|n IH]; intros i; simpl first_slot.
  - repeat split; lia.
  - destruct (test i) eqn:Hi.
    + repeat split; [lia|lia|lia|done].
    + destruct (IH (i + 1)) as (Hr & Hbefore & Hat). repeat split; [lia|lia| |].
      * intros j Hj. destruct (decide (j = i)) as [->|]; [done|].
        apply Hbefore. lia.
      * intros Hlt. apply Hat. lia.
Qed.

Lemma all_slots_spec (test : Z → bool) (n : nat) :
  all_slots test n = true → ∀ i, 0 <= i < Z.of_nat n → test i = true.
Proof.
  unfold all_slots. rewrite forallb_forall. intros Hall i Hi.
  apply Hall, in_map_iff. exists (Z.to_nat i). split; [lia|].
  apply in_seq. lia.
Qed.

Lemma length_memcpy (p : SlottedPage) (dst : Z) (src : list Z) :
  List.length (memcpy p dst src) = List.length p.
Proof.
  revert p dst. induction src as [|b src IH]; intros p dst; simpl; [done|].
  by rewrite IH, length_store8.
Qed.

Lemma load8_memcpy (p : SlottedPage) (dst a : Z) (src : list Z) :
  0 <= a < dst → load8 (memcpy p dst src) a = load8 p a.
Proof.
  revert p dst. induction src as [|b src IH]; intros p dst Ha; simpl; [done|].
  rewrite IH by lia. apply load8_store8_ne; lia.
Qed.

Lemma memcpy_bytes (p : SlottedPage) (dst : Z) (src : list Z) :
  Forall (fun b => 0 <= b < 256) p → Forall (fun b => 0 <= b < 256) src →
  Forall (fun b => 0 <= b < 256) (memcpy p dst src).
Proof.
  revert p dst. induction src as [|b src IH]; intros p dst Hp Hsrc; simpl; [done|].
  apply Forall_cons in Hsrc as [Hb Hsrc]. apply IH; [|done]. by apply store8_bytes.
Qed.

Lemma byte_of_char_range (c : ascii) : 0 <= byte_of_char c < 256.
Proof.
  unfold byte_of_char. pose proof (N_ascii_bounded c) as H. lia.
Qed.

Lemma slot_memcpy (p : SlottedPage) (dst j : Z) (src : list Z) :
  metadata_size <= dst → 0 <= j < MAX_SLOTS →
  slot_at (memcpy p dst src) j = slot_at p j.
Proof.
  intros Hdst Hj. unfold slot_at, slot_empty, slot_offset, slot_length, load16.
  by rewrite !load8_memcpy by page_arith.
Qed.

Lemma slot_offset_range (p : SlottedPage) (i : Z) :
  Forall (fun b => 0 <= b < 256) p → 0 <= slot_offset p i < 65536.
Proof. apply load16_range. Qed.

Lemma slot_length_range (p : SlottedPage) (i : Z) :
  Forall (fun b => 0 <= b < 256) p → 0 <= slot_length p i < 65536.
Proof. apply load16_range. Qed.

Lemma set_slot_empty_size (p : SlottedPage) (i : Z) (b : bool) :
  List.length (set_slot_empty p i b) = List.length p.
Proof. apply length_store8. Qed.

Lemma set_slot_offset_size (p : SlottedPage) (i v : Z) :
  List.length (set_slot_offset p i v) = List.length p.
Proof. apply length_store16. Qed.

Lemma set_slot_length_size (p : SlottedPage) (i v : Z) :
  List.length (set_slot_length p i v) = List.length p.
Proof. apply length_store16. Qed.

Lemma set_slot_empty_bytes (p : SlottedPage) (i : Z) (b : bool) :
  Forall (fun b => 0 <= b < 256) p →
  Forall (fun b => 0 <= b < 256) (set_slot_empty p i b).
Proof. intros. apply store8_bytes; [done|destruct b; lia]. Qed.

End Page_facts.

Section AddTuple_facts.
Import Page PageSpec.

Ltac page_arith :=
  unfold metadata_size, slot_addr, sizeof_Slot, offsetof_empty,
         offsetof_offset, offsetof_length, MAX_SLOTS, PAGE_SIZE,
         INVALID_VALUE in *; lia.

(** Where the two loops stop, whatever the page holds. *)
Lemma choose_slot_cases (p : SlottedPage) (size : Z) :
  (choose_slot p size < MAX_SLOTS ∧ 0 <= choose_slot p size ∧
   fits_test p size (choose_slot p size) = true ∧
   ∀ j, 0 <= j < choose_slot p size → fits_test p size j = false)
  ∨
  ((∀ j, 0 <= j < MAX_SLOTS → fits_test p size j = false) ∧
   choose_slot p size < MAX_SLOTS ∧ 0 <= choose_slot p size ∧
   fresh_test p (choose_slot p size) = true ∧
   ∀ j, 0 <= j < choose_slot p size → fresh_test p j = false)
  ∨
  ((∀ j, 0 <= j < MAX_SLOTS → fits_test p size j = false) ∧
   (∀ j, 0 <= j < MAX_SLOTS → fresh_test p j = false) ∧
   choose_slot p size = MAX_SLOTS).
Proof.
  unfold choose_slot.
  destruct (first_slot_spec (fits_test p size) 0 (Z.to_nat MAX_SLOTS))
    as (Hr1 & Hbefore1 & Hat1).
  change (fun i => slot_empty p i && (size <=? slot_length p i))
    with (fits_test p size).
  change (fun i => slot_empty p i && (slot_offset p i =? INVALID_VALUE))
    with (fresh_test p).
  set (r1 := first_slot (fits_test p size) 0 (Z.to_nat MAX_SLOTS)) in *.
  assert (HM : 0 + Z.of_nat (Z.to_nat MAX_SLOTS) = MAX_SLOTS) by (unfold MAX_SLOTS; lia).
  rewrite HM in *.
  destruct (r1 =? MAX_SLOTS) eqn:Hr1eq.
  - apply Z.eqb_eq in Hr1eq. rewrite Hr1eq in Hbefore1.
    destruct (first_slot_spec (fresh_test p) 0 (Z.to_nat MAX_SLOTS))
      as (Hr2 & Hbefore2 & Hat2).
    set (r2 := first_slot (fresh_test p) 0 (Z.to_nat MAX_SLOTS)) in *.
    rewrite HM in *.
    destruct (decide (r2 < MAX_SLOTS)) as [Hlt|Hge].
    + right; left. split; [exact Hbefore1|]. split; [done|]. split; [lia|].
      split; [by apply Hat2|exact Hbefore2].
    + right; right. assert (r2 = MAX_SLOTS) as Heq by lia.
      rewrite Heq in Hbefore2. split; [exact Hbefore1|]. by split.
  - apply Z.eqb_neq in Hr1eq. left. split; [lia|]. split; [lia|].
    split; [apply Hat1; lia|exact Hbefore1].
Qed.

Context (p : SlottedPage) (Hwf : wf p).

Lemma reusable_fits (size i : Z) : reusable p size i → fits_test p size i = true.
Proof.
  intros (Hi & (He & Ho) & Hlen). unfold fits_test. rewrite He. simpl.
  by apply Z.leb_le.
Qed.

(** In a well-formed page a free entry that passes the length test was
    either emptied or, when [size] fits 16 bits, never used. *)
Lemma fits_emptied_or_fresh (size i k : Z) :
  (∀ i, 0 <= i < k → used_entry p i) →
  0 <= i < k → k <= MAX_SLOTS → fits_test p size i = true → reusable p size i.
Proof.
  intros Hused Hi Hk Htest. unfold fits_test in Htest.
  apply andb_true_iff in Htest as [He Hlen]. apply Z.leb_le in Hlen.
  destruct (Hused i Hi) as (Ho & _). repeat split; auto; lia.
Qed.

Lemma choose_slot_reuse (size : Z) :
  (∃ i, reusable p size i) →
  first_such (reusable p size) (choose_slot p size).
Proof.
  intros [i0 Hi0]. destruct Hwf as [_ _ (k & Hk & Hused & Hfresh)].
  assert (Hi0k : i0 < k).
  { destruct (decide (i0 < k)) as [|Hge]; [done|]. exfalso.
    destruct Hi0 as (Hr & (_ & Ho) & _). destruct (Hfresh i0) as (_ & Ho' & _); [lia|].
    done. }
  pose proof (reusable_fits _ _ Hi0) as Ht0. destruct Hi0 as (Hr0 & _).
  destruct (choose_slot_cases p size)
    as [(Hlt & Hge & Hat & Hbefore)|[(Hnone & _)|(Hnone & _)]].
  - assert (choose_slot p size <= i0).
    { destruct (decide (choose_slot p size <= i0)) as [|Hgt]; [done|].
      rewrite Hbefore in Ht0 by lia. done. }
    split.
    + apply (fits_emptied_or_fresh size _ k); auto; lia.
    + intros j Hj Hre. apply reusable_fits in Hre. rewrite Hbefore in Hre; done.
  - rewrite Hnone in Ht0 by lia. done.
  - rewrite Hnone in Ht0 by lia. done.
Qed.

Lemma choose_slot_unused (size : Z) :
  (∀ i, ¬ reusable p size i) → (∃ i, unused p i) →
  first_such (unused p) (choose_slot p size) ∧
  (∀ i, 0 <= i < choose_slot p size → used_entry p i).
Proof.
  intros Hnore [i1 Hi1]. destruct Hwf as [_ Hbytes (k & Hk & Hused & Hfresh)].
  assert (Hk1 : k <= i1).
  { destruct (decide (k <= i1)) as [|Hlt]; [done|]. exfalso.
    destruct Hi1 as (Hr & _ & Ho). destruct (Hused i1) as (Ho' & _); [lia|]. done. }
  destruct Hi1 as (Hr1 & _).
  assert (Hkfresh : fresh_test p k = true).
  { destruct (Hfresh k) as (He & Ho & _); [lia|]. unfold fresh_test.
    rewrite He, Ho. done. }
  assert (Hbelow_fits : ∀ j, 0 <= j < k → fits_test p size j = false).
  { intros j Hj. destruct (fits_test p size j) eqn:Ht; [|done].
    exfalso. apply (Hnore j). apply (fits_emptied_or_fresh size j k); auto; lia. }
  assert (Hbelow_fresh : ∀ j, 0 <= j < k → fresh_test p j = false).
  { intros j Hj. destruct (Hused j Hj) as (Ho & _). unfold fresh_test.
    rewrite (proj2 (Z.eqb_neq _ _) Ho). apply andb_false_r. }
  assert (Hc : choose_slot p size = k).
  { destruct (choose_slot_cases p size)
      as [(Hlt & Hge & Hat & Hbefore)|[(Hnone & Hlt & Hge & Hat & Hbefore)|(Hnone & Hnone' & _)]].
    - destruct (decide (choose_slot p size < k)) as [Hlt'|Hge'].
      { rewrite Hbelow_fits in Hat by lia. done. }
      destruct (decide (choose_slot p size = k)) as [|Hne]; [done|]. exfalso.
      (* the entry k is fresh: it passes the length test iff size fits *)
      destruct (Hfresh (choose_slot p size)) as (He & Ho & Hl); [lia|].
      unfold fits_test in Hat. rewrite He, Hl in Hat. simpl in Hat.
      assert (Hk' : fits_test p size k = true).
      { destruct (Hfresh k) as (He' & _ & Hl'); [lia|]. unfold fits_test.
        by rewrite He', Hl'. }
      rewrite Hbefore in Hk' by lia. done.
    - destruct (decide (choose_slot p size < k)) as [Hlt'|Hge'].
      { rewrite Hbelow_fresh in Hat by lia. done. }
      destruct (decide (choose_slot p size = k)) as [|Hne]; [done|]. exfalso.
      rewrite Hbefore in Hkfresh by lia. done.
    - rewrite Hnone' in Hkfresh by lia. done. }
  rewrite Hc. split; [|done]. split.
  - destruct (Hfresh k) as (He & Ho & _); [lia|]. repeat split; auto; lia.
  - intros j Hj (_ & _ & Ho). destruct (Hused j Hj) as (Ho' & _). done.
Qed.

Lemma choose_slot_full (size : Z) :
  (∀ i, ¬ reusable p size i) → (∀ i, ¬ unused p i) →
  choose_slot p size = MAX_SLOTS.
Proof.
  intros Hnore Hnoun. destruct Hwf as [_ Hbytes (k & Hk & Hused & Hfresh)].
  assert (k = MAX_SLOTS) as ->.
  { destruct (decide (k = MAX_SLOTS)) as [|Hne]; [done|]. exfalso.
    apply (Hnoun k). destruct (Hfresh k) as (He & Ho & _); [lia|].
    repeat split; auto; lia. }
  destruct (choose_slot_cases p size)
    as [(Hlt & Hge & Hat & _)|[(_ & Hlt & Hge & Hat & _)|(_ & _ & Hc)]]; [| |done].
  - exfalso. apply (Hnore (choose_slot p size)).
    apply (fits_emptied_or_fresh size _ MAX_SLOTS); auto; lia.
  - exfalso. destruct (Hused (choose_slot p size)) as (Ho & _); [lia|].
    unfold fresh_test in Hat. rewrite (proj2 (Z.eqb_neq _ _) Ho) in Hat.
    by rewrite andb_false_r in Hat.
Qed.

End AddTuple_facts.

Section AddTuple_steps.
Import Page PageSpec.

Ltac page_arith :=
  unfold metadata_size, slot_addr, sizeof_Slot, offsetof_empty,
         offsetof_offset, offsetof_length, MAX_SLOTS, PAGE_SIZE,
         INVALID_VALUE in *; lia.

Lemma slot_at_set_empty (p : SlottedPage) (i j : Z) (b : bool) :
  List.length p = Z.to_nat PAGE_SIZE → 0 <= i < MAX_SLOTS → 0 <= j →
  slot_at (set_slot_empty p i b) j
  = if decide (j = i)
    then {| empty := b; offset := slot_offset p j; length := slot_length p j |}
    else slot_at p j.
Proof.
  intros Hsize Hi Hj. unfold slot_at.
  rewrite offset_set_empty, length_set_empty by lia.
  case_decide as Hji.
  - subst. by rewrite empty_set_empty.
  - by rewrite empty_set_empty_ne by lia.
Qed.

Lemma slot_at_set_offset (p : SlottedPage) (i j v : Z) :
  List.length p = Z.to_nat PAGE_SIZE → 0 <= i < MAX_SLOTS → 0 <= j →
  slot_at (set_slot_offset p i v) j
  = if decide (j = i)
    then {| empty := slot_empty p j; offset := v mod 65536;
            length := slot_length p j |}
    else slot_at p j.
Proof.
  intros Hsize Hi Hj. unfold slot_at.
  rewrite empty_set_offset, length_set_offset by lia.
  case_decide as Hji.
  - subst. by rewrite offset_set_offset.
  - by rewrite offset_set_offset_ne by lia.
Qed.

Lemma slot_at_set_length (p : SlottedPage) (i j v : Z) :
  List.length p = Z.to_nat PAGE_SIZE → 0 <= i < MAX_SLOTS → 0 <= j →
  slot_at (set_slot_length p i v) j
  = if decide (j = i)
    then {| empty := slot_empty p j; offset := slot_offset p j;
            length := v mod 65536 |}
    else slot_at p j.
Proof.
  intros Hsize Hi Hj. unfold slot_at.
  rewrite empty_set_length, offset_set_length by lia.
  case_decide as Hji.
  - subst. by rewrite length_set_length.
  - by rewrite length_set_length_ne by lia.
Qed.

Lemma slot_at_eq (p q : SlottedPage) (i : Z) :
  slot_at p i = slot_at q i ↔
  slot_empty p i = slot_empty q i ∧ slot_offset p i = slot_offset q i ∧
  slot_length p i = slot_length q i.
Proof.
  unfold slot_at. split; [intros [= -> -> ->]; done|].
  by intros (-> & -> & ->).
Qed.

Context (p : SlottedPage) (Hwf : wf p).

(** The offset computed for a reused entry is the offset that it kept. *)
Lemma choose_offset_reuse (c : Z) :
  0 <= c < MAX_SLOTS → slot_offset p c ≠ INVALID_VALUE →
  choose_offset (set_slot_empty p c false) c = slot_offset p c.
Proof.
  intros Hc Ho. destruct Hwf as [Hsize _ _]. unfold choose_offset.
  rewrite !offset_set_empty by (done || lia).
  by rewrite (proj2 (Z.eqb_neq _ _) Ho).
Qed.

(** The offset computed for a never-used entry behind used ones. *)
Lemma choose_offset_fresh (c : Z) :
  0 <= c < MAX_SLOTS → slot_offset p c = INVALID_VALUE →
  (∀ i, 0 <= i < c → used_entry p i) →
  choose_offset (set_slot_empty p c false) c
  = if c =? 0 then metadata_size
    else slot_offset p (c - 1) + slot_length p (c - 1).
Proof.
  intros Hc Ho Hused. destruct Hwf as [Hsize _ _]. unfold choose_offset.
  rewrite (offset_set_empty p Hsize c c) by lia.
  rewrite Ho, Z.eqb_refl. destruct (c =? 0) eqn:Hc0; simpl; [done|].
  apply Z.eqb_neq in Hc0. destruct (Hused (c - 1)) as (Hprev & _); [lia|].
  rewrite offset_set_empty, length_set_empty by (done || lia).
  by rewrite (proj2 (Z.eqb_neq _ _) Hprev).
Qed.

End AddTuple_steps.

Section AddTuple_claim.
Import Page PageSpec.

Ltac page_arith :=
  unfold metadata_size, slot_addr, sizeof_Slot, offsetof_empty,
         offsetof_offset, offsetof_length, MAX_SLOTS, PAGE_SIZE,
         INVALID_VALUE in *; lia.

Ltac page_size :=
  repeat first [ rewrite set_slot_empty_size | rewrite set_slot_offset_size
               | rewrite set_slot_length_size | rewrite length_memcpy ];
  done.

(** Whether some entry of the directory passes a boolean test is decided by
    running the search loop. *)
Lemma some_slot_or_none (test : Z → bool) :
  (∃ i, 0 <= i < MAX_SLOTS ∧ test i = true) ∨
  (∀ i, 0 <= i < MAX_SLOTS → test i = false).
Proof.
  destruct (first_slot_spec test 0 (Z.to_nat MAX_SLOTS)) as (Hr & Hbefore & Hat).
  assert (HM : 0 + Z.of_nat (Z.to_nat MAX_SLOTS) = MAX_SLOTS) by (unfold MAX_SLOTS; lia).
  rewrite HM in *.
  destruct (decide (first_slot test 0 (Z.to_nat MAX_SLOTS) < MAX_SLOTS)) as [Hlt|Hge].
  - left. eexists. split; [|by apply Hat]. lia.
  - right. intros i Hi. apply Hbefore. lia.
Qed.

Lemma classic_reusable_dec (p : SlottedPage) (size : Z) :
  (∃ i, reusable p size i) ∨ (∀ i, ¬ reusable p size i).
Proof.
  destruct (some_slot_or_none
              (fun i => slot_empty p i && negb (slot_offset p i =? INVALID_VALUE)
                        && (size <=? slot_length p i)))
    as [(i & Hi & Ht)|Hnone].
  - left. exists i. apply andb_true_iff in Ht as [Ht Hl].
    apply andb_true_iff in Ht as [He Ho]. apply negb_true_iff, Z.eqb_neq in Ho.
    apply Z.leb_le in Hl. split; [lia|]. split; [by split|lia].
  - right. intros i (Hi & (He & Ho) & Hl). specialize (Hnone i Hi).
    rewrite He, (proj2 (Z.eqb_neq _ _) Ho), (proj2 (Z.leb_le _ _) Hl) in Hnone.
    done.
Qed.

Lemma classic_unused_dec (p : SlottedPage) :
  (∃ i, unused p i) ∨ (∀ i, ¬ unused p i).
Proof.
  destruct (some_slot_or_none (fresh_test p)) as [(i & Hi & Ht)|Hnone].
  - left. exists i. apply andb_true_iff in Ht as [He Ho]. apply Z.eqb_eq in Ho.
    split; [lia|]. by split.
  - right. intros i (Hi & He & Ho). specialize (Hnone i Hi).
    unfold fresh_test in Hnone. rewrite He, Ho in Hnone. done.
Qed.

(** What [addTuple] does once it chose an emptied entry that admits the
    tuple. *)
Lemma add_serialized_reuse (p : SlottedPage) (ser : Text.text) :
  wf p → reusable p (Z.of_nat (List.length ser)) (choose_slot p (Z.of_nat (List.length ser))) →
  add_serialized ser p
  = let c := choose_slot p (Z.of_nat (List.length ser)) in
    if metadata_size <=? slot_offset p c
    then Returns (true, memcpy (set_slot_empty p c false) (slot_offset p c)
                               (map byte_of_char ser))
    else AssertFailed.
Proof.
  intros Hwf (Hc & (He & Ho) & Hlen). pose proof Hwf as [Hsize Hbytes (k & Hk & Hused & Hfresh)].
  unfold add_serialized.
  set (size := Z.of_nat (List.length ser)) in *. set (c := choose_slot p size) in *.
  rewrite (proj2 (Z.eqb_neq c MAX_SLOTS)) by lia.
  rewrite (choose_offset_reuse p Hwf c Hc Ho).
  rewrite (offset_set_empty p Hsize c c) by lia.
  rewrite (proj2 (Z.eqb_neq _ _) Ho).
  assert (Hck : c < k).
  { destruct (decide (c < k)) as [|Hge]; [done|].
    destruct (Hfresh c) as (_ & Ho' & _); [lia|]. done. }
  destruct (Hused c) as (_ & Hl & Hend); [lia|].
  rewrite (proj2 (Z.leb_gt _ _)) by lia.
  rewrite (proj2 (Z.ltb_lt _ _)) by lia.
  rewrite (length_set_empty p Hsize c c) by lia.
  rewrite (proj2 (Z.eqb_neq _ _) Hl). simpl.
  by rewrite andb_true_r.
Qed.

(** What [addTuple] does once it chose the first never-used entry. *)
Lemma add_serialized_fresh (p : SlottedPage) (ser : Text.text) :
  wf p →
  let size := Z.of_nat (List.length ser) in
  let c := choose_slot p size in
  let off := if c =? 0 then metadata_size
             else slot_offset p (c - 1) + slot_length p (c - 1) in
  let p1 := set_slot_offset (set_slot_empty p c false) c off in
  unused p c → (∀ i, 0 <= i < c → used_entry p i) →
  add_serialized ser p
  = if PAGE_SIZE <=? off + size
    then Returns (false, set_slot_offset (set_slot_empty p1 c true) c INVALID_VALUE)
    else if metadata_size <=? off
         then Returns (true, memcpy (set_slot_length p1 c size) off
                                    (map byte_of_char ser))
         else AssertFailed.
Proof.
  intros Hwf size c off p1 (Hc & He & Ho) Hused.
  pose proof Hwf as [Hsize Hbytes (k & Hk & Hused' & Hfresh)].
  unfold add_serialized. fold size. fold c.
  rewrite (proj2 (Z.eqb_neq c MAX_SLOTS)) by lia.
  rewrite (choose_offset_fresh p Hwf c Hc Ho Hused). fold off.
  rewrite (offset_set_empty p Hsize c c) by lia.
  rewrite Ho, Z.eqb_refl. fold p1.
  destruct (PAGE_SIZE <=? off + size) eqn:Hfit; [done|].
  apply Z.leb_gt in Hfit.
  assert (Hl : slot_length p c = INVALID_VALUE).
  { assert (Hck : k <= c).
    { destruct (decide (k <= c)) as [|Hlt]; [done|].
      destruct (Hused' c) as (Ho' & _); [lia|]. done. }
    by destruct (Hfresh c) as (_ & _ & Hl); [lia|]. }
  assert (Hsize1 : List.length (set_slot_empty p c false) = Z.to_nat PAGE_SIZE)
    by (by rewrite set_slot_empty_size).
  unfold p1. rewrite (length_set_offset _ Hsize1 c c) by lia.
  rewrite (length_set_empty p Hsize c c) by lia. rewrite Hl, Z.eqb_refl.
  rewrite (proj2 (Z.ltb_lt _ _)) by lia.
  assert ((off =? INVALID_VALUE) = false) as ->.
  { apply Z.eqb_neq. unfold size in Hfit. page_arith. }
  simpl. by rewrite andb_true_r.
Qed.

(** C3 (amended): in a page as the page operations leave it (the entries
    handed out so far form a prefix of the directory and end inside the
    page, the entries behind them were never used), insert chooses its slot
    in this order: the first emptied slot whose retained length is at least
    the encoded size, otherwise the first never-used slot, otherwise it
    fails; the offset is the reused slot's offset, or [metadata_size] for a
    never-used slot 0, or otherwise the predecessor's offset + length; when
    offset + size >= PAGE_SIZE it fails and the directory is what it was
    before; otherwise it succeeds, with the chosen slot occupied at that
    offset, when the offset is at least [metadata_size], and runs into the
    assertion on the offset when it is not. *)
Theorem C3_addTuple_slot_and_offset `{FT : Text.FloatText}
    (p : SlottedPage) (tuple : Tuples.Tuple) (ser : Text.text)
    (Hwf : wf p) (Hser : Tuples.serialize tuple = Returns ser) :
  let size := Z.of_nat (List.length ser) in
  let c := choose_slot p size in
  let off := choose_offset (set_slot_empty p c false) c in
  ((∃ i, reusable p size i) →
     first_such (reusable p size) c ∧ off = slot_offset p c) ∧
  ((∀ i, ¬ reusable p size i) → (∃ i, unused p i) →
     first_such (unused p) c ∧
     off = if c =? 0 then metadata_size
           else slot_offset p (c - 1) + slot_length p (c - 1)) ∧
  ((∀ i, ¬ reusable p size i) → (∀ i, ¬ unused p i) →
     addTuple tuple p = Returns (false, p)) ∧
  (c < MAX_SLOTS → PAGE_SIZE <= off + size →
     ∃ p', addTuple tuple p = Returns (false, p') ∧ same_directory p p') ∧
  (∀ p', addTuple tuple p = Returns (true, p') →
     c < MAX_SLOTS ∧ off + size < PAGE_SIZE ∧
     slot_empty p' c = false ∧ slot_offset p' c = off) ∧
  (c < MAX_SLOTS → off + size < PAGE_SIZE → metadata_size <= off →
     ∃ p', addTuple tuple p = Returns (true, p') ∧
           slot_empty p' c = false ∧ slot_offset p' c = off) ∧
  (c < MAX_SLOTS → off + size < PAGE_SIZE → off < metadata_size →
     addTuple tuple p = AssertFailed).
Proof.
  intros size c off. pose proof Hwf as [Hsize Hbytes (k & Hk & Hused & Hfresh)].
  assert (Hadd : addTuple tuple p = add_serialized ser p)
    by (unfold addTuple; by rewrite Hser).
  rewrite Hadd.
  (* the chosen slot is reusable, or unused behind used ones, or none *)
  assert (Hcases :
    (reusable p size c ∧ off = slot_offset p c) ∨
    ((∀ i, ¬ reusable p size i) ∧ unused p c ∧
     (∀ i, 0 <= i < c → used_entry p i) ∧
     off = (if c =? 0 then metadata_size
            else slot_offset p (c - 1) + slot_length p (c - 1))) ∨
    ((∀ i, ¬ reusable p size i) ∧ (∀ i, ¬ unused p i) ∧ c = MAX_SLOTS)).
  { destruct (classic_reusable_dec p size) as [Hex|Hno].
    - left. destruct (choose_slot_reuse p Hwf size Hex) as [Hre _].
      split; [done|]. destruct Hre as (Hc & (He & Ho) & _).
      by apply choose_offset_reuse.
    - destruct (classic_unused_dec p) as [Hex|Hno'].
      + right; left. destruct (choose_slot_unused p Hwf size Hno Hex) as [[Hun _] Hbelow].
        split; [done|]. split; [done|]. split; [done|].
        destruct Hun as (Hc & _ & Ho). by apply choose_offset_fresh.
      + right; right. split; [done|]. split; [done|]. by apply choose_slot_full. }
  assert (Htrue : ∀ p', add_serialized ser p = Returns (true, p') →
            c < MAX_SLOTS ∧ off + size < PAGE_SIZE ∧
            slot_empty p' c = false ∧ slot_offset p' c = off).
  2: { split; [|split; [|split; [|split; [|split; [exact Htrue|split]]]]].
  - intros Hex. split; [by apply choose_slot_reuse|].
    destruct Hcases as [[_ ?]|[(Hno & _)|(Hno & _)]]; [done|..];
      destruct Hex as [i Hi]; by destruct (Hno i).
  - intros Hno Hex. destruct (choose_slot_unused p Hwf size Hno Hex) as [Hfirst _].
    split; [done|].
    destruct Hcases as [[Hre _]|[(_ & _ & _ & ?)|(_ & Hno' & _)]]; [|done|].
    + by destruct (Hno c).
    + destruct Hex as [i Hi]. by destruct (Hno' i).
  - intros Hno Hno'. unfold add_serialized. fold size. fold c.
    assert (Hcm : c = MAX_SLOTS) by (by apply choose_slot_full).
    by rewrite Hcm, Z.eqb_refl.
  - intros Hc Hnofit.
    destruct Hcases as [[Hre Hoff]|[(_ & Hun & Hbelow & Hoff)|(_ & _ & ?)]]; [| |lia].
    + exfalso. destruct Hre as (Hc' & (He & Ho) & Hlen).
      assert (c < k).
      { destruct (decide (c < k)) as [|Hge]; [done|].
        destruct (Hfresh c) as (_ & Ho' & _); [lia|]. done. }
      destruct (Hused c) as (_ & _ & Hend); lia.
    + rewrite (add_serialized_fresh p ser Hwf Hun Hbelow). fold size c.
      rewrite <- Hoff. rewrite (proj2 (Z.leb_le _ _) Hnofit).
      eexists. split; [done|]. intros j Hj.
      destruct Hun as (Hc' & He & Ho).
      assert (Hl : slot_length p c = INVALID_VALUE).
      { assert (Hck : k <= c).
        { destruct (decide (k <= c)) as [|Hlt]; [done|].
          destruct (Hused c) as (Ho' & _); [lia|]. done. }
        by destruct (Hfresh c) as (_ & _ & Hl); [lia|]. }
      rewrite slot_at_set_offset by (page_size || lia).
      case_decide as Hjc.
      * subst j.
        rewrite empty_set_empty, length_set_empty, length_set_offset, length_set_empty
          by (page_size || lia).
        unfold slot_at. rewrite He, Ho, Hl. done.
      * rewrite slot_at_set_empty, slot_at_set_offset, slot_at_set_empty
          by (page_size || lia).
        by rewrite !decide_False by done.
  - intros Hc Hfit Hmeta.
    destruct Hcases as [[Hre Hoff]|[(_ & Hun & Hbelow & Hoff)|(_ & _ & ?)]]; [| |lia].
    + assert (Hrun : add_serialized ser p
                     = Returns (true, memcpy (set_slot_empty p c false) off
                                             (map byte_of_char ser))).
      { rewrite (add_serialized_reuse p ser Hwf Hre). cbv zeta. fold size c.
        rewrite <- Hoff. by rewrite (proj2 (Z.leb_le _ _) Hmeta). }
      eexists. split; [exact Hrun|]. by destruct (Htrue _ Hrun) as (_ & _ & ? & ?).
    + assert (Hrun : add_serialized ser p
                     = Returns (true,
                         memcpy (set_slot_length
                                   (set_slot_offset (set_slot_empty p c false) c off)
                                   c size) off (map byte_of_char ser))).
      { rewrite (add_serialized_fresh p ser Hwf Hun Hbelow). fold size c.
        rewrite <- Hoff. rewrite (proj2 (Z.leb_gt _ _)) by lia.
        by rewrite (proj2 (Z.leb_le _ _) Hmeta). }
      eexists. split; [exact Hrun|]. by destruct (Htrue _ Hrun) as (_ & _ & ? & ?).
  - intros Hc Hfit Hmeta.
    destruct Hcases as [[Hre Hoff]|[(_ & Hun & Hbelow & Hoff)|(_ & _ & ?)]]; [| |lia].
    + rewrite (add_serialized_reuse p ser Hwf Hre). cbv zeta. fold size c.
      rewrite <- Hoff. by rewrite (proj2 (Z.leb_gt _ _)) by lia.
    + rewrite (add_serialized_fresh p ser Hwf Hun Hbelow). fold size c.
      rewrite <- Hoff. rewrite (proj2 (Z.leb_gt _ _)) by lia.
      by rewrite (proj2 (Z.leb_gt _ _)) by lia. }
  intros p' Hret.
    destruct Hcases as [[Hre Hoff]|[(_ & Hun & Hbelow & Hoff)|(Hno & Hno' & Hcm)]].
  - rewrite (add_serialized_reuse p ser Hwf Hre) in Hret. fold size c in Hret.
    cbv zeta in Hret.
    destruct (metadata_size <=? slot_offset p c) eqn:Hmeta; [|done].
    apply Z.leb_le in Hmeta. injection Hret as <-.
    destruct Hre as (Hc' & (He & Ho) & Hlen).
    assert (c < k).
    { destruct (decide (c < k)) as [|Hge]; [done|].
      destruct (Hfresh c) as (_ & Ho' & _); [lia|]. done. }
    destruct (Hused c) as (_ & _ & Hend); [lia|].
    split; [lia|]. split; [lia|].
    pose proof (slot_memcpy (set_slot_empty p c false) (slot_offset p c) c
                  (map byte_of_char ser) Hmeta Hc') as Hslot.
    apply slot_at_eq in Hslot as (Hse & Hso & _).
    rewrite Hse, Hso, empty_set_empty, offset_set_empty by (done || lia). done.
  - rewrite (add_serialized_fresh p ser Hwf Hun Hbelow) in Hret. fold size c in Hret.
    rewrite <- Hoff in Hret.
    destruct (PAGE_SIZE <=? off + size) eqn:Hfit; [done|]. apply Z.leb_gt in Hfit.
    destruct (metadata_size <=? off) eqn:Hmeta; [|done].
    apply Z.leb_le in Hmeta. injection Hret as <-.
    destruct Hun as (Hc' & He & Ho).
    split; [lia|]. split; [lia|].
    pose proof (slot_memcpy
                  (set_slot_length (set_slot_offset (set_slot_empty p c false) c off) c size)
                  off c (map byte_of_char ser) Hmeta Hc') as Hslot.
    apply slot_at_eq in Hslot as (Hse & Hso & _). rewrite Hse, Hso.
    rewrite empty_set_length, empty_set_offset, empty_set_empty,
            offset_set_length, offset_set_offset
      by (page_size || lia).
    split; [done|]. apply Z.mod_small. unfold size in Hfit. page_arith.
  - assert (Hfull : add_serialized ser p = Returns (false, p)).
    { unfold add_serialized. fold size c. by rewrite Hcm, Z.eqb_refl. }
    by rewrite Hfull in Hret.
Qed.

End AddTuple_claim.

Section Concrete_pages.
Import Page PageSpec.

Lemma bytes_check (p : SlottedPage) :
  forallb (fun b => (0 <=? b) && (b <? 256)) p = true →
  Forall (fun b => 0 <= b < 256) p.
Proof.
  rewrite forallb_forall. intros Hall. apply Forall_forall. intros b Hb.
  apply list_elem_of_In, Hall in Hb. apply andb_true_iff in Hb as [H1 H2].
  apply Z.leb_le in H1. apply Z.ltb_lt in H2. lia.
Qed.

(** The constructor's loop, entry by entry: sizes, byte ranges and the
    entries that it initialises. *)
Lemma init_slots_size (n : nat) (i : Z) (p : SlottedPage) :
  List.length (init_slots n i p) = List.length p.
Proof.
  revert i p. induction n as [|n IH]; intros i p; simpl; [done|].
  rewrite IH. by rewrite set_slot_length_size, set_slot_offset_size, set_slot_empty_size.
Qed.

Lemma init_slots_bytes (n : nat) (i : Z) (p : SlottedPage) :
  Forall (fun b => 0 <= b < 256) p →
  Forall (fun b => 0 <= b < 256) (init_slots n i p).
Proof.
  revert i p. induction n as [|n IH]; intros i p Hp; simpl; [done|].
  apply IH. apply store16_bytes. apply store16_bytes. by apply set_slot_empty_bytes.
Qed.

Lemma init_slots_slot (n : nat) (i j : Z) (p : SlottedPage) :
  List.length p = Z.to_nat PAGE_SIZE → 0 <= i → i + Z.of_nat n <= MAX_SLOTS →
  0 <= j →
  slot_at (init_slots n i p) j
  = if decide (i <= j < i + Z.of_nat n)
    then {| empty := true; offset := INVALID_VALUE; length := INVALID_VALUE |}
    else slot_at p j.
Proof.
  revert i p. induction n as [|n IH]; intros i p Hsize Hi Hn Hj; simpl init_slots.
  - rewrite decide_False by lia. done.
  - rewrite IH
      by (rewrite ?set_slot_length_size, ?set_slot_offset_size,
            ?set_slot_empty_size; done || lia).
    destruct (decide (i + 1 <= j < i + 1 + Z.of_nat n)) as [Hin|Hout].
    + rewrite decide_True by lia. done.
    + rewrite slot_at_set_length, slot_at_set_offset, slot_at_set_empty
        by (rewrite ?set_slot_offset_size, ?set_slot_empty_size; done || lia).
      destruct (decide (j = i)) as [->|Hne].
      * rewrite decide_True by lia.
        rewrite empty_set_offset, empty_set_empty, offset_set_offset
          by (rewrite ?set_slot_offset_size, ?set_slot_empty_size; done || lia).
        done.
      * rewrite decide_False by lia. done.
Qed.

Lemma slot_at_fields (p : SlottedPage) (i : Z) (s : Slot) :
  slot_at p i = s →
  slot_empty p i = empty s ∧ slot_offset p i = offset s ∧
  slot_length p i = length s.
Proof. by intros <-. Qed.

Lemma load8_zero_page (a : Z) : load8 zero_page a = 0.
Proof.
  unfold load8, zero_page.
  destruct (decide (Z.to_nat a < Z.to_nat PAGE_SIZE)%nat) as [Hlt|Hge].
  - rewrite nth_lookup, lookup_replicate_2 by done. done.
  - apply nth_overflow. rewrite length_replicate. lia.
Qed.

(** A freshly constructed page: every entry reads as never used. *)
Lemma new_page_fresh (i : Z) :
  0 <= i < MAX_SLOTS → fresh_entry new_page i.
Proof.
  intros Hi. unfold new_page.
  assert (Hs : slot_at (init_slots (Z.to_nat MAX_SLOTS) 0 zero_page) i
               = {| empty := true; offset := INVALID_VALUE;
                    length := INVALID_VALUE |}).
  { rewrite init_slots_slot; [apply decide_True; lia|apply length_replicate|lia|lia|lia]. }
  apply slot_at_fields in Hs as (He & Ho & Hl).
  split; [exact He|]. split; [exact Ho|exact Hl].
Qed.

Lemma new_page_wf : wf new_page.
Proof.
  split.
  - unfold new_page. rewrite init_slots_size. apply length_replicate.
  - unfold new_page. apply init_slots_bytes. apply Forall_replicate. lia.
  - exists 0. split; [unfold MAX_SLOTS; lia|]. split; [intros i Hi; lia|].
    apply new_page_fresh.
Qed.

(** A page of zero bytes: every entry reads as occupied, at offset 0 with
    length 0. *)
Lemma zero_page_slots (i : Z) :
  0 <= i < MAX_SLOTS →
  slot_at zero_page i = {| empty := false; offset := 0; length := 0 |}.
Proof.
  intros Hi. unfold slot_at, slot_empty, slot_offset, slot_length, load16.
  rewrite !load8_zero_page. reflexivity.
Qed.

Lemma zero_page_wf : wf zero_page.
Proof.
  split.
  - apply length_replicate.
  - apply Forall_replicate. lia.
  - exists MAX_SLOTS. split; [unfold MAX_SLOTS; lia|]. split; [|intros i Hi; lia].
    intros i Hi.
    destruct (slot_at_fields _ _ _ (zero_page_slots i Hi)) as (_ & Ho & Hl).
    cbv beta iota delta [offset length] in Ho, Hl.
    unfold used_entry. rewrite Ho, Hl. unfold INVALID_VALUE, PAGE_SIZE. lia.
Qed.

(** The insertion into slot 0 of a page whose first loop stops there at a
    never-used entry, whatever the rest of the directory holds. *)
Lemma add_serialized_slot0 (p : SlottedPage) (ser : Text.text) :
  List.length p = Z.to_nat PAGE_SIZE →
  choose_slot p (Z.of_nat (List.length ser)) = 0 →
  slot_offset p 0 = INVALID_VALUE → slot_length p 0 = INVALID_VALUE →
  metadata_size + Z.of_nat (List.length ser) < PAGE_SIZE →
  add_serialized ser p
  = Returns (true,
             memcpy (set_slot_length
                       (set_slot_offset (set_slot_empty p 0 false) 0 metadata_size)
                       0 (Z.of_nat (List.length ser)))
                    metadata_size (map byte_of_char ser)).
Proof.
  intros Hsize Hc Ho Hl Hfit.
  assert (Hsize1 : List.length (set_slot_empty p 0 false) = Z.to_nat PAGE_SIZE)
    by (by rewrite set_slot_empty_size).
  assert (Hoff : choose_offset (set_slot_empty p 0 false) 0 = metadata_size).
  { unfold choose_offset. rewrite (offset_set_empty p Hsize 0 0) by lia.
    by rewrite Ho. }
  unfold add_serialized. rewrite Hc. change (0 =? MAX_SLOTS) with false. cbv iota zeta.
  rewrite Hoff. rewrite (offset_set_empty p Hsize 0 0) by lia.
  rewrite Ho, Z.eqb_refl.
  rewrite (proj2 (Z.leb_gt _ _)) by lia.
  rewrite (length_set_offset _ Hsize1 0 0) by lia.
  rewrite (length_set_empty p Hsize 0 0) by lia. rewrite Hl, Z.eqb_refl.
  rewrite (proj2 (Z.ltb_lt _ _)) by lia.
  change (metadata_size =? INVALID_VALUE) with false.
  by rewrite Z.leb_refl.
Qed.

Lemma misplaced_page_size : List.length misplaced_page = Z.to_nat PAGE_SIZE.
Proof.
  unfold misplaced_page. rewrite set_slot_length_size, set_slot_offset_size.
  apply new_page_wf.
Qed.

Lemma misplaced_page_slot0 : fresh_entry misplaced_page 0.
Proof.
  assert (Hnew : List.length new_page = Z.to_nat PAGE_SIZE) by apply new_page_wf.
  assert (Hsize1 : List.length (set_slot_offset new_page 1 3500) = Z.to_nat PAGE_SIZE)
    by (by rewrite set_slot_offset_size).
  destruct (new_page_fresh 0) as (He & Ho & Hl); [unfold MAX_SLOTS; lia|].
  unfold misplaced_page, fresh_entry.
  rewrite (empty_set_length _ Hsize1 1 0), (empty_set_offset _ Hnew 1 0) by lia.
  rewrite (offset_set_length _ Hsize1 1 0), (offset_set_offset_ne _ Hnew 1 0) by lia.
  rewrite (length_set_length_ne _ Hsize1 1 0), (length_set_offset _ Hnew 1 0) by lia.
  split; [exact He|]. split; [exact Ho|exact Hl].
Qed.

Lemma misplaced_page_slot1 :
  slot_at misplaced_page 1 = {| empty := true; offset := 3500; length := 100 |}.
Proof.
  assert (Hnew : List.length new_page = Z.to_nat PAGE_SIZE) by apply new_page_wf.
  assert (Hsize1 : List.length (set_slot_offset new_page 1 3500) = Z.to_nat PAGE_SIZE)
    by (by rewrite set_slot_offset_size).
  destruct (new_page_fresh 1) as (He & _); [unfold MAX_SLOTS; lia|].
  unfold misplaced_page, slot_at.
  rewrite (empty_set_length _ Hsize1 1 1), (empty_set_offset _ Hnew 1 1) by lia.
  rewrite (offset_set_length _ Hsize1 1 1) by lia.
  rewrite (offset_set_offset _ Hnew 1 3500) by (unfold MAX_SLOTS; lia).
  rewrite (length_set_length _ Hsize1 1 100) by (unfold MAX_SLOTS; lia).
  rewrite He. reflexivity.
Qed.

Lemma misplaced_page_choice : choose_slot misplaced_page 9 = 0.
Proof.
  destruct misplaced_page_slot0 as (He & Ho & Hl).
  assert (Hfits : fits_test misplaced_page 9 0 = true).
  { unfold fits_test. rewrite He, Hl. reflexivity. }
  destruct (choose_slot_cases misplaced_page 9)
    as [(Hlt & Hge & Hat & Hbefore)|[(Hnone & _)|(Hnone & _)]].
  - destruct (Z.eq_dec (choose_slot misplaced_page 9) 0) as [Heq|Hne]; [exact Heq|].
    rewrite Hbefore in Hfits by lia. discriminate Hfits.
  - rewrite Hnone in Hfits by (unfold MAX_SLOTS; lia). discriminate Hfits.
  - rewrite Hnone in Hfits by (unfold MAX_SLOTS; lia). discriminate Hfits.
Qed.

(** C3 (counterexample): in [misplaced_page] the first emptied slot whose
    retained length (100) is at least the encoded size (9) is slot 1, at
    offset 3500, and no slot before it is one; yet the insertion of the
    tuple (42) goes to the never-used slot 0 at [metadata_size], whose
    length field 0xFFFF passes the test of the first loop, and slot 1 stays
    empty. *)
Lemma C3_counterexample :
  Z.of_nat (List.length (TupleSpec.chars "1 0 4 42 ")) = 9 ∧
  first_such (reusable misplaced_page 9) 1 ∧
  slot_offset misplaced_page 1 = 3500 ∧
  ∃ p', @addTuple TupleSpec.no_float_text tuple_42 misplaced_page
        = Returns (true, p') ∧
        slot_empty p' 0 = false ∧ slot_offset p' 0 = metadata_size ∧
        slot_empty p' 1 = true.
Proof.
  pose proof misplaced_page_size as Hsize.
  destruct misplaced_page_slot0 as (He0 & Ho0 & Hl0).
  destruct (slot_at_fields _ _ _ misplaced_page_slot1) as (He1 & Ho1 & Hl1).
  cbn [empty offset length] in He1, Ho1, Hl1.
  split; [reflexivity|]. split; [|split; [exact Ho1|]].
  - split.
    + split; [unfold MAX_SLOTS; lia|]. split.
      * split; [exact He1|]. rewrite Ho1. discriminate.
      * rewrite Hl1. lia.
    + intros j Hj (_ & (_ & Ho) & _). assert (j = 0) as -> by lia.
      exact (Ho Ho0).
  - eexists. split.
    + unfold addTuple.
      change (@Tuples.serialize TupleSpec.no_float_text tuple_42)
        with (@Returns Text.text (TupleSpec.chars "1 0 4 42 ")).
      cbv iota.
      apply (add_serialized_slot0 misplaced_page (TupleSpec.chars "1 0 4 42 ") Hsize
               misplaced_page_choice Ho0 Hl0).
      reflexivity.
    + set (q := set_slot_length
                  (set_slot_offset (set_slot_empty misplaced_page 0 false) 0
                                   metadata_size)
                  0 (Z.of_nat (List.length (TupleSpec.chars "1 0 4 42 ")))).
      assert (Hsize1 : List.length (set_slot_empty misplaced_page 0 false)
                       = Z.to_nat PAGE_SIZE) by (by rewrite set_slot_empty_size).
      assert (Hsize2 : List.length (set_slot_offset
                                      (set_slot_empty misplaced_page 0 false) 0
                                      metadata_size) = Z.to_nat PAGE_SIZE)
        by (by rewrite set_slot_offset_size).
      assert (Hs0 : slot_at (memcpy q metadata_size
                               (map byte_of_char (TupleSpec.chars "1 0 4 42 "))) 0
                    = slot_at q 0)
        by (apply slot_memcpy; [lia|unfold MAX_SLOTS; lia]).
      assert (Hs1 : slot_at (memcpy q metadata_size
                               (map byte_of_char (TupleSpec.chars "1 0 4 42 "))) 1
                    = slot_at q 1)
        by (apply slot_memcpy; [lia|unfold MAX_SLOTS; lia]).
      apply slot_at_eq in Hs0 as (Hse0 & Hso0 & _).
      apply slot_at_eq in Hs1 as (Hse1 & _ & _).
      rewrite Hse0, Hso0, Hse1. unfold q.
      rewrite (empty_set_length _ Hsize2 0 0), (empty_set_offset _ Hsize1 0 0),
              (empty_set_empty _ Hsize 0 false) by (unfold MAX_SLOTS; lia).
      rewrite (offset_set_length _ Hsize2 0 0) by lia.
      rewrite (offset_set_offset _ Hsize1 0 metadata_size) by (unfold MAX_SLOTS; lia).
      rewrite (empty_set_length _ Hsize2 0 1), (empty_set_offset _ Hsize1 0 1),
              (empty_set_empty_ne _ Hsize 0 1 false) by lia.
      split; [reflexivity|]. split; [reflexivity|exact He1].
Qed.

End Concrete_pages.

(** ** The storage manager *)
Section Storage_claims.
Import Page PageSpec Storage StorageSpec.

(** C6 (counterexample): the page that the no-argument [extend()] appends
    to an empty file starts with the byte 1 (the [empty] flag of slot 0): it
    is not a page of zero bytes. *)
Lemma C6_counterexample :
  num_pages (extend empty_file) = 1 ∧
  page_of_file (extend empty_file) 0 = new_page ∧
  load8 (page_of_file (extend empty_file) 0) 0 = 1 ∧
  ¬ all_zero (page_of_file (extend empty_file) 0).
Proof.
  split; [reflexivity|]. split; [vm_compute; reflexivity|].
  split; [vm_compute; reflexivity|].
  intros Hz. assert (Hin : 1 ∈ page_of_file (extend empty_file) 0).
  { vm_compute. apply list_elem_of_here. }
  unfold all_zero in Hz. rewrite Forall_forall in Hz.
  apply Hz in Hin. discriminate.
Qed.

Lemma new_page_image : new_page = empty_page_image.
Proof. vm_compute. reflexivity. Qed.

(** C6 (amended): the no-argument [extend()] appends exactly one page, the
    image of an empty slotted page (its 512 slot entries are marked empty
    with offset and length 0xFFFF; every other byte is zero), and increments
    [num_pages]; [extend(page_id)] with [page_id >= num_pages] appends zero
    bytes only, [page_id + 1 - num_pages] pages of them, and sets
    [num_pages = page_id + 1]; with [page_id < num_pages] it leaves the file
    as it is. *)
Theorem C6_extend (sm : StorageManager) (page_id : Z)
    (Hn : 0 <= num_pages sm) (Hmax : num_pages sm + 1 < UINT64_MOD)
    (Hid : 0 <= page_id) (Hbytes : (page_id + 1) * PAGE_SIZE < UINT64_MOD) :
  (fileStream (extend sm) = fileStream sm ++ empty_page_image ∧
   List.length empty_page_image = Z.to_nat PAGE_SIZE ∧
   num_pages (extend sm) = num_pages sm + 1) ∧
  (num_pages sm <= page_id →
     fileStream (extend_till page_id sm)
       = fileStream sm
         ++ replicate (Z.to_nat ((page_id + 1 - num_pages sm) * PAGE_SIZE)) 0 ∧
     num_pages (extend_till page_id sm) = page_id + 1) ∧
  (page_id < num_pages sm → extend_till page_id sm = sm).
Proof.
  split; [|split].
  - unfold extend. simpl. rewrite new_page_image.
    split; [done|]. split; [vm_compute; reflexivity|].
    apply Z.mod_small. lia.
  - intros Hge. unfold extend_till.
    rewrite (proj2 (Z.ltb_ge _ _)) by lia. simpl.
    rewrite (Z.mod_small (page_id + 1 - num_pages sm)) by (unfold PAGE_SIZE, UINT64_MOD in *; lia).
    rewrite (Z.mod_small ((page_id + 1 - num_pages sm) * PAGE_SIZE))
      by (unfold PAGE_SIZE, UINT64_MOD in *; lia).
    split; [done|]. apply Z.mod_small. unfold PAGE_SIZE, UINT64_MOD in *. lia.
  - intros Hlt. unfold extend_till. by rewrite (proj2 (Z.ltb_lt _ _)) by lia.
Qed.

Lemma C6_extend_witness :
  num_pages (extend (extend empty_file)) = 2 ∧
  fileStream (extend_till 3 (extend empty_file))
    = fileStream (extend empty_file) ++ replicate (Z.to_nat (3 * PAGE_SIZE)) 0 ∧
  num_pages (extend_till 3 (extend empty_file)) = 4 ∧
  extend_till 0 (extend empty_file) = extend empty_file.
Proof.
  assert (H0 : 0 <= num_pages (extend empty_file)) by (vm_compute; discriminate).
  assert (H1 : num_pages (extend empty_file) + 1 < UINT64_MOD) by (vm_compute; reflexivity).
  destruct (C6_extend (extend empty_file) 3 H0 H1 ltac:(lia) ltac:(vm_compute; reflexivity))
    as ((_ & _ & Hnum) & Htill & _).
  destruct (C6_extend (extend empty_file) 0 H0 H1 ltac:(lia) ltac:(vm_compute; reflexivity))
    as (_ & _ & Hsame).
  split; [exact Hnum|].
  destruct (Htill ltac:(vm_compute; discriminate)) as [Hfile Hpages].
  split; [exact Hfile|]. split; [exact Hpages|].
  apply Hsame. vm_compute. reflexivity.
Defined.

End Storage_claims.

Section Zero_pages.
Import Page PageSpec Storage StorageSpec.

Lemma read_at_appended (file tail : list Z) (pos n : Z) (chunk : list Z) :
  Z.of_nat (List.length file) <= pos → 0 <= n →
  Z.of_nat (List.length chunk) = n →
  take (Z.to_nat n) (drop (Z.to_nat pos - List.length file) tail) = chunk →
  read_at (file ++ tail) pos n = Some chunk.
Proof.
  intros Hpos Hn Hlen Hchunk. unfold read_at.
  rewrite drop_app_ge by lia. rewrite Hchunk.
  by rewrite (proj2 (Z.eqb_eq _ _) Hlen).
Qed.

Lemma zero_page_all_zero : all_zero zero_page.
Proof. unfold all_zero, zero_page. by apply Forall_replicate. Qed.

Lemma count_from_flags (p : SlottedPage) (b : bool) (i : Z) (n : nat) :
  (∀ j, i <= j < i + Z.of_nat n → slot_empty p j = b) →
  count_from p i n = if b then 0 else Z.of_nat n.
Proof.
  revert i. induction n as [|n IH]; intros i Hall; simpl count_from.
  - by destruct b.
  - rewrite Hall by lia. rewrite IH by (intros j Hj; apply Hall; lia).
    destruct b; simpl; lia.
Qed.

Lemma countTuples_zero_page : countTuples zero_page = 512.
Proof.
  unfold countTuples. rewrite (count_from_flags zero_page false); [reflexivity|].
  intros j Hj.
  destruct (slot_at_fields _ _ _ (zero_page_slots j ltac:(unfold MAX_SLOTS in *; lia)))
    as (He & _). exact He.
Qed.

Lemma countTuples_new_page : countTuples new_page = 0.
Proof.
  unfold countTuples. rewrite (count_from_flags new_page true); [reflexivity|].
  intros j Hj.
  destruct (new_page_fresh j ltac:(unfold MAX_SLOTS in *; lia)) as (He & _).
  exact He.
Qed.

(** C10: every page that [extend(till_page_id)] appends consists of zero
    bytes; read through the slot layout, each of its 512 entries is occupied
    ([empty] = false) with offset 0 and length 0, and [countTuples] is 512,
    whereas the page that the no-argument [extend()] appends has 512 empty
    entries and [countTuples] 0. *)
Theorem C10_zero_page_reads_full (sm : StorageManager) (till_page_id page_id : Z)
    (Hwf : Storage.wf sm)
    (Hmax : num_pages sm + 1 < UINT64_MOD)
    (Hid : num_pages sm <= page_id <= till_page_id)
    (Hbytes : (till_page_id + 1) * PAGE_SIZE < UINT64_MOD) :
  (load page_id (extend_till till_page_id sm) = Returns zero_page ∧
   all_zero zero_page ∧
   (∀ i, 0 <= i < MAX_SLOTS →
         slot_at zero_page i = {| empty := false; offset := 0; length := 0 |}) ∧
   countTuples zero_page = 512) ∧
  (load (num_pages sm) (extend sm) = Returns new_page ∧
   (∀ i, 0 <= i < MAX_SLOTS → slot_empty new_page i = true) ∧
   countTuples new_page = 0).
Proof.
  destruct Hwf as [Hn Hlen]. split.
  - split; [|split; [apply zero_page_all_zero|split;
                     [apply zero_page_slots|apply countTuples_zero_page]]].
    unfold load, extend_till. rewrite (proj2 (Z.ltb_ge _ _)) by lia. simpl.
    rewrite (Z.mod_small (till_page_id + 1)) by (unfold PAGE_SIZE, UINT64_MOD in *; lia).
    rewrite (proj2 (Z.leb_gt _ _)) by lia.
    rewrite (Z.mod_small (till_page_id + 1 - num_pages sm))
      by (unfold PAGE_SIZE, UINT64_MOD in *; lia).
    rewrite (Z.mod_small ((till_page_id + 1 - num_pages sm) * PAGE_SIZE))
      by (unfold PAGE_SIZE, UINT64_MOD in *; lia).
    rewrite (read_at_appended _ _ _ _ zero_page); [done| | | |].
    + unfold PAGE_SIZE in *. lia.
    + unfold PAGE_SIZE. lia.
    + vm_compute. reflexivity.
    + rewrite drop_replicate, take_replicate. unfold zero_page. f_equal.
      unfold PAGE_SIZE in *. lia.
  - split; [|split; [intros i Hi; by destruct (new_page_fresh i Hi)|
                     apply countTuples_new_page]].
    unfold load, extend. simpl.
    rewrite (Z.mod_small (num_pages sm + 1)) by lia.
    rewrite (proj2 (Z.leb_gt _ _)) by lia.
    rewrite (read_at_appended _ _ _ _ new_page); [done| | | |].
    + lia.
    + unfold PAGE_SIZE. lia.
    + vm_compute. reflexivity.
    + replace (Z.to_nat (num_pages sm * PAGE_SIZE) - List.length (fileStream sm))%nat
        with 0%nat by lia.
      rewrite drop_0. apply take_ge. vm_compute. lia.
Qed.

Lemma C10_zero_page_reads_full_witness :
  Storage.wf (extend empty_file) ∧
  load 2 (extend_till 3 (extend empty_file)) = Returns zero_page ∧
  countTuples zero_page = 512 ∧
  load 1 (extend (extend empty_file)) = Returns new_page ∧
  countTuples new_page = 0.
Proof.
  assert (Hwf : Storage.wf (extend empty_file)).
  { split; [vm_compute; discriminate|vm_compute; reflexivity]. }
  destruct (C10_zero_page_reads_full (extend empty_file) 3 2 Hwf
              ltac:(vm_compute; reflexivity)
              ltac:(split; vm_compute; discriminate)
              ltac:(vm_compute; reflexivity))
    as ((Hload & _ & _ & Hcount) & (Hload' & _ & Hcount')).
  split; [exact Hwf|]. split; [exact Hload|]. split; [exact Hcount|].
  split; [exact Hload'|exact Hcount'].
Defined.

End Zero_pages.

(** ** The file seen page by page *)
Section Storage_facts.
Import Page Storage.

Lemma write_at_lookup (file bytes : list Z) (pos : Z) (i : nat) :
  0 <= pos → (Z.to_nat pos + List.length bytes <= List.length file)%nat →
  write_at file pos bytes !! i
  = if decide (Z.to_nat pos <= i < Z.to_nat pos + List.length bytes)%nat
    then bytes !! (i - Z.to_nat pos)%nat else file !! i.
Proof.
  intros Hpos Hfit. unfold write_at.
  replace (Z.to_nat pos - List.length file)%nat with 0%nat by lia.
  simpl replicate. rewrite app_nil_r.
  destruct (decide (i < Z.to_nat pos)%nat) as [Hlt|Hge].
  - rewrite lookup_app_l by (rewrite length_take; lia).
    rewrite lookup_take_lt by lia. rewrite decide_False by lia. done.
  - rewrite lookup_app_r by (rewrite length_take; lia).
    rewrite length_take. replace (Z.to_nat pos `min` List.length file)%nat
      with (Z.to_nat pos) by lia.
    destruct (decide (i < Z.to_nat pos + List.length bytes)%nat) as [Hin|Hout].
    + rewrite lookup_app_l by lia. rewrite decide_True by lia. done.
    + rewrite lookup_app_r by lia. rewrite lookup_drop.
      rewrite decide_False by lia. f_equal. lia.
Qed.

Lemma write_at_length (file bytes : list Z) (pos : Z) :
  0 <= pos → (Z.to_nat pos + List.length bytes <= List.length file)%nat →
  List.length (write_at file pos bytes) = List.length file.
Proof.
  intros Hpos Hfit. unfold write_at.
  replace (Z.to_nat pos - List.length file)%nat with 0%nat by lia.
  simpl replicate. rewrite app_nil_r.
  rewrite !length_app, length_take, length_drop. lia.
Qed.

Lemma page_of_file_lookup (sm : StorageManager) (k : Z) (i : nat) :
  page_of_file sm k !! i
  = if decide (i < Z.to_nat PAGE_SIZE)%nat
    then fileStream sm !! (Z.to_nat (k * PAGE_SIZE) + i)%nat else None.
Proof.
  unfold page_of_file. case_decide.
  - rewrite lookup_take_lt by done. by rewrite lookup_drop.
  - by rewrite lookup_take_ge by lia.
Qed.

Lemma page_of_file_length (sm : StorageManager) (k : Z) :
  Storage.wf sm → 0 <= k < num_pages sm →
  List.length (page_of_file sm k) = Z.to_nat PAGE_SIZE.
Proof.
  intros [Hn Hlen] Hk. unfold page_of_file.
  rewrite length_take, length_drop. unfold PAGE_SIZE in *. lia.
Qed.

(** A page inside the file is loaded as it stands there. *)
Lemma load_page_of_file (sm : StorageManager) (page_id : Z) :
  Storage.wf sm → 0 <= page_id < num_pages sm →
  load page_id sm = Returns (page_of_file sm page_id).
Proof.
  intros Hwf Hid. unfold load. rewrite (proj2 (Z.leb_gt _ _)) by lia.
  unfold read_at. fold (page_of_file sm page_id).
  rewrite (page_of_file_length sm page_id Hwf Hid).
  rewrite Z2Nat.id by (unfold PAGE_SIZE; lia). by rewrite Z.eqb_refl.
Qed.

(** Writing a page back changes that page of the file and no other. *)
Lemma flush_pages (sm : StorageManager) (page_id : Z) (p : SlottedPage) :
  Storage.wf sm → 0 <= page_id < num_pages sm →
  List.length p = Z.to_nat PAGE_SIZE →
  Storage.wf (flush page_id p sm) ∧
  num_pages (flush page_id p sm) = num_pages sm ∧
  page_of_file (flush page_id p sm) page_id = p ∧
  (∀ k, 0 <= k → k ≠ page_id →
        page_of_file (flush page_id p sm) k = page_of_file sm k).
Proof.
  intros [Hn Hlen] Hid Hp.
  assert (Hfit : (Z.to_nat (page_id * PAGE_SIZE) + List.length p
                  <= List.length (fileStream sm))%nat)
    by (unfold PAGE_SIZE in *; lia).
  assert (Hpos : 0 <= page_id * PAGE_SIZE) by (unfold PAGE_SIZE; lia).
  split; [|split; [done|split]].
  - split; [done|]. simpl. by rewrite write_at_length.
  - apply list_eq. intros i. rewrite page_of_file_lookup. simpl.
    rewrite write_at_lookup by done. case_decide as Hi.
    + rewrite decide_True by lia. f_equal. lia.
    + symmetry. apply lookup_ge_None. lia.
  - intros k Hk Hne. apply list_eq. intros i. rewrite !page_of_file_lookup.
    simpl. case_decide as Hi; [|done].
    rewrite write_at_lookup by done. rewrite decide_False; [done|].
    unfold PAGE_SIZE in *. lia.
Qed.

(** Appending a page leaves the pages before it alone. *)
Lemma extend_pages (sm : StorageManager) :
  Storage.wf sm → num_pages sm + 1 < UINT64_MOD →
  Storage.wf (extend sm) ∧
  num_pages (extend sm) = num_pages sm + 1 ∧
  page_of_file (extend sm) (num_pages sm) = new_page ∧
  (∀ k, 0 <= k < num_pages sm →
        page_of_file (extend sm) k = page_of_file sm k).
Proof.
  intros [Hn Hlen] Hmax.
  assert (Hnew : List.length new_page = Z.to_nat PAGE_SIZE) by apply new_page_wf.
  assert (Hnum : num_pages (extend sm) = num_pages sm + 1).
  { unfold extend. simpl. apply Z.mod_small. lia. }
  split; [|split; [done|split]].
  - split; [lia|]. rewrite Hnum. unfold extend. simpl.
    rewrite length_app, Hnew. unfold PAGE_SIZE in *. lia.
  - apply list_eq. intros i. rewrite page_of_file_lookup. unfold extend. simpl.
    case_decide as Hi.
    + rewrite lookup_app_r by (unfold PAGE_SIZE in *; lia). f_equal.
      unfold PAGE_SIZE in *. lia.
    + symmetry. apply lookup_ge_None. lia.
  - intros k Hk. apply list_eq. intros i. rewrite !page_of_file_lookup.
    unfold extend. simpl. case_decide as Hi; [|done].
    apply lookup_app_l. unfold PAGE_SIZE in *. lia.
Qed.

End Storage_facts.

(** ** Pages stay sound under insertion *)
Section Sound_pages.
Import Page PageSpec InsertSpec.

Ltac page_arith :=
  unfold metadata_size, slot_addr, sizeof_Slot, offsetof_empty,
         offsetof_offset, offsetof_length, MAX_SLOTS, PAGE_SIZE,
         INVALID_VALUE in *; lia.

Ltac page_size :=
  repeat first [ rewrite set_slot_empty_size | rewrite set_slot_offset_size
               | rewrite set_slot_length_size | rewrite length_memcpy ];
  done.

Lemma set_slot_offset_bytes (p : SlottedPage) (i v : Z) :
  Forall (fun b => 0 <= b < 256) p →
  Forall (fun b => 0 <= b < 256) (set_slot_offset p i v).
Proof. apply store16_bytes. Qed.

Lemma set_slot_length_bytes (p : SlottedPage) (i v : Z) :
  Forall (fun b => 0 <= b < 256) p →
  Forall (fun b => 0 <= b < 256) (set_slot_length p i v).
Proof. apply store16_bytes. Qed.

Lemma map_byte_of_char_bytes (ser : Text.text) :
  Forall (fun b => 0 <= b < 256) (map byte_of_char ser).
Proof.
  induction ser as [|c ser IH]; simpl; constructor; [apply byte_of_char_range|done].
Qed.

(** Soundness only looks at the size, the bytes' range and the directory. *)
Lemma sound_same_directory (p p' : SlottedPage) :
  sound p → List.length p' = Z.to_nat PAGE_SIZE →
  Forall (fun b => 0 <= b < 256) p' → same_directory p p' → sound p'.
Proof.
  intros [[Hsize Hbytes (k & Hk & Hused & Hfresh)] Hplace] Hsize' Hbytes' Hsame.
  assert (Heq : ∀ j, 0 <= j < MAX_SLOTS →
                     slot_empty p' j = slot_empty p j ∧
                     slot_offset p' j = slot_offset p j ∧
                     slot_length p' j = slot_length p j).
  { intros j Hj. by apply slot_at_eq, Hsame. }
  split; [split; [done|done|]|].
  - exists k. split; [done|]. split.
    + intros i Hi. destruct (Heq i) as (_ & Ho & Hl); [lia|].
      unfold used_entry. rewrite Ho, Hl. by apply Hused.
    + intros i Hi. destruct (Heq i) as (He & Ho & Hl); [lia|].
      unfold fresh_entry. rewrite He, Ho, Hl. by apply Hfresh.
  - destruct Hplace as [Hplace|Hplace]; [left|right]; intros i Hi;
      destruct (Heq i Hi) as (_ & Ho & Hl); rewrite Ho, ?Hl; by apply Hplace.
Qed.

End Sound_pages.

Section Sound_insertion.
Import Page PageSpec InsertSpec.

Ltac page_arith :=
  unfold metadata_size, slot_addr, sizeof_Slot, offsetof_empty,
         offsetof_offset, offsetof_length, MAX_SLOTS, PAGE_SIZE,
         INVALID_VALUE in *; lia.

Ltac page_size :=
  repeat first [ rewrite set_slot_empty_size | rewrite set_slot_offset_size
               | rewrite set_slot_length_size | rewrite length_memcpy ];
  done.

(** The slot that the two loops choose, in a well-formed page. *)
Lemma chosen_slot_cases (p : SlottedPage) (size : Z) :
  wf p →
  reusable p size (choose_slot p size) ∨
  ((∀ i, ¬ reusable p size i) ∧ unused p (choose_slot p size) ∧
   (∀ i, 0 <= i < choose_slot p size → used_entry p i)) ∨
  ((∀ i, ¬ reusable p size i) ∧ (∀ i, ¬ unused p i) ∧
   choose_slot p size = MAX_SLOTS).
Proof.
  intros Hwf. destruct (classic_reusable_dec p size) as [Hex|Hno].
  - left. by destruct (choose_slot_reuse p Hwf size Hex).
  - destruct (classic_unused_dec p) as [Hex|Hno'].
    + right; left. destruct (choose_slot_unused p Hwf size Hno Hex) as [[Hun _] Hbelow].
      by split.
    + right; right. split; [done|]. split; [done|]. by apply choose_slot_full.
Qed.

(** An entry of the used prefix gets a new [empty] flag. *)
Lemma sound_flag_update (p p' : SlottedPage) (c : Z) :
  sound p → List.length p' = Z.to_nat PAGE_SIZE →
  Forall (fun b => 0 <= b < 256) p' → 0 <= c < MAX_SLOTS →
  slot_offset p c ≠ INVALID_VALUE →
  (∀ j, 0 <= j < MAX_SLOTS → j ≠ c → slot_at p' j = slot_at p j) →
  slot_offset p' c = slot_offset p c → slot_length p' c = slot_length p c →
  sound p'.
Proof.
  intros [[Hsize Hbytes (k & Hk & Hused & Hfresh)] Hplace] Hsize' Hbytes' Hc Ho
         Hother Hoc Hlc.
  assert (Hck : c < k).
  { destruct (decide (c < k)) as [|Hge]; [done|].
    destruct (Hfresh c) as (_ & Ho' & _); [lia|]. done. }
  assert (Heq : ∀ j, 0 <= j < MAX_SLOTS →
                     slot_offset p' j = slot_offset p j ∧
                     slot_length p' j = slot_length p j ∧
                     (j ≠ c → slot_empty p' j = slot_empty p j)).
  { intros j Hj. destruct (decide (j = c)) as [->|Hne]; [done|].
    destruct (proj1 (slot_at_eq _ _ _) (Hother j Hj Hne)) as (He & Ho' & Hl'). done. }
  split; [split; [done|done|]|].
  - exists k. split; [done|]. split.
    + intros i Hi. destruct (Heq i) as (Ho' & Hl' & _); [lia|].
      unfold used_entry. rewrite Ho', Hl'. by apply Hused.
    + intros i Hi. destruct (Heq i) as (Ho' & Hl' & He'); [lia|].
      unfold fresh_entry. rewrite Ho', Hl', He' by lia. by apply Hfresh.
  - destruct Hplace as [Hplace|Hplace]; [left|right]; intros i Hi;
      destruct (Heq i Hi) as (Ho' & Hl' & _); rewrite Ho', ?Hl'; by apply Hplace.
Qed.

(** The first never-used entry is handed out. *)
Lemma sound_hand_out (p p' : SlottedPage) (c o l : Z) :
  sound p → List.length p' = Z.to_nat PAGE_SIZE →
  Forall (fun b => 0 <= b < 256) p' →
  unused p c → (∀ i, 0 <= i < c → used_entry p i) →
  (∀ j, 0 <= j < MAX_SLOTS → j ≠ c → slot_at p' j = slot_at p j) →
  slot_offset p' c = o → slot_length p' c = l →
  metadata_size <= o → 0 <= l → o + l < PAGE_SIZE →
  sound p'.
Proof.
  intros [[Hsize Hbytes (k & Hk & Hused & Hfresh)] Hplace] Hsize' Hbytes'
         (Hc & He & Ho) Hbelow Hother Hoc Hlc Hmeta Hl Hend.
  assert (Hck : c = k).
  { destruct (decide (c < k)) as [Hlt|Hge].
    - destruct (Hused c) as (Ho' & _); [lia|]. done.
    - destruct (decide (k < c)) as [Hlt|Hge']; [|lia].
      destruct (Hbelow k) as (Ho' & _); [lia|].
      destruct (Hfresh k) as (_ & Ho'' & _); [lia|]. done. }
  subst k.
  assert (Heq : ∀ j, 0 <= j < MAX_SLOTS → j ≠ c →
                     slot_empty p' j = slot_empty p j ∧
                     slot_offset p' j = slot_offset p j ∧
                     slot_length p' j = slot_length p j).
  { intros j Hj Hne. by apply slot_at_eq, Hother. }
  split; [split; [done|done|]|].
  - exists (c + 1). split; [lia|]. split.
    + intros i Hi. destruct (decide (i = c)) as [->|Hne].
      * unfold used_entry. rewrite Hoc, Hlc. page_arith.
      * destruct (Heq i) as (_ & Ho' & Hl'); [lia|done|].
        unfold used_entry. rewrite Ho', Hl'. apply Hused. lia.
    + intros i Hi. destruct (Heq i) as (He' & Ho' & Hl'); [lia|lia|].
      unfold fresh_entry. rewrite He', Ho', Hl'. apply Hfresh. lia.
  - left. intros i Hi Hoi. destruct (decide (i = c)) as [->|Hne]; [by rewrite Hoc|].
    destruct (Heq i Hi Hne) as (_ & Ho' & _). rewrite Ho' in *.
    destruct Hplace as [Hplace|Hplace]; [by apply Hplace|].
    destruct (Hplace c Hc) as [Habs _]. done.
Qed.

End Sound_insertion.

Section Sound_addTuple.
Import Page PageSpec InsertSpec.

Ltac page_arith :=
  unfold metadata_size, slot_addr, sizeof_Slot, offsetof_empty,
         offsetof_offset, offsetof_length, MAX_SLOTS, PAGE_SIZE,
         INVALID_VALUE in *; lia.

Ltac page_size :=
  repeat first [ rewrite set_slot_empty_size | rewrite set_slot_offset_size
               | rewrite set_slot_length_size | rewrite length_memcpy ];
  done.

(** The "revert" of a never-used entry restores the directory. *)
Lemma revert_same_directory (p : SlottedPage) (c off : Z) :
  List.length p = Z.to_nat PAGE_SIZE → 0 <= c < MAX_SLOTS →
  slot_empty p c = true → slot_offset p c = INVALID_VALUE →
  same_directory p
    (set_slot_offset
       (set_slot_empty (set_slot_offset (set_slot_empty p c false) c off) c true)
       c INVALID_VALUE).
Proof.
  intros Hsize Hc He Ho j Hj.
  rewrite slot_at_set_offset by (page_size || lia).
  case_decide as Hjc.
  - subst j.
    rewrite empty_set_empty, length_set_empty, length_set_offset, length_set_empty
      by (page_size || lia).
    unfold slot_at. rewrite He, Ho. done.
  - rewrite slot_at_set_empty, slot_at_set_offset, slot_at_set_empty
      by (page_size || lia).
    by rewrite !decide_False by done.
Qed.

(** On a sound page [addTuple] returns, and the page stays sound. *)
Lemma add_serialized_sound (p : SlottedPage) (ser : Text.text) :
  sound p → ser ≠ [] →
  ∃ added p', add_serialized ser p = Returns (added, p') ∧ sound p'.
Proof.
  intros Hsound Hne. pose proof Hsound as [Hwf Hplace].
  pose proof Hwf as [Hsize Hbytes (k & Hk & Hused & Hfresh)].
  assert (Hpos : 0 < Z.of_nat (List.length ser)) by (destruct ser; simpl in *; [done|lia]).
  destruct (chosen_slot_cases p (Z.of_nat (List.length ser)) Hwf)
    as [Hre|[(Hnore & Hun & Hbelow)|(Hnore & Hnoun & Hcm)]].
  - (* an emptied entry is reused *)
    rewrite (add_serialized_reuse p ser Hwf Hre). cbv zeta.
    set (c := choose_slot p (Z.of_nat (List.length ser))) in *.
    destruct Hre as (Hc & (He & Ho) & Hlen).
    assert (Hmeta : metadata_size <= slot_offset p c).
    { destruct Hplace as [Hplace|Hplace]; [by apply Hplace|].
      destruct (Hplace c Hc) as [_ Hl0]. lia. }
    rewrite (proj2 (Z.leb_le _ _) Hmeta).
    eexists _, _. split; [done|].
    assert (Hslot : ∀ j, 0 <= j < MAX_SLOTS →
              slot_at (memcpy (set_slot_empty p c false) (slot_offset p c)
                              (map byte_of_char ser)) j
              = slot_at (set_slot_empty p c false) j).
    { intros j Hj. by apply slot_memcpy. }
    apply (sound_flag_update p _ c); try done.
    + page_size.
    + apply memcpy_bytes; [by apply set_slot_empty_bytes|apply map_byte_of_char_bytes].
    + intros j Hj Hjc. rewrite Hslot by done.
      rewrite slot_at_set_empty by (done || lia). by rewrite decide_False.
    + destruct (proj1 (slot_at_eq _ _ _) (Hslot c Hc)) as (_ & -> & _).
      by rewrite offset_set_empty by (done || lia).
    + destruct (proj1 (slot_at_eq _ _ _) (Hslot c Hc)) as (_ & _ & ->).
      by rewrite length_set_empty by (done || lia).
  - (* the first never-used entry is handed out, if the tuple fits *)
    rewrite (add_serialized_fresh p ser Hwf Hun Hbelow).
    set (size := Z.of_nat (List.length ser)) in *.
    set (c := choose_slot p size) in *.
    set (off := if c =? 0 then metadata_size
                else slot_offset p (c - 1) + slot_length p (c - 1)).
    pose proof Hun as (Hc & He & Ho).
    destruct (PAGE_SIZE <=? off + size) eqn:Hfit.
    + eexists _, _. split; [done|].
      apply (sound_same_directory p); [done|page_size| |by apply revert_same_directory].
      apply set_slot_offset_bytes, set_slot_empty_bytes, set_slot_offset_bytes.
      by apply set_slot_empty_bytes.
    + apply Z.leb_gt in Hfit.
      assert (Hmeta : metadata_size <= off).
      { unfold off. destruct (c =? 0) eqn:Hc0; [lia|]. apply Z.eqb_neq in Hc0.
        destruct (Hbelow (c - 1)) as (Hprev & _); [lia|].
        pose proof (slot_length_range p (c - 1) Hbytes).
        destruct Hplace as [Hplace|Hplace].
        - specialize (Hplace (c - 1) ltac:(lia) Hprev). lia.
        - destruct (Hplace c Hc) as [Habs _]. done. }
      rewrite (proj2 (Z.leb_le _ _) Hmeta).
      eexists _, _. split; [done|].
      set (p3 := set_slot_length (set_slot_offset (set_slot_empty p c false) c off) c size).
      assert (Hslot : ∀ j, 0 <= j < MAX_SLOTS →
                slot_at (memcpy p3 off (map byte_of_char ser)) j = slot_at p3 j).
      { intros j Hj. by apply slot_memcpy. }
      apply (sound_hand_out p _ c off size); try done; try lia.
      * unfold p3. page_size.
      * apply memcpy_bytes; [|apply map_byte_of_char_bytes].
        apply set_slot_length_bytes, set_slot_offset_bytes.
        by apply set_slot_empty_bytes.
      * intros j Hj Hjc. rewrite Hslot by done. unfold p3.
        rewrite slot_at_set_length, slot_at_set_offset, slot_at_set_empty
          by (page_size || lia).
        by rewrite !decide_False by done.
      * destruct (proj1 (slot_at_eq _ _ _) (Hslot c Hc)) as (_ & -> & _). unfold p3.
        rewrite offset_set_length, offset_set_offset by (page_size || lia).
        apply Z.mod_small. page_arith.
      * destruct (proj1 (slot_at_eq _ _ _) (Hslot c Hc)) as (_ & _ & ->). unfold p3.
        rewrite length_set_length by (page_size || lia).
        apply Z.mod_small. page_arith.
  - (* no free entry *)
    exists false, p. split; [|done]. unfold add_serialized.
    by rewrite Hcm, Z.eqb_refl.
Qed.

Lemma new_page_sound : sound new_page.
Proof.
  split; [apply new_page_wf|]. left. intros i Hi Ho.
  destruct (new_page_fresh i Hi) as (_ & Ho' & _). exfalso. exact (Ho Ho').
Qed.

Lemma serialize_nonempty `{FT : Text.FloatText} (tuple : Tuples.Tuple)
      (ser : Text.text) :
  Tuples.serialize tuple = Returns ser → ser ≠ [].
Proof.
  unfold Tuples.serialize.
  destruct (Tuples.serialize_fields (Tuples.fields tuple)); try done.
  intros [= <-]. by destruct (Text.show_int _).
Qed.

End Sound_addTuple.

(** ** Touch histories *)
Section Policy_facts.
Import PolicySpec.

Lemma filter_all {A} (P : A → Prop) `{∀ x, Decision (P x)} (l : list A) :
  (∀ x, x ∈ l → P x) → filter P l = l.
Proof.
  induction l as [|x l IH]; intros Hall; [done|].
  rewrite filter_cons_True by (apply Hall; by left).
  f_equal. apply IH. intros y Hy. apply Hall. by right.
Qed.

Lemma filter_none {A} (P : A → Prop) `{∀ x, Decision (P x)} (l : list A) :
  (∀ x, x ∈ l → ¬ P x) → filter P l = [].
Proof.
  induction l as [|x l IH]; intros Hall; [done|].
  rewrite filter_cons_False by (apply Hall; by left).
  apply IH. intros y Hy. apply Hall. by right.
Qed.

Lemma unlink_filter (page_id : PageID) (q : list PageID) :
  NoDup q → TwoQ.unlink page_id q = filter (fun p => p ≠ page_id) q.
Proof.
  induction q as [|x q IH]; intros Hnd; simpl; [done|].
  apply NoDup_cons in Hnd as [Hx Hnd]. case_decide as Hxp.
  - subst x. rewrite filter_cons_False by (intros Hne; by apply Hne).
    symmetry. apply filter_all. intros y Hy ->. done.
  - rewrite filter_cons_True by done. f_equal. by apply IH.
Qed.

Lemma remove_dups_cons_in (x : PageID) (l : list PageID) :
  x ∈ l → remove_dups (x :: l) = remove_dups l.
Proof. intros Hin. simpl. by destruct (decide_rel elem_of x l). Qed.

Lemma remove_dups_cons_notin (x : PageID) (l : list PageID) :
  x ∉ l → remove_dups (x :: l) = x :: remove_dups l.
Proof. intros Hin. simpl. by destruct (decide_rel elem_of x l). Qed.

Lemma remove_dups_filter (P : PageID → Prop) `{∀ x, Decision (P x)}
      (l : list PageID) :
  filter P (remove_dups l) = remove_dups (filter P l).
Proof.
  induction l as [|x l IH]; [done|].
  destruct (decide (x ∈ l)) as [Hin|Hnin].
  - rewrite remove_dups_cons_in by done. rewrite IH.
    destruct (decide (P x)) as [HP|HP].
    + rewrite (filter_cons_True P x l) by done.
      by rewrite remove_dups_cons_in by (by apply list_elem_of_filter).
    + by rewrite (filter_cons_False P x l) by done.
  - rewrite remove_dups_cons_notin by done.
    destruct (decide (P x)) as [HP|HP].
    + rewrite (filter_cons_True P x l), filter_cons_True by done.
      rewrite remove_dups_cons_notin by (rewrite list_elem_of_filter; tauto).
      by rewrite IH.
    + by rewrite (filter_cons_False P x l), filter_cons_False by done.
Qed.

Lemma remove_dups_snoc (l : list PageID) (p : PageID) :
  remove_dups (l ++ [p]) = filter (fun q => q ≠ p) (remove_dups l) ++ [p].
Proof.
  induction l as [|x l IH]; [done|].
  change ((x :: l) ++ [p]) with (x :: (l ++ [p])).
  destruct (decide (x ∈ l)) as [Hin|Hnin].
  - rewrite !remove_dups_cons_in; [done|done|]. apply elem_of_app. by left.
  - rewrite (remove_dups_cons_notin x l) by done.
    destruct (decide (x = p)) as [->|Hne].
    + rewrite remove_dups_cons_in by (apply elem_of_app; right; by left).
      rewrite IH. rewrite filter_cons_False; [done|]. intros Hne. by apply Hne.
    + rewrite remove_dups_cons_notin.
      * rewrite filter_cons_True by done. simpl. by rewrite IH.
      * rewrite elem_of_app, list_elem_of_singleton. tauto.
Qed.

Lemma occurrences_snoc (q p : PageID) (ps : list PageID) :
  occurrences q (ps ++ [p])
  = (occurrences q ps + if decide (p = q) then 1 else 0)%nat.
Proof.
  unfold occurrences. rewrite filter_app, length_app. f_equal.
  case_decide as Hpq.
  - by rewrite filter_cons_True by done.
  - by rewrite filter_cons_False by done.
Qed.

Lemma occurrences_zero (p : PageID) (ps : list PageID) :
  occurrences p ps = 0%nat ↔ p ∉ ps.
Proof.
  unfold occurrences. split.
  - intros Hlen Hin. apply length_zero_iff_nil in Hlen.
    assert (Hp : p ∈ filter (fun q => q = p) ps) by (by apply list_elem_of_filter).
    rewrite Hlen in Hp. by apply elem_of_nil in Hp.
  - intros Hnin. rewrite filter_none; [done|]. intros x Hx ->. done.
Qed.

Lemma fold_touch_snoc {S} (touch : PageID → S → bool * S) (ps : list PageID)
      (p : PageID) (s : S) :
  fold_left (fun acc q => snd (touch q acc)) (ps ++ [p]) s
  = snd (touch p (fold_left (fun acc q => snd (touch q acc)) ps s)).
Proof. by rewrite fold_left_app. Qed.

End Policy_facts.

(** ** The LRU policy *)
Section LRU_facts.
Import LRU.

Lemma LRU_empty_policy_wf : wf empty_policy.
Proof. split; simpl; [apply NoDup_nil_2|set_solver]. Qed.

Lemma LRU_touch_wf (page_id : PageID) (s : LRUPolicy) :
  wf s → wf (snd (touch page_id s)).
Proof.
  intros [Hnd Hidx]. unfold touch. case_decide as Hin; simpl.
  - split; simpl.
    + apply NoDup_app. split; [by apply NoDup_unlink|]. split; [|apply NoDup_singleton].
      intros x Hx Hx'. apply list_elem_of_singleton in Hx' as ->.
      apply elem_of_unlink in Hx; [|done]. by destruct Hx.
    + intros p. rewrite elem_of_app, list_elem_of_singleton, elem_of_unlink by done.
      rewrite Hidx. destruct (decide (p = page_id)) as [->|Hne]; [|tauto].
      split; [by right|]. intros _. by apply Hidx.
  - split; simpl.
    + apply NoDup_app. split; [done|]. split; [|apply NoDup_singleton].
      intros x Hx Hx'. apply list_elem_of_singleton in Hx' as ->.
      apply Hin. by apply Hidx.
    + intros p. rewrite elem_of_app, list_elem_of_singleton, elem_of_union,
        elem_of_singleton, Hidx. tauto.
Qed.

Lemma LRU_touch_all_wf (ps : list PageID) (s : LRUPolicy) :
  wf s → wf (touch_all ps s).
Proof.
  revert s. induction ps as [|p ps IH]; intros s Hwf; [done|].
  apply IH. by apply LRU_touch_wf.
Qed.

Lemma LRU_touch_list (page_id : PageID) (s : LRUPolicy) :
  wf s →
  lru_list_ (snd (touch page_id s))
  = filter (fun p => p ≠ page_id) (lru_list_ s) ++ [page_id].
Proof.
  intros [Hnd Hidx]. unfold touch. case_decide as Hin; simpl.
  - by rewrite unlink_filter.
  - rewrite filter_all; [done|]. intros x Hx ->. by apply Hin, Hidx.
Qed.

(** X1: after any run of [touch] calls on a fresh LRU policy, the list
    holds every touched page once, ordered by its last touch (the least
    recently touched page in front), and [contains] tells the touched
    pages. *)
Theorem X1_LRU_touch_history (ps : list PageID) :
  get_list (touch_all ps empty_policy) = remove_dups ps ∧
  (∀ p, contains p (touch_all ps empty_policy) = bool_decide (p ∈ ps)).
Proof.
  assert (Hlist : lru_list_ (touch_all ps empty_policy) = remove_dups ps).
  { induction ps as [|p ps IH] using rev_ind; [done|].
    unfold touch_all. rewrite fold_touch_snoc. fold (touch_all ps empty_policy).
    rewrite LRU_touch_list by apply LRU_touch_all_wf, LRU_empty_policy_wf.
    by rewrite IH, remove_dups_snoc. }
  split; [done|]. intros p. unfold contains.
  pose proof (LRU_touch_all_wf ps _ LRU_empty_policy_wf) as [_ Hidx].
  apply bool_decide_ext. by rewrite Hidx, Hlist, elem_of_remove_dups.
Qed.

(** X2: in a state that satisfies the class invariant, [touch(page_id)]
    returns whether the page was tracked, moves it to the most recently
    used end and keeps the order of all other pages; the invariant holds
    afterwards and the size grows by one exactly for a new page. *)
Theorem X2_LRU_touch (page_id : PageID) (s : LRUPolicy) (Hwf : wf s) :
  fst (touch page_id s) = contains page_id s ∧
  wf (snd (touch page_id s)) ∧
  get_list (snd (touch page_id s))
    = filter (fun p => p ≠ page_id) (get_list s) ++ [page_id] ∧
  contains page_id (snd (touch page_id s)) = true ∧
  size (snd (touch page_id s))
    = (size s + if contains page_id s then 0 else 1)%nat.
Proof.
  split; [|split; [by apply LRU_touch_wf|split; [by apply LRU_touch_list|]]].
  - unfold touch, contains. by case_decide; [rewrite bool_decide_true|rewrite bool_decide_false].
  - destruct Hwf as [Hnd Hidx]. unfold touch, contains, size.
    case_decide as Hin; simpl.
    + rewrite !bool_decide_true by done. split; [done|].
      rewrite length_app. simpl.
      apply Hidx, list_elem_of_split in Hin as (pre & post & Heq).
      rewrite Heq in *. rewrite unlink_split.
      * rewrite !length_app. simpl. lia.
      * apply NoDup_app in Hnd as (_ & Hdis & _). intros Hpre.
        apply (Hdis _ Hpre). by left.
    + rewrite bool_decide_true by set_solver.
      rewrite bool_decide_false by done. by rewrite length_app.
Qed.

Lemma X2_LRU_touch_witness :
  wf (touch_all [7; 8; 9] empty_policy) ∧
  fst (touch 7 (touch_all [7; 8; 9] empty_policy)) = true ∧
  get_list (snd (touch 7 (touch_all [7; 8; 9] empty_policy))) = [8; 9; 7].
Proof.
  pose proof (X2_LRU_touch 7 (touch_all [7; 8; 9] empty_policy)
                (LRU_touch_all_wf _ _ LRU_empty_policy_wf)) as (Hb & _ & Hl & _).
  split; [exact (LRU_touch_all_wf _ _ LRU_empty_policy_wf)|].
  split; [rewrite Hb; vm_compute; reflexivity|].
  rewrite Hl. vm_compute. reflexivity.
Defined.

(** X3: in a state that satisfies the class invariant, [evict()] returns the
    page at the least recently used end and unlinks it, so that it is no
    longer tracked while every other page is; on an empty policy it throws
    [std::runtime_error]; it ends in no other way. *)
Theorem X3_LRU_evict (s : LRUPolicy) (Hwf : wf s) :
  match evict s with
  | Returns (victim, s') =>
      get_list s = victim :: get_list s' ∧ wf s' ∧
      contains victim s' = false ∧
      (∀ p, p ≠ victim → contains p s' = contains p s)
  | Throws e => e = std_runtime_error ∧ size s = 0%nat ∧ empty s = true
  | _ => False
  end.
Proof.
  destruct Hwf as [Hnd Hidx]. unfold evict, get_list, contains, size, empty.
  destruct (lru_list_ s) as [|victim rest] eqn:Hl; [done|]. simpl.
  apply NoDup_cons in Hnd as [Hv Hnd].
  split; [done|]. split; [|split].
  - split; simpl; [done|]. intros p. rewrite elem_of_difference, elem_of_singleton, Hidx.
    rewrite elem_of_cons. split; [tauto|]. intros Hp. split; [by right|]. by intros ->.
  - apply bool_decide_false. set_solver.
  - intros p Hne. apply bool_decide_ext. set_solver.
Qed.

Lemma X3_LRU_evict_witness :
  wf (touch_all [7; 8; 7] empty_policy) ∧
  ∃ s', evict (touch_all [7; 8; 7] empty_policy) = Returns (8, s') ∧
        contains 8 s' = false.
Proof.
  pose proof (X3_LRU_evict (touch_all [7; 8; 7] empty_policy)
                (LRU_touch_all_wf _ _ LRU_empty_policy_wf)) as H.
  split; [exact (LRU_touch_all_wf _ _ LRU_empty_policy_wf)|].
  destruct (evict (touch_all [7; 8; 7] empty_policy)) as [[v s']| | | |] eqn:He;
    try (vm_compute in He; discriminate He).
  destruct H as (_ & _ & Hc & _).
  assert (v = 8) as -> by (vm_compute in He; by injection He as <- _).
  by exists s'.
Defined.

(** X4: in a state that satisfies the class invariant, [remove(page_id)]
    unlinks the page and keeps the order of the others; the page is not
    tracked afterwards and the invariant holds; for a page that is not
    tracked the policy is left as it is. *)
Theorem X4_LRU_remove (page_id : PageID) (s : LRUPolicy) (Hwf : wf s) :
  wf (remove page_id s) ∧
  get_list (remove page_id s) = filter (fun p => p ≠ page_id) (get_list s) ∧
  contains page_id (remove page_id s) = false ∧
  (contains page_id s = false → remove page_id s = s).
Proof.
  destruct Hwf as [Hnd Hidx]. unfold remove, contains, get_list.
  case_decide as Hin.
  - split; [|split; [|split]]; simpl.
    + split; simpl; [by apply NoDup_unlink|]. intros p.
      rewrite elem_of_unlink by done. rewrite elem_of_difference, elem_of_singleton, Hidx.
      done.
    + by apply unlink_filter.
    + apply bool_decide_false. set_solver.
    + intros Hc. apply bool_decide_eq_false in Hc. done.
  - split; [done|]. split; [|split; [by apply bool_decide_false|done]].
    symmetry. apply filter_all. intros x Hx ->. by apply Hin, Hidx.
Qed.

Lemma X4_LRU_remove_witness :
  wf (touch_all [7; 8; 9] empty_policy) ∧
  get_list (remove 8 (touch_all [7; 8; 9] empty_policy)) = [7; 9].
Proof.
  pose proof (X4_LRU_remove 8 (touch_all [7; 8; 9] empty_policy)
                (LRU_touch_all_wf _ _ LRU_empty_policy_wf)) as (_ & Hl & _).
  split; [exact (LRU_touch_all_wf _ _ LRU_empty_policy_wf)|].
  rewrite Hl. vm_compute. reflexivity.
Defined.

End LRU_facts.

(** ** The 2Q policy beyond [touch] and the pin-aware [evict] *)
Section TwoQ_more.
Import TwoQ PolicySpec.

Lemma filter_iff_in {A} (P Q : A → Prop) `{∀ x, Decision (P x)}
      `{∀ x, Decision (Q x)} (l : list A) :
  (∀ x, x ∈ l → P x ↔ Q x) → filter P l = filter Q l.
Proof.
  induction l as [|x l IH]; intros Hall; [done|].
  assert (Hl : filter P l = filter Q l).
  { apply IH. intros y Hy. apply Hall. by right. }
  destruct (decide (P x)) as [HP|HP].
  - rewrite !filter_cons_True; [by rewrite Hl| |done]. apply Hall; [by left|done].
  - rewrite !filter_cons_False; [done| |done]. intros HQ. apply HP, Hall; [by left|done].
Qed.

(** The two queues after [touch], as filters of the queues before. *)
Lemma touch_queues (page_id : PageID) (s : TwoQPolicy) :
  wf s →
  fifo_queue_ (snd (touch page_id s))
    = (if decide (page_id ∈ fifo_queue_ s)
       then filter (fun p => p ≠ page_id) (fifo_queue_ s)
       else if decide (page_id ∈ lru_queue_ s) then fifo_queue_ s
       else fifo_queue_ s ++ [page_id]) ∧
  lru_queue_ (snd (touch page_id s))
    = (if decide (page_id ∈ fifo_queue_ s) then lru_queue_ s ++ [page_id]
       else if decide (page_id ∈ lru_queue_ s)
       then filter (fun p => p ≠ page_id) (lru_queue_ s) ++ [page_id]
       else lru_queue_ s).
Proof.
  intros [Hf Hl Hfi Hli Hd]. unfold touch.
  destruct (decide (page_id ∈ fifo_map_ s)) as [Hin|Hnin]; simpl.
  - apply Hfi in Hin. rewrite !(decide_True _ _ Hin). by rewrite unlink_filter.
  - rewrite Hfi in Hnin. rewrite !(decide_False _ _ Hnin).
    destruct (decide (page_id ∈ lru_map_ s)) as [Hin'|Hnin']; simpl.
    + apply Hli in Hin'. rewrite !(decide_True _ _ Hin'). by rewrite unlink_filter.
    + rewrite Hli in Hnin'. by rewrite !(decide_False _ _ Hnin').
Qed.

Lemma elem_of_touched_once (p : PageID) (ps : list PageID) :
  p ∈ touched_once ps ↔ occurrences p ps = 1%nat.
Proof.
  unfold touched_once. rewrite list_elem_of_filter. split; [tauto|].
  intros Hocc. split; [done|]. destruct (decide (p ∈ ps)) as [|Hnin]; [done|].
  apply occurrences_zero in Hnin. lia.
Qed.

Lemma elem_of_touched_again (p : PageID) (ps : list PageID) :
  p ∈ touched_again ps ↔ (2 <= occurrences p ps)%nat.
Proof.
  unfold touched_again. rewrite elem_of_remove_dups, list_elem_of_filter.
  split; [tauto|]. intros Hocc. split; [done|].
  destruct (decide (p ∈ ps)) as [|Hnin]; [done|].
  apply occurrences_zero in Hnin. lia.
Qed.

Lemma touched_once_snoc (ps : list PageID) (p : PageID) :
  touched_once (ps ++ [p])
  = if decide (occurrences p ps = 0%nat) then touched_once ps ++ [p]
    else filter (fun q => q ≠ p) (touched_once ps).
Proof.
  unfold touched_once at 1. rewrite filter_app.
  case_decide as Hocc.
  - rewrite (filter_cons_True _ p [])
      by (rewrite occurrences_snoc, decide_True by done; lia).
    f_equal. apply filter_iff_in. intros q Hq.
    rewrite occurrences_snoc. case_decide as Hpq; [|by rewrite Nat.add_0_r].
    subst q. by apply occurrences_zero in Hocc.
  - rewrite (filter_cons_False _ p [])
      by (rewrite occurrences_snoc, decide_True by done; lia).
    rewrite app_nil_r. unfold touched_once. rewrite list_filter_filter.
    apply filter_iff_in. intros q Hq. rewrite occurrences_snoc.
    case_decide as Hpq; [subst q; split; [lia|tauto]|].
    rewrite Nat.add_0_r. split; [|tauto]. intros ?. split; [congruence|done].
Qed.

Lemma touched_again_snoc (ps : list PageID) (p : PageID) :
  touched_again (ps ++ [p])
  = if decide (occurrences p ps = 0%nat) then touched_again ps
    else filter (fun q => q ≠ p) (touched_again ps) ++ [p].
Proof.
  unfold touched_again at 1. rewrite filter_app.
  case_decide as Hocc.
  - rewrite (filter_cons_False _ p [])
      by (rewrite occurrences_snoc, decide_True by done; lia).
    rewrite app_nil_r. unfold touched_again. f_equal.
    apply filter_iff_in. intros q Hq.
    rewrite occurrences_snoc. case_decide as Hpq; [|by rewrite Nat.add_0_r].
    subst q. by apply occurrences_zero in Hocc.
  - rewrite (filter_cons_True _ p [])
      by (rewrite occurrences_snoc, decide_True by done; lia).
    rewrite remove_dups_snoc. f_equal. unfold touched_again.
    rewrite !remove_dups_filter. f_equal. rewrite !list_filter_filter.
    apply filter_iff_in. intros q Hq. rewrite occurrences_snoc.
    case_decide as Hpq; [subst q; tauto|]. by rewrite Nat.add_0_r.
Qed.

(** X5: after any run of [touch] calls on a fresh 2Q policy, FIFO holds the
    pages that were touched exactly once, in the order of their touches, and
    LRU holds the pages that were touched more than once, ordered by their
    last touch. *)
Theorem X5_TwoQ_touch_history (ps : list PageID) :
  get_fifo_list (touch_all ps empty_policy) = touched_once ps ∧
  get_lru_list (touch_all ps empty_policy) = touched_again ps.
Proof.
  unfold get_fifo_list, get_lru_list.
  induction ps as [|p ps [IHf IHl]] using rev_ind; [done|].
  unfold touch_all. rewrite fold_touch_snoc. fold (touch_all ps empty_policy).
  destruct (touch_queues p (touch_all ps empty_policy)) as [-> ->];
    [apply touch_all_wf, empty_policy_wf|].
  rewrite IHf, IHl, touched_once_snoc, touched_again_snoc.
  destruct (decide (p ∈ touched_once ps)) as [Hin|Hnin].
  - apply elem_of_touched_once in Hin. rewrite !decide_False by lia.
    split; [done|]. f_equal. symmetry. apply filter_all. intros q Hq ->.
    apply elem_of_touched_again in Hq. lia.
  - rewrite elem_of_touched_once in Hnin.
    destruct (decide (p ∈ touched_again ps)) as [Hin'|Hnin'].
    + apply elem_of_touched_again in Hin'. rewrite !decide_False by lia.
      split; [|done]. symmetry. apply filter_all. intros q Hq ->.
      apply elem_of_touched_once in Hq. lia.
    + rewrite elem_of_touched_again in Hnin'. by rewrite !decide_True by lia.
Qed.

Lemma contains_tracked (p : PageID) (s : TwoQPolicy) :
  wf s → (contains p s = true) ↔ p ∈ fifo_queue_ s ++ lru_queue_ s.
Proof.
  intros [_ _ Hfi Hli _]. unfold contains.
  rewrite orb_true_iff, !bool_decide_eq_true, elem_of_app, Hfi, Hli. done.
Qed.

Lemma contains_ext (p q : PageID) (s s' : TwoQPolicy) :
  wf s → wf s' →
  (p ∈ fifo_queue_ s' ++ lru_queue_ s' ↔ q ∈ fifo_queue_ s ++ lru_queue_ s) →
  contains p s' = contains q s.
Proof.
  intros Hwf Hwf' Hiff. apply eq_true_iff_eq.
  by rewrite !contains_tracked.
Qed.

Lemma NoDup_remove_middle (pre post : list PageID) (x : PageID) :
  NoDup (pre ++ x :: post) →
  NoDup (pre ++ post) ∧ (x ∉ pre ++ post) ∧
  ∀ p, p ∈ pre ++ x :: post ↔ p = x ∨ p ∈ pre ++ post.
Proof.
  intros Hnd. apply NoDup_app in Hnd as (Hpre & Hdis & Hpost).
  apply NoDup_cons in Hpost as [Hx Hpost]. split; [|split].
  - apply NoDup_app. split; [done|]. split; [|done].
    intros y Hy Hy'. apply (Hdis y Hy). by right.
  - rewrite elem_of_app. intros [Hin|Hin]; [|done]. apply (Hdis x Hin). by left.
  - intros p. rewrite !elem_of_app, elem_of_cons. tauto.
Qed.

(** X6: in a state that satisfies the class invariant, a page that
    [evict(state_of_page)] returns was tracked and is not tracked
    afterwards, every other page is tracked as before, the policy holds
    one page less, and the invariant holds again. *)
Theorem X6_TwoQ_evict_keeps_invariant (m : gmap PageID PageState)
    (s s' : TwoQPolicy) (victim : PageID)
    (Hwf : wf s) (Hev : evict m s = Returns (victim, s')) :
  wf s' ∧ contains victim s = true ∧ contains victim s' = false ∧
  (∀ p, p ≠ victim → contains p s' = contains p s) ∧
  size s = S (size s').
Proof.
  pose proof Hwf as [Hf Hl Hfi Hli Hd]. unfold evict in Hev.
  assert (Hgoal : ∀ s', wf s' →
            (∀ p, p ∈ fifo_queue_ s ++ lru_queue_ s
                  ↔ p = victim ∨ p ∈ fifo_queue_ s' ++ lru_queue_ s') →
            victim ∉ fifo_queue_ s' ++ lru_queue_ s' →
            size s = S (size s') →
            wf s' ∧ contains victim s = true ∧ contains victim s' = false ∧
            (∀ p, p ≠ victim → contains p s' = contains p s) ∧
            size s = S (size s')).
  { intros t Hwft Hiff Hnot Hsize. split; [done|]. split; [|split; [|split; [|done]]].
    - apply contains_tracked; [done|]. apply Hiff. by left.
    - apply not_true_is_false. by rewrite contains_tracked.
    - intros p Hne. apply contains_ext; [done|done|]. rewrite Hiff. tauto. }
  destruct (scan_queue m (fifo_queue_ s)) as [[v rest]|] eqn:Hscan.
  - injection Hev as -> <-.
    destruct (scan_queue_Some _ _ _ _ Hscan) as (pre & post & Hq & -> & _).
    rewrite Hq in Hf. destruct (NoDup_remove_middle _ _ _ Hf) as (Hnd & Hv & Hmem).
    assert (Hvl : victim ∉ lru_queue_ s).
    { apply Hd. rewrite Hq. apply Hmem. by left. }
    apply Hgoal; simpl.
    + split; simpl; [done|done| |done|].
      * intros p. rewrite elem_of_difference, elem_of_singleton, Hfi, Hq, Hmem.
        split; [tauto|]. intros Hp. split; [by right|]. by intros ->.
      * intros p Hp. apply Hd. rewrite Hq. apply Hmem. by right.
    + intros p. rewrite Hq, !elem_of_app, elem_of_cons. tauto.
    + rewrite elem_of_app. tauto.
    + unfold size. simpl. rewrite Hq, !length_app. simpl. lia.
  - destruct (scan_queue m (lru_queue_ s)) as [[v rest]|] eqn:Hscan'; [|done].
    injection Hev as -> <-.
    destruct (scan_queue_Some _ _ _ _ Hscan') as (pre & post & Hq & -> & _).
    rewrite Hq in Hl. destruct (NoDup_remove_middle _ _ _ Hl) as (Hnd & Hv & Hmem).
    assert (Hvf : victim ∉ fifo_queue_ s).
    { intros Hin. apply (Hd _ Hin). rewrite Hq. apply Hmem. by left. }
    apply Hgoal; simpl.
    + split; simpl; [done|done|done| |].
      * intros p. rewrite elem_of_difference, elem_of_singleton, Hli, Hq, Hmem.
        split; [tauto|]. intros Hp. split; [by right|]. by intros ->.
      * intros p Hp Hp'. apply (Hd p Hp). rewrite Hq. apply Hmem. by right.
    + intros p. rewrite Hq, !elem_of_app, elem_of_cons. tauto.
    + rewrite elem_of_app. tauto.
    + unfold size. simpl. rewrite Hq, !length_app. simpl. lia.
Qed.

Lemma X6_TwoQ_evict_keeps_invariant_witness :
  wf (touch_all [7; 8; 7] empty_policy) ∧
  ∃ s', evict {[7 := PAGE_UNFIXED; 8 := PAGE_UNFIXED]}
              (touch_all [7; 8; 7] empty_policy) = Returns (8, s') ∧
        wf s' ∧ contains 8 s' = false ∧ contains 7 s' = true.
Proof.
  split; [exact (touch_all_wf _ _ empty_policy_wf)|].
  destruct (evict {[7 := PAGE_UNFIXED; 8 := PAGE_UNFIXED]}
                  (touch_all [7; 8; 7] empty_policy))
    as [[v s']| | | |] eqn:He; try (vm_compute in He; discriminate He).
  assert (v = 8) as -> by (vm_compute in He; by injection He as <- _).
  destruct (X6_TwoQ_evict_keeps_invariant _ _ _ _
              (touch_all_wf _ _ empty_policy_wf) He) as (Hwf & _ & Hc & Hother & _).
  exists s'. split; [done|]. split; [done|]. split; [done|].
  rewrite Hother by done. vm_compute. reflexivity.
Defined.

(** X7: when every tracked page is unfixed in the state map, the pin-aware
    [evict(state_of_page)] returns the same victim and leaves the same
    policy as the plain [evict()], which takes the front of FIFO, or the
    front of LRU when FIFO is empty; with nothing tracked the plain one
    throws [std::runtime_error] where the pin-aware one throws
    [buffer_full_error]. *)
Theorem X7_TwoQ_evict_plain (m : gmap PageID PageState) (s : TwoQPolicy)
    (Hm : all_unfixed m s) :
  match TwoQSimple.evict s with
  | Returns (victim, s') =>
      evict m s = Returns (victim, s') ∧
      head (fifo_queue_ s ++ lru_queue_ s) = Some victim
  | Throws e =>
      e = std_runtime_error ∧ size s = 0%nat ∧
      evict m s = Throws buffer_full_error
  | _ => False
  end.
Proof.
  unfold TwoQSimple.evict, evict, size, all_unfixed in *.
  destruct (fifo_queue_ s) as [|v rest] eqn:Hf.
  - destruct (lru_queue_ s) as [|v rest] eqn:Hl; [done|]. simpl.
    rewrite (Hm v) by (by left). by rewrite Z.eqb_refl.
  - simpl. rewrite (Hm v) by (by left). by rewrite Z.eqb_refl.
Qed.

Lemma X7_TwoQ_evict_plain_witness :
  all_unfixed {[7 := PAGE_UNFIXED; 8 := PAGE_UNFIXED]}
              (touch_all [7; 8; 7] empty_policy) ∧
  ∃ s', TwoQSimple.evict (touch_all [7; 8; 7] empty_policy) = Returns (8, s') ∧
        evict {[7 := PAGE_UNFIXED; 8 := PAGE_UNFIXED]}
              (touch_all [7; 8; 7] empty_policy) = Returns (8, s').
Proof.
  assert (Hm : all_unfixed {[7 := PAGE_UNFIXED; 8 := PAGE_UNFIXED]}
                           (touch_all [7; 8; 7] empty_policy)).
  { intros p Hp.
    change (p ∈ [8; 7]) in Hp.
    apply elem_of_cons in Hp as [->|Hp]; [vm_compute; reflexivity|].
    apply list_elem_of_singleton in Hp as ->. vm_compute. reflexivity. }
  split; [exact Hm|].
  pose proof (X7_TwoQ_evict_plain _ _ Hm) as H.
  destruct (TwoQSimple.evict (touch_all [7; 8; 7] empty_policy))
    as [[v s']| | | |] eqn:He; try (vm_compute in He; discriminate He).
  assert (v = 8) as -> by (vm_compute in He; by injection He as <- _).
  exists s'. split; [done|]. by destruct H.
Defined.

(** X8: in a state that satisfies the class invariant, [remove(page_id)]
    unlinks the page from the queue that holds it and keeps both queues
    otherwise in order; the page is not tracked afterwards and the
    invariant holds; a page that is not tracked leaves the policy as it
    is. *)
Theorem X8_TwoQ_remove (page_id : PageID) (s : TwoQPolicy) (Hwf : wf s) :
  wf (remove page_id s) ∧
  get_fifo_list (remove page_id s)
    = filter (fun p => p ≠ page_id) (get_fifo_list s) ∧
  get_lru_list (remove page_id s)
    = filter (fun p => p ≠ page_id) (get_lru_list s) ∧
  contains page_id (remove page_id s) = false ∧
  (contains page_id s = false → remove page_id s = s).
Proof.
  pose proof Hwf as [Hf Hl Hfi Hli Hd].
  assert (Hkeep : ∀ q : list PageID, page_id ∉ q → q = filter (fun p => p ≠ page_id) q).
  { intros q Hq. symmetry. apply filter_all. intros x Hx ->. done. }
  unfold remove, contains, get_fifo_list, get_lru_list.
  destruct (decide (page_id ∈ fifo_map_ s)) as [Hin|Hnin].
  - assert (Hnl : page_id ∉ lru_queue_ s) by (apply Hd, Hfi, Hin).
    split; [|split; [|split; [|split]]]; simpl.
    + split; simpl; [by apply NoDup_unlink|done| |done|].
      * intros p. rewrite elem_of_unlink by done.
        by rewrite elem_of_difference, elem_of_singleton, Hfi.
      * intros p Hp. apply elem_of_unlink in Hp as [Hp _]; [|done]. by apply Hd.
    + by apply unlink_filter.
    + by apply Hkeep.
    + rewrite bool_decide_false by set_solver.
      rewrite bool_decide_false; [done|]. by rewrite Hli.
    + rewrite bool_decide_true by done. done.
  - destruct (decide (page_id ∈ lru_map_ s)) as [Hin'|Hnin'].
    + split; [|split; [|split; [|split]]]; simpl.
      * split; simpl; [done|by apply NoDup_unlink|done| |].
        -- intros p. rewrite elem_of_unlink by done.
           by rewrite elem_of_difference, elem_of_singleton, Hli.
        -- intros p Hp Hp'. apply elem_of_unlink in Hp' as [Hp' _]; [|done].
           by apply (Hd p).
      * apply Hkeep. by rewrite <- Hfi.
      * by apply unlink_filter.
      * rewrite bool_decide_false by done.
        rewrite bool_decide_false; [done|]. set_solver.
      * rewrite (bool_decide_true (page_id ∈ lru_map_ s)) by done.
        by rewrite orb_true_r.
    + split; [done|]. split; [apply Hkeep; by rewrite <- Hfi|].
      split; [apply Hkeep; by rewrite <- Hli|].
      by rewrite !bool_decide_false by done.
Qed.

Lemma X8_TwoQ_remove_witness :
  wf (touch_all [7; 8; 9; 7] empty_policy) ∧
  get_fifo_list (remove 8 (touch_all [7; 8; 9; 7] empty_policy)) = [9] ∧
  get_lru_list (remove 8 (touch_all [7; 8; 9; 7] empty_policy)) = [7].
Proof.
  pose proof (X8_TwoQ_remove 8 (touch_all [7; 8; 9; 7] empty_policy)
                (touch_all_wf _ _ empty_policy_wf)) as (_ & Hf & Hl & _).
  split; [exact (touch_all_wf _ _ empty_policy_wf)|].
  rewrite Hf, Hl. split; vm_compute; reflexivity.
Defined.

(** X9: in a state that satisfies the class invariant, [touch(page_id)]
    returns whether the page was tracked; afterwards the page is tracked,
    every other page is tracked as before, the number of tracked pages
    grows by one exactly for a new page, and the invariant holds. *)
Theorem X9_TwoQ_touch_tracks (page_id : PageID) (s : TwoQPolicy) (Hwf : wf s) :
  fst (touch page_id s) = contains page_id s ∧
  wf (snd (touch page_id s)) ∧
  contains page_id (snd (touch page_id s)) = true ∧
  (∀ p, p ≠ page_id → contains p (snd (touch page_id s)) = contains p s) ∧
  size (snd (touch page_id s))
    = (size s + if contains page_id s then 0 else 1)%nat.
Proof.
  pose proof (touch_wf page_id s Hwf) as Hwf'.
  destruct (touch_queues page_id s Hwf) as [Hfq Hlq].
  pose proof Hwf as [Hf Hl Hfi Hli Hd].
  assert (Hlen : ∀ q : list PageID, NoDup q → page_id ∈ q →
            List.length q = S (List.length (filter (fun p => p ≠ page_id) q))).
  { intros q Hnd Hin. rewrite <- unlink_filter by done.
    apply list_elem_of_split in Hin as (pre & post & ->).
    rewrite unlink_split.
    - rewrite !length_app. simpl. lia.
    - apply NoDup_app in Hnd as (_ & Hdis & _). intros Hpre.
      apply (Hdis _ Hpre). by left. }
  split; [|split; [done|split; [|split]]].
  - unfold touch, contains.
    destruct (decide (page_id ∈ fifo_map_ s)); [by rewrite bool_decide_true|].
    rewrite (bool_decide_false (page_id ∈ fifo_map_ s)) by done.
    by destruct (decide (page_id ∈ lru_map_ s));
      [rewrite bool_decide_true|rewrite bool_decide_false].
  - apply contains_tracked; [done|]. rewrite Hfq, Hlq.
    repeat case_decide; rewrite !elem_of_app, ?list_elem_of_singleton; tauto.
  - intros p Hne. apply contains_ext; [done|done|]. rewrite Hfq, Hlq.
    repeat case_decide;
      rewrite !elem_of_app, ?list_elem_of_filter, ?elem_of_app,
        ?list_elem_of_singleton; tauto.
  - assert (Hc : contains page_id s
                 = bool_decide (page_id ∈ fifo_queue_ s ++ lru_queue_ s)).
    { apply eq_true_iff_eq. by rewrite contains_tracked, bool_decide_eq_true. }
    rewrite Hc. unfold size. rewrite Hfq, Hlq.
    destruct (decide (page_id ∈ fifo_queue_ s)) as [Hin|Hnin].
    + rewrite bool_decide_true by (apply elem_of_app; by left).
      rewrite length_app, (Hlen _ Hf Hin). simpl. lia.
    + destruct (decide (page_id ∈ lru_queue_ s)) as [Hin'|Hnin'].
      * rewrite bool_decide_true by (apply elem_of_app; by right).
        rewrite length_app, (Hlen _ Hl Hin'). simpl. lia.
      * rewrite bool_decide_false by (rewrite elem_of_app; tauto).
        rewrite length_app. simpl. lia.
Qed.

Lemma X9_TwoQ_touch_tracks_witness :
  wf (touch_all [7; 8; 9; 7] empty_policy) ∧
  fst (touch 5 (touch_all [7; 8; 9; 7] empty_policy)) = false ∧
  size (snd (touch 5 (touch_all [7; 8; 9; 7] empty_policy))) = 4%nat.
Proof.
  pose proof (X9_TwoQ_touch_tracks 5 (touch_all [7; 8; 9; 7] empty_policy)
                (touch_all_wf _ _ empty_policy_wf)) as (Hb & _ & _ & _ & Hs).
  split; [exact (touch_all_wf _ _ empty_policy_wf)|].
  rewrite Hb, Hs. split; vm_compute; reflexivity.
Defined.

End TwoQ_more.

(** ** Predicates *)
Section Predicate_facts.
Import Text Fields Predicate PredicateSpec.

Lemma string_compare_refl (a : text) : string_compare a a = Eq.
Proof. induction a as [|x a IH]; simpl; [done|]. by rewrite N.compare_refl. Qed.

Lemma string_compare_eq (a b : text) : string_compare a b = Eq ↔ a = b.
Proof.
  split; [|intros ->; apply string_compare_refl].
  revert b. induction a as [|x a IH]; intros [|y b]; simpl; try done.
  destruct (N.compare (N_of_ascii x) (N_of_ascii y)) eqn:Hc; try done.
  intros Hrest. apply N.compare_eq in Hc.
  assert (x = y) as ->.
  { rewrite <- (ascii_N_embedding x), <- (ascii_N_embedding y). by rewrite Hc. }
  f_equal. by apply IH.
Qed.

Lemma string_compare_swap (a b : text) :
  string_compare b a = CompOpp (string_compare a b).
Proof.
  revert b. induction a as [|x a IH]; intros [|y b]; simpl; try done.
  rewrite (N.compare_antisym (N_of_ascii x) (N_of_ascii y)).
  destruct (N.compare (N_of_ascii x) (N_of_ascii y)); simpl; [apply IH|done|done].
Qed.

(** X10: [SimplePredicate::check] yields false and writes
    "Error: Invalid field reference in predicate" when an operand does not
    resolve to a field (a null direct value, a column index at or past the
    end of the tuple, a null field in the tuple), and yields false and
    writes "Error: Type mismatch in predicate comparison" when the two
    fields have different types, whatever the comparison operator, [NE]
    included. *)
Theorem X10_SimplePredicate_errors (left_operand right_operand : Operand)
    (op : ComparisonOperator) (tuple : list (option Field)) :
  (resolveOperand left_operand tuple = None ∨
   resolveOperand right_operand tuple = None →
   check (SimplePredicate left_operand right_operand op) tuple
   = (false, [invalid_reference_msg])) ∧
  (∀ a b, resolveOperand left_operand tuple = Some a →
          resolveOperand right_operand tuple = Some b →
          getType a ≠ getType b →
          check (SimplePredicate left_operand right_operand op) tuple
          = (false, [type_mismatch_msg])) ∧
  (∀ i, Z.of_nat (length tuple) <= i → resolveOperand (indirect i) tuple = None) ∧
  (∀ i, 0 <= i → tuple !! Z.to_nat i = Some None →
        resolveOperand (indirect i) tuple = None) ∧
  resolveOperand (direct None) tuple = None.
Proof.
  split; [|split; [|split; [|split]]].
  - simpl. unfold check_simple. intros [-> | Hr]; [done|].
    rewrite Hr. by destruct (resolveOperand left_operand tuple).
  - intros a b Ha Hb Hne. simpl. unfold check_simple. rewrite Ha, Hb.
    by destruct a, b.
  - intros i Hi. unfold resolveOperand. simpl.
    by rewrite (proj2 (Z.leb_le _ _) Hi).
  - intros i Hi Hnull. unfold resolveOperand. simpl. rewrite Hnull.
    by destruct (Z.of_nat (length tuple) <=? i).
  - done.
Qed.

(** X11: when both operands resolve to fields of one type,
    [SimplePredicate::check] writes nothing and its result is that of the
    comparison operator of [Field] that the predicate's operator names; for
    [EQ] on strings this needs that neither string holds a NUL byte, since
    [operator==] compares the whole buffers and the predicate compares
    [asString()]. *)
Theorem X11_SimplePredicate_agrees_with_Field (left_operand right_operand : Operand)
    (op : ComparisonOperator) (tuple : list (option Field)) (a b : Field)
    (Ha : resolveOperand left_operand tuple = Some a)
    (Hb : resolveOperand right_operand tuple = Some b)
    (Hty : getType a = getType b)
    (Hbytes : same_bytes_compared op a b) :
  field_operator op a b
  = (Returns (fst (check (SimplePredicate left_operand right_operand op) tuple)), []) ∧
  snd (check (SimplePredicate left_operand right_operand op) tuple) = [].
Proof.
  simpl. unfold check_simple. rewrite Ha, Hb.
  destruct a as [x|x|x], b as [y|y|y]; try done; destruct op; try done.
  simpl in *. destruct Hbytes as [-> ->]. split; [|done].
  do 2 f_equal. apply eq_true_iff_eq.
  rewrite bool_decide_eq_true. unfold is_eq.
  rewrite <- string_compare_eq. by destruct (string_compare x y).
Qed.

Lemma X11_SimplePredicate_agrees_with_Field_witness :
  Fields.op_lt (IntField 3) (IntField 5)
  = (Returns (fst (check (SimplePredicate (indirect 1) (direct (Some (IntField 5))) LT)
                         [Some (StringField []); Some (IntField 3)])), []).
Proof.
  apply (X11_SimplePredicate_agrees_with_Field
           (indirect 1) (direct (Some (IntField 5))) LT
           [Some (StringField []); Some (IntField 3)] (IntField 3) (IntField 5));
    reflexivity || exact I.
Defined.

(** X12: when both operands resolve to fields of one type, [NE] holds
    exactly when [EQ] does not, and [GT] holds exactly when [LT] holds with
    the operands exchanged; for INT and STRING fields, [GE] is the negation
    of [LT] and [LE] the negation of [GT]. *)
Theorem X12_SimplePredicate_operator_laws (l r : Operand)
    (tuple : list (option Field)) (a b : Field)
    (Ha : resolveOperand l tuple = Some a)
    (Hb : resolveOperand r tuple = Some b)
    (Hty : getType a = getType b) :
  fst (check (SimplePredicate l r NE) tuple)
    = negb (fst (check (SimplePredicate l r EQ) tuple)) ∧
  fst (check (SimplePredicate l r GT) tuple)
    = fst (check (SimplePredicate r l LT) tuple) ∧
  (is_float a = false →
   fst (check (SimplePredicate l r GE) tuple)
     = negb (fst (check (SimplePredicate l r LT) tuple)) ∧
   fst (check (SimplePredicate l r LE) tuple)
     = negb (fst (check (SimplePredicate l r GT) tuple))).
Proof.
  simpl. unfold check_simple. rewrite Ha, Hb.
  destruct a as [x|x|x], b as [y|y|y]; try done; simpl.
  - split; [done|]. split; [apply Z.gtb_ltb|]. intros _.
    split; [by rewrite Z.geb_leb, Z.leb_antisym|].
    by rewrite Z.gtb_ltb, Z.leb_antisym.
  - split; [done|]. split; [|done].
    rewrite (string_compare_swap (c_str x) (c_str y)).
    by destruct (string_compare (c_str x) (c_str y)).
Qed.

Lemma X12_SimplePredicate_operator_laws_witness :
  fst (check (SimplePredicate (indirect 0) (direct (Some (IntField 5))) NE)
             [Some (IntField 3)])
  = negb (fst (check (SimplePredicate (indirect 0) (direct (Some (IntField 5))) EQ)
                     [Some (IntField 3)])).
Proof.
  apply (X12_SimplePredicate_operator_laws
           (indirect 0) (direct (Some (IntField 5)))
           [Some (IntField 3)] (IntField 3) (IntField 5));
    reflexivity.
Defined.

(** X13: a [ComplexPredicate] without predicates holds, for [OR] as for
    [AND]; otherwise [AND] holds exactly when every predicate holds and
    [OR] exactly when some predicate holds; the lines written to
    [std::cerr] are those of the predicates up to and including the first
    one that decides the result, in order, and no later predicate adds
    any. *)
Theorem X13_ComplexPredicate_check (ps : list IPredicate)
    (tuple : list (option Field)) :
  check (ComplexPredicate AND ps) tuple
  = (forallb (fun q => fst (check q tuple)) ps,
     concat (map (fun q => snd (check q tuple))
                 (evaluated (fun q => negb (fst (check q tuple))) ps))) ∧
  check (ComplexPredicate OR ps) tuple
  = (match ps with [] => true | _ :: _ => existsb (fun q => fst (check q tuple)) ps end,
     concat (map (fun q => snd (check q tuple))
                 (evaluated (fun q => fst (check q tuple)) ps))).
Proof.
  split.
  - destruct ps as [|p0 ps0]; [done|]. simpl check.
    lazymatch goal with |- context [?F ps0] => is_fix F; set (loop := F) end.
    assert (Hloop : ∀ qs, loop qs
              = (forallb (fun q => fst (check q tuple)) qs,
                 concat (map (fun q => snd (check q tuple))
                             (evaluated (fun q => negb (fst (check q tuple))) qs)))).
    { induction qs as [|q qs IH]; [done|].
      change (loop (q :: qs))
        with (let (holds, out) := check q tuple in
              if holds then let (b, out') := loop qs in (b, out ++ out')
              else (false, out)).
      rewrite IH. simpl. destruct (check q tuple) as [[|] out] eqn:Hq; simpl;
        rewrite ?Hq; simpl; [done|].
      by rewrite app_nil_r. }
    rewrite Hloop. simpl. destruct (check p0 tuple) as [[|] out] eqn:Hq; simpl;
      rewrite ?Hq; simpl; [done|].
    by rewrite app_nil_r.
  - destruct ps as [|p0 ps0]; [done|]. simpl check.
    lazymatch goal with |- context [?F ps0] => is_fix F; set (loop := F) end.
    assert (Hloop : ∀ qs, loop qs
              = (existsb (fun q => fst (check q tuple)) qs,
                 concat (map (fun q => snd (check q tuple))
                             (evaluated (fun q => fst (check q tuple)) qs)))).
    { induction qs as [|q qs IH]; [done|].
      change (loop (q :: qs))
        with (let (holds, out) := check q tuple in
              if holds then (true, out)
              else let (b, out') := loop qs in (b, out ++ out')).
      rewrite IH. simpl. destruct (check q tuple) as [[|] out] eqn:Hq; simpl;
        rewrite ?Hq; simpl; [|done].
      by rewrite app_nil_r. }
    rewrite Hloop. simpl. destruct (check p0 tuple) as [[|] out] eqn:Hq; simpl;
      rewrite ?Hq; simpl; [|done].
    by rewrite app_nil_r.
Qed.

End Predicate_facts.

(** ** Record identifiers *)
Section Rid_facts.
Import Rid.

Lemma lor_halves (hi lo : Z) :
  0 <= hi → 0 <= lo < 65536 → Z.lor (hi * 65536) lo = hi * 65536 + lo.
Proof.
  intros Hhi Hlo.
  assert (Hland : Z.land (hi * 65536) lo = 0).
  { apply Z.bits_inj'. intros n Hn. rewrite Z.land_spec, Z.bits_0.
    destruct (Z.lt_ge_cases n 16) as [Hlt|Hge].
    - change 65536 with (2 ^ 16). by rewrite Z.mul_pow2_bits_low.
    - assert (Hbit : Z.testbit lo n = false).
      { apply Z.testbit_false; [lia|]. rewrite Z.div_small; [done|]. split; [lia|].
        apply Z.lt_le_trans with (2 ^ 16); [lia|].
        apply Z.pow_le_mono_r; lia. }
      rewrite Hbit. apply andb_false_r. }
  rewrite <- (Z.lxor_lor _ _ Hland). symmetry. by apply Z.add_nocarry_lxor.
Qed.

(** X14: for RIDs whose members are 16-bit values, the 32-bit key that
    [std::hash<RID>] passes on determines the RID: two RIDs have the same
    key exactly when [operator==] holds, which is when they are the same
    RID, and [operator!=] is its negation; the page id is the key's upper
    and the slot id its lower half. *)
Theorem X14_RID_hash_key (a b : RID) (Ha : in_range a) (Hb : in_range b) :
  (hash_key a = hash_key b ↔ op_eq a b = true) ∧
  (op_eq a b = true ↔ a = b) ∧
  op_ne a b = negb (op_eq a b) ∧
  hash_key a = page_id a * 65536 + slot_id a ∧
  0 <= hash_key a < 2^32.
Proof.
  assert (Hkey : ∀ r, in_range r → hash_key r = page_id r * 65536 + slot_id r).
  { intros r [Hp Hs]. unfold hash_key.
    rewrite Z.shiftl_mul_pow2 by lia. change (2 ^ 16) with 65536.
    rewrite Z.mod_small by lia. apply lor_halves; lia. }
  assert (Heq : op_eq a b = true ↔ a = b).
  { unfold op_eq. rewrite andb_true_iff, !Z.eqb_eq.
    destruct a, b; simpl. split; [by intros [-> ->]|by intros [= -> ->]]. }
  split; [|split; [done|split; [done|split; [by apply Hkey|]]]].
  - rewrite Heq, !Hkey by done. split; [|by intros ->].
    destruct Ha, Hb, a as [pa sa], b as [pb sb]; simpl in *. intros Hk.
    assert (pa = pb) as -> by lia. f_equal. lia.
  - rewrite Hkey by done. destruct Ha. lia.
Qed.

Lemma X14_RID_hash_key_witness :
  in_range {| page_id := 3; slot_id := 17 |} ∧
  hash_key {| page_id := 3; slot_id := 17 |} = 196625.
Proof.
  assert (Hr : in_range {| page_id := 3; slot_id := 17 |})
    by (unfold in_range; simpl; lia).
  split; [exact Hr|].
  destruct (X14_RID_hash_key _ _ Hr Hr) as (_ & _ & _ & Hk & _).
  rewrite Hk. reflexivity.
Defined.

End Rid_facts.

(** ** The storage manager: what is written is what is read *)
Section Storage_roundtrip.
Import Page Storage.

(** X15: on a file that holds [num_pages] whole pages, [flush(page_id, page)]
    of a page inside the file followed by [load(page_id)] returns that page;
    every other page loads as before, and the number of pages and the
    length of the file stay what they were. *)
Theorem X15_flush_then_load (sm : StorageManager) (page_id : Z) (p : list Z)
    (Hwf : Storage.wf sm) (Hid : 0 <= page_id < num_pages sm)
    (Hp : List.length p = Z.to_nat PAGE_SIZE) :
  load page_id (flush page_id p sm) = Returns p ∧
  (∀ k, 0 <= k < num_pages sm → k ≠ page_id →
        load k (flush page_id p sm) = load k sm) ∧
  getNumPages (flush page_id p sm) = getNumPages sm ∧
  List.length (fileStream (flush page_id p sm)) = List.length (fileStream sm).
Proof.
  destruct (flush_pages sm page_id p Hwf Hid Hp) as (Hwf' & Hn & Hsame & Hother).
  split; [|split; [|split; [done|]]].
  - rewrite load_page_of_file by (done || lia). by rewrite Hsame.
  - intros k Hk Hne. rewrite !load_page_of_file by (done || lia).
    by rewrite Hother by lia.
  - destruct Hwf as [_ Hlen], Hwf' as [_ Hlen']. rewrite Hn in Hlen'. lia.
Qed.

Lemma X15_flush_then_load_witness :
  Storage.wf (extend (open true [])) ∧
  load 1 (flush 1 zero_page (extend (open true []))) = Returns zero_page ∧
  load 0 (flush 1 zero_page (extend (open true [])))
  = load 0 (extend (open true [])).
Proof.
  assert (Hopen : Storage.wf (open true [])).
  { destruct (extend_pages StorageSpec.empty_file) as (Hwf & _);
      [by split|by vm_compute|]. exact Hwf. }
  assert (Hn : num_pages (open true []) = 1) by reflexivity.
  destruct (extend_pages (open true []) Hopen) as (Hwf & Hn' & _);
    [rewrite Hn; by vm_compute|].
  split; [exact Hwf|].
  destruct (X15_flush_then_load (extend (open true [])) 1 zero_page Hwf)
    as (Hl & Ho & _).
  - rewrite Hn', Hn. lia.
  - apply length_replicate.
  - split; [exact Hl|]. apply Ho; [rewrite Hn', Hn; lia|lia].
Defined.

(** X16: on a file that holds [num_pages] whole pages, [load(page_id)]
    throws [std::out_of_range] exactly for the page ids at or past
    [num_pages] and otherwise returns [PAGE_SIZE] bytes, never the
    [std::runtime_error] of a failed read; [flush] to a page id past the
    end writes the bytes but leaves [num_pages] alone, so that the page
    still cannot be loaded. *)
Theorem X16_load_bounds (sm : StorageManager) (page_id : Z) (p : list Z)
    (Hwf : Storage.wf sm) (Hid : 0 <= page_id) :
  (num_pages sm <= page_id → load page_id sm = Throws std_out_of_range) ∧
  (page_id < num_pages sm →
     ∃ q, load page_id sm = Returns q ∧ List.length q = Z.to_nat PAGE_SIZE) ∧
  (num_pages sm <= page_id →
     load page_id (flush page_id p sm) = Throws std_out_of_range).
Proof.
  split; [|split].
  - intros Hge. unfold load. by rewrite (proj2 (Z.leb_le _ _) Hge).
  - intros Hlt. exists (page_of_file sm page_id).
    split; [apply load_page_of_file; done || lia|].
    apply page_of_file_length; done || lia.
  - intros Hge. unfold load, flush. simpl. by rewrite (proj2 (Z.leb_le _ _) Hge).
Qed.

Lemma X16_load_bounds_witness :
  Storage.wf StorageSpec.empty_file ∧
  load 0 StorageSpec.empty_file = Throws std_out_of_range ∧
  load 0 (flush 0 zero_page StorageSpec.empty_file) = Throws std_out_of_range.
Proof.
  assert (Hwf : Storage.wf StorageSpec.empty_file) by (by split).
  split; [exact Hwf|].
  destruct (X16_load_bounds StorageSpec.empty_file 0 zero_page Hwf) as (H1 & _ & H3);
    [lia|].
  split; [apply H1|apply H3]; simpl; lia.
Defined.

End Storage_roundtrip.

(** ** Bytes of a page under its operations *)
Section Page_bytes.
Import Page PageSpec PageRead.

Ltac page_arith :=
  unfold metadata_size, slot_addr, sizeof_Slot, offsetof_empty,
         offsetof_offset, offsetof_length, MAX_SLOTS, PAGE_SIZE,
         INVALID_VALUE in *; lia.

Lemma lookup_store8 (p : SlottedPage) (a v : Z) (i : nat) :
  i ≠ Z.to_nat a → store8 p a v !! i = p !! i.
Proof. intros Hne. unfold store8. by rewrite list_lookup_insert_ne. Qed.

Lemma lookup_store16 (p : SlottedPage) (a v : Z) (i : nat) :
  0 <= a → i ≠ Z.to_nat a → i ≠ Z.to_nat (a + 1) → store16 p a v !! i = p !! i.
Proof.
  intros Ha H1 H2. unfold store16. by rewrite !lookup_store8.
Qed.

(** Stores to the directory leave the tuple area alone. *)
Lemma lookup_set_slot_empty (p : SlottedPage) (c : Z) (b : bool) (i : nat) :
  0 <= c < MAX_SLOTS → metadata_size <= Z.of_nat i →
  set_slot_empty p c b !! i = p !! i.
Proof. intros Hc Hi. apply lookup_store8. page_arith. Qed.

Lemma lookup_set_slot_offset (p : SlottedPage) (c v : Z) (i : nat) :
  0 <= c < MAX_SLOTS → metadata_size <= Z.of_nat i →
  set_slot_offset p c v !! i = p !! i.
Proof. intros Hc Hi. apply lookup_store16; page_arith. Qed.

Lemma lookup_set_slot_length (p : SlottedPage) (c v : Z) (i : nat) :
  0 <= c < MAX_SLOTS → metadata_size <= Z.of_nat i →
  set_slot_length p c v !! i = p !! i.
Proof. intros Hc Hi. apply lookup_store16; page_arith. Qed.

(** [memcpy] into the buffer, byte by byte. *)
Lemma lookup_memcpy (p : SlottedPage) (dst : Z) (src : list Z) (i : nat) :
  0 <= dst → (Z.to_nat dst + List.length src <= List.length p)%nat →
  memcpy p dst src !! i
  = if decide (Z.to_nat dst <= i < Z.to_nat dst + List.length src)%nat
    then src !! (i - Z.to_nat dst)%nat else p !! i.
Proof.
  revert p dst. induction src as [|b src IH]; intros p dst Hdst Hfit; simpl.
  - by rewrite decide_False by lia.
  - simpl in Hfit. rewrite IH by (rewrite ?length_store8; lia).
    replace (Z.to_nat (dst + 1)) with (S (Z.to_nat dst)) by lia.
    destruct (decide (i = Z.to_nat dst)) as [->|Hne].
    + rewrite decide_False by lia. rewrite decide_True by lia.
      rewrite Nat.sub_diag. simpl. unfold store8.
      apply list_lookup_insert_eq. lia.
    + rewrite lookup_store8 by done.
      destruct (decide (S (Z.to_nat dst) <= i < S (Z.to_nat dst) + List.length src)%nat)
        as [Hin|Hout].
      * rewrite decide_True by lia.
        replace (i - Z.to_nat dst)%nat with (S (i - S (Z.to_nat dst))) by lia. done.
      * by rewrite decide_False by lia.
Qed.

Lemma bytes_at_lookup (p : SlottedPage) (off len : Z) (i : nat) :
  bytes_at p off len !! i
  = if decide (i < Z.to_nat len)%nat then p !! (Z.to_nat off + i)%nat else None.
Proof.
  unfold bytes_at. case_decide.
  - rewrite lookup_take_lt by done. by rewrite lookup_drop.
  - by rewrite lookup_take_ge by lia.
Qed.

(** Two buffers that agree on a range hold the same bytes there. *)
Lemma bytes_at_ext (p q : SlottedPage) (off len : Z) :
  0 <= off →
  (∀ i : nat, off <= Z.of_nat i < off + len → q !! i = p !! i) →
  bytes_at q off len = bytes_at p off len.
Proof.
  intros Hoff Hsame. apply list_eq. intros i. rewrite !bytes_at_lookup.
  case_decide; [|done]. apply Hsame. lia.
Qed.

(** What was copied in is what is read. *)
Lemma bytes_at_memcpy (p : SlottedPage) (dst : Z) (src : list Z) :
  0 <= dst → (Z.to_nat dst + List.length src <= List.length p)%nat →
  bytes_at (memcpy p dst src) dst (Z.of_nat (List.length src)) = src.
Proof.
  intros Hdst Hfit. apply list_eq. intros i. rewrite bytes_at_lookup.
  rewrite Nat2Z.id. case_decide as Hi.
  - rewrite lookup_memcpy by done. rewrite decide_True by lia. f_equal. lia.
  - symmetry. apply lookup_ge_None. lia.
Qed.

End Page_bytes.

(** ** What an insertion does to the page *)
Section AddTuple_effect.
Import Page PageSpec PageRead PageInsert InsertSpec.

Ltac page_arith :=
  unfold metadata_size, slot_addr, sizeof_Slot, offsetof_empty,
         offsetof_offset, offsetof_length, MAX_SLOTS, PAGE_SIZE,
         INVALID_VALUE in *; lia.

Ltac page_size :=
  repeat first [ rewrite set_slot_empty_size | rewrite set_slot_offset_size
               | rewrite set_slot_length_size | rewrite length_memcpy ];
  done.

(** An entry with a valid offset was handed out. *)
Lemma wf_used (p : SlottedPage) (c : Z) :
  wf p → 0 <= c < MAX_SLOTS → slot_offset p c ≠ INVALID_VALUE → used_entry p c.
Proof.
  intros [_ _ (k & Hk & Hused & Hfresh)] Hc Ho.
  destruct (Z.lt_ge_cases c k) as [Hlt|Hge]; [apply Hused; lia|].
  destruct (Hfresh c) as (_ & Ho' & _); [lia|]. done.
Qed.

Lemma add_serialized_effect (p : SlottedPage) (ser : Text.text) :
  sound p → ser ≠ [] →
  ∃ added p',
    add_serialized ser p = Returns (added, p') ∧
    List.length p' = Z.to_nat PAGE_SIZE ∧
    Forall (fun b => 0 <= b < 256) p' ∧
    (added = false → untouched p p') ∧
    (added = true →
       inserted_at p p' (choose_slot p (Z.of_nat (List.length ser)))
                   (map byte_of_char ser) ∧
       placed p p' (choose_slot p (Z.of_nat (List.length ser)))
              (map byte_of_char ser)).
Proof.
  intros Hsound Hne. pose proof Hsound as [Hwf Hplace].
  pose proof Hwf as [Hsize Hbytes _].
  assert (Hpos : 0 < Z.of_nat (List.length ser)) by (destruct ser; simpl in *; [done|lia]).
  assert (Hlenmap : List.length (map byte_of_char ser) = List.length ser)
    by apply length_map.
  destruct (chosen_slot_cases p (Z.of_nat (List.length ser)) Hwf)
    as [Hre|[(Hnore & Hun & Hbelow)|(Hnore & Hnoun & Hcm)]].
  - (* an emptied entry is reused *)
    rewrite (add_serialized_reuse p ser Hwf Hre). cbv zeta.
    set (c := choose_slot p (Z.of_nat (List.length ser))) in *.
    destruct Hre as (Hc & (He & Ho) & Hlen).
    destruct (wf_used p c Hwf Hc Ho) as (_ & Hl & Hend).
    assert (Hmeta : metadata_size <= slot_offset p c).
    { destruct Hplace as [Hplace|Hplace]; [by apply Hplace|].
      destruct (Hplace c Hc) as [_ Hl0]. lia. }
    rewrite (proj2 (Z.leb_le _ _) Hmeta).
    set (p1 := set_slot_empty p c false).
    assert (Hsize1 : List.length p1 = Z.to_nat PAGE_SIZE) by (unfold p1; page_size).
    assert (Hslot : ∀ j, 0 <= j < MAX_SLOTS →
              slot_at (memcpy p1 (slot_offset p c) (map byte_of_char ser)) j
              = if decide (j = c)
                then {| empty := false; offset := slot_offset p j;
                        length := slot_length p j |}
                else slot_at p j).
    { intros j Hj. rewrite slot_memcpy by done. unfold p1.
      by rewrite slot_at_set_empty by (done || lia). }
    pose proof (Hslot c Hc) as Hsc. rewrite decide_True in Hsc by done.
    unfold slot_at in Hsc. injection Hsc as Hec Hoc Hlc.
    eexists _, _. split; [done|]. split; [page_size|]. split.
    { apply memcpy_bytes; [by apply set_slot_empty_bytes|apply map_byte_of_char_bytes]. }
    split; [done|]. intros _. split.
    + split; [done|]. split; [done|]. split; [done|]. split.
      { intros j Hj Hjc. rewrite Hslot by done. by rewrite decide_False. }
      rewrite Hoc, Hlc, Hlenmap. split; [done|]. split; [done|]. split; [done|].
      intros i Hi. rewrite lookup_memcpy by (rewrite ?Hsize1, ?Hlenmap; page_arith).
      rewrite Hlenmap. unfold p1.
      rewrite lookup_set_slot_empty by done.
      destruct (decide (Z.to_nat (slot_offset p c) <= i
                        < Z.to_nat (slot_offset p c) + List.length ser)%nat).
      * by rewrite decide_True by page_arith.
      * by rewrite decide_False by page_arith.
    + split; [by intros _|]. intros Habs. done.
  - (* the first never-used entry is handed out, if the tuple fits *)
    rewrite (add_serialized_fresh p ser Hwf Hun Hbelow).
    set (size := Z.of_nat (List.length ser)) in *.
    set (c := choose_slot p size) in *.
    set (off := if c =? 0 then metadata_size
                else slot_offset p (c - 1) + slot_length p (c - 1)).
    pose proof Hun as (Hc & He & Ho).
    set (p1 := set_slot_offset (set_slot_empty p c false) c off).
    assert (Hsize1 : List.length p1 = Z.to_nat PAGE_SIZE) by (unfold p1; page_size).
    assert (Hbytes1 : Forall (fun b => 0 <= b < 256) p1).
    { apply set_slot_offset_bytes. by apply set_slot_empty_bytes. }
    destruct (PAGE_SIZE <=? off + size) eqn:Hfit.
    + eexists _, _. split; [done|]. split; [page_size|]. split.
      { apply set_slot_offset_bytes. by apply set_slot_empty_bytes. }
      split; [|done]. intros _. split.
      * by apply revert_same_directory.
      * intros i Hi. unfold p1.
        rewrite lookup_set_slot_offset, lookup_set_slot_empty,
          lookup_set_slot_offset, lookup_set_slot_empty by done. done.
    + apply Z.leb_gt in Hfit.
      assert (Hmeta : metadata_size <= off).
      { unfold off. destruct (c =? 0) eqn:Hc0; [lia|]. apply Z.eqb_neq in Hc0.
        destruct (Hbelow (c - 1)) as (Hprev & _); [lia|].
        pose proof (slot_length_range p (c - 1) Hbytes).
        destruct Hplace as [Hplace|Hplace].
        - specialize (Hplace (c - 1) ltac:(lia) Hprev). lia.
        - destruct (Hplace c Hc) as [Habs _]. done. }
      rewrite (proj2 (Z.leb_le _ _) Hmeta).
      set (p3 := set_slot_length p1 c size).
      assert (Hsize3 : List.length p3 = Z.to_nat PAGE_SIZE) by (unfold p3; page_size).
      assert (Hslot : ∀ j, 0 <= j < MAX_SLOTS →
                slot_at (memcpy p3 off (map byte_of_char ser)) j
                = if decide (j = c)
                  then {| empty := false; offset := off; length := size |}
                  else slot_at p j).
      { intros j Hj. rewrite slot_memcpy by done. unfold p3, p1.
        rewrite slot_at_set_length, slot_at_set_offset, slot_at_set_empty
          by (page_size || lia).
        case_decide as Hjc; [|done]. subst j.
        rewrite empty_set_offset, empty_set_empty, offset_set_offset
          by (page_size || lia).
        f_equal; apply Z.mod_small; page_arith. }
      pose proof (Hslot c Hc) as Hsc. rewrite decide_True in Hsc by done.
      unfold slot_at in Hsc. injection Hsc as Hec Hoc Hlc.
      eexists _, _. split; [done|]. split; [page_size|]. split.
      { apply memcpy_bytes; [|apply map_byte_of_char_bytes].
        by apply set_slot_length_bytes. }
      split; [done|]. intros _. split.
      * split; [done|]. split; [done|]. split; [done|]. split.
        { intros j Hj Hjc. rewrite Hslot by done. by rewrite decide_False. }
        rewrite Hoc, Hlc, Hlenmap. fold size.
        split; [done|]. split; [lia|]. split; [lia|].
        intros i Hi. rewrite lookup_memcpy by (rewrite ?Hsize3, ?Hlenmap; page_arith).
        rewrite Hlenmap. unfold p3, p1.
        rewrite lookup_set_slot_length, lookup_set_slot_offset,
          lookup_set_slot_empty by done.
        destruct (decide (Z.to_nat off <= i < Z.to_nat off + List.length ser)%nat).
        -- by rewrite decide_True by page_arith.
        -- by rewrite decide_False by page_arith.
      * split; [by intros Habs|]. intros _. rewrite Hoc, Hlc, Hlenmap.
        split; [done|]. done.
  - (* no free entry *)
    exists false, p. split.
    { unfold add_serialized. by rewrite Hcm, Z.eqb_refl. }
    split; [done|]. split; [done|]. split; [|done]. intros _. by split.
Qed.

(** [countTuples] only reads the [empty] flags. *)
Lemma count_from_ext (p q : SlottedPage) (i : Z) (n : nat) :
  (∀ j, i <= j < i + Z.of_nat n → slot_empty q j = slot_empty p j) →
  count_from q i n = count_from p i n.
Proof.
  revert i. induction n as [|n IH]; intros i Hsame; simpl; [done|].
  rewrite Hsame by lia. f_equal. apply IH. intros j Hj. apply Hsame. lia.
Qed.

Lemma count_from_occupy (p q : SlottedPage) (c i : Z) (n : nat) :
  i <= c < i + Z.of_nat n →
  slot_empty p c = true → slot_empty q c = false →
  (∀ j, i <= j < i + Z.of_nat n → j ≠ c → slot_empty q j = slot_empty p j) →
  count_from q i n = count_from p i n + 1.
Proof.
  revert i. induction n as [|n IH]; intros i Hc Hp Hq Hsame; simpl; [lia|].
  destruct (decide (i = c)) as [->|Hne].
  - rewrite Hp, Hq. simpl.
    rewrite (count_from_ext p q); [lia|]. intros j Hj. apply Hsame; lia.
  - rewrite Hsame by lia. rewrite IH; [lia|lia|done|done|].
    intros j Hj. apply Hsame. lia.
Qed.

Lemma slot_empty_of_slot_at (p q : SlottedPage) (j : Z) :
  slot_at q j = slot_at p j → slot_empty q j = slot_empty p j.
Proof. intros Hs. by apply slot_at_eq in Hs as (He & _). Qed.

(** X17: on a page that is well formed and whose handed-out entries lie in
    the tuple area (or are all occupied with length 0, as on a page of zero
    bytes), [addTuple] runs into none of its three assertions: it returns,
    the page has the same properties afterwards, and [countTuples] has
    grown by one when it returned true and is unchanged when it returned
    false. *)
Theorem X17_addTuple_never_asserts `{FT : Text.FloatText} (p : SlottedPage)
    (tuple : Tuples.Tuple) (ser : Text.text)
    (Hsound : sound p) (Hser : Tuples.serialize tuple = Returns ser) :
  ∃ added p',
    addTuple tuple p = Returns (added, p') ∧ sound p' ∧
    countTuples p' = countTuples p + (if added then 1 else 0).
Proof.
  assert (Hne : ser ≠ []) by (by eapply serialize_nonempty).
  destruct (add_serialized_effect p ser Hsound Hne)
    as (added & p' & Hrun & Hsize & Hbytes & Hfalse & Htrue).
  destruct (add_serialized_sound p ser Hsound Hne) as (added' & p'' & Hrun' & Hsound').
  rewrite Hrun in Hrun'. injection Hrun' as <- <-.
  exists added, p'. split; [unfold addTuple; by rewrite Hser|]. split; [done|].
  unfold countTuples. destruct added.
  - destruct (Htrue eq_refl) as [(Hc & He & He' & Hother & _) _].
    apply (count_from_occupy p p' (choose_slot p (Z.of_nat (List.length ser))));
      [unfold MAX_SLOTS in *; lia|done|done|].
    intros j Hj Hjc. apply slot_empty_of_slot_at, Hother; [unfold MAX_SLOTS in *; lia|done].
  - destruct (Hfalse eq_refl) as [Hdir _]. rewrite Z.add_0_r.
    apply count_from_ext. intros j Hj.
    apply slot_empty_of_slot_at, Hdir. unfold MAX_SLOTS in *. lia.
Qed.

Lemma X17_addTuple_never_asserts_witness :
  sound new_page ∧
  ∃ added p',
    @addTuple TupleSpec.no_float_text tuple_42 new_page = Returns (added, p') ∧
    sound p'.
Proof.
  split; [exact new_page_sound|].
  destruct (@X17_addTuple_never_asserts TupleSpec.no_float_text new_page tuple_42
              (TupleSpec.chars "1 0 4 42 ") new_page_sound eq_refl)
    as (added & p' & Hrun & Hs & _).
  exists added, p'. split; [exact Hrun|exact Hs].
Defined.

(** What a reader gets from an entry that lies inside the page. *)
Lemma tuple_bytes_occupied (p : SlottedPage) (c : Z) :
  0 <= c < MAX_SLOTS → slot_empty p c = false →
  slot_offset p c + slot_length p c < PAGE_SIZE →
  0 <= slot_offset p c → 0 <= slot_length p c →
  tuple_bytes c p = Some (bytes_at p (slot_offset p c) (slot_length p c)).
Proof.
  intros Hc He Hend Ho Hl. unfold tuple_bytes, getTupleData, getTupleLength.
  rewrite (proj2 (Z.leb_gt _ _)) by lia. rewrite He. simpl.
  rewrite (proj2 (Z.eqb_neq _ _)) by page_arith.
  by rewrite (proj2 (Z.eqb_neq _ _)) by page_arith.
Qed.

(** X18: when [addTuple] returns true on such a page, the slot that it
    chose was free before and is occupied afterwards, and what
    [getTupleData] and [getTupleLength] hand out for it starts with the
    bytes of the serialized tuple (a reused entry keeps its former length,
    so bytes of the former tuple may follow); the slots that were occupied
    stay occupied. *)
Theorem X18_addTuple_then_read `{FT : Text.FloatText} (p p' : SlottedPage)
    (tuple : Tuples.Tuple) (ser : Text.text)
    (Hsound : sound p) (Hser : Tuples.serialize tuple = Returns ser)
    (Hadd : addTuple tuple p = Returns (true, p')) :
  ∃ slot bytes,
    slot = choose_slot p (Z.of_nat (List.length ser)) ∧
    0 <= slot < MAX_SLOTS ∧ slot_empty p slot = true ∧ occupied p' slot ∧
    tuple_bytes slot p' = Some bytes ∧
    take (List.length ser) bytes = map byte_of_char ser ∧
    (∀ j, occupied p j → occupied p' j).
Proof.
  assert (Hne : ser ≠ []) by (by eapply serialize_nonempty).
  destruct (add_serialized_effect p ser Hsound Hne)
    as (added & q & Hrun & Hsize & Hbytes & _ & Htrue).
  unfold addTuple in Hadd. rewrite Hser, Hrun in Hadd. injection Hadd as -> ->.
  destruct (Htrue eq_refl) as [(Hc & He & He' & Hother & Hmeta & Hlen & Hend & Hmem) _].
  set (c := choose_slot p (Z.of_nat (List.length ser))) in *.
  rewrite length_map in Hlen, Hmem.
  pose proof (slot_length_range p' c Hbytes) as Hlr.
  exists c, (bytes_at p' (slot_offset p' c) (slot_length p' c)).
  split; [done|]. split; [done|]. split; [done|]. split; [by split|]. split.
  { apply tuple_bytes_occupied; try done; page_arith. }
  split.
  - apply list_eq. intros i.
    destruct (decide (i < List.length ser)%nat) as [Hi|Hi].
    + rewrite lookup_take_lt by done. rewrite bytes_at_lookup.
      rewrite decide_True by lia. rewrite Hmem by page_arith.
      rewrite decide_True by page_arith. f_equal. lia.
    + rewrite lookup_take_ge by lia. symmetry. apply lookup_ge_None.
      rewrite length_map. lia.
  - intros j [Hj Hej]. split; [done|].
    destruct (decide (j = c)) as [->|Hjc]; [done|].
    rewrite (slot_empty_of_slot_at p p' j); [done|]. by apply Hother.
Qed.

(** The first insertion into a freshly constructed page goes to slot 0 at
    [metadata_size], if it fits. *)
Lemma new_page_first_insert (ser : Text.text) :
  add_serialized ser new_page
  = if PAGE_SIZE <=? metadata_size + Z.of_nat (List.length ser)
    then Returns (false,
                  set_slot_offset
                    (set_slot_empty
                       (set_slot_offset (set_slot_empty new_page 0 false) 0
                                        metadata_size) 0 true) 0 INVALID_VALUE)
    else Returns (true,
                  memcpy (set_slot_length
                            (set_slot_offset (set_slot_empty new_page 0 false) 0
                                             metadata_size)
                            0 (Z.of_nat (List.length ser)))
                         metadata_size (map byte_of_char ser)).
Proof.
  assert (Hfresh0 : fresh_entry new_page 0)
    by (apply new_page_fresh; unfold MAX_SLOTS; lia).
  assert (Hun0 : unused new_page 0).
  { destruct Hfresh0 as (He & Ho & _). split; [unfold MAX_SLOTS; lia|]. by split. }
  assert (Hnore : ∀ i, ¬ reusable new_page (Z.of_nat (List.length ser)) i).
  { intros i (Hi & (_ & Ho) & _). destruct (new_page_fresh i Hi) as (_ & Ho' & _).
    exact (Ho Ho'). }
  destruct (chosen_slot_cases new_page (Z.of_nat (List.length ser)) new_page_wf)
    as [Hre|[(_ & Hun & Hbelow)|(_ & Hnoun & _)]].
  - exfalso. exact (Hnore _ Hre).
  - assert (Hc0 : choose_slot new_page (Z.of_nat (List.length ser)) = 0).
    { destruct Hun as (Hc & _).
      destruct (Z.eq_dec (choose_slot new_page (Z.of_nat (List.length ser))) 0)
        as [Heq|Hne]; [exact Heq|exfalso].
      destruct (Hbelow 0) as (Ho & _); [lia|].
      destruct Hfresh0 as (_ & Ho' & _). exact (Ho Ho'). }
    rewrite (add_serialized_fresh new_page ser new_page_wf Hun Hbelow).
    rewrite Hc0. cbv zeta. rewrite Z.eqb_refl.
    by rewrite Z.leb_refl.
  - exfalso. exact (Hnoun 0 Hun0).
Qed.

Lemma tuple_42_fits :
  @addTuple TupleSpec.no_float_text tuple_42 new_page
  = Returns (true,
             memcpy (set_slot_length
                       (set_slot_offset (set_slot_empty new_page 0 false) 0
                                        metadata_size) 0 9)
                    metadata_size
                    (map byte_of_char (TupleSpec.chars "1 0 4 42 "))).
Proof.
  unfold addTuple.
  change (@Tuples.serialize TupleSpec.no_float_text tuple_42)
    with (@Returns Text.text (TupleSpec.chars "1 0 4 42 ")).
  cbv iota. rewrite new_page_first_insert. reflexivity.
Qed.

Lemma X18_addTuple_then_read_witness :
  sound new_page ∧
  ∃ p' slot bytes,
    @addTuple TupleSpec.no_float_text tuple_42 new_page = Returns (true, p') ∧
    tuple_bytes slot p' = Some bytes ∧
    take 9 bytes = map byte_of_char (TupleSpec.chars "1 0 4 42 ").
Proof.
  split; [exact new_page_sound|].
  destruct (@X18_addTuple_then_read TupleSpec.no_float_text new_page _ tuple_42
              (TupleSpec.chars "1 0 4 42 ") new_page_sound eq_refl tuple_42_fits)
    as (slot & bytes & _ & _ & _ & _ & Hread & Htake & _).
  eexists _, slot, bytes. split; [exact tuple_42_fits|].
  split; [exact Hread|exact Htake].
Defined.

(** X19: a serialized tuple of [PAGE_SIZE - metadata_size] = 1024 bytes or
    more is refused by every such page, which is left as it was; a freshly
    constructed page takes a tuple exactly when its serialization is
    shorter than that. *)
Theorem X19_tuple_size_limit `{FT : Text.FloatText} (p : SlottedPage)
    (tuple : Tuples.Tuple) (ser : Text.text)
    (Hsound : sound p) (Hser : Tuples.serialize tuple = Returns ser) :
  (PAGE_SIZE - metadata_size <= Z.of_nat (List.length ser) →
     ∃ p', addTuple tuple p = Returns (false, p') ∧ untouched p p') ∧
  ((∃ p', addTuple tuple new_page = Returns (true, p')) ↔
   Z.of_nat (List.length ser) < PAGE_SIZE - metadata_size).
Proof.
  assert (Hne : ser ≠ []) by (by eapply serialize_nonempty).
  split.
  - intros Hbig.
    destruct (add_serialized_effect p ser Hsound Hne)
      as (added & p' & Hrun & Hsize & Hbytes & Hfalse & Htrue).
    exists p'. destruct added.
    + exfalso. destruct (Htrue eq_refl) as [(_ & _ & _ & _ & Hmeta & Hlen & Hend & _) _].
      rewrite length_map in Hlen. lia.
    + split; [unfold addTuple; by rewrite Hser|by apply Hfalse].
  - unfold addTuple. rewrite Hser, new_page_first_insert.
    destruct (PAGE_SIZE <=? metadata_size + Z.of_nat (List.length ser)) eqn:Hfit.
    + apply Z.leb_le in Hfit. split; [by intros [p' Hp']|lia].
    + apply Z.leb_gt in Hfit. split; [lia|]. intros _. by eexists.
Qed.

Lemma X19_tuple_size_limit_witness :
  sound new_page ∧
  ∃ p', @addTuple TupleSpec.no_float_text tuple_42 new_page = Returns (true, p').
Proof.
  split; [exact new_page_sound|].
  destruct (@X19_tuple_size_limit TupleSpec.no_float_text new_page tuple_42
              (TupleSpec.chars "1 0 4 42 ") new_page_sound eq_refl) as [_ Hiff].
  apply Hiff. reflexivity.
Defined.

End AddTuple_effect.

(** ** The layout of a page that started empty *)
Section Packed_pages.
Import Page PageSpec PageRead PageInsert InsertSpec.

Ltac page_arith :=
  unfold metadata_size, slot_addr, sizeof_Slot, offsetof_empty,
         offsetof_offset, offsetof_length, MAX_SLOTS, PAGE_SIZE,
         INVALID_VALUE in *; lia.

Section Layout.
Variable p : SlottedPage.
Variable k : Z.
Hypothesis Hbytes : Forall (fun b => 0 <= b < 256) p.
Hypothesis Hfirst : 0 < k → slot_offset p 0 = metadata_size.
Hypothesis Hnext : ∀ i, 0 < i < k →
  slot_offset p i = slot_offset p (i - 1) + slot_length p (i - 1).

(** Entries behind one another lie behind one another. *)
Lemma layout_ordered (n : nat) (i : Z) :
  0 <= i → i + 1 + Z.of_nat n < k →
  slot_offset p i + slot_length p i <= slot_offset p (i + 1 + Z.of_nat n).
Proof.
  induction n as [|n IH]; intros Hi Hk.
  - rewrite (Hnext (i + 1 + Z.of_nat 0)) by lia.
    replace (i + 1 + Z.of_nat 0 - 1) with i by lia. lia.
  - rewrite (Hnext (i + 1 + Z.of_nat (S n))) by lia.
    replace (i + 1 + Z.of_nat (S n) - 1) with (i + 1 + Z.of_nat n) by lia.
    pose proof (slot_length_range p (i + 1 + Z.of_nat n) Hbytes).
    specialize (IH Hi ltac:(lia)). lia.
Qed.

Lemma layout_before (i j : Z) :
  0 <= i → i < j → j < k →
  slot_offset p i + slot_length p i <= slot_offset p j.
Proof.
  intros Hi Hij Hj. replace j with (i + 1 + Z.of_nat (Z.to_nat (j - i - 1))) by lia.
  apply layout_ordered; lia.
Qed.

Lemma layout_in_tuple_area (i : Z) :
  0 <= i < k → metadata_size <= slot_offset p i.
Proof.
  intros Hi. destruct (Z.eq_dec i 0) as [->|Hne]; [rewrite Hfirst; lia|].
  pose proof (layout_before 0 i ltac:(lia) ltac:(lia) ltac:(lia)).
  pose proof (slot_length_range p 0 Hbytes). rewrite Hfirst in H by lia. lia.
Qed.

End Layout.

Lemma packed_wf (p : SlottedPage) : packed p → wf p.
Proof.
  intros (Hsize & Hbytes & k & Hk & Hused & Hfresh & _). split; [done|done|].
  by exists k.
Qed.

Lemma packed_sound (p : SlottedPage) : packed p → sound p.
Proof.
  intros Hp. split; [by apply packed_wf|]. left.
  destruct Hp as (Hsize & Hbytes & k & Hk & Hused & Hfresh & Hfirst & Hnext).
  intros i Hi Ho. destruct (Z.lt_ge_cases i k) as [Hlt|Hge].
  - apply (layout_in_tuple_area p k); done || lia.
  - destruct (Hfresh i) as (_ & Ho' & _); [lia|]. done.
Qed.

Lemma new_page_packed : packed new_page.
Proof.
  destruct new_page_wf as [Hsize Hbytes _].
  split; [exact Hsize|]. split; [exact Hbytes|].
  exists 0. split; [unfold MAX_SLOTS; lia|]. split; [intros i Hi; lia|].
  split; [intros i Hi; apply new_page_fresh; lia|]. split; intros; lia.
Qed.

(** An occupied slot of a packed page was handed out. *)
Lemma packed_occupied (p : SlottedPage) (j : Z) :
  packed p → occupied p j →
  used_entry p j ∧ metadata_size <= slot_offset p j ∧ 0 <= slot_length p j.
Proof.
  intros Hp [Hj He]. pose proof (packed_sound p Hp) as [Hwf [Hplace|Hplace]].
  - assert (Ho : slot_offset p j ≠ INVALID_VALUE).
    { destruct Hp as (_ & _ & k & Hk & Hused & Hfresh & _).
      destruct (Z.lt_ge_cases j k) as [Hlt|Hge]; [apply Hused; lia|].
      destruct (Hfresh j) as (He' & _); [lia|]. congruence. }
    split; [by apply wf_used|]. split; [by apply Hplace|].
    destruct Hwf as [_ Hbytes _]. apply (slot_length_range p j Hbytes).
  - destruct Hp as (_ & Hbytes & k & Hk & Hused & Hfresh & Hfirst & Hnext).
    destruct (Z.lt_ge_cases j k) as [Hlt|Hge].
    + split; [apply Hused; lia|].
      split; [apply (layout_in_tuple_area p k); done || lia|].
      apply (slot_length_range p j Hbytes).
    + destruct (Hfresh j) as (He' & _); [lia|]. congruence.
Qed.

Lemma tuple_bytes_packed (p : SlottedPage) (j : Z) :
  packed p → occupied p j →
  tuple_bytes j p = Some (bytes_at p (slot_offset p j) (slot_length p j)).
Proof.
  intros Hp Hocc. destruct (packed_occupied p j Hp Hocc) as ((_ & _ & Hend) & Hmeta & Hl).
  destruct Hocc as [Hj He]. apply tuple_bytes_occupied; try done. page_arith.
Qed.

Lemma tuple_bytes_free (p : SlottedPage) (j : Z) :
  slot_empty p j = true → tuple_bytes j p = None.
Proof.
  intros He. unfold tuple_bytes, getTupleData. rewrite He.
  by destruct (MAX_SLOTS <=? j).
Qed.

(** An insertion keeps the layout. *)
Lemma inserted_packed (p p' : SlottedPage) (c : Z) (bytes : list Z) :
  packed p → List.length p' = Z.to_nat PAGE_SIZE →
  Forall (fun b => 0 <= b < 256) p' →
  inserted_at p p' c bytes → placed p p' c bytes → packed p'.
Proof.
  intros Hp Hsize' Hbytes' (Hc & He & He' & Hother & Hmeta & Hlen & Hend & _)
         [Hreuse Hfresh'].
  pose proof Hp as (Hsize & Hbytes & k & Hk & Hused & Hfresh & Hfirst & Hnext).
  assert (Hfields : ∀ j, 0 <= j < MAX_SLOTS → j ≠ c →
            slot_empty p' j = slot_empty p j ∧ slot_offset p' j = slot_offset p j ∧
            slot_length p' j = slot_length p j).
  { intros j Hj Hjc. by apply slot_at_eq, Hother. }
  split; [done|]. split; [done|].
  destruct (Z.eq_dec (slot_offset p c) INVALID_VALUE) as [Hinv|Hval].
  - (* first use: the entry behind the handed-out ones *)
    destruct (Hfresh' Hinv) as (Hbelow & Hoff & Hl).
    assert (c = k) as ->.
    { destruct (Z.lt_trichotomy c k) as [Hlt|[Heq|Hgt]]; [|done|].
      - destruct (Hused c) as (Ho & _); [lia|]. done.
      - destruct (Hbelow k) as (Ho & _); [lia|].
        destruct (Hfresh k) as (_ & Ho' & _); [lia|]. done. }
    pose proof (slot_length_range p' k Hbytes') as Hlr.
    exists (k + 1). split; [lia|]. split; [|split; [|split]].
    + intros i Hi. destruct (Z.eq_dec i k) as [->|Hne].
      * unfold used_entry. page_arith.
      * destruct (Hfields i) as (_ & Ho & Hl'); [lia|done|].
        unfold used_entry. rewrite Ho, Hl'. apply Hused. lia.
    + intros i Hi. destruct (Hfields i) as (Hei & Ho & Hl'); [lia|lia|].
      unfold fresh_entry. rewrite Hei, Ho, Hl'. apply Hfresh. lia.
    + intros _. destruct (Z.eq_dec k 0) as [->|Hne]; [by rewrite Hoff|].
      destruct (Hfields 0) as (_ & Ho & _); [lia|lia|]. rewrite Ho. apply Hfirst. lia.
    + intros i Hi. destruct (Z.eq_dec i k) as [->|Hne].
      * rewrite Hoff. rewrite (proj2 (Z.eqb_neq _ _)) by lia.
        destruct (Hfields (k - 1)) as (_ & Ho & Hl'); [lia|lia|]. by rewrite Ho, Hl'.
      * destruct (Hfields i) as (_ & Ho & _); [lia|done|].
        destruct (Hfields (i - 1)) as (_ & Ho' & Hl'); [lia|lia|].
        rewrite Ho, Ho', Hl'. apply Hnext. lia.
  - (* a reused entry: offsets and lengths are what they were *)
    destruct (Hreuse Hval) as [Hoff Hl].
    assert (Hck : c < k).
    { destruct (Z.lt_ge_cases c k) as [Hlt|Hge]; [done|].
      destruct (Hfresh c) as (_ & Ho & _); [lia|]. done. }
    assert (Hsame : ∀ j, 0 <= j < MAX_SLOTS →
              slot_offset p' j = slot_offset p j ∧ slot_length p' j = slot_length p j).
    { intros j Hj. destruct (Z.eq_dec j c) as [->|Hne]; [done|].
      destruct (Hfields j Hj Hne) as (_ & Ho & Hl'). done. }
    exists k. split; [done|]. split; [|split; [|split]].
    + intros i Hi. destruct (Hsame i) as [Ho Hl']; [lia|].
      unfold used_entry. rewrite Ho, Hl'. apply Hused. lia.
    + intros i Hi. destruct (Hfields i) as (Hei & Ho & Hl'); [lia|lia|].
      unfold fresh_entry. rewrite Hei, Ho, Hl'. apply Hfresh. lia.
    + intros Hk0. destruct (Hsame 0) as [Ho _]; [lia|]. rewrite Ho. by apply Hfirst.
    + intros i Hi. destruct (Hsame i) as [Ho _]; [lia|].
      destruct (Hsame (i - 1)) as [Ho' Hl']; [lia|].
      rewrite Ho, Ho', Hl'. apply Hnext. lia.
Qed.

Lemma untouched_packed (p p' : SlottedPage) :
  packed p → List.length p' = Z.to_nat PAGE_SIZE →
  Forall (fun b => 0 <= b < 256) p' → untouched p p' → packed p'.
Proof.
  intros (Hsize & Hbytes & k & Hk & Hused & Hfresh & Hfirst & Hnext)
         Hsize' Hbytes' [Hdir _].
  assert (Hfields : ∀ j, 0 <= j < MAX_SLOTS →
            slot_empty p' j = slot_empty p j ∧ slot_offset p' j = slot_offset p j ∧
            slot_length p' j = slot_length p j).
  { intros j Hj. by apply slot_at_eq, Hdir. }
  split; [done|]. split; [done|]. exists k. split; [done|].
  split; [|split; [|split]].
  - intros i Hi. destruct (Hfields i) as (_ & Ho & Hl); [lia|].
    unfold used_entry. rewrite Ho, Hl. apply Hused. lia.
  - intros i Hi. destruct (Hfields i) as (He & Ho & Hl); [lia|].
    unfold fresh_entry. rewrite He, Ho, Hl. apply Hfresh. lia.
  - intros Hk0. destruct (Hfields 0) as (_ & Ho & _); [lia|]. rewrite Ho. by apply Hfirst.
  - intros i Hi. destruct (Hfields i) as (_ & Ho & _); [lia|].
    destruct (Hfields (i - 1)) as (_ & Ho' & Hl'); [lia|].
    rewrite Ho, Ho', Hl'. apply Hnext. lia.
Qed.

(** X20: on a page whose handed-out entries are laid out back to back from
    [metadata_size] on (as on every page that started empty), [addTuple]
    returns, keeps that layout, and leaves every tuple that was on the page
    alone: each occupied slot stays occupied and hands out the same
    bytes. *)
Theorem X20_addTuple_keeps_other_tuples `{FT : Text.FloatText} (p : SlottedPage)
    (tuple : Tuples.Tuple) (ser : Text.text)
    (Hp : packed p) (Hser : Tuples.serialize tuple = Returns ser) :
  ∃ added p',
    addTuple tuple p = Returns (added, p') ∧ packed p' ∧
    ∀ j, occupied p j → occupied p' j ∧ tuple_bytes j p' = tuple_bytes j p.
Proof.
  assert (Hne : ser ≠ []) by (by eapply serialize_nonempty).
  destruct (add_serialized_effect p ser (packed_sound p Hp) Hne)
    as (added & p' & Hrun & Hsize & Hbytes & Hfalse & Htrue).
  exists added, p'. split; [unfold addTuple; by rewrite Hser|].
  destruct added.
  - destruct (Htrue eq_refl) as [Hins Hplaced].
    assert (Hp' : packed p') by (by eapply inserted_packed).
    split; [done|]. intros j Hocc.
    destruct Hins as (Hc & He & He' & Hother & Hmeta & Hlen & Hend & Hmem).
    set (c := choose_slot p (Z.of_nat (List.length ser))) in *.
    rewrite length_map in Hlen, Hmem.
    destruct (packed_occupied p j Hp Hocc) as ((Hoj & _ & Hendj) & Hmetaj & Hlj).
    pose proof Hocc as [Hj Hej].
    assert (Hjc : j ≠ c) by (intros ->; congruence).
    destruct (proj1 (slot_at_eq _ _ _) (Hother j Hj Hjc)) as (Hej' & Hoj' & Hlj').
    assert (Hocc' : occupied p' j) by (split; [done|congruence]).
    split; [done|].
    rewrite (tuple_bytes_packed p j Hp Hocc), (tuple_bytes_packed p' j Hp' Hocc').
    rewrite Hoj', Hlj'. f_equal. apply bytes_at_ext; [page_arith|].
    intros i Hi. rewrite Hmem by lia. apply decide_False.
    (* the region of [j] and the copied bytes do not meet *)
    pose proof Hp as (_ & Hb & k & Hk & Hused & Hfresh & Hfirst & Hnext).
    assert (Hjk : j < k).
    { destruct (Z.lt_ge_cases j k) as [Hlt|Hge]; [done|].
      destruct (Hfresh j) as (He0 & _); [lia|]. congruence. }
    destruct Hplaced as [Hreuse Hfresh'].
    destruct (Z.eq_dec (slot_offset p c) INVALID_VALUE) as [Hinv|Hval].
    + destruct (Hfresh' Hinv) as (Hbelow & Hoff & Hl).
      assert (Hck : k <= c).
      { destruct (Z.lt_ge_cases c k) as [Hlt|Hge]; [|done].
        destruct (Hused c) as (Ho & _); [lia|]. done. }
      assert (Hc0 : (c =? 0) = false) by (apply Z.eqb_neq; lia).
      rewrite Hc0 in Hoff.
      assert (Hle : slot_offset p j + slot_length p j
                    <= slot_offset p (c - 1) + slot_length p (c - 1)).
      { destruct (Z.eq_dec j (c - 1)) as [->|Hjne]; [lia|].
        assert (Hck' : c = k).
        { destruct (Z.lt_trichotomy c k) as [Hlt|[Heq|Hgt]]; [lia|done|].
          destruct (Hbelow k) as (Ho & _); [lia|].
          destruct (Hfresh k) as (_ & Ho' & _); [lia|]. done. }
        pose proof (layout_before p k Hb Hnext j (c - 1) ltac:(lia) ltac:(lia) ltac:(lia)).
        pose proof (slot_length_range p (c - 1) Hb). lia. }
      lia.
    + destruct (Hreuse Hval) as [Hoff Hl].
      assert (Hck : c < k).
      { destruct (Z.lt_ge_cases c k) as [Hlt|Hge]; [done|].
        destruct (Hfresh c) as (_ & Ho & _); [lia|]. done. }
      destruct (Z.lt_trichotomy j c) as [Hlt|[Heq|Hgt]]; [|done|].
      * pose proof (layout_before p k Hb Hnext j c ltac:(lia) Hlt Hck). lia.
      * pose proof (layout_before p k Hb Hnext c j ltac:(lia) Hgt Hjk). lia.
  - destruct (Hfalse eq_refl) as [Hdir Hmem].
    assert (Hp' : packed p') by (by eapply untouched_packed).
    split; [done|]. intros j Hocc. pose proof Hocc as [Hj Hej].
    destruct (packed_occupied p j Hp Hocc) as ((Hoj & _ & Hendj) & Hmetaj & Hlj).
    destruct (proj1 (slot_at_eq _ _ _) (Hdir j Hj)) as (Hej' & Hoj' & Hlj').
    assert (Hocc' : occupied p' j) by (split; [done|congruence]).
    split; [done|].
    rewrite (tuple_bytes_packed p j Hp Hocc), (tuple_bytes_packed p' j Hp' Hocc').
    rewrite Hoj', Hlj'. f_equal. apply bytes_at_ext; [page_arith|].
    intros i Hi. apply Hmem. lia.
Qed.

(** Setting the flag of a handed-out entry keeps the layout. *)
Lemma flag_packed (p : SlottedPage) (c : Z) (b : bool) :
  packed p → 0 <= c < MAX_SLOTS → slot_offset p c ≠ INVALID_VALUE →
  packed (set_slot_empty p c b).
Proof.
  intros (Hsize & Hbytes & k & Hk & Hused & Hfresh & Hfirst & Hnext) Hc Ho.
  assert (Hck : c < k).
  { destruct (Z.lt_ge_cases c k) as [Hlt|Hge]; [done|].
    destruct (Hfresh c) as (_ & Ho' & _); [lia|]. done. }
  assert (Hfields : ∀ j, 0 <= j < MAX_SLOTS →
            slot_offset (set_slot_empty p c b) j = slot_offset p j ∧
            slot_length (set_slot_empty p c b) j = slot_length p j ∧
            (j ≠ c → slot_empty (set_slot_empty p c b) j = slot_empty p j)).
  { intros j Hj. pose proof (slot_at_set_empty p c j b Hsize Hc ltac:(lia)) as Hs.
    apply slot_at_fields in Hs as (He & Hoj & Hlj).
    destruct (decide (j = c)) as [->|Hne]; simpl in *; [by repeat split|].
    by repeat split. }
  split; [by rewrite set_slot_empty_size|]. split; [by apply set_slot_empty_bytes|].
  exists k. split; [done|]. split; [|split; [|split]].
  - intros i Hi. destruct (Hfields i) as (Hoi & Hli & _); [lia|].
    unfold used_entry. rewrite Hoi, Hli. apply Hused. lia.
  - intros i Hi. destruct (Hfields i) as (Hoi & Hli & Hei); [lia|].
    unfold fresh_entry. rewrite Hoi, Hli, Hei by lia. apply Hfresh. lia.
  - intros Hk0. destruct (Hfields 0) as (Hoi & _); [lia|]. rewrite Hoi. by apply Hfirst.
  - intros i Hi. destruct (Hfields i) as (Hoi & _); [lia|].
    destruct (Hfields (i - 1)) as (Hoi' & Hli' & _); [lia|].
    rewrite Hoi, Hoi', Hli'. apply Hnext. lia.
Qed.

(** X21: on a page with that layout, [deleteTuple(index)] leaves the page
    as it is when the slot is not occupied (an index at or past
    [MAX_SLOTS] included); otherwise it frees the slot, whose entry keeps
    its offset and length and so is open for reuse by tuples up to that
    length: [countTuples] drops by one and the slot hands out nothing any
    more.  Every other slot hands out what it did, the layout is kept, and
    deleting twice is deleting once. *)
Theorem X21_deleteTuple (p : SlottedPage) (index : Z)
    (Hp : packed p) (Hidx : 0 <= index) :
  packed (deleteTuple index p) ∧
  (¬ occupied p index → deleteTuple index p = p) ∧
  (occupied p index →
     countTuples (deleteTuple index p) = countTuples p - 1 ∧
     tuple_bytes index (deleteTuple index p) = None ∧
     reusable (deleteTuple index p) (slot_length p index) index) ∧
  (∀ j, 0 <= j → j ≠ index →
        tuple_bytes j (deleteTuple index p) = tuple_bytes j p) ∧
  deleteTuple index (deleteTuple index p) = deleteTuple index p.
Proof.
  pose proof Hp as (Hsize & Hbytes & _).
  destruct ((index <? MAX_SLOTS) && negb (slot_empty p index)) eqn:Hcond.
  - assert (Hdel : deleteTuple index p = set_slot_empty p index true)
      by (unfold deleteTuple; by rewrite Hcond).
    rewrite !Hdel.
    apply andb_true_iff in Hcond as [Hlt He]. apply Z.ltb_lt in Hlt.
    apply negb_true_iff in He.
    assert (Hocc : occupied p index) by (split; [lia|done]).
    destruct (packed_occupied p index Hp Hocc) as ((Ho & Hl & Hend) & Hmeta & Hl0).
    assert (Hslot : ∀ j, 0 <= j →
              slot_at (set_slot_empty p index true) j
              = if decide (j = index)
                then {| empty := true; offset := slot_offset p j;
                        length := slot_length p j |}
                else slot_at p j).
    { intros j Hj. apply slot_at_set_empty; done || lia. }
    pose proof (Hslot index Hidx) as Hsi. rewrite decide_True in Hsi by done.
    apply slot_at_fields in Hsi as (Hei & Hoi & Hli). simpl in Hei, Hoi, Hli.
    assert (Hp' : packed (set_slot_empty p index true))
      by (apply flag_packed; done || lia).
    split; [done|]. split; [by intros Hno|]. split; [|split].
    + intros _. split; [|split].
      * unfold countTuples.
        rewrite (count_from_occupy (set_slot_empty p index true) p index);
          [lia|unfold MAX_SLOTS in *; lia|done|done|].
        intros j Hj Hne. symmetry. apply slot_empty_of_slot_at.
        rewrite Hslot by lia. by rewrite decide_False.
      * by apply tuple_bytes_free.
      * split; [lia|]. split; [split; [done|by rewrite Hoi]|]. rewrite Hli. lia.
    + intros j Hj Hne. pose proof (Hslot j Hj) as Hsj.
      rewrite decide_False in Hsj by done.
      apply slot_at_eq in Hsj as (Hej & Hoj & Hlj).
      destruct (Z.lt_ge_cases j MAX_SLOTS) as [HjM|HjM].
      * destruct (slot_empty p j) eqn:Hepj.
        -- rewrite (tuple_bytes_free p j Hepj).
           apply tuple_bytes_free. exact Hej.
        -- assert (Hoccj : occupied p j) by (split; [lia|done]).
           assert (Hoccj' : occupied (set_slot_empty p index true) j)
             by (split; [lia|exact Hej]).
           rewrite (tuple_bytes_packed _ j Hp Hoccj), (tuple_bytes_packed _ j Hp' Hoccj').
           rewrite Hoj, Hlj. f_equal.
           destruct (packed_occupied p j Hp Hoccj) as (_ & Hmj & _).
           apply bytes_at_ext; [page_arith|]. intros i Hi.
           apply lookup_set_slot_empty; [lia|lia].
      * unfold tuple_bytes, getTupleData.
        by rewrite (proj2 (Z.leb_le _ _)) by lia.
    + unfold deleteTuple. rewrite Hei. by rewrite andb_false_r.
  - assert (Hdel : deleteTuple index p = p)
      by (unfold deleteTuple; by rewrite Hcond).
    rewrite !Hdel.
    split; [done|]. split; [done|]. split; [|split; [done|done]].
    intros [Hi He]. rewrite He in Hcond.
    rewrite (proj2 (Z.ltb_lt _ _)) in Hcond by lia. done.
Qed.

End Packed_pages.

(** ** Pages with one and with two tuples *)
Section Two_tuples.
Import Page PageSpec PageRead PageInsert InsertSpec.

Ltac page_arith :=
  unfold metadata_size, slot_addr, sizeof_Slot, offsetof_empty,
         offsetof_offset, offsetof_length, MAX_SLOTS, PAGE_SIZE,
         INVALID_VALUE in *; lia.

Ltac page_size :=
  repeat first [ rewrite set_slot_empty_size | rewrite set_slot_offset_size
               | rewrite set_slot_length_size | rewrite length_memcpy ];
  done.

Lemma serialized_42 :
  @Tuples.serialize TupleSpec.no_float_text tuple_42
  = Returns (TupleSpec.chars "1 0 4 42 ").
Proof. reflexivity. Qed.

Lemma chars_42_nonempty : TupleSpec.chars "1 0 4 42 " ≠ [].
Proof. discriminate. Qed.

Lemma returns_pair_inj {A B} (a a' : A) (b b' : B) :
  @Returns (A * B) (a, b) = Returns (a', b') → a = a' ∧ b = b'.
Proof. intros Heq. by injection Heq as -> ->. Qed.

Lemma chars_42_length : Z.of_nat (List.length (TupleSpec.chars "1 0 4 42 ")) = 9.
Proof. reflexivity. Qed.

Lemma page_with_42_run :
  add_serialized (TupleSpec.chars "1 0 4 42 ") new_page = Returns (true, page_with_42).
Proof.
  rewrite new_page_first_insert, chars_42_length.
  change (PAGE_SIZE <=? metadata_size + 9) with false. cbv iota.
  unfold page_with_42, bytes_42. reflexivity.
Qed.

Lemma add_42 (p : SlottedPage) :
  @addTuple TupleSpec.no_float_text tuple_42 p
  = add_serialized (TupleSpec.chars "1 0 4 42 ") p.
Proof. unfold addTuple. by rewrite serialized_42. Qed.

(** What one insertion into a packed page leaves, when it is known to have
    succeeded. *)
Lemma packed_after_insert (p p' : SlottedPage) (ser : Text.text) :
  packed p → ser ≠ [] → add_serialized ser p = Returns (true, p') →
  packed p' ∧
  inserted_at p p' (choose_slot p (Z.of_nat (List.length ser)))
              (map byte_of_char ser) ∧
  placed p p' (choose_slot p (Z.of_nat (List.length ser))) (map byte_of_char ser).
Proof.
  intros Hp Hne Hrun.
  destruct (add_serialized_effect p ser (packed_sound p Hp) Hne)
    as (added & q & Hrun' & Hsize & Hbytes & _ & Htrue).
  rewrite Hrun in Hrun'. injection Hrun' as <- <-.
  destruct (Htrue eq_refl) as [Hins Hplaced].
  split; [by eapply inserted_packed|by split].
Qed.

(** The directory of the page with one tuple. *)
Lemma page_with_42_slots :
  packed page_with_42 ∧
  slot_at page_with_42 0 = {| empty := false; offset := metadata_size; length := 9 |} ∧
  ∀ j, 1 <= j < MAX_SLOTS → fresh_entry page_with_42 j.
Proof.
  pose proof page_with_42_run as Hrun.
  destruct (packed_after_insert new_page page_with_42
              (TupleSpec.chars "1 0 4 42 ") new_page_packed chars_42_nonempty Hrun)
    as (Hp & Hins & Hplaced).
  rewrite chars_42_length in Hins, Hplaced.
  remember (choose_slot new_page 9) as c eqn:Hcdef. clear Hcdef.
  destruct Hins as (Hc & He & He' & Hother & _).
  destruct Hplaced as [_ Hfresh].
  destruct (new_page_fresh c Hc) as (_ & Hoc & _).
  destruct (Hfresh Hoc) as (Hbelow & Hoff & Hlen).
  assert (Hc0 : c = 0).
  { destruct (Z.eq_dec c 0) as [Heq|Hne]; [exact Heq|exfalso].
    destruct (Hbelow 0) as (Ho & _); [lia|].
    destruct (new_page_fresh 0) as (_ & Ho' & _); [unfold MAX_SLOTS; lia|].
    exact (Ho Ho'). }
  subst c. change (0 =? 0) with true in Hoff. cbv iota in Hoff.
  split; [exact Hp|]. split.
  - unfold slot_at. rewrite He', Hoff, Hlen. reflexivity.
  - intros j Hj. destruct (new_page_fresh j) as (Hej & Hoj & Hlj); [lia|].
    destruct (proj1 (slot_at_eq _ _ _) (Hother j ltac:(lia) ltac:(lia)))
      as (He1 & Ho1 & Hl1).
    unfold fresh_entry. rewrite He1, Ho1, Hl1. split; [exact Hej|].
    split; [exact Hoj|exact Hlj].
Qed.

(** The second insertion goes behind the first. *)
Lemma page_with_two_run :
  add_serialized (TupleSpec.chars "1 0 4 42 ") page_with_42
  = Returns (true, page_with_two).
Proof.
  destruct page_with_42_slots as (Hp & Hs0 & Hrest).
  apply slot_at_fields in Hs0 as (He0 & Ho0 & Hl0).
  cbn [empty offset length] in He0, Ho0, Hl0.
  pose proof (packed_wf _ Hp) as Hwf.
  set (ser := TupleSpec.chars "1 0 4 42 ").
  assert (Hsz : Z.of_nat (List.length ser) = 9) by exact chars_42_length.
  pose proof (add_serialized_fresh page_with_42 ser Hwf) as Hfresh.
  cbv zeta in Hfresh.
  destruct (chosen_slot_cases page_with_42 (Z.of_nat (List.length ser)) Hwf)
    as [Hre|[(Hno & Hun & Hbelow)|(Hno & Hno' & Hfull)]].
  - exfalso.
    remember (choose_slot page_with_42 (Z.of_nat (List.length ser))) as c eqn:Hcdef.
    clear Hcdef Hfresh. destruct Hre as (Hc & (He & Ho) & _).
    destruct (Z.eq_dec c 0) as [Heq|Hne].
    + rewrite Heq, He0 in He. discriminate He.
    + assert (Hc1 : 1 <= c < MAX_SLOTS) by lia.
      destruct (Hrest c Hc1) as (_ & Ho' & _). exact (Ho Ho').
  - rewrite (Hfresh Hun Hbelow). clear Hfresh.
    remember (choose_slot page_with_42 (Z.of_nat (List.length ser))) as c eqn:Hcdef.
    clear Hcdef.
    assert (Hc1 : c = 1).
    { pose proof Hun as (Hc & He & Ho).
      destruct (Z.eq_dec c 0) as [Heq|Hne0].
      { rewrite Heq, He0 in He. discriminate He. }
      destruct (Z.eq_dec c 1) as [Heq|Hne1]; [exact Heq|exfalso].
      destruct (Hbelow 1) as (Ho1 & _); [lia|].
      destruct (Hrest 1) as (_ & Ho1' & _); [unfold MAX_SLOTS; lia|].
      exact (Ho1 Ho1'). }
    subst c. rewrite Hsz. change (1 =? 0) with false. cbv iota.
    change (1 - 1) with 0. rewrite Ho0, Hl0.
    change (PAGE_SIZE <=? metadata_size + 9 + 9) with false.
    change (metadata_size <=? metadata_size + 9) with true. cbv iota.
    unfold page_with_two, bytes_42. fold ser. reflexivity.
  - exfalso. apply (Hno' 1). split; [unfold MAX_SLOTS; lia|].
    destruct (Hrest 1) as (He & Ho & _); [unfold MAX_SLOTS; lia|]. by split.
Qed.

Lemma tuple_42_fits_again :
  @addTuple TupleSpec.no_float_text tuple_42 page_with_42
  = Returns (true, page_with_two).
Proof. rewrite add_42. exact page_with_two_run. Qed.

(** The directory of the page with two tuples, and what its slots hand
    out. *)
Lemma page_with_two_slots :
  packed page_with_two ∧
  slot_at page_with_two 0 = {| empty := false; offset := metadata_size; length := 9 |} ∧
  slot_at page_with_two 1
  = {| empty := false; offset := metadata_size + 9; length := 9 |}.
Proof.
  destruct page_with_42_slots as (Hp & Hs0 & Hrest).
  pose proof page_with_two_run as Hrun.
  destruct (packed_after_insert page_with_42 page_with_two
              (TupleSpec.chars "1 0 4 42 ") Hp chars_42_nonempty Hrun)
    as (Hp' & Hins & Hplaced).
  rewrite chars_42_length in Hins, Hplaced.
  remember (choose_slot page_with_42 9) as c eqn:Hcdef. clear Hcdef.
  destruct Hins as (Hc & He & He' & Hother & _).
  apply slot_at_fields in Hs0 as (He0 & Ho0 & Hl0).
  cbn [empty offset length] in He0, Ho0, Hl0.
  assert (Hc0 : c ≠ 0) by (intros Heq; rewrite Heq, He0 in He; discriminate He).
  destruct Hplaced as [_ Hfresh].
  assert (Hc1' : 1 <= c < MAX_SLOTS) by lia.
  destruct (Hrest c Hc1') as (_ & Hoc & _).
  destruct (Hfresh Hoc) as (Hbelow & Hoff & Hlen).
  assert (Hc1 : c = 1).
  { destruct (Z.eq_dec c 1) as [Heq|Hne]; [exact Heq|exfalso].
    destruct (Hbelow 1) as (Ho1 & _); [lia|].
    destruct (Hrest 1) as (_ & Ho1' & _); [unfold MAX_SLOTS; lia|].
    exact (Ho1 Ho1'). }
  subst c. change (1 =? 0) with false in Hoff. cbv iota in Hoff.
  change (1 - 1) with 0 in Hoff. rewrite Ho0, Hl0 in Hoff.
  split; [exact Hp'|]. split.
  - assert (H0 : 0 <= 0 < MAX_SLOTS) by (unfold MAX_SLOTS; lia).
    assert (H01 : 0 ≠ 1) by lia.
    rewrite (Hother 0 H0 H01).
    unfold slot_at. rewrite He0, Ho0, Hl0. reflexivity.
  - unfold slot_at. rewrite He', Hoff, Hlen. reflexivity.
Qed.

Lemma bytes_42_length : List.length bytes_42 = 9%nat.
Proof. reflexivity. Qed.

(** What the slots of the two pages hand out. *)
Lemma page_with_42_reads : tuple_bytes 0 page_with_42 = Some bytes_42.
Proof.
  destruct page_with_42_slots as (Hp & Hs0 & _).
  apply slot_at_fields in Hs0 as (He0 & Ho0 & Hl0).
  cbn [empty offset length] in He0, Ho0, Hl0.
  assert (Hocc : occupied page_with_42 0) by (split; [unfold MAX_SLOTS; lia|exact He0]).
  rewrite (tuple_bytes_packed page_with_42 0 Hp Hocc).
  rewrite Ho0, Hl0. apply (f_equal Some). unfold page_with_42.
  change 9 with (Z.of_nat (List.length bytes_42)) at 2.
  apply bytes_at_memcpy; [page_arith|].
  rewrite bytes_42_length, set_slot_length_size, set_slot_offset_size,
          set_slot_empty_size.
  destruct new_page_wf as [Hsize _ _]. rewrite Hsize. page_arith.
Qed.

Lemma page_with_two_reads : tuple_bytes 1 page_with_two = Some bytes_42.
Proof.
  destruct page_with_two_slots as (Hp & _ & Hs1).
  destruct page_with_42_slots as ((Hsize & _) & _).
  apply slot_at_fields in Hs1 as (He1 & Ho1 & Hl1).
  cbn [empty offset length] in He1, Ho1, Hl1.
  assert (Hocc : occupied page_with_two 1) by (split; [unfold MAX_SLOTS; lia|exact He1]).
  rewrite (tuple_bytes_packed page_with_two 1 Hp Hocc).
  rewrite Ho1, Hl1. apply (f_equal Some). unfold page_with_two.
  change 9 with (Z.of_nat (List.length bytes_42)) at 3.
  apply bytes_at_memcpy; [page_arith|].
  rewrite bytes_42_length, set_slot_length_size, set_slot_offset_size,
          set_slot_empty_size, Hsize. page_arith.
Qed.

Lemma page_with_two_rest (j : Z) :
  2 <= j < MAX_SLOTS → fresh_entry page_with_two j.
Proof.
  intros Hj. destruct page_with_42_slots as (Hp & Hs0 & Hrest).
  destruct (packed_after_insert page_with_42 page_with_two
              (TupleSpec.chars "1 0 4 42 ") Hp chars_42_nonempty page_with_two_run)
    as (_ & Hins & _).
  rewrite chars_42_length in Hins.
  remember (choose_slot page_with_42 9) as c eqn:Hcdef. clear Hcdef.
  destruct Hins as (Hc & He & He' & Hother & _).
  destruct (slot_at_fields _ _ _ (proj1 (proj2 page_with_two_slots))) as (He0 & _).
  destruct (slot_at_fields _ _ _ (proj2 (proj2 page_with_two_slots))) as (He1 & _).
  cbn [empty] in He0, He1.
  assert (Hjc : j ≠ c).
  { intros ->. destruct (Z.eq_dec c 1) as [Heq|Hne]; [lia|].
    (* the entry that was chosen is the second: entry 1 is occupied
       afterwards and was not before *)
    assert (H1 : 0 <= 1 < MAX_SLOTS) by (unfold MAX_SLOTS; lia).
    assert (H1c : 1 ≠ c) by lia.
    pose proof (slot_empty_of_slot_at _ _ _ (Hother 1 H1 H1c)) as Hsame.
    destruct (Hrest 1) as (He1' & _); [unfold MAX_SLOTS; lia|].
    rewrite He1, He1' in Hsame. discriminate Hsame. }
  assert (Hj1 : 1 <= j < MAX_SLOTS) by lia.
  assert (Hj0 : 0 <= j < MAX_SLOTS) by lia.
  destruct (Hrest j Hj1) as (Hej & Hoj & Hlj).
  destruct (proj1 (slot_at_eq _ _ _) (Hother j Hj0 Hjc)) as (E1 & E2 & E3).
  unfold fresh_entry. rewrite E1, E2, E3. split; [exact Hej|]. split; [exact Hoj|exact Hlj].
Qed.

Lemma X20_addTuple_keeps_other_tuples_witness :
  packed page_with_42 ∧ occupied page_with_42 0 ∧
  tuple_bytes 0 page_with_42 = Some bytes_42 ∧
  ∃ p',
    @addTuple TupleSpec.no_float_text tuple_42 page_with_42 = Returns (true, p') ∧
    packed p' ∧ occupied p' 0 ∧ tuple_bytes 0 p' = Some bytes_42.
Proof.
  destruct page_with_42_slots as (Hp & Hs0 & _).
  apply slot_at_fields in Hs0 as (He0 & _). cbn [empty] in He0.
  assert (Hocc : occupied page_with_42 0) by (split; [unfold MAX_SLOTS; lia|exact He0]).
  split; [exact Hp|]. split; [exact Hocc|]. split; [exact page_with_42_reads|].
  destruct (@X20_addTuple_keeps_other_tuples TupleSpec.no_float_text page_with_42
              tuple_42 (TupleSpec.chars "1 0 4 42 ") Hp eq_refl)
    as (added & p' & Hrun & Hp' & Hkeep).
  rewrite tuple_42_fits_again in Hrun.
  destruct (returns_pair_inj _ _ _ _ Hrun) as [<- <-].
  exists page_with_two. split; [exact tuple_42_fits_again|]. split; [exact Hp'|].
  destruct (Hkeep 0 Hocc) as [Hocc' Hsame].
  split; [exact Hocc'|]. rewrite Hsame. exact page_with_42_reads.
Defined.

Lemma X21_deleteTuple_witness :
  packed page_with_two ∧ occupied page_with_two 0 ∧
  tuple_bytes 1 page_with_two = Some bytes_42 ∧
  countTuples (deleteTuple 0 page_with_two) = countTuples page_with_two - 1 ∧
  tuple_bytes 0 (deleteTuple 0 page_with_two) = None ∧
  reusable (deleteTuple 0 page_with_two) 9 0 ∧
  tuple_bytes 1 (deleteTuple 0 page_with_two) = Some bytes_42 ∧
  packed (deleteTuple 0 page_with_two) ∧
  deleteTuple 0 (deleteTuple 0 page_with_two) = deleteTuple 0 page_with_two ∧
  deleteTuple 5 page_with_two = page_with_two.
Proof.
  destruct page_with_two_slots as (Hp & Hs0 & _).
  apply slot_at_fields in Hs0 as (He0 & _ & Hl0). cbn [empty length] in He0, Hl0.
  assert (Hocc : occupied page_with_two 0) by (split; [unfold MAX_SLOTS; lia|exact He0]).
  destruct (X21_deleteTuple page_with_two 0 Hp ltac:(lia))
    as (Hp' & _ & Hdel & Hothers & Htwice).
  destruct (Hdel Hocc) as (Hcount & Hnone & Hreuse).
  rewrite Hl0 in Hreuse.
  split; [exact Hp|]. split; [exact Hocc|]. split; [exact page_with_two_reads|].
  split; [exact Hcount|]. split; [exact Hnone|]. split; [exact Hreuse|].
  split; [rewrite Hothers by lia; exact page_with_two_reads|].
  split; [exact Hp'|]. split; [exact Htwice|].
  destruct (X21_deleteTuple page_with_two 5 Hp ltac:(lia)) as (_ & Hsame & _).
  apply Hsame. intros [_ He5].
  destruct (page_with_two_rest 5) as (He5' & _); [unfold MAX_SLOTS; lia|].
  rewrite He5' in He5. discriminate He5.
Defined.

(** The page with two tuples after the first was deleted. *)
Lemma emptied_page_slots :
  packed (deleteTuple 0 page_with_two) ∧
  slot_at (deleteTuple 0 page_with_two) 0
  = {| empty := true; offset := metadata_size; length := 9 |} ∧
  unused (deleteTuple 0 page_with_two) 2.
Proof.
  destruct page_with_two_slots as (Hp & Hs0 & _).
  pose proof Hp as (Hsize & _).
  apply slot_at_fields in Hs0 as (He0 & Ho0 & Hl0).
  cbn [empty offset length] in He0, Ho0, Hl0.
  assert (H0 : 0 <= 0 < MAX_SLOTS) by (unfold MAX_SLOTS; lia).
  assert (Hdel : deleteTuple 0 page_with_two = set_slot_empty page_with_two 0 true).
  { unfold deleteTuple. rewrite He0. reflexivity. }
  rewrite Hdel. split; [|split].
  - apply flag_packed; [exact Hp|exact H0|]. rewrite Ho0. discriminate.
  - rewrite (slot_at_set_empty page_with_two 0 0 true Hsize H0) by lia.
    rewrite decide_True by reflexivity. rewrite Ho0, Hl0. reflexivity.
  - destruct (page_with_two_rest 2) as (He2 & Ho2 & _); [unfold MAX_SLOTS; lia|].
    split; [unfold MAX_SLOTS; lia|].
    pose proof (slot_at_set_empty page_with_two 0 2 true Hsize H0 ltac:(lia)) as Hs.
    rewrite decide_False in Hs by lia.
    apply slot_at_eq in Hs as (E1 & E2 & _).
    split; [rewrite E1; exact He2|rewrite E2; exact Ho2].
Qed.

Lemma C3_addTuple_slot_and_offset_witness :
  (wf new_page ∧ choose_slot new_page 9 = 0 ∧
   ∃ p', @addTuple TupleSpec.no_float_text tuple_42 new_page = Returns (true, p') ∧
         slot_empty p' 0 = false ∧ slot_offset p' 0 = metadata_size) ∧
  (wf (deleteTuple 0 page_with_two) ∧
   reusable (deleteTuple 0 page_with_two) 9 0 ∧
   unused (deleteTuple 0 page_with_two) 2 ∧
   choose_slot (deleteTuple 0 page_with_two) 9 = 0 ∧
   ∃ p', @addTuple TupleSpec.no_float_text tuple_42 (deleteTuple 0 page_with_two)
         = Returns (true, p') ∧
         slot_empty p' 0 = false ∧ slot_offset p' 0 = metadata_size).
Proof.
  split.
  - split; [exact new_page_wf|].
    pose proof (@C3_addTuple_slot_and_offset TupleSpec.no_float_text new_page
                  tuple_42 (TupleSpec.chars "1 0 4 42 ") new_page_wf eq_refl)
      as (_ & Hfresh & _ & _ & _ & Hok & _).
    cbv zeta in Hfresh, Hok. rewrite chars_42_length in Hfresh, Hok.
    assert (Hnore : ∀ i, ¬ reusable new_page 9 i).
    { intros i (Hi & (_ & Ho) & _). destruct (new_page_fresh i Hi) as (_ & Ho' & _).
      exact (Ho Ho'). }
    assert (Hun0 : unused new_page 0).
    { destruct (new_page_fresh 0) as (He & Ho & _); [unfold MAX_SLOTS; lia|].
      split; [unfold MAX_SLOTS; lia|]. split; [exact He|exact Ho]. }
    destruct (Hfresh Hnore (ex_intro _ 0 Hun0)) as [[Hunc Hfirst] Hoff].
    assert (Hc0 : choose_slot new_page 9 = 0).
    { destruct (Z.eq_dec (choose_slot new_page 9) 0) as [Heq|Hne]; [exact Heq|].
      exfalso. apply (Hfirst 0); [destruct Hunc as (Hc & _); lia|exact Hun0]. }
    split; [exact Hc0|].
    rewrite Hc0 in Hok, Hoff. change (0 =? 0) with true in Hoff. cbv iota in Hoff.
    rewrite Hoff in Hok. apply Hok.
    + unfold MAX_SLOTS. lia.
    + unfold metadata_size, sizeof_Slot, MAX_SLOTS, PAGE_SIZE. lia.
    + lia.
  - destruct emptied_page_slots as (Hp & Hs0 & Hun2).
    apply slot_at_fields in Hs0 as (He0 & Ho0 & Hl0).
    cbn [empty offset length] in He0, Ho0, Hl0.
    pose proof (packed_wf _ Hp) as Hwf.
    assert (Hre0 : reusable (deleteTuple 0 page_with_two) 9 0).
    { split; [unfold MAX_SLOTS; lia|]. split.
      - split; [exact He0|]. rewrite Ho0. discriminate.
      - rewrite Hl0. lia. }
    split; [exact Hwf|]. split; [exact Hre0|]. split; [exact Hun2|].
    pose proof (@C3_addTuple_slot_and_offset TupleSpec.no_float_text
                  (deleteTuple 0 page_with_two)
                  tuple_42 (TupleSpec.chars "1 0 4 42 ") Hwf eq_refl)
      as (Hreuse & _ & _ & _ & _ & Hok & _).
    cbv zeta in Hreuse, Hok. rewrite chars_42_length in Hreuse, Hok.
    destruct (Hreuse (ex_intro _ 0 Hre0)) as [[Hrec Hfirst] Hoff].
    assert (Hc0 : choose_slot (deleteTuple 0 page_with_two) 9 = 0).
    { destruct (Z.eq_dec (choose_slot (deleteTuple 0 page_with_two) 9) 0)
        as [Heq|Hne]; [exact Heq|].
      exfalso. apply (Hfirst 0); [destruct Hrec as (Hc & _); lia|exact Hre0]. }
    split; [exact Hc0|].
    rewrite Hc0 in Hok, Hoff. rewrite Ho0 in Hoff.
    rewrite Hoff in Hok. apply Hok.
    + unfold MAX_SLOTS. lia.
    + unfold metadata_size, sizeof_Slot, MAX_SLOTS, PAGE_SIZE. lia.
    + lia.
Defined.

End Two_tuples.

(** ** The buffer manager keeps its invariant *)
Section Buffer_facts.
Import Page Storage Buffer BufferEnd BufferSpec.

Variable good : list Z → Prop.
Hypothesis good_whole : ∀ p, good p → whole_page p.

Lemma bind_returns {St A B} (c : M St A) (k : A → M St B) (s s' : St) (a : A) :
  c s = Returns (a, s') → bind c k s = k a s'.
Proof. intros Hc. unfold bind. by rewrite Hc. Qed.

Lemma latch_of_pinned (pid : PageID) (exclusive : bool) :
  latch_of (Some (pid, exclusive)) pid
  = if exclusive then LockedExclusive else LockedShared 1.
Proof. unfold latch_of. by rewrite decide_True. Qed.

Lemma state_of_pin_pinned (pid : PageID) (exclusive : bool) :
  state_of_pin (Some (pid, exclusive)) pid
  = if exclusive then PAGE_EXCLUSIVE else 1.
Proof. unfold state_of_pin. by rewrite decide_True. Qed.

(** Pins that differ at most on [pid] agree elsewhere. *)
Lemma pins_agree (pinned pinned' : option (PageID * bool)) (pid q : PageID) :
  pin_on pid pinned → pin_on pid pinned' → q ≠ pid →
  latch_of pinned' q = latch_of pinned q ∧
  state_of_pin pinned' q = state_of_pin pinned q.
Proof.
  intros [->|[e ->]] [->|[e' ->]] Hne; unfold latch_of, state_of_pin;
    rewrite ?decide_False by (intros ->; done); done.
Qed.

Lemma pin_unpinned (pinned : option (PageID * bool)) (pid q : PageID) :
  pin_on pid pinned → q ≠ pid →
  latch_of pinned q = Unlocked ∧ state_of_pin pinned q = PAGE_UNFIXED.
Proof.
  intros Hp Hne. apply (pins_agree None pinned pid q); [by left|done|done].
Qed.

(** The frame of a resident page is replaced, its state is set, pages may
    be touched. *)
Lemma inv_update_frame (pinned pinned' : option (PageID * bool))
      (bm bm' : BufferManager) (fid : nat) (pid : PageID) (fr' : BufferFrame) :
  inv good pinned bm →
  pin_on pid pinned → pin_on pid pinned' →
  frame_of_page_ bm !! pid = Some fid →
  storage_manager_ bm' = storage_manager_ bm →
  buffer_pool_ bm' = <[fid := Some fr']> (buffer_pool_ bm) →
  page_state_ bm' = <[pid := state_of_pin pinned' pid]> (page_state_ bm) →
  frame_of_page_ bm' = frame_of_page_ bm →
  empty_slots_ bm' = empty_slots_ bm →
  (∀ q, q ∈ TwoQ.fifo_queue_ (policy_ bm) ++ TwoQ.lru_queue_ (policy_ bm) →
        q ∈ TwoQ.fifo_queue_ (policy_ bm') ++ TwoQ.lru_queue_ (policy_ bm')) →
  page_id_ fr' = pid → good (page fr') → mutex fr' = latch_of pinned' pid →
  (is_dirty_ fr' = false →
   pinned' = Some (pid, true) ∨
   page fr' = page_of_file (storage_manager_ bm) pid) →
  inv good pinned' bm'.
Proof.
  intros Hinv Hp Hp' Hfid Hsm Hpool Hps Hfop Hes Hpol Hid Hgood Hmutex Hclean.
  destruct (inv_frames _ _ _ Hinv pid fid Hfid) as (fr & Hfr & _ & _ & _ & Hrange & _).
  assert (Hlt : (fid < List.length (buffer_pool_ bm))%nat)
    by (by eapply lookup_lt_Some).
  assert (Hsome : is_Some (page_state_ bm !! pid))
    by (apply (inv_dom _ _ _ Hinv); by rewrite Hfid).
  split; rewrite ?Hsm, ?Hpool, ?Hps, ?Hfop, ?Hes, ?length_insert.
  - apply (inv_storage _ _ _ Hinv).
  - apply (inv_room _ _ _ Hinv).
  - apply (inv_file _ _ _ Hinv).
  - intros q. rewrite <- (inv_dom _ _ _ Hinv q).
    destruct (decide (q = pid)) as [->|Hne].
    + rewrite lookup_insert_eq. split; [done|by eauto].
    + by rewrite lookup_insert_ne.
  - intros q fid' Hq. destruct (decide (q = pid)) as [->|Hne].
    + assert (fid' = fid) as -> by congruence.
      exists fr'. rewrite list_lookup_insert_eq by done. done.
    + destruct (inv_frames _ _ _ Hinv q fid' Hq) as (frq & Hfrq & ? & ? & Hm & ? & Hcq).
      exists frq. rewrite list_lookup_insert_ne.
      * destruct (pins_agree pinned pinned' pid q Hp Hp' Hne) as [-> _].
        do 5 (split; [done|]). intros Hd. right.
        destruct (Hcq Hd) as [Hpin|Hpage]; [|done].
        destruct Hp as [->|[e ->]]; [done|]. by injection Hpin as -> _.
      * intros <-. apply Hne. by eapply (inv_inj _ _ _ Hinv).
  - intros q st. destruct (decide (q = pid)) as [->|Hne].
    + rewrite lookup_insert_eq. congruence.
    + rewrite lookup_insert_ne by done. intros Hq.
      destruct (pins_agree pinned pinned' pid q Hp Hp' Hne) as [_ ->].
      by eapply (inv_states _ _ _ Hinv).
  - apply (inv_inj _ _ _ Hinv).
  - apply (inv_empty _ _ _ Hinv).
  - apply (inv_empty_nodup _ _ _ Hinv).
  - apply (inv_cover _ _ _ Hinv).
  - intros q Hq. apply Hpol, (inv_tracked _ _ _ Hinv).
    destruct (decide (q = pid)) as [->|Hne]; [done|].
    by rewrite lookup_insert_ne in Hq.
  - apply (inv_capacity _ _ _ Hinv).
Qed.

Lemma elem_of_unlink_ne (page_id p : PageID) (q : list PageID) :
  p ∈ q → p ≠ page_id → p ∈ TwoQ.unlink page_id q.
Proof.
  induction q as [|x q IH]; simpl; [done|].
  intros [->|Hp]%elem_of_cons Hne.
  - rewrite decide_False by done. by left.
  - case_decide; [done|]. right. by apply IH.
Qed.

(** [touch] forgets no page and tracks the touched one. *)
Lemma touch_keeps (page_id : PageID) (s : TwoQ.TwoQPolicy) (q : PageID) :
  q = page_id ∨ q ∈ TwoQ.fifo_queue_ s ++ TwoQ.lru_queue_ s →
  q ∈ TwoQ.fifo_queue_ (TwoQ.touch page_id s).2
      ++ TwoQ.lru_queue_ (TwoQ.touch page_id s).2.
Proof.
  intros Hq. unfold TwoQ.touch.
  destruct (decide (q = page_id)) as [->|Hne].
  - repeat case_decide; simpl; rewrite !elem_of_app, ?list_elem_of_singleton; auto.
  - destruct Hq as [?|Hq]; [done|]. apply elem_of_app in Hq.
    repeat case_decide; simpl; rewrite !elem_of_app; [| |tauto].
    + destruct Hq as [Hq|Hq]; [left; by apply elem_of_unlink_ne|right; left; done].
    + destruct Hq as [Hq|Hq]; [by left|right; left; by apply elem_of_unlink_ne].
Qed.

(** What a resident page looks like under the invariant. *)
Lemma inv_resident (pinned : option (PageID * bool)) (bm : BufferManager)
      (pid : PageID) (fid : nat) :
  inv good pinned bm → frame_of_page_ bm !! pid = Some fid →
  ∃ fr, buffer_pool_ bm !! fid = Some (Some fr) ∧ page_id_ fr = pid ∧
        good (page fr) ∧ mutex fr = latch_of pinned pid ∧
        page_state_ bm !! pid = Some (state_of_pin pinned pid) ∧
        (fid < List.length (buffer_pool_ bm))%nat ∧
        0 <= pid < num_pages (storage_manager_ bm) ∧
        (is_dirty_ fr = false →
         pinned = Some (pid, true) ∨
         page fr = page_of_file (storage_manager_ bm) pid).
Proof.
  intros Hinv Hfid.
  destruct (inv_frames _ _ _ Hinv pid fid Hfid) as (fr & Hfr & Hid & Hs & Hm & Hr & Hc).
  exists fr. do 4 (split; [done|]). split; [|split; [|done]].
  - destruct (proj2 (inv_dom _ _ _ Hinv pid)) as [st Hst]; [by rewrite Hfid|].
    rewrite Hst. f_equal. by eapply (inv_states _ _ _ Hinv).
  - by eapply lookup_lt_Some.
Qed.

Lemma view_resident (bm : BufferManager) (pid : PageID) (fid : nat)
      (fr : BufferFrame) :
  frame_of_page_ bm !! pid = Some fid →
  buffer_pool_ bm !! fid = Some (Some fr) → view bm pid = page fr.
Proof. intros Hfid Hfr. unfold view. by rewrite Hfid, Hfr. Qed.

Lemma view_absent (bm : BufferManager) (pid : PageID) :
  frame_of_page_ bm !! pid = None →
  view bm pid = page_of_file (storage_manager_ bm) pid.
Proof. intros Hfid. unfold view. by rewrite Hfid. Qed.

Lemma deref_run (bm : BufferManager) (fid : nat) (fr : BufferFrame) :
  buffer_pool_ bm !! fid = Some (Some fr) → deref fid bm = Returns (fr, bm).
Proof. intros Hfr. unfold deref. by rewrite Hfr. Qed.

Lemma store_frame_run (bm : BufferManager) (fid : nat) (f : BufferFrame) :
  (fid < List.length (buffer_pool_ bm))%nat →
  store_frame fid f bm
  = Returns (tt, with_pool (<[fid := Some f]> (buffer_pool_ bm)) bm).
Proof. intros Hlt. unfold store_frame. by rewrite decide_True. Qed.

Lemma state_of_run (bm : BufferManager) (pid : PageID) (st : Z) :
  page_state_ bm !! pid = Some st → state_of pid bm = Returns (st, bm).
Proof. intros Hst. unfold state_of. by rewrite Hst. Qed.

Lemma frame_of_run (bm : BufferManager) (pid : PageID) (fid : nat) :
  frame_of_page_ bm !! pid = Some fid → frame_of pid bm = Returns (fid, bm).
Proof. intros Hfid. unfold frame_of. by rewrite Hfid. Qed.

(** [unfix_page] releases the pinned page.  A page that was written to
    must be unfixed as dirty. *)
Lemma unfix_page_ok (bm : BufferManager) (pid : PageID) (exclusive : bool)
      (fid : nat) (is_dirty : bool) :
  inv good (Some (pid, exclusive)) bm → frame_of_page_ bm !! pid = Some fid →
  (exclusive = true → is_dirty = false → unmodified bm fid pid) →
  ∃ bm', unfix_page fid is_dirty bm = Returns (tt, bm') ∧ inv good None bm' ∧
         storage_manager_ bm' = storage_manager_ bm ∧
         frame_of_page_ bm' = frame_of_page_ bm ∧
         (∀ k, view bm' k = view bm k) ∧
         (tidy bm → tidy bm').
Proof.
  intros Hinv Hfid Hclean.
  destruct (inv_resident _ _ _ _ Hinv Hfid)
    as (fr & Hfr & Hid & Hgood & Hmutex & Hst & Hlt & Hrange & Hcoh).
  rewrite latch_of_pinned in Hmutex. rewrite state_of_pin_pinned in Hst.
  set (fr1 := if is_dirty then set_dirty fr else fr).
  set (bm1 := if is_dirty then with_pool (<[fid := Some fr1]> (buffer_pool_ bm)) bm
              else bm).
  set (fr2 := set_mutex Unlocked fr1).
  set (bm2 := with_pool (<[fid := Some fr2]> (buffer_pool_ bm1))
                (with_page_state (<[pid := PAGE_UNFIXED]> (page_state_ bm1)) bm1)).
  assert (Hrun1 : (if is_dirty then store_frame fid (set_dirty fr) else ret tt) bm
                  = Returns (tt, bm1)).
  { unfold bm1, fr1. destruct is_dirty; [|done]. by apply store_frame_run. }
  assert (Hfr1 : buffer_pool_ bm1 !! fid = Some (Some fr1)).
  { unfold bm1, fr1. destruct is_dirty; [|done]. simpl.
    by rewrite list_lookup_insert_eq. }
  assert (Hlen1 : (fid < List.length (buffer_pool_ bm1))%nat).
  { unfold bm1. destruct is_dirty; [|done]. simpl. by rewrite length_insert. }
  assert (Hps1 : page_state_ bm1 = page_state_ bm) by (unfold bm1; by destruct is_dirty).
  assert (Hid1 : page_id_ fr1 = pid) by (unfold fr1; by destruct is_dirty).
  assert (Hm1 : mutex fr1 = mutex fr) by (unfold fr1; by destruct is_dirty).
  assert (Hpg1 : page fr1 = page fr) by (unfold fr1; by destruct is_dirty).
  assert (Hpool2 : buffer_pool_ bm2 = <[fid := Some fr2]> (buffer_pool_ bm)).
  { unfold bm2, bm1. destruct is_dirty; simpl; [|done]. by rewrite list_insert_insert_eq. }
  assert (Hrun : unfix_page fid is_dirty bm = Returns (tt, bm2)).
  { unfold unfix_page.
    rewrite (bind_returns _ _ _ _ _ (deref_run _ _ _ Hfr)).
    rewrite (bind_returns _ _ _ _ _ Hrun1).
    rewrite (bind_returns _ _ _ _ _ (deref_run _ _ _ Hfr1)).
    cbv zeta. rewrite Hid1.
    rewrite (bind_returns _ _ _ _ _ (state_of_run bm1 pid _ ltac:(rewrite Hps1; exact Hst))).
    rewrite Hm1, Hmutex. destruct exclusive.
    - change (PAGE_EXCLUSIVE =? PAGE_EXCLUSIVE) with true. cbv iota.
      unfold bind, set_state, modify. unfold store_frame. simpl.
      rewrite decide_True by done. reflexivity.
    - change (1 =? PAGE_EXCLUSIVE) with false. change (0 <? 1) with true. cbv iota.
      unfold bind, set_state, modify. unfold store_frame. simpl.
      rewrite decide_True by done. reflexivity. }
  assert (Hsm2 : storage_manager_ bm2 = storage_manager_ bm)
    by (unfold bm2, bm1; by destruct is_dirty).
  assert (Hfop2 : frame_of_page_ bm2 = frame_of_page_ bm)
    by (unfold bm2, bm1; by destruct is_dirty).
  assert (Hview : ∀ k, view bm2 k = view bm k).
  { intros k. unfold view. rewrite Hfop2, Hsm2, Hpool2.
    destruct (frame_of_page_ bm !! k) as [fk|] eqn:Hk; [|done].
    destruct (decide (fk = fid)) as [->|Hne].
    - rewrite list_lookup_insert_eq by done. rewrite Hfr. unfold fr2. simpl. done.
    - by rewrite list_lookup_insert_ne. }
  exists bm2. split; [done|]. split; [|split; [done|split; [done|split; [done|]]]].
  - apply (inv_update_frame (Some (pid, exclusive)) None bm bm2 fid pid fr2);
      try done.
    + right. by exists exclusive.
    + by left.
    + unfold bm2. simpl. by rewrite Hps1.
    + unfold bm2, bm1. by destruct is_dirty.
    + unfold bm2, bm1. by destruct is_dirty.
    + unfold fr2. simpl. by rewrite Hpg1.
    + unfold fr2, fr1. intros Hd. right. destruct is_dirty; [done|].
      simpl in Hd. destruct (Hcoh Hd) as [Hpin|Hpage]; [|done].
      injection Hpin as ->. exact (Hclean eq_refl eq_refl fr Hfr Hd).
  - intros Htidy e He. rewrite Hpool2.
    assert (He' : e ∈ empty_slots_ bm).
    { unfold bm2, bm1 in He. by destruct is_dirty. }
    rewrite list_lookup_insert_ne; [by apply Htidy|].
    intros <-. by apply (proj2 (inv_empty _ _ _ Hinv fid He') pid).
Qed.

(** [fix_page] of a resident page when nothing is pinned: the latch is
    taken at once. *)
Lemma fix_page_hit (bm : BufferManager) (pid : PageID) (exclusive : bool)
      (fid : nat) :
  inv good None bm → frame_of_page_ bm !! pid = Some fid →
  ∃ bm', fix_page pid exclusive bm = Returns (fid, bm') ∧
         inv good (Some (pid, exclusive)) bm' ∧
         storage_manager_ bm' = storage_manager_ bm ∧
         (∀ k, view bm' k = view bm k) ∧
         holds bm' fid pid (view bm pid) ∧
         unmodified bm' fid pid ∧ (tidy bm → tidy bm').
Proof.
  intros Hinv Hfid.
  destruct (inv_resident _ _ _ _ Hinv Hfid)
    as (fr & Hfr & Hid & Hgood & Hmutex & Hst & Hlt & Hrange & Hcoh).
  change (latch_of None pid) with Unlocked in Hmutex.
  change (state_of_pin None pid) with PAGE_UNFIXED in Hst.
  set (fr' := set_mutex (if exclusive then LockedExclusive else LockedShared 1) fr).
  set (bm1 := with_pool (<[fid := Some fr']> (buffer_pool_ bm)) bm).
  set (bm' := with_policy (snd (TwoQ.touch pid (policy_ bm1)))
                (with_page_state
                   (<[pid := if exclusive then PAGE_EXCLUSIVE else 1]> (page_state_ bm1))
                   bm1)).
  assert (Hrun : fix_page pid exclusive bm = Returns (fid, bm')).
  { unfold fix_page. unfold bind at 1. unfold get at 1. rewrite Hst.
    rewrite (bind_returns _ _ _ _ _ (frame_of_run _ _ _ Hfid)).
    rewrite (bind_returns _ _ _ _ _ (deref_run _ _ _ Hfr)).
    rewrite Hmutex. destruct exclusive.
    - rewrite (bind_returns _ _ _ _ _ (store_frame_run _ _ _ Hlt)).
      rewrite (bind_returns _ _ _ _ _ (state_of_run bm1 pid _ Hst)).
      reflexivity.
    - rewrite (bind_returns _ _ _ _ _ (store_frame_run _ _ _ Hlt)).
      rewrite (bind_returns _ _ _ _ _ (state_of_run bm1 pid _ Hst)).
      reflexivity. }
  assert (Hfr' : buffer_pool_ bm' !! fid = Some (Some fr')).
  { unfold bm', bm1. simpl. by rewrite list_lookup_insert_eq. }
  assert (Hview : ∀ k, view bm' k = view bm k).
  { intros k. unfold view, bm', bm1. simpl.
    destruct (frame_of_page_ bm !! k) as [fk|] eqn:Hk; [|done].
    destruct (decide (fk = fid)) as [->|Hne].
    - rewrite list_lookup_insert_eq by done. by rewrite Hfr.
    - by rewrite list_lookup_insert_ne. }
  exists bm'. split; [done|]. split; [|split; [done|split; [done|]]].
  - assert (Hps : page_state_ bm'
                  = <[pid := state_of_pin (Some (pid, exclusive)) pid]> (page_state_ bm))
      by (by rewrite state_of_pin_pinned).
    assert (Hpol : ∀ q, q ∈ TwoQ.fifo_queue_ (policy_ bm) ++ TwoQ.lru_queue_ (policy_ bm) →
              q ∈ TwoQ.fifo_queue_ (policy_ bm') ++ TwoQ.lru_queue_ (policy_ bm')).
    { intros q Hq. unfold bm', bm1. simpl. apply touch_keeps. by right. }
    assert (Hm' : mutex fr' = latch_of (Some (pid, exclusive)) pid)
      by (by rewrite latch_of_pinned).
    assert (Hcoh' : is_dirty_ fr' = false →
              Some (pid, exclusive) = Some (pid, true) ∨
              page fr' = page_of_file (storage_manager_ bm) pid).
    { intros Hd. destruct (Hcoh Hd) as [Habs|Hpage]; [done|by right]. }
    exact (inv_update_frame None (Some (pid, exclusive)) bm bm' fid pid fr' Hinv
             (or_introl eq_refl) (or_intror (ex_intro _ exclusive eq_refl)) Hfid
             eq_refl eq_refl Hps eq_refl eq_refl Hpol Hid Hgood Hm' Hcoh').
  - split; [|split].
    + split; [done|]. exists fr'. split; [done|]. split; [done|].
      rewrite (view_resident bm pid fid fr) by done. done.
    + intros f Hf Hd. rewrite Hfr' in Hf. injection Hf as <-.
      destruct (Hcoh Hd) as [Habs|Hpage]; [done|exact Hpage].
    + intros Htidy e He. unfold bm', bm1 in *. simpl in *.
      rewrite list_lookup_insert_ne; [by apply Htidy|].
      intros <-. by apply (proj2 (inv_empty _ _ _ Hinv fid He) pid).
Qed.

(** What the pin-aware [evict] returns, for the buffer manager. *)
Lemma evict_returns (m : gmap PageID PageState) (s : TwoQ.TwoQPolicy)
      (v : PageID) (s' : TwoQ.TwoQPolicy) :
  TwoQ.evict m s = Returns (v, s') →
  m !! v = Some PAGE_UNFIXED ∧
  ∀ q, q ≠ v → q ∈ TwoQ.fifo_queue_ s ++ TwoQ.lru_queue_ s →
       q ∈ TwoQ.fifo_queue_ s' ++ TwoQ.lru_queue_ s'.
Proof.
  unfold TwoQ.evict. intros Hev.
  destruct (TwoQ.scan_queue m (TwoQ.fifo_queue_ s)) as [[v1 rest]|] eqn:Hf.
  - injection Hev as -> <-.
    destruct (scan_queue_Some _ _ _ _ Hf) as (pre & post & Hq & -> & Hv & _).
    split; [done|]. intros q Hne. simpl. rewrite Hq, !elem_of_app, elem_of_cons. tauto.
  - destruct (TwoQ.scan_queue m (TwoQ.lru_queue_ s)) as [[v1 rest]|] eqn:Hl; [|done].
    injection Hev as -> <-.
    destruct (scan_queue_Some _ _ _ _ Hl) as (pre & post & Hq & -> & Hv & _).
    split; [done|]. intros q Hne. simpl. rewrite Hq, !elem_of_app, elem_of_cons. tauto.
Qed.

Lemma evict_finds (m : gmap PageID PageState) (s : TwoQ.TwoQPolicy) (q : PageID) :
  q ∈ TwoQ.fifo_queue_ s ++ TwoQ.lru_queue_ s → m !! q = Some PAGE_UNFIXED →
  ∃ v s', TwoQ.evict m s = Returns (v, s').
Proof.
  intros Hq Hm. unfold TwoQ.evict.
  destruct (TwoQ.scan_queue m (TwoQ.fifo_queue_ s)) as [[v1 rest]|] eqn:Hf;
    [by eexists _, _|].
  destruct (TwoQ.scan_queue m (TwoQ.lru_queue_ s)) as [[v1 rest]|] eqn:Hl;
    [by eexists _, _|].
  exfalso. apply elem_of_app in Hq as [Hq|Hq].
  - by apply (proj1 (scan_queue_None _ _) Hf q Hq).
  - by apply (proj1 (scan_queue_None _ _) Hl q Hq).
Qed.

(** With no free frame and nothing pinned, some page can be evicted. *)
Lemma inv_evictable (bm : BufferManager) :
  inv good None bm → empty_slots_ bm = [] →
  ∃ v pol', TwoQ.evict (page_state_ bm) (policy_ bm) = Returns (v, pol').
Proof.
  intros Hinv Hes.
  destruct (inv_cover _ _ _ Hinv 0%nat (inv_capacity _ _ _ Hinv)) as [Hin|[q Hq]].
  { rewrite Hes in Hin. by apply elem_of_nil in Hin. }
  destruct (inv_resident _ _ _ _ Hinv Hq) as (fr & _ & _ & _ & _ & Hst & _).
  apply (evict_finds _ _ q); [|done].
  apply (inv_tracked _ _ _ Hinv). by rewrite Hst.
Qed.

(** The state after the eviction block of [load_page_locked]. *)
Lemma inv_evict (bm bm1 : BufferManager) (victim : PageID)
      (pol' : TwoQ.TwoQPolicy) (vf : nat) (fr : BufferFrame) :
  inv good None bm → empty_slots_ bm = [] →
  TwoQ.evict (page_state_ bm) (policy_ bm) = Returns (victim, pol') →
  frame_of_page_ bm !! victim = Some vf →
  buffer_pool_ bm !! vf = Some (Some fr) →
  storage_manager_ bm1
    = (if is_dirty_ fr
       then flush victim (page fr) (storage_manager_ bm)
       else storage_manager_ bm) →
  buffer_pool_ bm1 = buffer_pool_ bm → policy_ bm1 = pol' →
  empty_slots_ bm1 = [vf] →
  frame_of_page_ bm1 = delete victim (frame_of_page_ bm) →
  page_state_ bm1 = delete victim (page_state_ bm) →
  inv good None bm1 ∧
  num_pages (storage_manager_ bm1) = num_pages (storage_manager_ bm) ∧
  (∀ k, 0 <= k → view bm1 k = view bm k).
Proof.
  intros Hinv Hes Hev Hvf Hfr Hsm Hpool Hpol Hes1 Hfop Hps.
  destruct (evict_returns _ _ _ _ Hev) as [Hvst Hkeep].
  destruct (inv_resident _ _ _ _ Hinv Hvf)
    as (fr0 & Hfr0 & Hid & Hgood & Hmutex & Hst & Hlt & Hrange & Hcoh).
  assert (fr0 = fr) as -> by congruence.
  pose proof (inv_storage _ _ _ Hinv) as Hwf.
  pose proof (good_whole _ Hgood) as Hwhole.
  destruct (flush_pages _ victim (page fr) Hwf Hrange Hwhole)
    as (Hwf' & Hn' & Hsame' & Hother').
  assert (Hfile : ∀ k, 0 <= k →
            page_of_file (storage_manager_ bm1) k
            = if decide (k = victim) then page fr
              else page_of_file (storage_manager_ bm) k).
  { intros k Hk. rewrite Hsm. destruct (is_dirty_ fr) eqn:Hd.
    - case_decide as Hkv; [by subst|by apply Hother'].
    - case_decide as Hkv; [|done]. subst k.
      destruct (Hcoh eq_refl) as [Habs|Hpage]; [done|by rewrite Hpage]. }
  assert (Hnum : num_pages (storage_manager_ bm1) = num_pages (storage_manager_ bm)).
  { rewrite Hsm. by destruct (is_dirty_ fr). }
  split; [|split; [done|]].
  - split; rewrite ?Hnum, ?Hpool, ?Hpol, ?Hes1, ?Hfop, ?Hps.
    + rewrite Hsm. by destruct (is_dirty_ fr).
    + apply (inv_room _ _ _ Hinv).
    + intros k Hk. rewrite Hfile by lia. case_decide; [done|].
      by apply (inv_file _ _ _ Hinv).
    + intros q. destruct (decide (q = victim)) as [->|Hne].
      * rewrite !lookup_delete_eq. split; intros [? ?]; done.
      * rewrite !lookup_delete_ne by done. apply (inv_dom _ _ _ Hinv).
    + intros q fid Hq. destruct (decide (q = victim)) as [->|Hne].
      { by rewrite lookup_delete_eq in Hq. }
      rewrite lookup_delete_ne in Hq by done.
      destruct (inv_frames _ _ _ Hinv q fid Hq) as (frq & ? & ? & ? & ? & Hr & Hcq).
      exists frq. do 5 (split; [done|]). intros Hd. right.
      destruct (Hcq Hd) as [Habs|Hpage]; [done|].
      rewrite Hfile by lia. by rewrite decide_False.
    + intros q st Hq. destruct (decide (q = victim)) as [->|Hne].
      { by rewrite lookup_delete_eq in Hq. }
      rewrite lookup_delete_ne in Hq by done. by apply (inv_states _ _ _ Hinv).
    + intros p q fid Hp Hq.
      destruct (decide (p = victim)) as [->|Hnp]; [by rewrite lookup_delete_eq in Hp|].
      destruct (decide (q = victim)) as [->|Hnq]; [by rewrite lookup_delete_eq in Hq|].
      rewrite lookup_delete_ne in Hp, Hq by done. by apply (inv_inj _ _ _ Hinv _ _ fid).
    + intros fid Hin. apply list_elem_of_singleton in Hin as ->. split; [done|].
      intros q Hq. destruct (decide (q = victim)) as [->|Hne].
      { by rewrite lookup_delete_eq in Hq. }
      rewrite lookup_delete_ne in Hq by done.
      apply Hne. by apply (inv_inj _ _ _ Hinv _ _ vf).
    + apply NoDup_singleton.
    + intros fid Hfid. destruct (inv_cover _ _ _ Hinv fid Hfid) as [Hin|[q Hq]].
      { rewrite Hes in Hin. by apply elem_of_nil in Hin. }
      destruct (decide (q = victim)) as [->|Hne].
      * left. assert (fid = vf) as -> by congruence. by apply list_elem_of_singleton.
      * right. exists q. by rewrite lookup_delete_ne.
    + intros q [st Hq]. destruct (decide (q = victim)) as [->|Hne].
      { by rewrite lookup_delete_eq in Hq. }
      rewrite lookup_delete_ne in Hq by done. apply Hkeep; [done|].
      apply (inv_tracked _ _ _ Hinv). by rewrite Hq.
    + apply (inv_capacity _ _ _ Hinv).
  - intros k Hk. unfold view. rewrite Hfop, Hpool, Hfile by done.
    destruct (decide (k = victim)) as [->|Hne].
    + rewrite lookup_delete_eq. by rewrite Hvf, Hfr.
    + by rewrite lookup_delete_ne.
Qed.

(** The state after a page was loaded into a free frame. *)
Lemma inv_install (bm bm' : BufferManager) (pid : PageID) (exclusive : bool)
      (slot : nat) (rest : list nat) (fr' : BufferFrame) :
  inv good None bm → empty_slots_ bm = slot :: rest →
  frame_of_page_ bm !! pid = None →
  0 <= pid < num_pages (storage_manager_ bm) →
  fr' = {| page_id_ := pid; is_dirty_ := false;
           page := page_of_file (storage_manager_ bm) pid;
           mutex := if exclusive then LockedExclusive else LockedShared 1 |} →
  storage_manager_ bm' = storage_manager_ bm →
  buffer_pool_ bm' = <[slot := Some fr']> (buffer_pool_ bm) →
  policy_ bm' = snd (TwoQ.touch pid (policy_ bm)) →
  empty_slots_ bm' = rest →
  frame_of_page_ bm' = <[pid := slot]> (frame_of_page_ bm) →
  page_state_ bm'
    = <[pid := if exclusive then PAGE_EXCLUSIVE else 1]> (page_state_ bm) →
  inv good (Some (pid, exclusive)) bm' ∧
  (∀ k, view bm' k = view bm k) ∧
  holds bm' slot pid (view bm pid) ∧
  unmodified bm' slot pid ∧
  ((∀ e, e ∈ rest → buffer_pool_ bm !! e = Some None) → tidy bm').
Proof.
  intros Hinv Hes Hnone Hrange -> Hsm Hpool Hpol Hes' Hfop Hps.
  set (fr' := {| page_id_ := pid; is_dirty_ := false;
                 page := page_of_file (storage_manager_ bm) pid;
                 mutex := if exclusive then LockedExclusive else LockedShared 1 |}) in *.
  assert (Hslot : slot ∈ empty_slots_ bm) by (rewrite Hes; by left).
  destruct (inv_empty _ _ _ Hinv slot Hslot) as [Hlt Hfree].
  pose proof (inv_empty_nodup _ _ _ Hinv) as Hnd. rewrite Hes in Hnd.
  apply NoDup_cons in Hnd as [Hnotin Hnd].
  assert (Hother : ∀ q fid, q ≠ pid → frame_of_page_ bm !! q = Some fid → fid ≠ slot).
  { intros q fid Hne Hq ->. by apply (Hfree q). }
  split; [|split; [|split; [|split]]].
  - split; rewrite ?Hsm, ?Hpool, ?Hpol, ?Hes', ?Hfop, ?Hps, ?length_insert.
    + apply (inv_storage _ _ _ Hinv).
    + apply (inv_room _ _ _ Hinv).
    + apply (inv_file _ _ _ Hinv).
    + intros q. destruct (decide (q = pid)) as [->|Hne].
      * rewrite !lookup_insert_eq. split; by eauto.
      * rewrite !lookup_insert_ne by done. apply (inv_dom _ _ _ Hinv).
    + intros q fid Hq. destruct (decide (q = pid)) as [->|Hne].
      * rewrite lookup_insert_eq in Hq. injection Hq as <-.
        exists fr'. rewrite list_lookup_insert_eq by done.
        split; [done|]. split; [done|].
        split; [by apply (inv_file _ _ _ Hinv)|].
        split; [by rewrite latch_of_pinned|]. split; [done|]. intros _. by right.
      * rewrite lookup_insert_ne in Hq by done.
        destruct (inv_frames _ _ _ Hinv q fid Hq) as (frq & ? & ? & ? & Hm & ? & Hcq).
        exists frq. rewrite list_lookup_insert_ne by (apply not_eq_sym; by eapply Hother).
        split; [done|]. split; [done|]. split; [done|]. split.
        { rewrite Hm. unfold latch_of. rewrite decide_False; [done|]. by intros ->. }
        split; [done|]. intros Hd. right. by destruct (Hcq Hd).
    + intros q st. destruct (decide (q = pid)) as [->|Hne].
      * rewrite lookup_insert_eq. intros [= <-]. by rewrite state_of_pin_pinned.
      * rewrite lookup_insert_ne by done. intros Hq.
        rewrite (inv_states _ _ _ Hinv q st Hq). unfold state_of_pin.
        rewrite decide_False; [done|]. by intros ->.
    + intros p q fid. destruct (decide (p = pid)) as [->|Hnp];
        destruct (decide (q = pid)) as [->|Hnq]; try done.
      * rewrite lookup_insert_eq, lookup_insert_ne by done. intros [= <-] Hq.
        exfalso. by apply (Hfree q).
      * rewrite lookup_insert_eq, lookup_insert_ne by done. intros Hp [= <-].
        exfalso. by apply (Hfree p).
      * rewrite !lookup_insert_ne by done. apply (inv_inj _ _ _ Hinv).
    + intros fid Hin.
      destruct (inv_empty _ _ _ Hinv fid) as [Hlt' Hfree']; [rewrite Hes; by right|].
      split; [done|]. intros q. destruct (decide (q = pid)) as [->|Hne].
      * rewrite lookup_insert_eq. intros [= ->]. done.
      * rewrite lookup_insert_ne by done. apply Hfree'.
    + done.
    + intros fid Hfid. destruct (inv_cover _ _ _ Hinv fid Hfid) as [Hin|[q Hq]].
      * rewrite Hes in Hin. apply elem_of_cons in Hin as [->|Hin]; [|by left].
        right. exists pid. by rewrite lookup_insert_eq.
      * right. exists q. rewrite lookup_insert_ne; [done|]. intros ->. congruence.
    + intros q Hq. apply touch_keeps.
      destruct (decide (q = pid)) as [->|Hne]; [by left|right].
      rewrite lookup_insert_ne in Hq by done. by apply (inv_tracked _ _ _ Hinv).
    + apply (inv_capacity _ _ _ Hinv).
  - intros k. unfold view. rewrite Hfop, Hpool, Hsm.
    destruct (decide (k = pid)) as [->|Hne].
    + rewrite lookup_insert_eq, Hnone. by rewrite list_lookup_insert_eq.
    + rewrite lookup_insert_ne by done.
      destruct (frame_of_page_ bm !! k) as [fk|] eqn:Hk; [|done].
      rewrite list_lookup_insert_ne; [done|]. apply not_eq_sym. by eapply Hother.
  - split; [rewrite Hfop; by rewrite lookup_insert_eq|].
    exists fr'. rewrite Hpool, list_lookup_insert_eq by done.
    split; [done|]. split; [done|]. by rewrite (view_absent bm pid).
  - intros f Hf _. rewrite Hpool, list_lookup_insert_eq in Hf by done.
    injection Hf as <-. by rewrite Hsm.
  - intros Hnull e He. rewrite Hes' in He. rewrite Hpool.
    rewrite list_lookup_insert_ne; [by apply Hnull|]. by intros <-.
Qed.

(** [fix_page] of a page that is not resident when nothing is pinned: a
    frame is freed if need be, and the page is loaded into a free frame. *)
Lemma fix_page_miss (bm : BufferManager) (pid : PageID) (exclusive : bool) :
  inv good None bm → frame_of_page_ bm !! pid = None →
  0 <= pid < num_pages (storage_manager_ bm) →
  ∃ fid bm', fix_page pid exclusive bm = Returns (fid, bm') ∧
             inv good (Some (pid, exclusive)) bm' ∧
             num_pages (storage_manager_ bm') = num_pages (storage_manager_ bm) ∧
             (∀ k, 0 <= k → view bm' k = view bm k) ∧
             holds bm' fid pid (view bm pid) ∧
             unmodified bm' fid pid ∧ (tidy bm → tidy bm').
Proof.
  intros Hinv Hnone Hrange.
  assert (Hst : page_state_ bm !! pid = None).
  { destruct (page_state_ bm !! pid) eqn:Hs; [|done].
    destruct (proj1 (inv_dom _ _ _ Hinv pid)) as [fid Hfid]; [by rewrite Hs|].
    congruence. }
  unfold fix_page. unfold bind at 1. unfold get at 1. rewrite Hst.
  unfold load_page_locked. unfold bind at 1. unfold get at 1.
  lazymatch goal with
  | |- context [bind _ (fun _ => ?t) bm] => set (phase2 := t)
  end.
  (* the second half, from any state with a free frame *)
  assert (Htail : ∀ bm1 slot rest,
            inv good None bm1 → empty_slots_ bm1 = slot :: rest →
            frame_of_page_ bm1 !! pid = None →
            0 <= pid < num_pages (storage_manager_ bm1) →
            ∃ bm', phase2 bm1 = Returns (slot, bm') ∧
                   inv good (Some (pid, exclusive)) bm' ∧
                   storage_manager_ bm' = storage_manager_ bm1 ∧
                   (∀ k, view bm' k = view bm1 k) ∧
                   holds bm' slot pid (view bm1 pid) ∧
                   unmodified bm' slot pid ∧
                   ((∀ e, e ∈ rest → buffer_pool_ bm1 !! e = Some None) →
                    tidy bm')).
  { intros bm1 slot rest Hinv1 Hes1 Hnone1 Hrange1.
    destruct (inv_empty _ _ _ Hinv1 slot) as [Hlt _]; [rewrite Hes1; by left|].
    assert (Hleb : (Storage.getNumPages (storage_manager_ bm1) <=? pid) = false)
      by (apply Z.leb_gt; unfold Storage.getNumPages; lia).
    assert (Hload : Storage.load pid (storage_manager_ bm1)
                    = Returns (page_of_file (storage_manager_ bm1) pid)).
    { apply load_page_of_file; [apply (inv_storage _ _ _ Hinv1)|done]. }
    set (fr0 := {| page_id_ := pid; is_dirty_ := false;
                   page := page_of_file (storage_manager_ bm1) pid;
                   mutex := if exclusive then LockedExclusive else LockedShared 1 |}).
    set (bmF := with_policy (snd (TwoQ.touch pid (policy_ bm1)))
                  (with_frame_of_page (<[pid := slot]> (frame_of_page_ bm1))
                     (with_page_state
                        (<[pid := if exclusive then PAGE_EXCLUSIVE else 1]>
                           (page_state_ bm1))
                        (with_pool (<[slot := Some fr0]> (buffer_pool_ bm1))
                           (with_empty_slots rest bm1))))).
    exists bmF. split.
    - unfold phase2. unfold bind at 1. unfold get at 1. rewrite Hes1.
      unfold bind at 1. unfold put at 1.
      unfold bind at 1. unfold get at 1.
      cbn [storage_manager_ with_empty_slots]. rewrite Hleb.
      unfold bind at 1. unfold ret at 1.
      unfold bind at 1. unfold get at 1.
      cbn [storage_manager_ with_empty_slots]. rewrite Hload.
      unfold bind, store_frame, set_state, modify, touch, ret.
      cbn [buffer_pool_ with_empty_slots]. rewrite decide_True by done.
      reflexivity.
    - destruct (inv_install bm1 bmF pid exclusive slot rest fr0 Hinv1 Hes1 Hnone1
                  Hrange1 eq_refl eq_refl eq_refl eq_refl eq_refl eq_refl eq_refl)
        as (Hinv' & Hview' & Hholds' & Hunm' & Htidy').
      split; [exact Hinv'|]. split; [reflexivity|]. split; [exact Hview'|].
      split; [exact Hholds'|]. split; [exact Hunm'|exact Htidy']. }
  destruct (empty_slots_ bm) as [|slot rest] eqn:Hes.
  - (* no free frame: evict *)
    destruct (inv_evictable bm Hinv Hes) as (victim & pol' & Hev).
    destruct (evict_returns _ _ _ _ Hev) as [Hvst _].
    destruct (proj1 (inv_dom _ _ _ Hinv victim)) as [vf Hvf]; [by rewrite Hvst|].
    destruct (inv_resident _ _ _ _ Hinv Hvf) as (fr & Hfr & _).
    set (bm1 := with_empty_slots [vf]
                  (with_frame_of_page (delete victim (frame_of_page_ bm))
                     (with_page_state (delete victim (page_state_ bm))
                        (with_storage
                           (if is_dirty_ fr
                            then flush victim (page fr) (storage_manager_ bm)
                            else storage_manager_ bm)
                           (with_policy pol' bm))))).
    destruct (inv_evict bm bm1 victim pol' vf fr Hinv Hes Hev Hvf Hfr)
      as (Hinv1 & Hnum1 & Hview1); try reflexivity.
    assert (Hpv : pid ≠ victim) by (intros ->; congruence).
    destruct (Htail bm1 vf [] Hinv1 eq_refl)
      as (bm' & Hrun' & Hinv' & Hsm' & Hview' & Hholds' & Hunm' & Htidy').
    { unfold bm1. simpl. by rewrite lookup_delete_ne. }
    { by rewrite Hnum1. }
    exists vf, bm'. split.
    + assert (Hphase1 :
        (let* victim_page := evict in
         let* victim_frame := frame_of victim_page in
         let* frame := deref victim_frame in
         (if is_dirty_ frame
          then modify (fun bm => with_storage
                                   (flush victim_page (page frame)
                                          (storage_manager_ bm)) bm)
          else ret tt);;;
         modify (fun bm => with_page_state (delete victim_page (page_state_ bm)) bm);;;
         modify (fun bm => with_frame_of_page
                             (delete victim_page (frame_of_page_ bm)) bm);;;
         modify (fun bm => with_empty_slots (victim_frame :: empty_slots_ bm) bm)) bm
        = Returns (tt, bm1)).
      { unfold bind at 1. unfold evict at 1. rewrite Hev.
        unfold bind at 1. unfold frame_of at 1.
        cbn [frame_of_page_ with_policy]. rewrite Hvf.
        unfold bind at 1. unfold deref at 1.
        cbn [buffer_pool_ with_policy]. rewrite Hfr.
        unfold bm1. destruct (is_dirty_ fr);
          unfold bind, modify, ret; cbn; rewrite Hes; reflexivity. }
      rewrite (bind_returns _ _ _ _ _ Hphase1). exact Hrun'.
    + split; [exact Hinv'|]. split; [by rewrite Hsm'|].
      split; [intros k Hk; by rewrite Hview', Hview1|].
      split; [rewrite <- (Hview1 pid) by lia; exact Hholds'|].
      split; [exact Hunm'|]. intros _. apply Htidy'.
      intros e He. by apply elem_of_nil in He.
  - destruct (Htail bm slot rest Hinv Hes Hnone Hrange)
      as (bm' & Hrun' & Hinv' & Hsm' & Hview' & Hholds' & Hunm' & Htidy').
    exists slot, bm'. split.
    + unfold bind at 1. unfold ret at 1. exact Hrun'.
    + split; [exact Hinv'|]. split; [by rewrite Hsm'|].
      split; [intros k _; apply Hview'|].
      split; [exact Hholds'|]. split; [exact Hunm'|]. intros Htidy.
      apply Htidy'. intros e He. apply Htidy. rewrite Hes. by right.
Qed.

(** [fix_page] when nothing is pinned. *)
Lemma fix_page_ok (bm : BufferManager) (pid : PageID) (exclusive : bool) :
  inv good None bm → 0 <= pid < num_pages (storage_manager_ bm) →
  ∃ fid bm', fix_page pid exclusive bm = Returns (fid, bm') ∧
             inv good (Some (pid, exclusive)) bm' ∧
             num_pages (storage_manager_ bm') = num_pages (storage_manager_ bm) ∧
             (∀ k, 0 <= k → view bm' k = view bm k) ∧
             holds bm' fid pid (view bm pid) ∧
             unmodified bm' fid pid ∧ (tidy bm → tidy bm').
Proof.
  intros Hinv Hrange.
  destruct (frame_of_page_ bm !! pid) as [fid|] eqn:Hfid.
  - destruct (fix_page_hit bm pid exclusive fid Hinv Hfid)
      as (bm' & Hrun & Hinv' & Hsm & Hview & Hholds & Hunm & Htidy).
    exists fid, bm'. split; [done|]. split; [done|]. split; [by rewrite Hsm|].
    split; [by intros k _|]. split; [done|]. split; [done|done].
  - by apply fix_page_miss.
Qed.

(** A freshly constructed buffer manager satisfies the invariant. *)
Lemma new_inv (capacity : Z) (sm : StorageManager) :
  Storage.wf sm → num_pages sm + 1 < UINT64_MOD →
  (∀ k, 0 <= k < num_pages sm → good (page_of_file sm k)) →
  0 < capacity → inv good None (Buffer.new capacity sm).
Proof.
  intros Hwf Hroom Hfile Hcap. split; simpl; try done.
  - intros pid. by rewrite !lookup_empty.
  - intros fid Hin. rewrite length_replicate. split; [|done].
    rewrite list_elem_of_In, <- in_rev, <- list_elem_of_In in Hin.
    apply elem_of_seq in Hin. lia.
  - apply NoDup_ListNoDup, List.NoDup_rev, List.seq_NoDup.
  - intros fid Hfid. rewrite length_replicate in Hfid. left.
    rewrite list_elem_of_In, <- in_rev, <- list_elem_of_In.
    apply elem_of_seq. lia.
  - intros pid [st Hst]. by rewrite lookup_empty in Hst.
  - rewrite length_replicate. lia.
Qed.

(** The holder of an exclusive pin overwrites the page of its frame. *)
Lemma inv_write (bm : BufferManager) (pid : PageID) (fid : nat)
      (p' : SlottedPage) :
  inv good (Some (pid, true)) bm → frame_of_page_ bm !! pid = Some fid →
  good p' →
  ∃ bm', write_frame fid p' bm = Returns (tt, bm') ∧
         inv good (Some (pid, true)) bm' ∧
         storage_manager_ bm' = storage_manager_ bm ∧
         frame_of_page_ bm' = frame_of_page_ bm ∧
         view bm' pid = p' ∧
         (∀ k, k ≠ pid → view bm' k = view bm k) ∧
         (tidy bm → tidy bm') ∧
         (∀ fr', buffer_pool_ bm' !! fid = Some (Some fr') →
                 ∃ fr, buffer_pool_ bm !! fid = Some (Some fr) ∧
                       is_dirty_ fr' = is_dirty_ fr).
Proof.
  intros Hinv Hfid Hgood'.
  destruct (inv_resident _ _ _ _ Hinv Hfid)
    as (fr & Hfr & Hid & Hgood & Hmutex & Hst & Hlt & Hrange & Hcoh).
  set (fr' := set_page p' fr).
  set (bm' := with_pool (<[fid := Some fr']> (buffer_pool_ bm)) bm).
  assert (Hrun : write_frame fid p' bm = Returns (tt, bm')).
  { unfold write_frame. rewrite (bind_returns _ _ _ _ _ (deref_run _ _ _ Hfr)).
    by apply store_frame_run. }
  assert (Hfr' : buffer_pool_ bm' !! fid = Some (Some fr')).
  { unfold bm'. simpl. by rewrite list_lookup_insert_eq. }
  exists bm'. split; [done|].
  split; [|split; [done|split; [done|split; [|split; [|split]]]]].
  - assert (Hps : page_state_ bm'
                  = <[pid := state_of_pin (Some (pid, true)) pid]> (page_state_ bm)).
    { unfold bm'. simpl. symmetry. by apply insert_id. }
    assert (Hpol : ∀ q, q ∈ TwoQ.fifo_queue_ (policy_ bm) ++ TwoQ.lru_queue_ (policy_ bm) →
              q ∈ TwoQ.fifo_queue_ (policy_ bm') ++ TwoQ.lru_queue_ (policy_ bm'))
      by (by intros q Hq).
    assert (Hcoh' : is_dirty_ fr' = false →
              Some (pid, true) = Some (pid, true) ∨
              page fr' = page_of_file (storage_manager_ bm) pid)
      by (intros _; by left).
    exact (inv_update_frame (Some (pid, true)) (Some (pid, true)) bm bm' fid pid fr'
             Hinv (or_intror (ex_intro _ true eq_refl))
             (or_intror (ex_intro _ true eq_refl)) Hfid
             eq_refl eq_refl Hps eq_refl eq_refl Hpol Hid Hgood' Hmutex Hcoh').
  - by rewrite (view_resident bm' pid fid fr').
  - intros k Hne. unfold view, bm'. simpl.
    destruct (frame_of_page_ bm !! k) as [fk|] eqn:Hk; [|done].
    rewrite list_lookup_insert_ne; [done|].
    intros <-. apply Hne. by apply (inv_inj _ _ _ Hinv _ _ fid).
  - intros Htidy e He. unfold bm' in *. simpl in *.
    rewrite list_lookup_insert_ne; [by apply Htidy|].
    intros <-. by apply (proj2 (inv_empty _ _ _ Hinv fid He) pid).
  - intros f Hf. rewrite Hfr' in Hf. injection Hf as <-. by exists fr.
Qed.

(** The page of a resident frame is written to the file. *)
Lemma inv_flush (pinned : option (PageID * bool)) (bm : BufferManager)
      (pid : PageID) (fid : nat) (fr : BufferFrame) :
  inv good pinned bm → frame_of_page_ bm !! pid = Some fid →
  buffer_pool_ bm !! fid = Some (Some fr) →
  inv good pinned
      (with_storage (flush pid (page fr) (storage_manager_ bm)) bm) ∧
  page_of_file (flush pid (page fr) (storage_manager_ bm)) pid = page fr ∧
  (∀ k, 0 <= k → k ≠ pid →
        page_of_file (flush pid (page fr) (storage_manager_ bm)) k
        = page_of_file (storage_manager_ bm) k).
Proof.
  intros Hinv Hfid Hfr.
  destruct (inv_resident _ _ _ _ Hinv Hfid)
    as (fr0 & Hfr0 & Hid & Hgood & Hmutex & Hst & Hlt & Hrange & Hcoh).
  assert (fr0 = fr) as -> by congruence.
  destruct (flush_pages _ pid (page fr) (inv_storage _ _ _ Hinv) Hrange
              (good_whole _ Hgood)) as (Hwf' & Hn' & Hsame' & Hother').
  split; [|split; [done|done]].
  split; simpl; rewrite ?Hn'.
  - exact Hwf'.
  - apply (inv_room _ _ _ Hinv).
  - intros k Hk. destruct (decide (k = pid)) as [->|Hne].
    + by rewrite Hsame'.
    + rewrite Hother' by (done || lia). by apply (inv_file _ _ _ Hinv).
  - apply (inv_dom _ _ _ Hinv).
  - intros q fq Hq.
    destruct (inv_frames _ _ _ Hinv q fq Hq) as (frq & Hfq & ? & ? & ? & Hr & Hcq).
    exists frq. do 5 (split; [done|]). intros Hd.
    destruct (decide (q = pid)) as [->|Hne].
    + right. assert (fq = fid) as -> by congruence.
      assert (frq = fr) as -> by congruence. by rewrite Hsame'.
    + destruct (Hcq Hd) as [Hpin|Hpage]; [by left|right].
      rewrite Hother' by (done || lia). done.
  - apply (inv_states _ _ _ Hinv).
  - apply (inv_inj _ _ _ Hinv).
  - apply (inv_empty _ _ _ Hinv).
  - apply (inv_empty_nodup _ _ _ Hinv).
  - apply (inv_cover _ _ _ Hinv).
  - apply (inv_tracked _ _ _ Hinv).
  - apply (inv_capacity _ _ _ Hinv).
Qed.

(** One round of the destructor's loop. *)
Lemma flush_frame_ok (bm : BufferManager) (fid : nat) :
  inv good None bm → tidy bm → (fid < List.length (buffer_pool_ bm))%nat →
  ∃ bm', (let* b := get in
          match buffer_pool_ b !! fid with
          | Some (Some _) => flush_frame fid
          | Some None => ret tt
          | None => fun _ => Undefined
          end) bm = Returns (tt, bm') ∧
         inv good None bm' ∧ tidy bm' ∧
         num_pages (storage_manager_ bm') = num_pages (storage_manager_ bm) ∧
         List.length (buffer_pool_ bm') = List.length (buffer_pool_ bm) ∧
         (∀ k, 0 <= k → view bm' k = view bm k) ∧
         (∀ j fr', buffer_pool_ bm' !! j = Some (Some fr') →
                   is_dirty_ fr' = false ∨
                   (j ≠ fid ∧ buffer_pool_ bm !! j = Some (Some fr'))).
Proof.
  intros Hinv Htidy Hlt. unfold bind at 1. unfold get at 1.
  destruct (inv_cover _ _ _ Hinv fid Hlt) as [Hin|[pid Hfid]].
  { rewrite (Htidy fid Hin). exists bm. do 6 (split; [done|]).
    intros j fr' Hj. right. split; [|done]. intros ->.
    rewrite (Htidy fid Hin) in Hj. done. }
  destruct (inv_resident _ _ _ _ Hinv Hfid)
    as (fr & Hfr & Hid & Hgood & Hmutex & Hst & _ & Hrange & Hcoh).
  rewrite Hfr. unfold flush_frame. rewrite Hfr.
  destruct (is_dirty_ fr) eqn:Hd.
  - rewrite Hid.
    destruct (inv_flush None bm pid fid fr Hinv Hfid Hfr) as (HinvS & Hsame & Hother).
    set (bmS := with_storage (flush pid (page fr) (storage_manager_ bm)) bm) in *.
    set (bm' := with_pool (<[fid := Some (clear_dirty fr)]> (buffer_pool_ bm)) bmS).
    exists bm'. split; [done|].
    assert (Hinv' : inv good None bm').
    { assert (Hps : page_state_ bm'
                    = <[pid := state_of_pin None pid]> (page_state_ bmS)).
      { unfold bm', bmS. simpl. symmetry. by apply insert_id. }
      assert (Hpol : ∀ q, q ∈ TwoQ.fifo_queue_ (policy_ bmS) ++ TwoQ.lru_queue_ (policy_ bmS) →
                q ∈ TwoQ.fifo_queue_ (policy_ bm') ++ TwoQ.lru_queue_ (policy_ bm'))
        by (by intros q Hq).
      assert (Hcoh' : is_dirty_ (clear_dirty fr) = false →
                None = Some (pid, true) ∨
                page (clear_dirty fr) = page_of_file (storage_manager_ bmS) pid).
      { intros _. right. unfold bmS. simpl. by rewrite Hsame. }
      exact (inv_update_frame None None bmS bm' fid pid (clear_dirty fr)
               HinvS (or_introl eq_refl) (or_introl eq_refl) Hfid
               eq_refl eq_refl Hps eq_refl eq_refl Hpol Hid Hgood Hmutex Hcoh'). }
    split; [done|]. split; [|split; [|split; [|split]]].
    + intros e He. unfold bm', bmS in *. simpl in *.
      rewrite list_lookup_insert_ne; [by apply Htidy|].
      intros <-. by apply (proj2 (inv_empty _ _ _ Hinv fid He) pid).
    + unfold bm', bmS. simpl.
      by destruct (flush_pages _ pid (page fr) (inv_storage _ _ _ Hinv) Hrange
                     (good_whole _ Hgood)) as (_ & Hn' & _).
    + unfold bm'. simpl. by rewrite length_insert.
    + intros k Hk. unfold view, bm', bmS. simpl.
      destruct (frame_of_page_ bm !! k) as [fk|] eqn:Hfk.
      * destruct (decide (fk = fid)) as [->|Hne].
        -- rewrite list_lookup_insert_eq by (by eapply lookup_lt_Some).
           by rewrite Hfr.
        -- rewrite list_lookup_insert_ne by done.
           destruct (inv_frames _ _ _ Hinv k fk Hfk) as (frk & -> & _). done.
      * apply Hother; [done|]. intros ->. by rewrite Hfid in Hfk.
    + intros j fr' Hj. unfold bm' in Hj. simpl in Hj.
      destruct (decide (j = fid)) as [->|Hne].
      * rewrite list_lookup_insert_eq in Hj by (by eapply lookup_lt_Some).
        injection Hj as <-. by left.
      * rewrite list_lookup_insert_ne in Hj by done. right. done.
  - exists bm. do 6 (split; [done|]).
    intros j fr' Hj. destruct (decide (j = fid)) as [->|Hne].
    + left. rewrite Hfr in Hj. by injection Hj as <-.
    + by right.
Qed.

(** The destructor's loop from frame [i] on. *)
Lemma flush_frames_ok (steps : nat) :
  ∀ (i : nat) (bm : BufferManager),
    inv good None bm → tidy bm →
    (i + steps)%nat = List.length (buffer_pool_ bm) →
    (∀ j fr, (j < i)%nat → buffer_pool_ bm !! j = Some (Some fr) →
             is_dirty_ fr = false) →
    ∃ bm', flush_frames i steps bm = Returns (tt, bm') ∧
           inv good None bm' ∧ tidy bm' ∧
           num_pages (storage_manager_ bm') = num_pages (storage_manager_ bm) ∧
           (∀ k, 0 <= k → view bm' k = view bm k) ∧
           all_clean bm'.
Proof.
  induction steps as [|steps IH]; intros i bm Hinv Htidy Hlen Hclean.
  - exists bm. do 4 (split; [done|]). split; [done|].
    intros j fr Hj. apply (Hclean j fr); [|done].
    apply lookup_lt_Some in Hj. lia.
  - destruct (flush_frame_ok bm i Hinv Htidy ltac:(lia))
      as (bm1 & Hrun1 & Hinv1 & Htidy1 & Hn1 & Hlen1 & Hview1 & Hd1).
    destruct (IH (S i) bm1 Hinv1 Htidy1 ltac:(lia)) as
      (bm' & Hrun' & Hinv' & Htidy' & Hn' & Hview' & Hclean').
    { intros j fr' Hji Hj. destruct (Hd1 j fr' Hj) as [Hd|[Hne Hj0]]; [done|].
      apply (Hclean j fr'); [lia|done]. }
    exists bm'. split.
    { change (flush_frames i (S steps))
        with (bind (let* b := get in
                    match buffer_pool_ b !! i with
                    | Some (Some _) => flush_frame i
                    | Some None => ret tt
                    | None => fun _ => Undefined
                    end) (fun _ => flush_frames (S i) steps)).
      by rewrite (bind_returns _ _ _ _ _ Hrun1). }
    split; [done|]. split; [done|]. split; [by rewrite Hn', Hn1|].
    split; [|done]. intros k Hk. by rewrite Hview', Hview1.
Qed.

(** A run of accesses that modify nothing. *)
Lemma visit_ok (accesses : list (PageID * bool)) :
  ∀ bm, inv good None bm →
        Forall (fun a => 0 <= a.1 < num_pages (storage_manager_ bm)) accesses →
        ∃ bm', visit accesses bm = Returns (tt, bm') ∧ inv good None bm' ∧
               num_pages (storage_manager_ bm') = num_pages (storage_manager_ bm) ∧
               (∀ k, 0 <= k → view bm' k = view bm k) ∧
               (tidy bm → tidy bm').
Proof.
  induction accesses as [|[pid exclusive] rest IH]; intros bm Hinv Hall.
  - by exists bm.
  - apply Forall_cons in Hall as [Hpid Hrest]. simpl in Hpid.
    destruct (fix_page_ok bm pid exclusive Hinv Hpid)
      as (fid & bm1 & Hrun1 & Hinv1 & Hn1 & Hview1 & [Hfid1 _] & Hunm1 & Htidy1).
    destruct (unfix_page_ok bm1 pid exclusive fid false Hinv1 Hfid1)
      as (bm2 & Hrun2 & Hinv2 & Hsm2 & _ & Hview2 & Htidy2); [by intros _ _|].
    destruct (IH bm2 Hinv2) as (bm' & Hrun' & Hinv' & Hn' & Hview' & Htidy').
    { rewrite Hsm2, Hn1. exact Hrest. }
    exists bm'. split.
    { simpl. rewrite (bind_returns _ _ _ _ _ Hrun1).
      by rewrite (bind_returns _ _ _ _ _ Hrun2). }
    split; [done|]. split; [by rewrite Hn', Hsm2, Hn1|].
    split; [intros k Hk; by rewrite Hview', Hview2, Hview1|].
    intros Htidy. by apply Htidy', Htidy2, Htidy1.
Qed.

Lemma new_tidy (capacity : Z) (sm : StorageManager) :
  tidy (Buffer.new capacity sm).
Proof.
  intros fid Hin. simpl in *.
  rewrite list_elem_of_In, <- in_rev, <- list_elem_of_In in Hin.
  apply elem_of_seq in Hin. apply lookup_replicate_2. lia.
Qed.

(** After the destructor's loop the file holds what the clients saw. *)
Lemma destroy_ok (bm : BufferManager) :
  inv good None bm → tidy bm →
  ∃ bm', destroy bm = Returns (tt, bm') ∧
         num_pages (storage_manager_ bm') = num_pages (storage_manager_ bm) ∧
         all_clean bm' ∧
         ∀ k, 0 <= k < num_pages (storage_manager_ bm) →
              page_of_file (storage_manager_ bm') k = view bm k.
Proof.
  intros Hinv Htidy.
  destruct (flush_frames_ok (List.length (buffer_pool_ bm)) 0%nat bm Hinv Htidy
              eq_refl) as (bm' & Hrun & Hinv' & _ & Hn & Hview & Hclean).
  { intros j fr Hj. lia. }
  exists bm'. split; [done|]. split; [done|]. split; [done|].
  intros k Hk. rewrite <- Hview by lia. unfold view.
  destruct (frame_of_page_ bm' !! k) as [fid|] eqn:Hfid; [|done].
  destruct (inv_frames _ _ _ Hinv' k fid Hfid) as (fr & Hfr & _ & _ & _ & _ & Hcoh).
  rewrite Hfr. destruct (Hcoh (Hclean fid fr Hfr)) as [Habs|Hpage]; [done|].
  by rewrite Hpage.
Qed.

(** X22: between two calls of a thread that holds no pin, [fix_page] of a
    page of the file returns a frame that holds what the page's last holder
    left in it: the frame's page when the page is resident, the page loaded
    from the file otherwise, after the eviction of an unfixed page (written
    back when it is dirty) when no frame is free.  The page is pinned in
    the requested mode, a frame that is not marked dirty holds what the
    file holds, and neither the number of pages nor the contents of any
    page have changed. *)
Theorem X22_fix_page (bm : BufferManager) (page_id : PageID) (exclusive : bool)
    (Hinv : inv good None bm)
    (Hid : 0 <= page_id < Storage.getNumPages (storage_manager_ bm)) :
  ∃ frame bm',
    fix_page page_id exclusive bm = Returns (frame, bm') ∧
    inv good (Some (page_id, exclusive)) bm' ∧
    holds bm' frame page_id (view bm page_id) ∧
    unmodified bm' frame page_id ∧
    Storage.getNumPages (storage_manager_ bm')
    = Storage.getNumPages (storage_manager_ bm) ∧
    (∀ k, 0 <= k → view bm' k = view bm k) ∧
    (tidy bm → tidy bm').
Proof.
  destruct (fix_page_ok bm page_id exclusive Hinv Hid)
    as (fid & bm' & Hrun & Hinv' & Hn & Hview & Hholds & Hunm & Htidy).
  exists fid, bm'. split; [done|]. split; [done|]. split; [done|].
  split; [done|]. split; [done|]. split; [done|done].
Qed.

(** X23: [unfix_page] on the frame of the pinned page returns and releases
    the pin; the contents of every page are as the holder left them, and
    the file is not written.  The invariant is kept when a page that was
    written to under an exclusive pin is unfixed as dirty. *)
Theorem X23_unfix_page (bm : BufferManager) (page_id : PageID)
    (exclusive : bool) (frame : nat) (is_dirty : bool)
    (Hinv : inv good (Some (page_id, exclusive)) bm)
    (Hframe : frame_of_page_ bm !! page_id = Some frame)
    (Hdirty : exclusive = true → is_dirty = false →
              unmodified bm frame page_id) :
  ∃ bm',
    unfix_page frame is_dirty bm = Returns (tt, bm') ∧
    inv good None bm' ∧
    storage_manager_ bm' = storage_manager_ bm ∧
    (∀ k, view bm' k = view bm k) ∧
    (tidy bm → tidy bm').
Proof.
  destruct (unfix_page_ok bm page_id exclusive frame is_dirty Hinv Hframe Hdirty)
    as (bm' & Hrun & Hinv' & Hsm & _ & Hview & Htidy).
  exists bm'. split; [done|]. split; [done|]. split; [done|]. split; [done|done].
Qed.


(** X25: the destructor returns; afterwards no frame is dirty and every
    page of the file holds what the clients of the buffer manager saw
    last. *)
Theorem X25_destructor_flushes (bm : BufferManager)
    (Hinv : inv good None bm) (Htidy : tidy bm) :
  ∃ bm',
    destroy bm = Returns (tt, bm') ∧ all_clean bm' ∧
    Storage.getNumPages (storage_manager_ bm')
    = Storage.getNumPages (storage_manager_ bm) ∧
    ∀ k, 0 <= k < Storage.getNumPages (storage_manager_ bm) →
         page_of_file (storage_manager_ bm') k = view bm k.
Proof.
  destruct (destroy_ok bm Hinv Htidy) as (bm' & Hrun & Hn & Hclean & Hfile).
  by exists bm'.
Qed.

(** X26: a page that was overwritten under an exclusive pin and unfixed as
    dirty is not lost: after any run of accesses to other or the same
    pages, whatever they evict, [fix_page] returns a frame with the written
    contents, the other pages are as before, and the destructor leaves the
    written contents in the file. *)
Theorem X26_written_page_persists (bm : BufferManager) (page_id : PageID)
    (p : SlottedPage) (accesses : list (PageID * bool))
    (Hinv : inv good None bm) (Htidy : tidy bm)
    (Hid : 0 <= page_id < Storage.getNumPages (storage_manager_ bm))
    (Hp : good p)
    (Hall : Forall (fun a => 0 <= a.1 < Storage.getNumPages (storage_manager_ bm))
                   accesses) :
  ∃ bm1,
    (let* frame := fix_page page_id true in
     write_frame frame p;;;
     unfix_page frame true;;;
     visit accesses) bm = Returns (tt, bm1) ∧
    (∀ k, 0 <= k → k ≠ page_id → view bm1 k = view bm k) ∧
    (∃ frame bm2, fix_page page_id false bm1 = Returns (frame, bm2) ∧
                  holds bm2 frame page_id p) ∧
    (∃ bm3, destroy bm1 = Returns (tt, bm3) ∧
            page_of_file (storage_manager_ bm3) page_id = p).
Proof.
  unfold getNumPages in *.
  destruct (fix_page_ok bm page_id true Hinv Hid)
    as (fid & bmA & HrunA & HinvA & HnA & HviewA & [HfidA _] & _ & HtidyA).
  destruct (inv_write bmA page_id fid p HinvA HfidA Hp)
    as (bmB & HrunB & HinvB & HsmB & HfopB & HviewB & HotherB & HtidyB & _).
  destruct (unfix_page_ok bmB page_id true fid true HinvB)
    as (bmC & HrunC & HinvC & HsmC & _ & HviewC & HtidyC);
    [by rewrite HfopB|by intros _ ?|].
  assert (HnC : num_pages (storage_manager_ bmC) = num_pages (storage_manager_ bm))
    by (by rewrite HsmC, HsmB, HnA).
  destruct (visit_ok accesses bmC HinvC) as (bm1 & Hrun1 & Hinv1 & Hn1 & Hview1 & Htidy1);
    [by rewrite HnC|].
  assert (Hn1' : num_pages (storage_manager_ bm1) = num_pages (storage_manager_ bm))
    by (by rewrite Hn1, HnC).
  assert (Hmine : view bm1 page_id = p).
  { rewrite Hview1 by lia. by rewrite HviewC. }
  exists bm1. split; [|split; [|split]].
  - rewrite (bind_returns _ _ _ _ _ HrunA).
    rewrite (bind_returns _ _ _ _ _ HrunB).
    by rewrite (bind_returns _ _ _ _ _ HrunC).
  - intros k Hk Hne. rewrite Hview1, HviewC, HotherB by done. by apply HviewA.
  - destruct (fix_page_ok bm1 page_id false Hinv1)
      as (frame & bm2 & Hrun2 & _ & _ & _ & Hholds2 & _); [by rewrite Hn1'|].
    exists frame, bm2. split; [done|]. by rewrite <- Hmine.
  - destruct (destroy_ok bm1 Hinv1) as (bm3 & Hrun3 & _ & _ & Hfile3).
    { by apply Htidy1, HtidyC, HtidyB, HtidyA. }
    exists bm3. split; [done|]. rewrite Hfile3 by (by rewrite Hn1'). done.
Qed.

(** X27: [fix_page] on a resident page that is pinned: when the pin or the
    request is exclusive, the attempt to take the latch fails in every
    round of the loop, so the call does not return while the pin is held;
    a shared request on a page pinned in shared mode returns the same
    frame, and the page's state counts two holders. *)
Theorem X27_fix_page_pinned (bm : BufferManager) (page_id : PageID)
    (held exclusive : bool) (frame : nat)
    (Hinv : inv good (Some (page_id, held)) bm)
    (Hframe : frame_of_page_ bm !! page_id = Some frame) :
  if held || exclusive
  then fix_page page_id exclusive bm = Spins
  else ∃ bm', fix_page page_id exclusive bm = Returns (frame, bm') ∧
              page_state_ bm' !! page_id = Some 2.
Proof.
  destruct (inv_resident _ _ _ _ Hinv Hframe)
    as (fr & Hfr & Hid & Hgood & Hmutex & Hst & Hlt & Hrange & Hcoh).
  rewrite latch_of_pinned in Hmutex. rewrite state_of_pin_pinned in Hst.
  destruct (held || exclusive) eqn:Hmode.
  - unfold fix_page. unfold bind at 1. unfold get at 1. rewrite Hst.
    rewrite (bind_returns _ _ _ _ _ (frame_of_run _ _ _ Hframe)).
    rewrite (bind_returns _ _ _ _ _ (deref_run _ _ _ Hfr)).
    rewrite Hmutex. by destruct held, exclusive.
  - apply orb_false_iff in Hmode as [-> ->]. eexists. split.
    + unfold fix_page. unfold bind at 1. unfold get at 1. rewrite Hst.
      rewrite (bind_returns _ _ _ _ _ (frame_of_run _ _ _ Hframe)).
      rewrite (bind_returns _ _ _ _ _ (deref_run _ _ _ Hfr)).
      rewrite Hmutex.
      rewrite (bind_returns _ _ _ _ _ (store_frame_run _ _ _ Hlt)).
      rewrite (bind_returns _ _ _ _ _
                 (state_of_run (with_pool _ bm) page_id 1 Hst)).
      reflexivity.
    + simpl. by rewrite lookup_insert_eq.
Qed.

(** X28: [unfix_page] on the frame of a resident page that is not pinned
    throws [std::runtime_error]. *)
Theorem X28_unfix_page_unfixed (bm : BufferManager) (page_id : PageID)
    (frame : nat) (is_dirty : bool)
    (Hinv : inv good None bm)
    (Hframe : frame_of_page_ bm !! page_id = Some frame) :
  unfix_page frame is_dirty bm = Throws std_runtime_error.
Proof.
  destruct (inv_resident _ _ _ _ Hinv Hframe)
    as (fr & Hfr & Hid & Hgood & Hmutex & Hst & Hlt & Hrange & Hcoh).
  change (state_of_pin None page_id) with PAGE_UNFIXED in Hst.
  unfold unfix_page. rewrite (bind_returns _ _ _ _ _ (deref_run _ _ _ Hfr)).
  destruct is_dirty.
  - rewrite (bind_returns _ _ _ _ _ (store_frame_run _ _ _ Hlt)).
    set (bm1 := with_pool (<[frame := Some (set_dirty fr)]> (buffer_pool_ bm)) bm).
    assert (Hfr1 : buffer_pool_ bm1 !! frame = Some (Some (set_dirty fr)))
      by (unfold bm1; simpl; by rewrite list_lookup_insert_eq).
    rewrite (bind_returns _ _ _ _ _ (deref_run _ _ _ Hfr1)).
    cbv zeta. change (page_id_ (set_dirty fr)) with (page_id_ fr). rewrite Hid.
    rewrite (bind_returns _ _ _ _ _ (state_of_run bm1 page_id _ Hst)).
    reflexivity.
  - unfold bind at 1. unfold ret at 1.
    rewrite (bind_returns _ _ _ _ _ (deref_run _ _ _ Hfr)).
    cbv zeta. rewrite Hid.
    rewrite (bind_returns _ _ _ _ _ (state_of_run bm page_id _ Hst)).
    reflexivity.
Qed.

End Buffer_facts.

(** ** The buffer manager on a fresh file *)
Section Buffer_fresh.
Import Page Storage Buffer BufferEnd BufferSpec.

Lemma open_fresh_wf : Storage.wf (open true []).
Proof.
  destruct (extend_pages StorageSpec.empty_file) as (Hwf & _);
    [by split|reflexivity|]. exact Hwf.
Qed.

Lemma open_fresh_pages : num_pages (open true []) = 1.
Proof. reflexivity. Qed.

Ltac fresh_range :=
  change (0 <= 0 < num_pages (open true []));
  rewrite open_fresh_pages; lia.

Lemma whole_page_of_file (sm : StorageManager) (k : Z) :
  Storage.wf sm → 0 <= k < num_pages sm → whole_page (page_of_file sm k).
Proof. intros Hwf Hk. by apply page_of_file_length. Qed.

Lemma fresh_manager_inv (capacity : Z) :
  0 < capacity →
  inv whole_page None (Buffer.new capacity (open true [])).
Proof.
  intros Hcap. apply new_inv; [exact open_fresh_wf|reflexivity| |exact Hcap].
  intros k Hk. apply whole_page_of_file; [exact open_fresh_wf|exact Hk].
Qed.

(** A fresh manager after its first [fix_page]. *)
Lemma fresh_manager_pinned (capacity : Z) (exclusive : bool) :
  0 < capacity →
  ∃ frame bm,
    fix_page 0 exclusive (Buffer.new capacity (open true [])) = Returns (frame, bm) ∧
    inv whole_page (Some (0, exclusive)) bm ∧
    frame_of_page_ bm !! 0 = Some frame ∧ unmodified bm frame 0.
Proof.
  intros Hcap.
  destruct (fix_page_ok whole_page (fun _ H => H)
              (Buffer.new capacity (open true [])) 0 exclusive
              (fresh_manager_inv capacity Hcap))
    as (frame & bm & Hrun & Hinv & _ & _ & [Hframe _] & Hunm & _).
  { fresh_range. }
  by exists frame, bm.
Qed.

Lemma X22_fix_page_witness :
  inv whole_page None (Buffer.new 2 (open true [])) ∧
  ∃ frame bm',
    fix_page 0 true (Buffer.new 2 (open true [])) = Returns (frame, bm') ∧
    holds bm' frame 0 (view (Buffer.new 2 (open true [])) 0).
Proof.
  split; [apply fresh_manager_inv; lia|].
  destruct (X22_fix_page whole_page (fun _ H => H)
              (Buffer.new 2 (open true [])) 0 true
              (fresh_manager_inv 2 ltac:(lia)))
    as (frame & bm' & Hrun & _ & Hholds & _).
  { fresh_range. }
  exists frame, bm'. split; [exact Hrun|exact Hholds].
Defined.

Lemma X23_unfix_page_witness :
  ∃ frame bm bm',
    fix_page 0 true (Buffer.new 2 (open true [])) = Returns (frame, bm) ∧
    inv whole_page (Some (0, true)) bm ∧
    unfix_page frame false bm = Returns (tt, bm') ∧
    inv whole_page None bm'.
Proof.
  destruct (fresh_manager_pinned 2 true ltac:(lia))
    as (frame & bm & Hrun & Hinv & Hframe & Hunm).
  destruct (X23_unfix_page whole_page bm 0 true frame false Hinv Hframe
              (fun _ _ => Hunm))
    as (bm' & Hrun' & Hinv' & _).
  exists frame, bm, bm'.
  split; [exact Hrun|]. split; [exact Hinv|]. split; [exact Hrun'|exact Hinv'].
Defined.


Lemma X26_written_page_persists_witness :
  ∃ bm1,
    (let* frame := fix_page 0 true in
     write_frame frame zero_page;;;
     unfix_page frame true;;;
     visit [(0, false)]) (Buffer.new 2 (open true [])) = Returns (tt, bm1) ∧
    ∃ bm3, destroy bm1 = Returns (tt, bm3) ∧
           page_of_file (storage_manager_ bm3) 0 = zero_page.
Proof.
  destruct (X26_written_page_persists whole_page (fun _ H => H)
              (Buffer.new 2 (open true [])) 0 zero_page [(0, false)]
              (fresh_manager_inv 2 ltac:(lia)) (new_tidy 2 (open true [])))
    as (bm1 & Hrun & _ & _ & Hfile).
  { fresh_range. }
  { apply length_replicate. }
  { apply Forall_cons. split; [fresh_range|exact (List.Forall_nil _)]. }
  exists bm1. split; [exact Hrun|exact Hfile].
Defined.

Lemma X27_fix_page_pinned_witness :
  ∃ frame bm,
    fix_page 0 true (Buffer.new 2 (open true [])) = Returns (frame, bm) ∧
    fix_page 0 false bm = Spins.
Proof.
  destruct (fresh_manager_pinned 2 true ltac:(lia))
    as (frame & bm & Hrun & Hinv & Hframe & _).
  exists frame, bm. split; [exact Hrun|].
  exact (X27_fix_page_pinned whole_page bm 0 true false frame Hinv Hframe).
Defined.

Lemma X28_unfix_page_unfixed_witness :
  ∃ frame bm bm',
    fix_page 0 false (Buffer.new 2 (open true [])) = Returns (frame, bm) ∧
    unfix_page frame false bm = Returns (tt, bm') ∧
    unfix_page frame false bm' = Throws std_runtime_error.
Proof.
  destruct (fresh_manager_pinned 2 false ltac:(lia))
    as (frame & bm & Hrun & Hinv & Hframe & Hunm).
  destruct (unfix_page_ok whole_page bm 0 false frame false Hinv Hframe)
    as (bm' & Hrun' & Hinv' & _ & Hfop & _); [intros Habs; discriminate Habs|].
  exists frame, bm, bm'. split; [exact Hrun|]. split; [exact Hrun'|].
  apply (X28_unfix_page_unfixed whole_page bm' 0 frame false Hinv').
  rewrite Hfop. exact Hframe.
Defined.

(** X29: when no frame is free and no resident page is unfixed, [fix_page]
    of a page that is not resident throws [buffer_full_error]. *)
Theorem X29_fix_page_buffer_full (bm : BufferManager) (page_id : PageID)
    (exclusive : bool)
    (Habsent : page_state_ bm !! page_id = None)
    (Hfull : empty_slots_ bm = [])
    (Hpinned : ∀ q st, page_state_ bm !! q = Some st → st ≠ PAGE_UNFIXED) :
  fix_page page_id exclusive bm = Throws buffer_full_error.
Proof.
  assert (Hscan : ∀ queue, TwoQ.scan_queue (page_state_ bm) queue = None).
  { intros queue. apply scan_queue_None. intros q _ Hq.
    by apply (Hpinned q PAGE_UNFIXED). }
  unfold fix_page. unfold bind at 1. unfold get at 1. rewrite Habsent.
  unfold load_page_locked. unfold bind at 1. unfold get at 1.
  rewrite Hfull. unfold bind at 1. unfold bind at 1.
  unfold evict, TwoQ.evict. by rewrite !Hscan.
Qed.

Lemma X29_fix_page_buffer_full_witness :
  fix_page 1 false
    {| storage_manager_ := {| fileStream := []; num_pages := 0 |};
       buffer_pool_ := [Some {| page_id_ := 0; is_dirty_ := false; page := [];
                                mutex := LockedExclusive |}];
       policy_ := snd (TwoQ.touch 0 TwoQ.empty_policy);
       empty_slots_ := [];
       frame_of_page_ := {[ 0 := 0%nat ]};
       page_state_ := {[ 0 := PAGE_EXCLUSIVE ]};
       capacity_ := 1 |}
  = Throws buffer_full_error.
Proof.
  apply X29_fix_page_buffer_full.
  - reflexivity.
  - reflexivity.
  - intros q st Hq. simpl in Hq.
    apply lookup_singleton_Some in Hq as [_ <-]. discriminate.
Defined.

End Buffer_fresh.

(** ** A manager with a dirty frame *)
Section Buffer_dirty.
Import Page Storage Buffer BufferEnd BufferSpec.

Lemma zero_file_wf : Storage.wf {| fileStream := zero_page; num_pages := 1 |}.
Proof.
  split; [cbn [num_pages]; lia|]. cbn [fileStream num_pages].
  unfold zero_page. rewrite length_replicate. reflexivity.
Qed.

Lemma zero_file_page :
  page_of_file {| fileStream := zero_page; num_pages := 1 |} 0 = zero_page.
Proof.
  unfold page_of_file. cbn [fileStream]. change (Z.to_nat (0 * PAGE_SIZE)) with 0%nat.
  rewrite drop_0. apply take_ge. unfold zero_page. rewrite length_replicate. lia.
Qed.

Lemma new_page_not_zero : new_page ≠ zero_page.
Proof.
  intros Heq.
  destruct (new_page_fresh 0) as (He & _); [unfold MAX_SLOTS; lia|].
  destruct (slot_at_fields _ _ _ (zero_page_slots 0 ltac:(unfold MAX_SLOTS; lia)))
    as (He' & _).
  rewrite Heq, He' in He. discriminate He.
Qed.

Lemma dirty_manager_inv : inv whole_page None dirty_manager.
Proof.
  split; unfold dirty_manager;
    cbn [storage_manager_ buffer_pool_ policy_ empty_slots_ frame_of_page_
         page_state_ capacity_].
  - exact zero_file_wf.
  - reflexivity.
  - intros k Hk. apply whole_page_of_file; [exact zero_file_wf|exact Hk].
  - intros pid. destruct (decide (pid = 0)) as [->|Hne].
    + rewrite !lookup_singleton_eq. split; intros _; by eexists.
    + rewrite !lookup_singleton_ne by done. split; intros [? ?]; discriminate.
  - intros pid fid Hfid. apply lookup_singleton_Some in Hfid as [<- <-].
    eexists. split; [reflexivity|]. split; [reflexivity|].
    split; [apply new_page_wf|]. split; [reflexivity|].
    split; [cbn [num_pages]; lia|]. intros Hd. discriminate Hd.
  - intros pid st Hst. apply lookup_singleton_Some in Hst as [<- <-]. reflexivity.
  - intros p q fid Hp Hq. apply lookup_singleton_Some in Hp as [<- _].
    apply lookup_singleton_Some in Hq as [<- _]. reflexivity.
  - intros fid Hin. by apply elem_of_nil in Hin.
  - apply NoDup_nil_2.
  - intros fid Hfid. right. exists 0. cbn [List.length] in Hfid.
    assert (fid = 0%nat) as -> by lia. apply lookup_singleton_eq.
  - intros pid [st Hst]. apply lookup_singleton_Some in Hst as [<- _].
    cbn [TwoQ.fifo_queue_ TwoQ.lru_queue_]. apply list_elem_of_here.
  - cbn [List.length]. lia.
Qed.

Lemma X25_destructor_flushes_witness :
  ¬ all_clean dirty_manager ∧
  page_of_file (storage_manager_ dirty_manager) 0 = zero_page ∧
  new_page ≠ zero_page ∧
  ∃ bm', destroy dirty_manager = Returns (tt, bm') ∧ all_clean bm' ∧
         page_of_file (storage_manager_ bm') 0 = new_page.
Proof.
  split.
  { intros Hclean.
    pose proof (Hclean 0%nat {| page_id_ := 0; is_dirty_ := true;
                               page := new_page; mutex := Unlocked |} eq_refl) as Hd.
    discriminate Hd. }
  split; [exact zero_file_page|]. split; [exact new_page_not_zero|].
  destruct (X25_destructor_flushes whole_page (fun _ H => H) dirty_manager
              dirty_manager_inv)
    as (bm' & Hrun & Hclean & _ & Hfile).
  { intros fid Hin. by apply elem_of_nil in Hin. }
  exists bm'. split; [exact Hrun|]. split; [exact Hclean|].
  rewrite Hfile; [|unfold Storage.getNumPages; cbn [storage_manager_ dirty_manager num_pages]; lia].
  unfold view, dirty_manager. cbn [frame_of_page_ buffer_pool_].
  rewrite lookup_singleton_eq. reflexivity.
Defined.

End Buffer_dirty.

(** ** Refused insertions leave the bytes of the page alone *)
Section Proper_pages.
Import Page PageSpec PageInsert InsertSpec ProperPages.

Ltac page_arith :=
  unfold metadata_size, slot_addr, sizeof_Slot, offsetof_empty,
         offsetof_offset, offsetof_length, MAX_SLOTS, PAGE_SIZE,
         INVALID_VALUE in *; lia.

Lemma lookup_load8 (p : SlottedPage) (a : Z) :
  (Z.to_nat a < List.length p)%nat → p !! Z.to_nat a = Some (load8 p a).
Proof.
  intros Hlt. unfold load8. rewrite nth_lookup.
  destruct (lookup_lt_is_Some_2 p _ Hlt) as [b ->]. done.
Qed.

(** The two bytes of a 16-bit member that reads [INVALID_VALUE]. *)
Lemma load16_invalid (p : SlottedPage) (a : Z) :
  Forall (fun b => 0 <= b < 256) p → load16 p a = INVALID_VALUE →
  load8 p a = 255 ∧ load8 p (a + 1) = 255.
Proof.
  intros Hb Hl. unfold load16, INVALID_VALUE in Hl.
  pose proof (load8_range p a Hb). pose proof (load8_range p (a + 1) Hb). lia.
Qed.

(** "Revert slot state" on a never-used entry restores every byte. *)
Lemma revert_identity (p : SlottedPage) (c off : Z) :
  List.length p = Z.to_nat PAGE_SIZE → Forall (fun b => 0 <= b < 256) p →
  0 <= c < MAX_SLOTS →
  load8 p (slot_addr c + offsetof_empty) = 1 →
  slot_offset p c = INVALID_VALUE →
  set_slot_offset
    (set_slot_empty (set_slot_offset (set_slot_empty p c false) c off) c true)
    c INVALID_VALUE = p.
Proof.
  intros Hsize Hbytes Hc Hflag Ho.
  destruct (load16_invalid p _ Hbytes Ho) as [Hlo Hhi].
  set (a := slot_addr c) in *.
  assert (Ha : 0 <= a ∧ a + 6 <= PAGE_SIZE) by (unfold a; page_arith).
  assert (H0 : p !! Z.to_nat (a + offsetof_empty) = Some 1).
  { rewrite lookup_load8 by (unfold offsetof_empty, PAGE_SIZE in *; lia).
    by rewrite Hflag. }
  assert (H2 : p !! Z.to_nat (a + offsetof_offset) = Some 255).
  { rewrite lookup_load8 by (unfold offsetof_offset, PAGE_SIZE in *; lia).
    by rewrite Hlo. }
  assert (H3 : p !! Z.to_nat (a + offsetof_offset + 1) = Some 255).
  { rewrite lookup_load8 by (unfold offsetof_offset, PAGE_SIZE in *; lia).
    by rewrite Hhi. }
  unfold set_slot_offset, set_slot_empty, store16, store8. fold a.
  change (INVALID_VALUE mod 65536 mod 256) with 255.
  change (INVALID_VALUE mod 65536 / 256 mod 256) with 255.
  apply list_eq. intros i.
  destruct (decide (i = Z.to_nat (a + offsetof_offset + 1))) as [->|Hn3].
  { rewrite list_lookup_insert_eq by (rewrite !length_insert;
      unfold offsetof_offset, PAGE_SIZE in *; lia). by rewrite H3. }
  rewrite list_lookup_insert_ne by done.
  destruct (decide (i = Z.to_nat (a + offsetof_offset))) as [->|Hn2].
  { rewrite list_lookup_insert_eq by (rewrite !length_insert;
      unfold offsetof_offset, PAGE_SIZE in *; lia). by rewrite H2. }
  rewrite list_lookup_insert_ne by done.
  destruct (decide (i = Z.to_nat (a + offsetof_empty))) as [->|Hn0].
  { rewrite list_lookup_insert_eq by (rewrite !length_insert;
      unfold offsetof_empty, PAGE_SIZE in *; lia). by rewrite H0. }
  by rewrite !list_lookup_insert_ne by done.
Qed.

Lemma add_serialized_full (p : SlottedPage) (ser : Text.text) :
  choose_slot p (Z.of_nat (List.length ser)) = MAX_SLOTS →
  add_serialized ser p = Returns (false, p).
Proof. intros Hfull. unfold add_serialized. by rewrite Hfull, Z.eqb_refl. Qed.

(** A refused insertion returns the page byte for byte. *)
Lemma add_serialized_refused (p p' : SlottedPage) (ser : Text.text) :
  wf p → canonical p → add_serialized ser p = Returns (false, p') → p' = p.
Proof.
  intros Hwf Hcan Hret. pose proof Hwf as [Hsize Hbytes _].
  destruct (chosen_slot_cases p (Z.of_nat (List.length ser)) Hwf)
    as [Hre|[(Hno & Hun & Hbelow)|(Hno & Hno' & Hfull)]].
  - rewrite (add_serialized_reuse p ser Hwf Hre) in Hret. cbv zeta in Hret.
    by destruct (metadata_size <=? _).
  - rewrite (add_serialized_fresh p ser Hwf Hun Hbelow) in Hret.
    destruct (PAGE_SIZE <=? _); [|by destruct (metadata_size <=? _)].
    injection Hret as <-. destruct Hun as (Hc & He & Ho).
    apply revert_identity; [done|done|done| |done].
    pose proof (Hcan _ Hc) as Hle.
    pose proof (load8_range p (slot_addr (choose_slot p (Z.of_nat (List.length ser)))
                               + offsetof_empty) Hbytes) as Hrange.
    unfold slot_empty in He. apply negb_true_iff, Z.eqb_neq in He. lia.
  - rewrite (add_serialized_full p ser Hfull) in Hret. by injection Hret as <-.
Qed.

(** A stored tuple leaves the flags canonical. *)
Lemma add_serialized_canonical (p p' : SlottedPage) (ser : Text.text) :
  wf p → canonical p → add_serialized ser p = Returns (true, p') →
  canonical p'.
Proof.
  intros Hwf Hcan Hret. pose proof Hwf as [Hsize Hbytes _].
  set (c := choose_slot p (Z.of_nat (List.length ser))) in *.
  assert (Hflag : ∀ j, 0 <= j < MAX_SLOTS → 0 <= c < MAX_SLOTS →
            load8 (set_slot_empty p c false) (slot_addr j + offsetof_empty) <= 1).
  { intros j Hj Hc. unfold set_slot_empty.
    destruct (decide (j = c)) as [->|Hne].
    - rewrite load8_store8_eq by page_arith. lia.
    - rewrite load8_store8_ne by page_arith. by apply Hcan. }
  destruct (chosen_slot_cases p (Z.of_nat (List.length ser)) Hwf)
    as [Hre|[(Hno & Hun & Hbelow)|(Hno & Hno' & Hfull)]]; fold c in Hre || idtac.
  - rewrite (add_serialized_reuse p ser Hwf Hre) in Hret. cbv zeta in Hret.
    fold c in Hret. destruct Hre as (Hc & _).
    destruct (metadata_size <=? slot_offset p c) eqn:Hmeta; [|done].
    apply Z.leb_le in Hmeta. injection Hret as <-. intros j Hj.
    rewrite load8_memcpy by page_arith. by apply Hflag.
  - rewrite (add_serialized_fresh p ser Hwf Hun Hbelow) in Hret.
    cbv zeta in Hret. fold c in Hret, Hun. destruct Hun as (Hc & _).
    destruct (PAGE_SIZE <=? _); [done|].
    destruct (metadata_size <=? _) eqn:Hmeta; [|done].
    apply Z.leb_le in Hmeta. injection Hret as <-. intros j Hj.
    rewrite load8_memcpy by page_arith.
    unfold set_slot_length, set_slot_offset.
    rewrite !load8_store16_ne by page_arith. by apply Hflag.
  - by rewrite (add_serialized_full p ser Hfull) in Hret.
Qed.

(** The flags of the directory after the constructor's loop. *)
Lemma init_slots_flag (n : nat) (i j : Z) (p : SlottedPage) :
  List.length p = Z.to_nat PAGE_SIZE → 0 <= i → i + Z.of_nat n <= MAX_SLOTS →
  0 <= j →
  load8 (init_slots n i p) (slot_addr j + offsetof_empty)
  = if decide (i <= j < i + Z.of_nat n) then 1
    else load8 p (slot_addr j + offsetof_empty).
Proof.
  revert i p. induction n as [|n IH]; intros i p Hsize Hi Hn Hj; simpl init_slots.
  - by rewrite decide_False by lia.
  - rewrite IH
      by (rewrite ?set_slot_length_size, ?set_slot_offset_size,
            ?set_slot_empty_size; done || lia).
    destruct (decide (i + 1 <= j < i + 1 + Z.of_nat n)) as [Hin|Hout].
    + by rewrite decide_True by lia.
    + unfold set_slot_length, set_slot_offset.
      rewrite !load8_store16_ne by page_arith. unfold set_slot_empty.
      destruct (decide (j = i)) as [->|Hne].
      * rewrite decide_True by lia. apply load8_store8_eq. page_arith.
      * rewrite decide_False by lia. apply load8_store8_ne; page_arith.
Qed.

Lemma new_page_proper : proper new_page.
Proof.
  split; [exact new_page_sound|]. intros i Hi. unfold new_page.
  rewrite init_slots_flag; [|apply length_replicate|lia|lia|lia].
  rewrite decide_True by lia. lia.
Qed.

Lemma proper_whole (p : SlottedPage) : proper p → BufferSpec.whole_page p.
Proof. intros [[[Hsize _ _] _] _]. exact Hsize. Qed.

Lemma addTuple_proper `{FT : Text.FloatText} (p : SlottedPage)
      (tuple : Tuples.Tuple) (ser : Text.text) :
  proper p → Tuples.serialize tuple = Returns ser →
  ∃ added p', addTuple tuple p = Returns (added, p') ∧ proper p' ∧
              (added = false → p' = p).
Proof.
  intros [Hsound Hcan] Hser.
  assert (Hne : ser ≠ []) by (by eapply serialize_nonempty).
  destruct (add_serialized_sound p ser Hsound Hne) as (added & p' & Hrun & Hsound').
  exists added, p'. split; [unfold addTuple; by rewrite Hser|].
  destruct added.
  - split; [|done]. split; [done|].
    by apply (add_serialized_canonical p p' ser (proj1 Hsound)).
  - assert (p' = p) as -> by (by apply (add_serialized_refused p p' ser (proj1 Hsound))).
    done.
Qed.

End Proper_pages.

(** ** The insert operator over the buffer manager *)
Section Insert_facts.
Import Page Storage Buffer BufferEnd Insert BufferSpec ProperPages.
Context `{FT : Text.FloatText}.

Lemma record_run (c : call) (op : InsertOperator) :
  record c op
  = Returns (tt, {| buffer_manager_ := buffer_manager_ op;
                    tuple_to_insert_ := tuple_to_insert_ op;
                    trace := trace op ++ [c] |}).
Proof. reflexivity. Qed.

Lemma on_manager_run {A} (c : M BufferManager A) (op : InsertOperator)
      (a : A) (bm' : BufferManager) :
  c (buffer_manager_ op) = Returns (a, bm') →
  on_manager c op
  = Returns (a, {| buffer_manager_ := bm';
                   tuple_to_insert_ := tuple_to_insert_ op;
                   trace := trace op |}).
Proof. intros Hc. unfold on_manager. by rewrite Hc. Qed.

Ltac proj_manager :=
  cbn [storage_manager_ buffer_pool_ policy_ empty_slots_ frame_of_page_
       page_state_ capacity_].

Ltac step_manager H :=
  lazymatch goal with
  | |- bind (on_manager ?c) _ ?s = _ =>
      rewrite (bind_returns _ _ _ _ _ (on_manager_run c s _ _ H))
  end.

(** [addTuple] on the page of the frame that is pinned exclusively. *)
Lemma add_to_frame_ok (bm : BufferManager) (pid : PageID) (fid : nat)
      (tuple : Tuples.Tuple) (ser : Text.text) :
  inv proper (Some (pid, true)) bm → frame_of_page_ bm !! pid = Some fid →
  unmodified bm fid pid → Tuples.serialize tuple = Returns ser →
  ∃ added bm',
    add_to_frame fid tuple bm = Returns (added, bm') ∧
    inv proper (Some (pid, true)) bm' ∧
    storage_manager_ bm' = storage_manager_ bm ∧
    frame_of_page_ bm' = frame_of_page_ bm ∧
    addTuple tuple (view bm pid) = Returns (added, view bm' pid) ∧
    (∀ k, k ≠ pid → view bm' k = view bm k) ∧
    (added = false → unmodified bm' fid pid ∧ view bm' pid = view bm pid) ∧
    (tidy bm → tidy bm').
Proof.
  intros Hinv Hfid Hunm Hser.
  destruct (inv_resident _ _ _ _ _ Hinv Hfid)
    as (fr & Hfr & Hid & Hgood & Hmutex & Hst & Hlt & Hrange & Hcoh).
  destruct (addTuple_proper (page fr) tuple ser Hgood Hser)
    as (added & p' & Hadd & Hproper' & Hsame).
  destruct (inv_write proper bm pid fid p' Hinv Hfid Hproper')
    as (bm' & Hrun & Hinv' & Hsm & Hfop & Hview & Hother & Htidy & Hflag).
  assert (Hmine : view bm pid = page fr) by (by apply (view_resident bm pid fid)).
  exists added, bm'. split.
  { unfold add_to_frame. rewrite (bind_returns _ _ _ _ _ (deref_run _ _ _ Hfr)).
    rewrite Hadd. unfold write_frame in Hrun.
    rewrite (bind_returns _ _ _ _ _ (deref_run _ _ _ Hfr)) in Hrun.
    by rewrite (bind_returns _ _ _ _ _ Hrun). }
  split; [done|]. split; [done|]. split; [done|].
  split; [by rewrite Hmine, Hview|]. split; [done|]. split; [|done].
  intros ->. rewrite Hview, Hmine, (Hsame eq_refl). split; [|done].
  intros fr' Hfr' Hd. destruct (Hflag fr' Hfr') as (fr0 & Hfr0 & Hsamed).
  assert (fr0 = fr) as -> by congruence.
  rewrite <- (view_resident bm' pid fid fr'), Hview, (Hsame eq_refl), Hsm
    by (done || by rewrite Hfop).
  apply (Hunm fr Hfr). by rewrite <- Hsamed.
Qed.

(** One attempt of the operator on a page of the file. *)
Lemma try_page_ok (op : InsertOperator) (pid : PageID) (tuple : Tuples.Tuple)
      (ser : Text.text) :
  inv proper None (buffer_manager_ op) →
  0 <= pid < num_pages (storage_manager_ (buffer_manager_ op)) →
  Tuples.serialize tuple = Returns ser →
  ∃ added op',
    try_page pid tuple op = Returns (added, op') ∧
    inv proper None (buffer_manager_ op') ∧
    tuple_to_insert_ op' = tuple_to_insert_ op ∧
    num_pages (storage_manager_ (buffer_manager_ op'))
    = num_pages (storage_manager_ (buffer_manager_ op)) ∧
    addTuple tuple (view (buffer_manager_ op) pid)
    = Returns (added, view (buffer_manager_ op') pid) ∧
    (∀ k, 0 <= k → k ≠ pid →
          view (buffer_manager_ op') k = view (buffer_manager_ op) k) ∧
    (added = false →
     view (buffer_manager_ op') pid = view (buffer_manager_ op) pid) ∧
    (tidy (buffer_manager_ op) → tidy (buffer_manager_ op')).
Proof.
  intros Hinv Hpid Hser. set (bm := buffer_manager_ op) in *.
  destruct (fix_page_ok proper proper_whole bm pid true Hinv Hpid)
    as (fid & bmA & HrunA & HinvA & HnA & HviewA & [HfidA _] & HunmA & HtidyA).
  destruct (add_to_frame_ok bmA pid fid tuple ser HinvA HfidA HunmA Hser)
    as (added & bmB & HrunB & HinvB & HsmB & HfopB & HaddB & HotherB & HrefB & HtidyB).
  destruct (unfix_page_ok proper bmB pid true fid added HinvB)
    as (bmC & HrunC & HinvC & HsmC & _ & HviewC & HtidyC).
  { by rewrite HfopB. }
  { intros _ ->. by apply HrefB. }
  eexists added, _. split.
  { unfold try_page.
    rewrite (bind_returns _ _ _ _ _ (record_run _ op)).
    step_manager HrunA. step_manager HrunB.
    rewrite (bind_returns _ _ _ _ _ (record_run _ _)).
    rewrite (bind_returns _ _ _ _ _ (record_run _ _)).
    step_manager HrunC. reflexivity. }
  simpl. split; [done|]. split; [done|]. split; [by rewrite HsmC, HsmB|].
  split; [by rewrite HviewC, <- (HviewA pid) by lia|].
  split; [intros k Hk Hne; by rewrite HviewC, HotherB, HviewA|].
  split; [|by intros ?; apply HtidyC, HtidyB, HtidyA].
  intros Hadded. rewrite HviewC. destruct (HrefB Hadded) as [_ ->].
  apply HviewA. lia.
Qed.

(** The loop of [next()]: the pages are tried in order, and the first one
    that takes the tuple ends the loop. *)
Lemma scan_pages_ok (tuple : Tuples.Tuple) (ser : Text.text) (steps : nat) :
  Tuples.serialize tuple = Returns ser →
  ∀ (page_idx : Z) (op : InsertOperator),
    inv proper None (buffer_manager_ op) → 0 <= page_idx →
    page_idx + Z.of_nat steps
    <= num_pages (storage_manager_ (buffer_manager_ op)) →
    num_pages (storage_manager_ (buffer_manager_ op)) <= 65536 →
    ∃ added op',
      scan_pages tuple page_idx steps op = Returns (added, op') ∧
      inv proper None (buffer_manager_ op') ∧
      tuple_to_insert_ op' = tuple_to_insert_ op ∧
      num_pages (storage_manager_ (buffer_manager_ op'))
      = num_pages (storage_manager_ (buffer_manager_ op)) ∧
      (tidy (buffer_manager_ op) → tidy (buffer_manager_ op')) ∧
      if added
      then ∃ pid, page_idx <= pid < page_idx + Z.of_nat steps ∧
                  (∀ k, page_idx <= k < pid →
                        addTuple tuple (view (buffer_manager_ op) k)
                        = Returns (false, view (buffer_manager_ op) k)) ∧
                  addTuple tuple (view (buffer_manager_ op) pid)
                  = Returns (true, view (buffer_manager_ op') pid) ∧
                  (∀ k, 0 <= k → k ≠ pid →
                        view (buffer_manager_ op') k = view (buffer_manager_ op) k)
      else (∀ k, page_idx <= k < page_idx + Z.of_nat steps →
                 addTuple tuple (view (buffer_manager_ op) k)
                 = Returns (false, view (buffer_manager_ op) k)) ∧
           (∀ k, 0 <= k →
                 view (buffer_manager_ op') k = view (buffer_manager_ op) k).
Proof.
  intros Hser. induction steps as [|steps IH]; intros page_idx op Hinv Hidx Hend Hmax.
  - exists false, op. do 5 (split; [done|]). split; [intros k Hk; lia|done].
  - assert (Hcast : to_PageID page_idx = page_idx)
      by (unfold to_PageID; apply Z.mod_small; lia).
    destruct (try_page_ok op page_idx tuple ser Hinv ltac:(lia) Hser)
      as (added & op1 & Hrun1 & Hinv1 & Htup1 & Hn1 & Hadd1 & Hother1 & Href1 & Htidy1).
    destruct added.
    + exists true, op1. split.
      { simpl. rewrite Hcast. by rewrite (bind_returns _ _ _ _ _ Hrun1). }
      do 4 (split; [done|]). exists page_idx.
      split; [lia|]. split; [intros k Hk; lia|]. split; [done|done].
    + assert (Hsame : ∀ k, 0 <= k →
                view (buffer_manager_ op1) k = view (buffer_manager_ op) k).
      { intros k Hk. destruct (decide (k = page_idx)) as [->|Hne];
          [by apply Href1|by apply Hother1]. }
      destruct (IH (page_idx + 1) op1 Hinv1 ltac:(lia) ltac:(lia) ltac:(lia))
        as (added & op' & Hrun' & Hinv' & Htup' & Hn' & Htidy' & Hres).
      exists added, op'. split.
      { simpl. rewrite Hcast. by rewrite (bind_returns _ _ _ _ _ Hrun1). }
      split; [done|]. split; [by rewrite Htup'|]. split; [by rewrite Hn'|].
      split; [by intros ?; apply Htidy', Htidy1|].
      destruct added.
      * destruct Hres as (pid & Hpid & Hbefore & Htakes & Hothers).
        exists pid. split; [lia|]. split; [|split].
        -- intros k Hk. destruct (decide (k = page_idx)) as [->|Hne].
           ++ rewrite Hadd1. by rewrite Href1.
           ++ rewrite <- (Hsame k) by lia. apply Hbefore. lia.
        -- rewrite <- (Hsame pid) by lia. exact Htakes.
        -- intros k Hk Hne. rewrite Hothers by done. by apply Hsame.
      * destruct Hres as (Hall & Hviews). split.
        -- intros k Hk. destruct (decide (k = page_idx)) as [->|Hne].
           ++ rewrite Hadd1. by rewrite Href1.
           ++ rewrite <- (Hsame k) by lia. apply Hall. lia.
        -- intros k Hk. rewrite Hviews by done. by apply Hsame.
Qed.

(** [extend()] appends an empty page and touches no other. *)
Lemma inv_extend (bm : BufferManager) :
  inv proper None bm → num_pages (storage_manager_ bm) + 2 < UINT64_MOD →
  let bm' := with_storage (Storage.extend (storage_manager_ bm)) bm in
  inv proper None bm' ∧
  num_pages (storage_manager_ bm') = num_pages (storage_manager_ bm) + 1 ∧
  view bm' (num_pages (storage_manager_ bm)) = new_page ∧
  (∀ k, 0 <= k < num_pages (storage_manager_ bm) → view bm' k = view bm k) ∧
  (tidy bm → tidy bm').
Proof.
  intros Hinv Hroom bm'.
  destruct (extend_pages (storage_manager_ bm) (inv_storage _ _ _ Hinv)
              (inv_room _ _ _ Hinv)) as (Hwf' & Hn' & Hnew' & Hold').
  split; [|split; [exact Hn'|split; [|split; [|by intros ?]]]].
  - split; unfold bm', with_storage; proj_manager; rewrite ?Hn'.
    + exact Hwf'.
    + lia.
    + intros k Hk. destruct (decide (k = num_pages (storage_manager_ bm))) as [->|Hne].
      * rewrite Hnew'. exact new_page_proper.
      * rewrite Hold' by lia. apply (inv_file _ _ _ Hinv). lia.
    + apply (inv_dom _ _ _ Hinv).
    + intros q fq Hq.
      destruct (inv_frames _ _ _ Hinv q fq Hq) as (frq & Hfq & ? & ? & ? & Hr & Hcq).
      exists frq. do 4 (split; [done|]). split; [lia|]. intros Hd.
      destruct (Hcq Hd) as [Hpin|Hpage]; [by left|right].
      by rewrite Hold'.
    + apply (inv_states _ _ _ Hinv).
    + apply (inv_inj _ _ _ Hinv).
    + apply (inv_empty _ _ _ Hinv).
    + apply (inv_empty_nodup _ _ _ Hinv).
    + apply (inv_cover _ _ _ Hinv).
    + apply (inv_tracked _ _ _ Hinv).
    + apply (inv_capacity _ _ _ Hinv).
  - unfold view, bm', with_storage. proj_manager.
    destruct (frame_of_page_ bm !! num_pages (storage_manager_ bm)) as [fq|] eqn:Hq;
      [|exact Hnew'].
    destruct (inv_frames _ _ _ Hinv _ fq Hq) as (frq & _ & _ & _ & _ & Hr & _). lia.
  - intros k Hk. unfold view, bm', with_storage. proj_manager.
    rewrite Hold' by done. done.
Qed.

(** X30: [InsertOperator::next] with a staged tuple, over a buffer manager
    that holds no pin and a file of fewer than 65536 pages kept by the page
    operations, returns.  When it returns true, the tuple went to the
    first page of the file whose [addTuple] takes it, the pages before it
    having refused, or, when every page refused, to the one empty page that
    [extend] appended; every other page is as before and nothing is staged
    any more.  When it returns false, the serialized tuple has
    [PAGE_SIZE - metadata_size] bytes or more, every page is as before, the
    file has grown by one empty page, and the tuple is still staged.  The
    buffer manager holds no pin afterwards. *)
Theorem X30_insert_next (op : InsertOperator) (tuple : Tuples.Tuple)
    (ser : Text.text)
    (Hstaged : tuple_to_insert_ op = Some tuple)
    (Hser : Tuples.serialize tuple = Returns ser)
    (Hinv : inv proper None (buffer_manager_ op))
    (Hpages : Storage.getNumPages (storage_manager_ (buffer_manager_ op)) < 65536) :
  ∃ added op',
    next op = Returns (added, op') ∧
    inv proper None (buffer_manager_ op') ∧
    (tidy (buffer_manager_ op) → tidy (buffer_manager_ op')) ∧
    tuple_to_insert_ op' = (if added then None else Some tuple) ∧
    let bm := buffer_manager_ op in
    let bm' := buffer_manager_ op' in
    let n := Storage.getNumPages (storage_manager_ bm) in
    let n' := Storage.getNumPages (storage_manager_ bm') in
    if added
    then ∃ pid,
           (∀ k, 0 <= k < pid → k < n →
                 addTuple tuple (view bm k) = Returns (false, view bm k)) ∧
           ((pid < n ∧ n' = n ∧
             addTuple tuple (view bm pid) = Returns (true, view bm' pid)) ∨
            (pid = n ∧ n' = n + 1 ∧
             addTuple tuple new_page = Returns (true, view bm' pid))) ∧
           (∀ k, 0 <= k < n → k ≠ pid → view bm' k = view bm k)
    else PAGE_SIZE - metadata_size <= Z.of_nat (List.length ser) ∧
         n' = n + 1 ∧ view bm' n = new_page ∧
         (∀ k, 0 <= k < n → view bm' k = view bm k).
Proof.
  unfold Storage.getNumPages in *. cbv zeta.
  set (bm := buffer_manager_ op) in *.
  set (n := num_pages (storage_manager_ bm)) in *.
  assert (Hn0 : 0 <= n) by apply (inv_storage _ _ _ Hinv).
  set (op0 := {| buffer_manager_ := bm; tuple_to_insert_ := tuple_to_insert_ op;
                 trace := trace op |}).
  assert (Hstart : next op
                   = (let* added := scan_pages tuple 0 (Z.to_nat n) in
                      if added then reset_tuple;;; ret true
                      else
                        record Extend;;;
                        on_manager extend;;;
                        let* m := on_manager getNumPages in
                        let* added := try_page (to_PageID (m - 1)) tuple in
                        if added then reset_tuple;;; ret true else ret false) op0).
  { unfold next. unfold bind at 1. unfold get at 1. rewrite Hstaged.
    by rewrite (bind_returns _ _ _ _ _
                  (on_manager_run Buffer.getNumPages op n bm eq_refl)). }
  rewrite Hstart.
  destruct (scan_pages_ok tuple ser (Z.to_nat n) Hser 0 op0 Hinv)
    as (added & op1 & Hrun1 & Hinv1 & Htup1 & Hn1 & Htidy1 & Hres);
    [lia|change (0 + Z.of_nat (Z.to_nat n) <= n); lia|change (n <= 65536); lia|].
  change (buffer_manager_ op0) with bm in *.
  change (tuple_to_insert_ op0) with (tuple_to_insert_ op) in Htup1.
  fold n in Hn1. rewrite (bind_returns _ _ _ _ _ Hrun1). destruct added.
  - destruct Hres as (pid & Hpid & Hbefore & Htakes & Hothers).
    eexists true, _. split; [reflexivity|]. cbn [buffer_manager_ tuple_to_insert_].
    do 3 (split; [done|]). exists pid.
    split; [intros k Hk _; apply Hbefore; lia|].
    split; [left; split; [lia|by split]|].
    intros k Hk Hne. apply Hothers; [lia|done].
  - destruct Hres as (Hall & Hviews).
    set (bm1 := buffer_manager_ op1) in *.
    destruct (inv_extend bm1 Hinv1) as (Hinv2 & Hn2 & Hnew2 & Hold2 & Htidy2).
    { rewrite Hn1. unfold UINT64_MOD. lia. }
    set (bm2 := with_storage (Storage.extend (storage_manager_ bm1)) bm1) in *.
    rewrite Hn1 in Hn2, Hnew2, Hold2.
    set (op2 := {| buffer_manager_ := bm2; tuple_to_insert_ := tuple_to_insert_ op1;
                   trace := trace op1 ++ [Extend] |}).
    assert (Hcast : to_PageID (n + 1 - 1) = n).
    { unfold to_PageID. replace (n + 1 - 1) with n by lia. apply Z.mod_small. lia. }
    destruct (try_page_ok op2 n tuple ser Hinv2) as
      (added & op3 & Hrun3 & Hinv3 & Htup3 & Hn3 & Hadd3 & Hother3 & Href3 & Htidy3);
      [change (0 <= n < num_pages (storage_manager_ bm2)); lia|done|].
    change (buffer_manager_ op2) with bm2 in *.
    change (tuple_to_insert_ op2) with (tuple_to_insert_ op1) in Htup3.
    rewrite Hnew2 in Hadd3.
    assert (Hold3 : ∀ k, 0 <= k < n → view (buffer_manager_ op3) k = view bm k).
    { intros k Hk. rewrite Hother3, Hold2, Hviews by lia. done. }
    assert (Hsplit : ∀ (k : bool → M InsertOperator bool),
              (record Extend;;;
               on_manager extend;;;
               let* m := on_manager getNumPages in
               let* a := try_page (to_PageID (m - 1)) tuple in k a) op1
              = k added op3).
    { intros k. rewrite (bind_returns _ _ _ _ _ (record_run _ op1)).
      step_manager (eq_refl (Returns (tt, bm2))).
      rewrite (bind_returns _ _ _ _ _
                 (on_manager_run Buffer.getNumPages op2 (n + 1) bm2
                    ltac:(unfold Buffer.getNumPages, Storage.getNumPages;
                          change (buffer_manager_ op2) with bm2; by rewrite Hn2))).
      rewrite Hcast. by rewrite (bind_returns _ _ _ _ _ Hrun3). }
    rewrite Hsplit. destruct added.
    + eexists true, _. split; [reflexivity|]. cbn [buffer_manager_ tuple_to_insert_].
      split; [done|]. split; [by intros ?; apply Htidy3, Htidy2, Htidy1|].
      split; [done|]. exists n.
      split; [intros k Hk _; apply Hall; lia|].
      split; [right; split; [done|split; [by rewrite Hn3|done]]|].
      intros k Hk _. by apply Hold3.
    + exists false, op3. split; [reflexivity|]. split; [done|].
      split; [by intros ?; apply Htidy3, Htidy2, Htidy1|].
      split; [by rewrite Htup3, Htup1|]. split; [|split; [by rewrite Hn3|split]].
      * unfold addTuple in Hadd3. rewrite Hser, new_page_first_insert in Hadd3.
        destruct (PAGE_SIZE <=? metadata_size + Z.of_nat (List.length ser)) eqn:Hfit;
          [|done].
        apply Z.leb_le in Hfit. lia.
      * rewrite (Href3 eq_refl). exact Hnew2.
      * exact Hold3.
Qed.

End Insert_facts.

(** ** The operator on a fresh file *)
Section Insert_fresh.
Import Page Storage Buffer BufferEnd Insert BufferSpec ProperPages.

Lemma fresh_file_proper (k : Z) :
  0 <= k < num_pages (open true []) → proper (page_of_file (open true []) k).
Proof.
  rewrite open_fresh_pages. intros Hk. assert (k = 0) as -> by lia.
  destruct (extend_pages StorageSpec.empty_file) as (_ & _ & Hnew & _);
    [by split|reflexivity|].
  change (page_of_file (open true []) 0 = new_page) in Hnew.
  rewrite Hnew. exact new_page_proper.
Qed.

Lemma small_operator_inv :
  inv proper None (buffer_manager_ InsertSpec.small_operator).
Proof.
  apply (new_inv proper); [exact open_fresh_wf|reflexivity| |lia].
  exact fresh_file_proper.
Qed.

Lemma X30_insert_next_witness :
  ∃ op',
    @next TupleSpec.no_float_text InsertSpec.small_operator = Returns (true, op') ∧
    tuple_to_insert_ op' = None.
Proof.
  destruct (@X30_insert_next TupleSpec.no_float_text InsertSpec.small_operator
              PageSpec.tuple_42 (TupleSpec.chars "1 0 4 42 ") eq_refl eq_refl
              small_operator_inv)
    as (added & op' & Hrun & _ & _ & Htuple & Heffect).
  { change (num_pages (open true []) < 65536). rewrite open_fresh_pages. lia. }
  destruct added.
  - exists op'. split; [exact Hrun|exact Htuple].
  - exfalso. destruct Heffect as [Hbig _].
    change (Z.of_nat (List.length (TupleSpec.chars "1 0 4 42 "))) with 9 in Hbig.
    unfold PAGE_SIZE, metadata_size, sizeof_Slot, MAX_SLOTS in Hbig. lia.
Defined.

End Insert_fresh.
